(** * An AVL-tree ordered set ([set.h]): shallow embedding and verification

    The C++ class [Set<ValueType>] stores its elements in heap-allocated
    [TreeNode]s linked by [left], [right] and [parent] pointers.  The
    embedding keeps that heap: nodes live in a finite map from addresses to
    node records, pointers are optional addresses ([None] is [nullptr]), and
    every function of the class is a computation in a state monad over the
    heap whose outcome records a dereference of an absent node ([Fault]), a
    failed allocation ([BadAlloc]) and exhaustion of the recursion budget
    ([OutOfFuel]) separately.

    A parameter of type [TreeNode*&] is embedded as a pointer passed in and a
    pointer returned: the caller stores the returned pointer in the slot it
    passed.  In [set.h] the callee never reads that slot through another
    path while it runs, and a slot is written last thing before the callee
    returns to code that reads it. *)

From Stdlib Require Import ZArith Lia.
From stdpp Require Import base option list sorting gmap.

Local Open Scope Z_scope.

(* [set_solver] clears hypotheses that earlier steps may have consumed. *)
#[local] Set Warnings "-clear-no-such-hyp".

(** ** Machine integers *)

(** [size_t] is 64 bits wide: arithmetic on it wraps modulo [2^64]. *)
Definition to_size_t (z : Z) : Z := z mod 2 ^ 64.

(** Conversion of a [size_t] value to the 32-bit [int] returned by
    [getBalance]: reduction modulo [2^32], read as two's complement. *)
Definition to_int (z : Z) : Z :=
  let m := z mod 2 ^ 32 in
  if m <? 2 ^ 31 then m else m - 2 ^ 32.

(** ** Parameters *)

(** The element type: [ValueType] with its [operator<], a strict weak
    ordering as the standard containers require. *)
Class Ordered (K : Type) := {
  less : K → K → bool;
  less_irrefl : ∀ a, less a a = false;
  less_trans : ∀ a b c, less a b = true → less b c = true → less a c = true;
  less_incomp_trans : ∀ a b c,
    less a b = false → less b a = false →
    less b c = false → less c b = false →
    less a c = false ∧ less c a = false
}.

(** The machine: [new] throws [std::bad_alloc] once [max_nodes] nodes are
    live.  Every node occupies at least one byte of a 64-bit address space,
    so fewer than [2^64] nodes can be live together. *)
Class Machine := {
  max_nodes : nat;
  max_nodes_fits : Z.of_nat max_nodes < 2 ^ 64
}.

(** Integers under [<] are one such element type. *)
#[export] Instance Z_Ordered : Ordered Z.
Proof.
  refine {| less := Z.ltb |}.
  - intros a. apply Z.ltb_irrefl.
  - intros a b c Hab Hbc. apply Z.ltb_lt in Hab, Hbc. apply Z.ltb_lt. lia.
  - intros a b c H1 H2 H3 H4.
    apply Z.ltb_ge in H1, H2, H3, H4. split; apply Z.ltb_ge; lia.
Defined.

(** A machine with room for sixteen nodes. *)
Definition small_machine : Machine.
Proof. refine {| max_nodes := 16 |}. reflexivity. Defined.

(** ** The heap *)

Definition loc := positive.
Definition ptr := option loc.

Record TreeNode (K : Type) := mkTreeNode {
  nkey : K;
  nheight : Z;
  ncnt : Z;
  nleft : ptr;
  nright : ptr;
  nparent : ptr
}.
Arguments mkTreeNode {K}.
Arguments nkey {K}.
Arguments nheight {K}.
Arguments ncnt {K}.
Arguments nleft {K}.
Arguments nright {K}.
Arguments nparent {K}.

Abbreviation heap K := (gmap loc (TreeNode K)).

(** ** The monad *)

Inductive outcome (S A : Type) : Type :=
| Ok (a : A) (s : S)
| Fault
| BadAlloc
| OutOfFuel.
Arguments Ok {S A}.
Arguments Fault {S A}.
Arguments BadAlloc {S A}.
Arguments OutOfFuel {S A}.

Definition M (S A : Type) : Type := S → outcome S A.

Definition ret {S A} (a : A) : M S A := λ s, Ok a s.

Definition bind {S A B} (m : M S A) (f : A → M S B) : M S B :=
  λ s, match m s with
       | Ok a s' => f a s'
       | Fault => Fault
       | BadAlloc => BadAlloc
       | OutOfFuel => OutOfFuel
       end.

Definition out_of_fuel {S A} : M S A := λ _, OutOfFuel.

(** A computation that leaves the state as it found it. *)
Definition read_only {S A} (m : M S A) : Prop :=
  ∀ s v s', m s = Ok v s' → s' = s.

(** [o] is what a run with less fuel gives when more fuel gives [o']. *)
Definition fuel_le {S A} (o o' : outcome S A) : Prop :=
  o = OutOfFuel ∨ o = o'.

Notation "'do' x <- m ; k" := (bind m (λ x, k))
  (at level 10, x name, m at level 100, k at level 200,
   format "'[v' 'do'  x  <-  m ; '/' k ']'").
Notation "'do' '_' <- m ; k" := (bind m (λ _, k))
  (at level 10, m at level 100, k at level 200,
   format "'[v' 'do'  '_'  <-  m ; '/' k ']'").

Section AVL.
Context {K : Type} `{Ordered K} `{Machine}.

(** *** Primitive heap accesses *)

(** [*t]: reading through a null or dangling pointer is undefined. *)
Definition load (t : ptr) : M (heap K) (TreeNode K) :=
  λ h, match t with
       | None => Fault
       | Some a => match h !! a with Some n => Ok n h | None => Fault end
       end.

(** [*t = n] *)
Definition store (t : ptr) (n : TreeNode K) : M (heap K) unit :=
  λ h, match t with
       | None => Fault
       | Some a => match h !! a with
                   | Some _ => Ok tt (<[a := n]> h)
                   | None => Fault
                   end
       end.

(** [new TreeNode(...)]: a fresh address, or [std::bad_alloc]. *)
Definition new_node (n : TreeNode K) : M (heap K) ptr :=
  λ h, if decide (size h < max_nodes)%nat
       then let a := fresh (dom h) in Ok (Some a) (<[a := n]> h)
       else BadAlloc.

(** [delete t] *)
Definition delete_node (t : ptr) : M (heap K) unit :=
  λ h, match t with
       | None => Ok tt h
       | Some a => match h !! a with
                   | Some _ => Ok tt (delete a h)
                   | None => Fault
                   end
       end.

Definition get_key (t : ptr) : M (heap K) K := do n <- load t; ret (nkey n).
Definition get_left (t : ptr) : M (heap K) ptr := do n <- load t; ret (nleft n).
Definition get_right (t : ptr) : M (heap K) ptr := do n <- load t; ret (nright n).
Definition get_parent (t : ptr) : M (heap K) ptr := do n <- load t; ret (nparent n).

Definition set_height (t : ptr) (v : Z) : M (heap K) unit :=
  do n <- load t;
  store t (mkTreeNode (nkey n) v (ncnt n) (nleft n) (nright n) (nparent n)).
Definition set_cnt (t : ptr) (v : Z) : M (heap K) unit :=
  do n <- load t;
  store t (mkTreeNode (nkey n) (nheight n) v (nleft n) (nright n) (nparent n)).
Definition set_left (t : ptr) (v : ptr) : M (heap K) unit :=
  do n <- load t;
  store t (mkTreeNode (nkey n) (nheight n) (ncnt n) v (nright n) (nparent n)).
Definition set_right (t : ptr) (v : ptr) : M (heap K) unit :=
  do n <- load t;
  store t (mkTreeNode (nkey n) (nheight n) (ncnt n) (nleft n) v (nparent n)).
Definition set_parent (t : ptr) (v : ptr) : M (heap K) unit :=
  do n <- load t;
  store t (mkTreeNode (nkey n) (nheight n) (ncnt n) (nleft n) (nright n) v).

(** *** Helper functions of [Set] *)

Definition height (t : ptr) : M (heap K) Z :=
  match t with
  | None => ret 0
  | Some _ => do n <- load t; ret (nheight n)
  end.

Definition cnt (t : ptr) : M (heap K) Z :=
  match t with
  | None => ret 0
  | Some _ => do n <- load t; ret (ncnt n)
  end.

Definition getBalance (t : ptr) : M (heap K) Z :=
  do tr <- get_right t;
  do hr <- height tr;
  do tl <- get_left t;
  do hl <- height tl;
  ret (to_int (to_size_t (hr - hl))).

Definition update (t : ptr) : M (heap K) unit :=
  match t with
  | None => ret tt
  | Some _ =>
      do tl <- get_left t;
      do hl <- height tl;
      do tr <- get_right t;
      do hr <- height tr;
      do _ <- set_height t (to_size_t (Z.max hl hr + 1));
      do tl <- get_left t;
      do cl <- cnt tl;
      do tr <- get_right t;
      do cr <- cnt tr;
      do _ <- set_cnt t (to_size_t (to_size_t (cl + 1) + cr));
      do _ <- set_parent t None;
      do tl <- get_left t;
      do _ <- match tl with Some _ => set_parent tl t | None => ret tt end;
      do tr <- get_right t;
      match tr with Some _ => set_parent tr t | None => ret tt end
  end.

Definition isKeyEqual (a b : K) : bool := negb (less a b) && negb (less b a).

(** *** Balance *)

Definition rotateRight (u : ptr) : M (heap K) ptr :=
  do v <- get_left u;
  do vr <- get_right v;
  do _ <- set_left u vr;
  do _ <- set_right v u;
  do _ <- update u;
  do _ <- update v;
  ret v.

Definition rotateLeft (v : ptr) : M (heap K) ptr :=
  do u <- get_right v;
  do ul <- get_left u;
  do _ <- set_right v ul;
  do _ <- set_left u v;
  do _ <- update v;
  do _ <- update u;
  ret u.

Definition balance (t : ptr) : M (heap K) ptr :=
  match t with
  | None => ret None
  | Some _ =>
      do _ <- update t;
      do t_balance <- getBalance t;
      if t_balance =? 2 then
        do tr <- get_right t;
        do b <- getBalance tr;
        do _ <- (if b <? 0
                 then do tr' <- rotateRight tr; set_right t tr'
                 else ret tt);
        rotateLeft t
      else if t_balance =? -2 then
        do tl <- get_left t;
        do b <- getBalance tl;
        do _ <- (if 0 <? b
                 then do tl' <- rotateLeft tl; set_left t tl'
                 else ret tt);
        rotateRight t
      else ret t
  end.

(** *** Methods *)

Fixpoint findMin (fuel : nat) (t : ptr) : M (heap K) ptr :=
  match fuel with
  | O => out_of_fuel
  | S fuel =>
      match t with
      | None => ret t
      | Some _ =>
          do tl <- get_left t;
          match tl with
          | Some _ => findMin fuel tl
          | None => ret t
          end
      end
  end.

Fixpoint findMax (fuel : nat) (t : ptr) : M (heap K) ptr :=
  match fuel with
  | O => out_of_fuel
  | S fuel =>
      match t with
      | None => ret t
      | Some _ =>
          do tr <- get_right t;
          match tr with
          | Some _ => findMax fuel tr
          | None => ret t
          end
      end
  end.

Fixpoint eraseMin (fuel : nat) (t : ptr) : M (heap K) ptr :=
  match fuel with
  | O => out_of_fuel
  | S fuel =>
      do tl <- get_left t;
      match tl with
      | None => get_right t
      | Some _ =>
          do tl' <- eraseMin fuel tl;
          do _ <- set_left t tl';
          balance t
      end
  end.

Fixpoint eraseMax (fuel : nat) (t : ptr) : M (heap K) ptr :=
  match fuel with
  | O => out_of_fuel
  | S fuel =>
      do tr <- get_right t;
      match tr with
      | None => get_left t
      | Some _ =>
          do tr' <- eraseMax fuel tr;
          do _ <- set_right t tr';
          balance t
      end
  end.

(** The [while] loop of [nextNode] and its [return t->parent]. *)
Fixpoint nextNode_climb (fuel : nat) (t : ptr) : M (heap K) ptr :=
  match fuel with
  | O => out_of_fuel
  | S fuel =>
      do p <- get_parent t;
      match p with
      | None => ret p
      | Some _ =>
          do pr <- get_right p;
          if decide (pr = t) then nextNode_climb fuel p else ret p
      end
  end.

Definition nextNode (fuel : nat) (t : ptr) : M (heap K) ptr :=
  do tr <- get_right t;
  match tr with
  | Some _ => findMin fuel tr
  | None => nextNode_climb fuel t
  end.

Fixpoint prevNode_climb (fuel : nat) (t : ptr) : M (heap K) ptr :=
  match fuel with
  | O => out_of_fuel
  | S fuel =>
      do p <- get_parent t;
      match p with
      | None => ret p
      | Some _ =>
          do pl <- get_left p;
          if decide (pl = t) then prevNode_climb fuel p else ret p
      end
  end.

Definition prevNode (fuel : nat) (t : ptr) : M (heap K) ptr :=
  do tl <- get_left t;
  match tl with
  | Some _ => findMax fuel tl
  | None => prevNode_climb fuel t
  end.

Fixpoint AVLInsert (fuel : nat) (t : ptr) (key : K) (parent : ptr)
  : M (heap K) ptr :=
  match fuel with
  | O => out_of_fuel
  | S fuel =>
      do t <- match t with
              | None => new_node (mkTreeNode key 1 1 None None parent)
              | Some _ => ret t
              end;
      do k <- get_key t;
      if isKeyEqual k key then ret t
      else
        do _ <- (if less k key
                 then do tr <- get_right t;
                      do tr' <- AVLInsert fuel tr key t;
                      set_right t tr'
                 else do tl <- get_left t;
                      do tl' <- AVLInsert fuel tl key t;
                      set_left t tl');
        balance t
  end.

Fixpoint AVLErase (fuel : nat) (t : ptr) (key : K) : M (heap K) ptr :=
  match fuel with
  | O => out_of_fuel
  | S fuel =>
      match t with
      | None => ret t
      | Some _ =>
          do k <- get_key t;
          do t <- (if isKeyEqual k key then
                     do l <- get_left t;
                     do r <- get_right t;
                     do _ <- delete_node t;
                     match r with
                     | Some _ =>
                         do t <- findMin fuel r;
                         do r' <- eraseMin fuel r;
                         do _ <- set_right t r';
                         do _ <- set_left t l;
                         ret t
                     | None => ret l
                     end
                   else if less k key then
                     do tr <- get_right t;
                     do tr' <- AVLErase fuel tr key;
                     do _ <- set_right t tr';
                     ret t
                   else
                     do tl <- get_left t;
                     do tl' <- AVLErase fuel tl key;
                     do _ <- set_left t tl';
                     ret t);
          balance t
      end
  end.

Fixpoint AVLFind (fuel : nat) (t : ptr) (key : K) : M (heap K) ptr :=
  match fuel with
  | O => out_of_fuel
  | S fuel =>
      match t with
      | None => ret None
      | Some _ =>
          do k <- get_key t;
          if isKeyEqual k key then ret t
          else if less k key then
            do tr <- get_right t; AVLFind fuel tr key
          else
            do tl <- get_left t; AVLFind fuel tl key
      end
  end.

Fixpoint AVLLowerBound (fuel : nat) (t : ptr) (key : K) : M (heap K) ptr :=
  match fuel with
  | O => out_of_fuel
  | S fuel =>
      match t with
      | None => ret None
      | Some _ =>
          do k <- get_key t;
          if isKeyEqual k key then ret t
          else if less key k then
            do tl <- get_left t;
            do tmp <- AVLLowerBound fuel tl key;
            ret (match tmp with Some _ => tmp | None => t end)
          else
            do tr <- get_right t; AVLLowerBound fuel tr key
      end
  end.

(** [copyTree(from, to)] returns the pointer it leaves in [to]. *)
Fixpoint copyTree (fuel : nat) (from : ptr) : M (heap K) ptr :=
  match fuel with
  | O => out_of_fuel
  | S fuel =>
      match from with
      | None => ret None
      | Some _ =>
          do n <- load from;
          do to <- new_node n;
          do fl <- get_left from;
          do l' <- copyTree fuel fl;
          do _ <- set_left to l';
          do fr <- get_right from;
          do r' <- copyTree fuel fr;
          do _ <- set_right to r';
          do _ <- update to;
          ret to
      end
  end.

(** [deleteTree(t)] returns the pointer it leaves in [t]. *)
Fixpoint deleteTree (fuel : nat) (t : ptr) : M (heap K) ptr :=
  match fuel with
  | O => out_of_fuel
  | S fuel =>
      match t with
      | None => ret t
      | Some _ =>
          do tl <- get_left t;
          do tl' <- deleteTree fuel tl;
          do _ <- set_left t tl';
          do tr <- get_right t;
          do tr' <- deleteTree fuel tr;
          do _ <- set_right t tr';
          do _ <- delete_node t;
          ret None
      end
  end.


(** ** The public interface

    A [Set] object is identified by its address and holds one field,
    [root].  Several [Set] objects share the heap of nodes. *)

Definition sid := positive.

Record world := mkWorld {
  nodes : heap K;
  sets : gmap sid ptr
}.

Record iterator := mkIterator {
  it_node : ptr;
  it_parent : option sid
}.

(** Run a computation on the nodes, leaving the [Set] objects alone. *)
Definition on_nodes {A} (m : M (heap K) A) : M world A :=
  λ w, match m (nodes w) with
       | Ok a h => Ok a (mkWorld h (sets w))
       | Fault => Fault
       | BadAlloc => BadAlloc
       | OutOfFuel => OutOfFuel
       end.

(** [s->root], read and written. *)
Definition get_root (s : option sid) : M world ptr :=
  λ w, match s with
       | None => Fault
       | Some i => match sets w !! i with Some r => Ok r w | None => Fault end
       end.

Definition set_root (s : sid) (r : ptr) : M world unit :=
  λ w, match sets w !! s with
       | Some _ => Ok tt (mkWorld (nodes w) (<[s := r]> (sets w)))
       | None => Fault
       end.

(** Storage for a new [Set] object, with [root = nullptr]. *)
Definition new_set : M world sid :=
  λ w, let s := fresh (dom (sets w)) in
       Ok s (mkWorld (nodes w) (<[s := None]> (sets w))).

(** The storage of a [Set] object goes away. *)
Definition free_set (s : sid) : M world unit :=
  λ w, match sets w !! s with
       | Some _ => Ok tt (mkWorld (nodes w) (delete s (sets w)))
       | None => Fault
       end.

Definition Set_insert (fuel : nat) (this : sid) (value : K) : M world unit :=
  do r <- get_root (Some this);
  do r' <- on_nodes (AVLInsert fuel r value None);
  set_root this r'.

Definition Set_erase (fuel : nat) (this : sid) (value : K) : M world unit :=
  do r <- get_root (Some this);
  do r' <- on_nodes (AVLErase fuel r value);
  set_root this r'.

(** [Set()] *)
Definition Set_ctor : M world sid := new_set.

(** [Set(first, last)] and [Set(std::initializer_list)]: insert in turn. *)
Fixpoint insert_all (fuel : nat) (this : sid) (init : list K) : M world unit :=
  match init with
  | [] => ret tt
  | value :: init => do _ <- Set_insert fuel this value; insert_all fuel this init
  end.

Definition Set_ctor_range (fuel : nat) (init : list K) : M world sid :=
  do this <- new_set;
  do _ <- insert_all fuel this init;
  ret this.

(** [Set(const Set& other)] *)
Definition Set_ctor_copy (fuel : nat) (other : sid) : M world sid :=
  do this <- new_set;
  do r <- get_root (Some other);
  do r' <- on_nodes (copyTree fuel r);
  do _ <- set_root this r';
  ret this.

(** [operator=] *)
Definition Set_assign (fuel : nat) (this other : sid) : M world unit :=
  if decide (this ≠ other) then
    do r <- get_root (Some this);
    do r' <- on_nodes (deleteTree fuel r);
    do _ <- set_root this r';
    do o <- get_root (Some other);
    do c <- on_nodes (copyTree fuel o);
    set_root this c
  else ret tt.

(** [~Set()] *)
Definition Set_dtor (fuel : nat) (this : sid) : M world unit :=
  do r <- get_root (Some this);
  do r' <- on_nodes (deleteTree fuel r);
  do _ <- set_root this r';
  free_set this.

Definition Set_size (this : sid) : M world Z :=
  do r <- get_root (Some this);
  on_nodes (cnt r).

Definition Set_empty (this : sid) : M world bool :=
  do n <- Set_size this;
  ret (n =? 0).

Definition Set_begin (fuel : nat) (this : sid) : M world iterator :=
  do r <- get_root (Some this);
  do n <- on_nodes (findMin fuel r);
  ret (mkIterator n (Some this)).

Definition Set_end (this : sid) : M world iterator :=
  ret (mkIterator None (Some this)).

Definition Set_find (fuel : nat) (this : sid) (key : K) : M world iterator :=
  do r <- get_root (Some this);
  do n <- on_nodes (AVLFind fuel r key);
  ret (mkIterator n (Some this)).

Definition Set_lower_bound (fuel : nat) (this : sid) (key : K)
  : M world iterator :=
  do r <- get_root (Some this);
  do n <- on_nodes (AVLLowerBound fuel r key);
  ret (mkIterator n (Some this)).

(** [++it]: the iterator after the step. *)
Definition iterator_incr (fuel : nat) (it : iterator) : M world iterator :=
  do n <- on_nodes (nextNode fuel (it_node it));
  ret (mkIterator n (it_parent it)).

(** [it++]: the iterator returned and the iterator after the step. *)
Definition iterator_post_incr (fuel : nat) (it : iterator)
  : M world (iterator * iterator) :=
  do it' <- iterator_incr fuel it;
  ret (it, it').

(** [--it] *)
Definition iterator_decr (fuel : nat) (it : iterator) : M world iterator :=
  do n <- match it_node it with
          | Some _ => on_nodes (prevNode fuel (it_node it))
          | None => do r <- get_root (it_parent it); on_nodes (findMax fuel r)
          end;
  ret (mkIterator n (it_parent it)).

Definition iterator_post_decr (fuel : nat) (it : iterator)
  : M world (iterator * iterator) :=
  do it' <- iterator_decr fuel it;
  ret (it, it').

(** [*it] *)
Definition iterator_deref (it : iterator) : M world K :=
  on_nodes (get_key (it_node it)).

(** [a == b] and [a != b] *)
Definition iterator_eq (a b : iterator) : bool :=
  bool_decide (it_node a = it_node b) && bool_decide (it_parent a = it_parent b).

Definition iterator_ne (a b : iterator) : bool :=
  negb (bool_decide (it_node a = it_node b))
  || negb (bool_decide (it_parent a = it_parent b)).

(** Client loops: [for (it = s.begin(); it != s.end(); ++it)] reading
    [*it] in the body, and [for (it = s.end(); it != s.begin();)] whose
    body is [--it] followed by a read of [*it].  Each returns the keys in
    the order visited. *)
Fixpoint forward_from (fuel : nat) (this : sid) (it : iterator)
  : M world (list K) :=
  match fuel with
  | O => out_of_fuel
  | S fuel' =>
      do e <- Set_end this;
      if iterator_ne it e then
        do k <- iterator_deref it;
        do it' <- iterator_incr fuel it;
        do ks <- forward_from fuel' this it';
        ret (k :: ks)
      else ret []
  end.

Definition traverse_forward (fuel : nat) (this : sid) : M world (list K) :=
  do b <- Set_begin fuel this;
  forward_from fuel this b.

Fixpoint backward_from (fuel : nat) (this : sid) (it : iterator)
  : M world (list K) :=
  match fuel with
  | O => out_of_fuel
  | S fuel' =>
      do b <- Set_begin fuel this;
      if iterator_ne it b then
        do it' <- iterator_decr fuel it;
        do k <- iterator_deref it';
        do ks <- backward_from fuel' this it';
        ret (k :: ks)
      else ret []
  end.

Definition traverse_backward (fuel : nat) (this : sid) : M world (list K) :=
  do e <- Set_end this;
  backward_from fuel this e.

(** ** Abstract trees

    The shape a pointer structure represents: a binary tree whose nodes
    carry the address and the key of the [TreeNode] they stand for. *)

Inductive tree :=
| Leaf
| Node (l : tree) (a : loc) (k : K) (r : tree).

(** [height] and [size] of the data model: absent subtrees count 0. *)
Fixpoint theight (t : tree) : Z :=
  match t with
  | Leaf => 0
  | Node l _ _ r => Z.max (theight l) (theight r) + 1
  end.

Fixpoint tsize (t : tree) : Z :=
  match t with
  | Leaf => 0
  | Node l _ _ r => tsize l + 1 + tsize r
  end.

Definition root_of (t : tree) : ptr :=
  match t with
  | Leaf => None
  | Node _ a _ _ => Some a
  end.

(** Addresses and keys in symmetric order. *)
Fixpoint locs (t : tree) : list loc :=
  match t with
  | Leaf => []
  | Node l a _ r => locs l ++ a :: locs r
  end.

Fixpoint keys (t : tree) : list K :=
  match t with
  | Leaf => []
  | Node l _ k r => keys l ++ k :: keys r
  end.

(** Address and key of every node, in symmetric order. *)
Fixpoint elems (t : tree) : list (loc * K) :=
  match t with
  | Leaf => []
  | Node l a k r => elems l ++ (a, k) :: elems r
  end.

(** Successor and predecessor of [x] in a sequence of addresses; [up] and
    [down] stand for what follows and what precedes the sequence. *)
Fixpoint next_in (ls : list loc) (x : loc) (up : ptr) : ptr :=
  match ls with
  | [] => up
  | y :: ls' =>
      if decide (y = x) then from_option Some up (head ls')
      else next_in ls' x up
  end.

Fixpoint prev_in (ls : list loc) (x : loc) (down : ptr) : ptr :=
  match ls with
  | [] => down
  | y :: ls' => if decide (y = x) then down else prev_in ls' x (Some y)
  end.

Inductive subtree : tree → tree → Prop :=
| subtree_refl t : subtree t t
| subtree_left s l a k r : subtree s l → subtree s (Node l a k r)
| subtree_right s l a k r : subtree s r → subtree s (Node l a k r).

(** [rep h par t]: in heap [h], the tree [t] is laid out at its addresses,
    the node at the root has parent pointer [par], every other node points
    back at its structural parent, child pointers are the children's
    addresses, and the cached [height] and [cnt] fields hold the height and
    the size of the subtree below. *)
Fixpoint rep (h : heap K) (par : ptr) (t : tree) : Prop :=
  match t with
  | Leaf => True
  | Node l a k r =>
      h !! a = Some (mkTreeNode k (theight t) (tsize t)
                                (root_of l) (root_of r) par)
      ∧ rep h (Some a) l ∧ rep h (Some a) r
  end.

(** The same with the parent pointer of the root left open: the state of a
    subtree between a [balance] and the [update] of its parent. *)
Definition srep (h : heap K) (t : tree) : Prop := ∃ par, rep h par t.

(** A node whose key and child pointers are in place while its cached
    fields and parent pointer may be stale: what [update] is given. *)
Definition node_at (h : heap K) (a : loc) (k : K) (l r : tree) : Prop :=
  ∃ n, h !! a = Some n ∧ nkey n = k
       ∧ nleft n = root_of l ∧ nright n = root_of r.

(** The tree the [left] and [right] pointers draw: every node of [t] sits
    at its address with its key and its child pointers, whatever the cached
    fields and the parent pointers hold. *)
Fixpoint laid_out (h : heap K) (t : tree) : Prop :=
  match t with
  | Leaf => True
  | Node l a k r => node_at h a k l r ∧ laid_out h l ∧ laid_out h r
  end.

(** [h'] has the addresses of [h] and differs from it at most at [ls]. *)
Definition same_outside (ls : list loc) (h h' : heap K) : Prop :=
  dom h' = dom h ∧ ∀ x, x ∉ ls → h' !! x = h !! x.

(** The invariants of the data model. *)
Fixpoint bst (t : tree) : Prop :=
  match t with
  | Leaf => True
  | Node l _ k r =>
      bst l ∧ bst r
      ∧ Forall (λ x, less x k = true) (keys l)
      ∧ Forall (λ x, less k x = true) (keys r)
  end.

Fixpoint avl (t : tree) : Prop :=
  match t with
  | Leaf => True
  | Node l _ _ r =>
      avl l ∧ avl r ∧ -1 ≤ theight r - theight l ≤ 1
  end.

(** What [balance] may assume of the node it is given: balanced children
    whose heights differ by at most two. *)
Definition balance_pre (t : tree) : Prop :=
  match t with
  | Leaf => True
  | Node l _ _ r => avl l ∧ avl r ∧ -2 ≤ theight r - theight l ≤ 2
  end.

(** *** The operations on abstract trees

    What each function of [set.h] does to the shape it is given. *)

Definition tree_rotateRight (u : tree) : tree :=
  match u with
  | Node (Node A va vk B) ua uk C => Node A va vk (Node B ua uk C)
  | _ => u
  end.

Definition tree_rotateLeft (v : tree) : tree :=
  match v with
  | Node A va vk (Node B ua uk C) => Node (Node A va vk B) ua uk C
  | _ => v
  end.

Definition tree_getBalance (t : tree) : Z :=
  match t with
  | Leaf => 0
  | Node l _ _ r => theight r - theight l
  end.

Definition tree_balance (t : tree) : tree :=
  match t with
  | Leaf => Leaf
  | Node l a k r =>
      if tree_getBalance t =? 2 then
        tree_rotateLeft
          (Node l a k (if tree_getBalance r <? 0 then tree_rotateRight r else r))
      else if tree_getBalance t =? -2 then
        tree_rotateRight
          (Node (if 0 <? tree_getBalance l then tree_rotateLeft l else l) a k r)
      else t
  end.

Fixpoint tree_insert (new : loc) (key : K) (t : tree) : tree :=
  match t with
  | Leaf => Node Leaf new key Leaf
  | Node l a k r =>
      if isKeyEqual k key then t
      else if less k key then tree_balance (Node l a k (tree_insert new key r))
      else tree_balance (Node (tree_insert new key l) a k r)
  end.

(** The leftmost node of [Node l a k r]. *)
Fixpoint tree_findMin (l : tree) (a : loc) (k : K) : loc * K :=
  match l with
  | Leaf => (a, k)
  | Node ll la lk _ => tree_findMin ll la lk
  end.

Fixpoint tree_eraseMin (t : tree) : tree :=
  match t with
  | Leaf => Leaf
  | Node Leaf _ _ r => r
  | Node l a k r => tree_balance (Node (tree_eraseMin l) a k r)
  end.

Fixpoint tree_erase (key : K) (t : tree) : tree :=
  match t with
  | Leaf => Leaf
  | Node l a k r =>
      if isKeyEqual k key then
        match r with
        | Leaf => tree_balance l
        | Node rl ra rk rr =>
            let m := tree_findMin rl ra rk in
            tree_balance (Node l (fst m) (snd m) (tree_eraseMin r))
        end
      else if less k key then tree_balance (Node l a k (tree_erase key r))
      else tree_balance (Node (tree_erase key l) a k r)
  end.

Fixpoint tree_find (key : K) (t : tree) : ptr :=
  match t with
  | Leaf => None
  | Node l a k r =>
      if isKeyEqual k key then Some a
      else if less k key then tree_find key r
      else tree_find key l
  end.

Fixpoint tree_lowerBound (key : K) (t : tree) : ptr :=
  match t with
  | Leaf => None
  | Node l a k r =>
      if isKeyEqual k key then Some a
      else if less key k then
        match tree_lowerBound key l with
        | Some b => Some b
        | None => Some a
        end
      else tree_lowerBound key r
  end.

(** Two trees of the same shape holding the same keys, whatever their
    addresses. *)
Fixpoint same_shape (t t' : tree) : Prop :=
  match t, t' with
  | Leaf, Leaf => True
  | Node l _ k r, Node l' _ k' r' => k = k' ∧ same_shape l l' ∧ same_shape r r'
  | _, _ => False
  end.

(** Every child points back at its parent, and the root at nothing. *)
Definition structural_parents (h : heap K) (t : tree) : Prop :=
  (∀ a, root_of t = Some a → ∃ n, h !! a = Some n ∧ nparent n = None)
  ∧ ∀ l a k r c, subtree (Node l a k r) t →
      root_of l = Some c ∨ root_of r = Some c →
      ∃ n, h !! c = Some n ∧ nparent n = Some a.

(** The [height] and [cnt] fields of every node are the height and the
    size of the subtree below it. *)
Definition cached_fields_exact (h : heap K) (t : tree) : Prop :=
  ∀ l a k r, subtree (Node l a k r) t →
    ∃ n, h !! a = Some n ∧ nkey n = k
         ∧ nheight n = theight (Node l a k r)
         ∧ ncnt n = tsize (Node l a k r).

(** ** Sets in a world *)

(** The [Set] object [s] of world [w] holds the tree [t]. *)
Definition holds (w : world) (s : sid) (t : tree) : Prop :=
  sets w !! s = Some (root_of t)
  ∧ rep (nodes w) None t
  ∧ NoDup (locs t).

(** What holds of every world a client can produce: the heap is within
    the capacity of the machine, every [Set] object holds a balanced search
    tree, and no node belongs to two of them. *)
Definition world_inv (w : world) : Prop :=
  (size (nodes w) ≤ max_nodes)%nat
  ∧ ∃ T : gmap sid tree,
      (∀ s, sets w !! s = root_of <$> T !! s)
      ∧ (∀ s t, T !! s = Some t →
           rep (nodes w) None t ∧ NoDup (locs t) ∧ bst t ∧ avl t)
      ∧ (∀ s1 s2 t1 t2, s1 ≠ s2 → T !! s1 = Some t1 → T !! s2 = Some t2 →
           ∀ x, x ∈ locs t1 → x ∉ locs t2).

(** The worlds a client can produce: from no objects at all, by the
    constructors, the destructor, assignment, [insert] and [erase], each
    returning normally. *)
Inductive reachable : world → Prop :=
| reach_init : reachable (mkWorld ∅ ∅)
| reach_ctor w s w' :
    reachable w → Set_ctor w = Ok s w' → reachable w'
| reach_ctor_range w fuel init s w' :
    reachable w → Set_ctor_range fuel init w = Ok s w' → reachable w'
| reach_ctor_copy w fuel other s w' :
    reachable w → Set_ctor_copy fuel other w = Ok s w' → reachable w'
| reach_assign w fuel this other w' :
    reachable w → Set_assign fuel this other w = Ok tt w' → reachable w'
| reach_dtor w fuel this w' :
    reachable w → Set_dtor fuel this w = Ok tt w' → reachable w'
| reach_insert w fuel this value w' :
    reachable w → Set_insert fuel this value w = Ok tt w' → reachable w'
| reach_erase w fuel this value w' :
    reachable w → Set_erase fuel this value w = Ok tt w' → reachable w'.

(** Membership of a key, up to the equivalence [isKeyEqual]. *)
Definition has_key (key : K) (ks : list K) : Prop :=
  ∃ k, k ∈ ks ∧ isKeyEqual k key = true.

(** What [eraseMax] does to the shape it is given, and the rightmost node
    of [Node l a k r]. *)
Fixpoint tree_findMax (a : loc) (k : K) (r : tree) : loc * K :=
  match r with
  | Leaf => (a, k)
  | Node _ ra rk rr => tree_findMax ra rk rr
  end.

Fixpoint tree_eraseMax (t : tree) : tree :=
  match t with
  | Leaf => Leaf
  | Node l _ _ Leaf => l
  | Node l a k r => tree_balance (Node l a k (tree_eraseMax r))
  end.


End AVL.

Arguments tree_balance : simpl never.

(** ** A worked example

    The scenario of the specification: the integers 1 to 7 inserted in
    order into a fresh set, on the machine with room for sixteen nodes.
    The nodes are allocated at the addresses 1 to 7 in that order, and the
    rotations on the way leave the key 4 at the root. *)

Definition example_set : sid := 1%positive.

Definition example_world : world (K:=Z) :=
  match @Set_ctor_range Z Z_Ordered small_machine 8 [1; 2; 3; 4; 5; 6; 7]
          (mkWorld ∅ ∅) with
  | Ok _ w => w
  | _ => mkWorld ∅ ∅
  end.

Definition example_tree : tree (K:=Z) :=
  Node (Node (Node Leaf 1%positive 1 Leaf) 2%positive 2
             (Node Leaf 3%positive 3 Leaf))
       4%positive 4
       (Node (Node Leaf 5%positive 5 Leaf) 6%positive 6
             (Node Leaf 7%positive 7 Leaf)).

(** The worlds one more operation takes the example to: [insert(9)],
    [erase(3)], and a copy of the set. *)
Definition example_after (m : M (world (K:=Z)) unit) : world (K:=Z) :=
  match m example_world with
  | Ok _ w => w
  | _ => example_world
  end.

Definition example_insert_9 : world (K:=Z) :=
  example_after (@Set_insert Z Z_Ordered small_machine 8 example_set 9).

Definition example_erase_3 : world (K:=Z) :=
  example_after (@Set_erase Z Z_Ordered 8 example_set 3).

Definition example_copy_set : sid := 2%positive.

Definition example_copy_world : world (K:=Z) :=
  match @Set_ctor_copy Z small_machine 8 example_set example_world with
  | Ok _ w => w
  | _ => example_world
  end.

(** The tree of the copy, and the world after assigning the example set to
    its copy. *)
Definition example_copy_tree : tree (K:=Z) :=
  Node (Node (Node Leaf 10%positive 1 Leaf) 9%positive 2
             (Node Leaf 11%positive 3 Leaf))
       8%positive 4
       (Node (Node Leaf 13%positive 5 Leaf) 12%positive 6
             (Node Leaf 14%positive 7 Leaf)).

Definition example_assign_world : world (K:=Z) :=
  match @Set_assign Z small_machine 8 example_copy_set example_set
          example_copy_world with
  | Ok _ w => w
  | _ => example_copy_world
  end.

(** * Proofs *)

(** ** Machine arithmetic *)

Lemma to_size_t_small z : 0 ≤ z < 2 ^ 64 → to_size_t z = z.
Proof. intros Hz. unfold to_size_t. apply Z.mod_small. exact Hz. Qed.

Lemma to_int_to_size_t d :
  - 2 ^ 31 ≤ d < 2 ^ 31 → to_int (to_size_t d) = d.
Proof.
  intros Hd. unfold to_int, to_size_t.
  assert (Hmm : (d mod 2 ^ 64) mod 2 ^ 32 = d mod 2 ^ 32).
  { replace (2 ^ 64) with (2 ^ 32 * 2 ^ 32) by reflexivity.
    rewrite Z.rem_mul_r by lia.
    rewrite Z.mul_comm, Z.mod_add by lia. apply Z.mod_mod. lia. }
  cbv zeta. rewrite Hmm.
  destruct (Z.ltb_spec (d mod 2 ^ 32) (2 ^ 31)) as [Hlt | Hge].
  - destruct (Z.lt_ge_cases d 0) as [Hneg | Hpos].
    + assert (d mod 2 ^ 32 = d + 2 ^ 32).
      { symmetry. apply Z.mod_unique with (q := -1); lia. }
      lia.
    + apply Z.mod_small. lia.
  - destruct (Z.lt_ge_cases d 0) as [Hneg | Hpos].
    + assert (d mod 2 ^ 32 = d + 2 ^ 32).
      { symmetry. apply Z.mod_unique with (q := -1); lia. }
      lia.
    + rewrite Z.mod_small in Hge by lia. lia.
Qed.

Section Basics.
Context {K : Type} `{Ordered K} `{Machine}.
Implicit Types (h : heap K) (t l r : tree (K:=K)) (a : loc) (p : ptr).

(** ** Facts about abstract trees *)

Lemma theight_nonneg t : 0 ≤ theight t.
Proof. induction t; simpl; lia. Qed.

Lemma tsize_nonneg t : 0 ≤ tsize t.
Proof. induction t; simpl; lia. Qed.

Lemma theight_le_tsize t : theight t ≤ tsize t.
Proof.
  induction t as [| l IHl a k r IHr]; simpl; [lia |].
  pose proof (tsize_nonneg l). pose proof (tsize_nonneg r). lia.
Qed.

Lemma tsize_length t : tsize t = Z.of_nat (length (locs t)).
Proof.
  induction t as [| l IHl a k r IHr]; simpl; [reflexivity |].
  rewrite length_app. simpl. lia.
Qed.

Lemma keys_length t : length (keys t) = length (locs t).
Proof.
  induction t as [| l IHl a k r IHr]; simpl; [reflexivity |].
  rewrite !length_app. simpl. lia.
Qed.

Lemma root_of_locs t a : root_of t = Some a → a ∈ locs t.
Proof.
  destruct t; simpl; [discriminate |].
  intros [= ->]. set_solver.
Qed.

(** ** Stepping through monadic code *)

Lemma bind_eq {S A B} (m : M S A) (f : A → M S B) s (v : A) s' :
  m s = Ok v s' → bind m f s = f v s'.
Proof. intros Hm. unfold bind. rewrite Hm. reflexivity. Qed.

Lemma load_eq h a n : h !! a = Some n → load (Some a) h = Ok n h.
Proof. intros Hn. unfold load. rewrite Hn. reflexivity. Qed.

Lemma store_eq h a n n' :
  h !! a = Some n → store (Some a) n' h = Ok tt (<[a := n']> h).
Proof. intros Hn. unfold store. rewrite Hn. reflexivity. Qed.

Lemma get_key_eq h a n : h !! a = Some n → get_key (Some a) h = Ok (nkey n) h.
Proof. intros Hn. unfold get_key. by rewrite (bind_eq _ _ _ _ _ (load_eq _ _ _ Hn)). Qed.

Lemma get_left_eq h a n : h !! a = Some n → get_left (Some a) h = Ok (nleft n) h.
Proof. intros Hn. unfold get_left. by rewrite (bind_eq _ _ _ _ _ (load_eq _ _ _ Hn)). Qed.

Lemma get_right_eq h a n :
  h !! a = Some n → get_right (Some a) h = Ok (nright n) h.
Proof. intros Hn. unfold get_right. by rewrite (bind_eq _ _ _ _ _ (load_eq _ _ _ Hn)). Qed.

Lemma get_parent_eq h a n :
  h !! a = Some n → get_parent (Some a) h = Ok (nparent n) h.
Proof. intros Hn. unfold get_parent. by rewrite (bind_eq _ _ _ _ _ (load_eq _ _ _ Hn)). Qed.

Lemma set_height_eq h a n v :
  h !! a = Some n →
  set_height (Some a) v h
  = Ok tt (<[a := mkTreeNode (nkey n) v (ncnt n) (nleft n) (nright n) (nparent n)]> h).
Proof.
  intros Hn. unfold set_height.
  rewrite (bind_eq _ _ _ _ _ (load_eq _ _ _ Hn)). by apply store_eq with n.
Qed.

Lemma set_cnt_eq h a n v :
  h !! a = Some n →
  set_cnt (Some a) v h
  = Ok tt (<[a := mkTreeNode (nkey n) (nheight n) v (nleft n) (nright n) (nparent n)]> h).
Proof.
  intros Hn. unfold set_cnt.
  rewrite (bind_eq _ _ _ _ _ (load_eq _ _ _ Hn)). by apply store_eq with n.
Qed.

Lemma set_left_eq h a n v :
  h !! a = Some n →
  set_left (Some a) v h
  = Ok tt (<[a := mkTreeNode (nkey n) (nheight n) (ncnt n) v (nright n) (nparent n)]> h).
Proof.
  intros Hn. unfold set_left.
  rewrite (bind_eq _ _ _ _ _ (load_eq _ _ _ Hn)). by apply store_eq with n.
Qed.

Lemma set_right_eq h a n v :
  h !! a = Some n →
  set_right (Some a) v h
  = Ok tt (<[a := mkTreeNode (nkey n) (nheight n) (ncnt n) (nleft n) v (nparent n)]> h).
Proof.
  intros Hn. unfold set_right.
  rewrite (bind_eq _ _ _ _ _ (load_eq _ _ _ Hn)). by apply store_eq with n.
Qed.

Lemma set_parent_eq h a n v :
  h !! a = Some n →
  set_parent (Some a) v h
  = Ok tt (<[a := mkTreeNode (nkey n) (nheight n) (ncnt n) (nleft n) (nright n) v]> h).
Proof.
  intros Hn. unfold set_parent.
  rewrite (bind_eq _ _ _ _ _ (load_eq _ _ _ Hn)). by apply store_eq with n.
Qed.

(** ** The representation predicate *)

Lemma rep_lookup h par l a k r :
  rep h par (Node l a k r) →
  h !! a = Some (mkTreeNode k (theight (Node l a k r)) (tsize (Node l a k r))
                            (root_of l) (root_of r) par).
Proof. intros [Ha _]. exact Ha. Qed.

Lemma rep_frame h h' par t :
  rep h par t → (∀ x, x ∈ locs t → h' !! x = h !! x) → rep h' par t.
Proof.
  revert par. induction t as [| l IHl a k r IHr]; intros par; simpl; [done |].
  intros (Ha & Hl & Hr) Hfr. split_and!.
  - rewrite Hfr by set_solver. exact Ha.
  - apply IHl; [exact Hl |]. intros x Hx. apply Hfr. set_solver.
  - apply IHr; [exact Hr |]. intros x Hx. apply Hfr. set_solver.
Qed.

Lemma srep_frame h h' t :
  srep h t → (∀ x, x ∈ locs t → h' !! x = h !! x) → srep h' t.
Proof. intros [par Hrep] Hfr. exists par. by apply rep_frame with h. Qed.

Lemma rep_srep h par t : rep h par t → srep h t.
Proof. intros Hrep. by exists par. Qed.

Lemma rep_dom h par t x : rep h par t → x ∈ locs t → is_Some (h !! x).
Proof.
  revert par. induction t as [| l IHl a k r IHr]; intros par; simpl.
  - intros _ Hx. by apply elem_of_nil in Hx.
  - intros (Ha & Hl & Hr) Hx.
    apply elem_of_app in Hx as [Hx | Hx]; [by eapply IHl |].
    apply elem_of_cons in Hx as [-> | Hx]; [by eexists | by eapply IHr].
Qed.

(** A heap determines the tree laid out at a pointer. *)
Lemma rep_unique h par1 par2 t1 t2 :
  rep h par1 t1 → rep h par2 t2 → root_of t1 = root_of t2 → t1 = t2.
Proof.
  revert par1 par2 t2.
  induction t1 as [| l1 IHl a1 k1 r1 IHr]; intros par1 par2 t2 H1 H2 Hroot.
  - destruct t2; [reflexivity | discriminate].
  - destruct t2 as [| l2 a2 k2 r2]; [discriminate |].
    simpl in Hroot. injection Hroot as <-.
    destruct H1 as (Ha1 & Hl1 & Hr1). destruct H2 as (Ha2 & Hl2 & Hr2).
    rewrite Ha1 in Ha2. injection Ha2 as -> _ _ Hl Hr _.
    f_equal; [by eapply IHl | by eapply IHr].
Qed.

(** A tree determines the heap at its addresses. *)
Lemma rep_agree h h' par t x :
  rep h par t → rep h' par t → x ∈ locs t → h !! x = h' !! x.
Proof.
  revert par. induction t as [| l IHl a k r IHr]; intros par; simpl.
  - intros _ _ Hx. by apply elem_of_nil in Hx.
  - intros (Ha & Hl & Hr) (Ha' & Hl' & Hr') Hx.
    apply elem_of_app in Hx as [Hx | Hx]; [by eapply IHl |].
    apply elem_of_cons in Hx as [-> | Hx]; [congruence | by eapply IHr].
Qed.

Lemma height_rep h par t : rep h par t → height (root_of t) h = Ok (theight t) h.
Proof.
  destruct t as [| l a k r]; [reflexivity |].
  intros Hrep. apply rep_lookup in Hrep. simpl root_of. unfold height.
  by rewrite (bind_eq _ _ _ _ _ (load_eq _ _ _ Hrep)).
Qed.

Lemma cnt_rep h par t : rep h par t → cnt (root_of t) h = Ok (tsize t) h.
Proof.
  destruct t as [| l a k r]; [reflexivity |].
  intros Hrep. apply rep_lookup in Hrep. simpl root_of. unfold cnt.
  by rewrite (bind_eq _ _ _ _ _ (load_eq _ _ _ Hrep)).
Qed.

(** Writing the parent pointer of the root. *)
Lemma rep_set_parent h par par' l a k r n :
  rep h par (Node l a k r) → NoDup (locs (Node l a k r)) →
  h !! a = Some n →
  rep (<[a := mkTreeNode (nkey n) (nheight n) (ncnt n) (nleft n) (nright n) par']> h)
      par' (Node l a k r).
Proof.
  intros (Ha & Hl & Hr) Hnd Hn. rewrite Ha in Hn. injection Hn as <-.
  simpl in Hnd. apply NoDup_app in Hnd as (Hndl & Hla & Hndr).
  apply NoDup_cons in Hndr as (Har & Hndr).
  split_and!.
  - by rewrite lookup_insert_eq.
  - apply rep_frame with h; [exact Hl |]. intros x Hx.
    apply lookup_insert_ne. intros ->. apply (Hla _ Hx). set_solver.
  - apply rep_frame with h; [exact Hr |]. intros x Hx.
    apply lookup_insert_ne. intros ->. done.
Qed.

(** ** [update] *)

(** The last two statements of [update]: a child, when there is one, is
    made to point back at its parent. *)
Lemma adopt_spec h t par' :
  srep h t → NoDup (locs t) →
  ∃ h', (match root_of t with
         | Some _ => set_parent (root_of t) par'
         | None => ret tt
         end) h = Ok tt h'
        ∧ rep h' par' t
        ∧ dom h' = dom h
        ∧ ∀ x, x ∉ locs t → h' !! x = h !! x.
Proof.
  intros [par Hrep] Hnd. destruct t as [| l a k r].
  - exists h. by split_and!.
  - pose proof (rep_lookup _ _ _ _ _ _ Hrep) as Ha. simpl root_of.
    eexists. split_and!.
    + by apply set_parent_eq.
    + by eapply rep_set_parent.
    + apply dom_insert_lookup_L. by eexists.
    + intros x Hx. apply lookup_insert_ne. intros ->. apply Hx. simpl. set_solver.
Qed.

Lemma update_spec h a n l r :
  h !! a = Some n → nleft n = root_of l → nright n = root_of r →
  srep h l → srep h r →
  NoDup (locs (Node l a (nkey n) r)) →
  tsize (Node l a (nkey n) r) < 2 ^ 64 →
  ∃ h', update (Some a) h = Ok tt h'
        ∧ rep h' None (Node l a (nkey n) r)
        ∧ dom h' = dom h
        ∧ ∀ x, x ∉ locs (Node l a (nkey n) r) → h' !! x = h !! x.
Proof.
  intros Hn Hnl Hnr Hl Hr Hnd Hsz.
  destruct n as [k hh c nl nr np]. simpl in Hnl, Hnr, Hnd, Hsz |- *. subst nl nr.
  pose proof Hnd as Hnd'.
  apply NoDup_app in Hnd' as (Hndl & Hla & Hndr).
  apply NoDup_cons in Hndr as (Har & Hndr).
  assert (Hal : a ∉ locs l) by (intros Hx; apply (Hla _ Hx); set_solver).
  assert (Hlr : ∀ x, x ∈ locs l → x ∉ locs r).
  { intros x Hx Hx'. apply (Hla _ Hx). set_solver. }
  pose proof (tsize_nonneg l) as Hsl. pose proof (tsize_nonneg r) as Hsr.
  pose proof (theight_nonneg l) as Hhl. pose proof (theight_nonneg r) as Hhr.
  pose proof (theight_le_tsize l) as Hhsl. pose proof (theight_le_tsize r) as Hhsr.
  destruct Hl as [pl Hl]. destruct Hr as [pr Hr].
  unfold update.
  rewrite (bind_eq _ _ _ _ _ (get_left_eq _ _ _ Hn)). simpl nleft.
  rewrite (bind_eq _ _ _ _ _ (height_rep _ _ _ Hl)).
  rewrite (bind_eq _ _ _ _ _ (get_right_eq _ _ _ Hn)). simpl nright.
  rewrite (bind_eq _ _ _ _ _ (height_rep _ _ _ Hr)).
  rewrite (bind_eq _ _ _ _ _ (set_height_eq _ _ _ _ Hn)). simpl.
  rewrite to_size_t_small by lia.
  set (h1 := <[a := _]> h).
  assert (Hn1 : h1 !! a = Some (mkTreeNode k (Z.max (theight l) (theight r) + 1) c
                                           (root_of l) (root_of r) np))
    by apply lookup_insert_eq.
  assert (Hl1 : rep h1 pl l).
  { apply rep_frame with h; [exact Hl |]. intros x Hx.
    apply lookup_insert_ne. by intros ->. }
  assert (Hr1 : rep h1 pr r).
  { apply rep_frame with h; [exact Hr |]. intros x Hx.
    apply lookup_insert_ne. by intros ->. }
  rewrite (bind_eq _ _ _ _ _ (get_left_eq _ _ _ Hn1)). simpl nleft.
  rewrite (bind_eq _ _ _ _ _ (cnt_rep _ _ _ Hl1)).
  rewrite (bind_eq _ _ _ _ _ (get_right_eq _ _ _ Hn1)). simpl nright.
  rewrite (bind_eq _ _ _ _ _ (cnt_rep _ _ _ Hr1)).
  rewrite (bind_eq _ _ _ _ _ (set_cnt_eq _ _ _ _ Hn1)). simpl.
  rewrite (to_size_t_small (tsize l + 1)) by lia.
  rewrite to_size_t_small by lia.
  unfold h1. rewrite insert_insert_eq. clear h1 Hn1 Hl1 Hr1.
  set (h2 := <[a := _]> h).
  assert (Hn2 : h2 !! a = Some (mkTreeNode k (Z.max (theight l) (theight r) + 1)
                                           (tsize l + 1 + tsize r)
                                           (root_of l) (root_of r) np))
    by apply lookup_insert_eq.
  rewrite (bind_eq _ _ _ _ _ (set_parent_eq _ _ _ _ Hn2)). simpl.
  unfold h2. rewrite insert_insert_eq. clear h2 Hn2.
  set (h3 := <[a := _]> h).
  assert (Hn3 : h3 !! a = Some (mkTreeNode k (Z.max (theight l) (theight r) + 1)
                                           (tsize l + 1 + tsize r)
                                           (root_of l) (root_of r) None))
    by apply lookup_insert_eq.
  assert (Hd3 : dom h3 = dom h).
  { apply dom_insert_lookup_L. by eexists. }
  assert (Hf3 : ∀ x, x ≠ a → h3 !! x = h !! x).
  { intros x Hx. by apply lookup_insert_ne. }
  assert (Hl3 : srep h3 l).
  { exists pl. apply rep_frame with h; [exact Hl |]. intros x Hx.
    apply Hf3. by intros ->. }
  rewrite (bind_eq _ _ _ _ _ (get_left_eq _ _ _ Hn3)). simpl nleft.
  destruct (adopt_spec h3 l (Some a) Hl3 Hndl) as (h4 & Hrun4 & Hl4 & Hd4 & Hf4).
  rewrite (bind_eq _ _ _ _ _ Hrun4).
  assert (Hn4 : h4 !! a = Some (mkTreeNode k (Z.max (theight l) (theight r) + 1)
                                           (tsize l + 1 + tsize r)
                                           (root_of l) (root_of r) None)).
  { rewrite Hf4 by exact Hal. exact Hn3. }
  rewrite (bind_eq _ _ _ _ _ (get_right_eq _ _ _ Hn4)). simpl nright.
  assert (Hr4 : srep h4 r).
  { exists pr. apply rep_frame with h; [exact Hr |]. intros x Hx.
    rewrite Hf4 by (intros Hx'; by apply (Hlr x)).
    apply Hf3. by intros ->. }
  destruct (adopt_spec h4 r (Some a) Hr4 Hndr) as (h5 & Hrun5 & Hr5 & Hd5 & Hf5).
  exists h5. split_and!.
  - exact Hrun5.
  - rewrite Hf5 by exact Har. exact Hn4.
  - apply rep_frame with h4; [exact Hl4 |]. intros x Hx.
    apply Hf5. by apply Hlr.
  - exact Hr5.
  - congruence.
  - intros x Hx.
    rewrite Hf5 by (intros Hx'; apply Hx; set_solver).
    rewrite Hf4 by (intros Hx'; apply Hx; set_solver).
    apply Hf3. intros ->. apply Hx. set_solver.
Qed.

Lemma rep_node_at h par l a k r : rep h par (Node l a k r) → node_at h a k l r.
Proof. intros (Ha & _). eexists. by split_and!. Qed.

Lemma NoDup_node (l1 l2 : list loc) a :
  NoDup (l1 ++ a :: l2) ↔
  NoDup l1 ∧ NoDup l2 ∧ (a ∉ l1) ∧ (a ∉ l2) ∧ ∀ x, x ∈ l1 → x ∉ l2.
Proof.
  rewrite NoDup_app, NoDup_cons. split.
  - intros (Hl & Hd & Har & Hr). split_and!; try done.
    + intros Hx. apply (Hd _ Hx). by left.
    + intros x Hx Hx'. apply (Hd _ Hx). by right.
  - intros (Hl & Hr & Hal & Har & Hd). split_and!; try done.
    intros x Hx [-> | Hx']%elem_of_cons; [done | by apply (Hd x)].
Qed.

Lemma same_outside_refl ls h : same_outside ls h h.
Proof. by split. Qed.

Lemma same_outside_trans ls h1 h2 h3 :
  same_outside ls h1 h2 → same_outside ls h2 h3 → same_outside ls h1 h3.
Proof.
  intros [Hd1 Hf1] [Hd2 Hf2]. split; [congruence |].
  intros x Hx. rewrite Hf2, Hf1; done.
Qed.

Lemma same_outside_weaken ls ls' h h' :
  same_outside ls h h' → (∀ x, x ∈ ls → x ∈ ls') → same_outside ls' h h'.
Proof. intros [Hd Hf] Hsub. split; [done |]. intros x Hx. apply Hf. auto. Qed.

Lemma same_outside_insert ls h a n n' :
  h !! a = Some n → a ∈ ls → same_outside ls h (<[a := n']> h).
Proof.
  intros Hn Ha. split.
  - apply dom_insert_lookup_L. by eexists.
  - intros x Hx. apply lookup_insert_ne. by intros ->.
Qed.

Lemma update_node h a k l r :
  node_at h a k l r → srep h l → srep h r →
  NoDup (locs (Node l a k r)) →
  tsize (Node l a k r) < 2 ^ 64 →
  ∃ h', update (Some a) h = Ok tt h'
        ∧ rep h' None (Node l a k r)
        ∧ same_outside (locs (Node l a k r)) h h'.
Proof.
  intros (n & Hn & <- & Hnl & Hnr) Hl Hr Hnd Hsz.
  destruct (update_spec h a n l r Hn Hnl Hnr Hl Hr Hnd Hsz)
    as (h' & Hrun & Hrep & Hd & Hf).
  exists h'. by split_and!.
Qed.

End Basics.

Section Ordering.
Context {K : Type} `{Ordered K}.
Implicit Types (a b c x y : K).

(** ** The ordering of keys *)

Lemma less_asym a b : less a b = true → less b a = false.
Proof.
  intros Hab. destruct (less b a) eqn:Hba; [| reflexivity].
  pose proof (less_trans _ _ _ Hab Hba) as Haa.
  by rewrite less_irrefl in Haa.
Qed.

Lemma isKeyEqual_spec a b :
  isKeyEqual a b = true ↔ less a b = false ∧ less b a = false.
Proof.
  unfold isKeyEqual. destruct (less a b), (less b a); simpl; intuition congruence.
Qed.

Lemma isKeyEqual_false a b :
  isKeyEqual a b = false ↔ less a b = true ∨ less b a = true.
Proof.
  unfold isKeyEqual. destruct (less a b), (less b a); simpl; intuition congruence.
Qed.

Lemma isKeyEqual_refl a : isKeyEqual a a = true.
Proof. apply isKeyEqual_spec. by rewrite less_irrefl. Qed.



(** Equivalent keys compare alike against any third key. *)
Lemma less_equiv_l a b c : isKeyEqual a b = true → less a c = less b c.
Proof.
  rewrite isKeyEqual_spec. intros [Hab Hba].
  destruct (less a c) eqn:Hac, (less b c) eqn:Hbc; try reflexivity.
  - destruct (less c b) eqn:Hcb.
    + by rewrite (less_trans _ _ _ Hac Hcb) in Hab.
    + destruct (less_incomp_trans a b c Hab Hba Hbc Hcb) as [Hac' _]. congruence.
  - destruct (less c a) eqn:Hca.
    + by rewrite (less_trans _ _ _ Hbc Hca) in Hba.
    + destruct (less_incomp_trans b a c Hba Hab Hac Hca) as [Hbc' _]. congruence.
Qed.

Lemma less_equiv_r a b c : isKeyEqual a b = true → less c a = less c b.
Proof.
  rewrite isKeyEqual_spec. intros [Hab Hba].
  destruct (less c a) eqn:Hca, (less c b) eqn:Hcb; try reflexivity.
  - destruct (less b c) eqn:Hbc.
    + by rewrite (less_trans _ _ _ Hbc Hca) in Hba.
    + destruct (less_incomp_trans a b c Hab Hba Hbc Hcb) as [_ Hca']. congruence.
  - destruct (less a c) eqn:Hac.
    + by rewrite (less_trans _ _ _ Hac Hcb) in Hab.
    + destruct (less_incomp_trans b a c Hba Hab Hac Hca) as [_ Hcb']. congruence.
Qed.

End Ordering.

Section Balanced.
Context {K : Type} `{Ordered K}.
Implicit Types (t l r : tree (K:=K)) (a : loc).

(** ** Rotations keep the symmetric order *)

Lemma tree_rotateRight_locs t : locs (tree_rotateRight t) = locs t.
Proof.
  destruct t as [| [| A va vk B] ua uk C]; simpl; try reflexivity.
  by rewrite <- app_assoc.
Qed.

Lemma tree_rotateLeft_locs t : locs (tree_rotateLeft t) = locs t.
Proof.
  destruct t as [| A va vk [| B ua uk C]]; simpl; try reflexivity.
  by rewrite <- app_assoc.
Qed.

Lemma tree_rotateRight_keys t : keys (tree_rotateRight t) = keys t.
Proof.
  destruct t as [| [| A va vk B] ua uk C]; simpl; try reflexivity.
  by rewrite <- app_assoc.
Qed.

Lemma tree_rotateLeft_keys t : keys (tree_rotateLeft t) = keys t.
Proof.
  destruct t as [| A va vk [| B ua uk C]]; simpl; try reflexivity.
  by rewrite <- app_assoc.
Qed.

Lemma tree_balance_locs t : locs (tree_balance t) = locs t.
Proof.
  destruct t as [| l a k r]; [reflexivity |]. unfold tree_balance.
  repeat case_match; rewrite ?tree_rotateLeft_locs, ?tree_rotateRight_locs;
    simpl; rewrite ?tree_rotateLeft_locs, ?tree_rotateRight_locs; reflexivity.
Qed.

Lemma tree_balance_keys t : keys (tree_balance t) = keys t.
Proof.
  destruct t as [| l a k r]; [reflexivity |]. unfold tree_balance.
  repeat case_match; rewrite ?tree_rotateLeft_keys, ?tree_rotateRight_keys;
    simpl; rewrite ?tree_rotateLeft_keys, ?tree_rotateRight_keys; reflexivity.
Qed.

Lemma tree_balance_tsize t : tsize (tree_balance t) = tsize t.
Proof. by rewrite !tsize_length, tree_balance_locs. Qed.

(** ** [balance] restores the height balance *)

Lemma avl_balance_pre t : avl t → balance_pre t.
Proof. destruct t; simpl; [done |]. intros (? & ? & ?). split_and!; [done..|lia|lia]. Qed.

Lemma tree_balance_avl t :
  balance_pre t →
  avl (tree_balance t)
  ∧ (theight (tree_balance t) = theight t
     ∨ theight (tree_balance t) = theight t - 1
       ∧ (tree_getBalance t = 2 ∨ tree_getBalance t = -2)).
Proof.
  destruct t as [| l a k r]; [simpl; lia |].
  intros (Hl & Hr & Hd). unfold tree_balance, tree_getBalance.
  destruct (Z.eqb_spec (theight r - theight l) 2) as [H2 | H2].
  - destruct r as [| rl ra rk rr]; [simpl in *; pose proof (theight_nonneg l); lia |].
    destruct Hr as (Hrl & Hrr & Hdr).
    destruct (Z.ltb_spec (theight rr - theight rl) 0) as [Hneg | Hpos].
    + destruct rl as [| rll rla rlk rlr]; [simpl in *; pose proof (theight_nonneg rr); lia |].
      destruct Hrl as (Hrll & Hrlr & Hdrl).
      simpl in *. split_and!; try done; lia.
    + simpl in *. split_and!; try done; lia.
  - destruct (Z.eqb_spec (theight r - theight l) (-2)) as [Hm2 | Hm2].
    + destruct l as [| ll la lk lr]; [simpl in *; pose proof (theight_nonneg r); lia |].
      destruct Hl as (Hll & Hlr & Hdl).
      destruct (Z.ltb_spec 0 (theight lr - theight ll)) as [Hpos | Hneg].
      * destruct lr as [| lrl lra lrk lrr]; [simpl in *; pose proof (theight_nonneg ll); lia |].
        destruct Hlr as (Hlrl & Hlrr & Hdlr).
        simpl in *. split_and!; try done; lia.
      * simpl in *. split_and!; try done; lia.
    + simpl in *. split_and!; try done; lia.
Qed.

Lemma tree_balance_id t : avl t → tree_balance t = t.
Proof.
  destruct t as [| l a k r]; [reflexivity |].
  intros (Hl & Hr & Hd). unfold tree_balance, tree_getBalance.
  destruct (Z.eqb_spec (theight r - theight l) 2); [lia |].
  destruct (Z.eqb_spec (theight r - theight l) (-2)); [lia |]. reflexivity.
Qed.

(** ** [insert] keeps the tree balanced *)

Lemma tree_insert_avl new key t :
  avl t →
  avl (tree_insert new key t)
  ∧ theight t ≤ theight (tree_insert new key t) ≤ theight t + 1.
Proof.
  induction t as [| l IHl a k r IHr]; [simpl; lia |].
  intros (Hl & Hr & Hd). simpl tree_insert.
  destruct (isKeyEqual k key); [simpl; split_and!; try done; lia |].
  destruct (less k key).
  - destruct (IHr Hr) as (Hr' & Hhr').
    assert (Hpre : balance_pre (Node l a k (tree_insert new key r))).
    { simpl. split_and!; try done; lia. }
    destruct (tree_balance_avl _ Hpre) as (Havl & Hh).
    split; [exact Havl |]. cbn [theight tree_getBalance] in Hh |- *. lia.
  - destruct (IHl Hl) as (Hl' & Hhl').
    assert (Hpre : balance_pre (Node (tree_insert new key l) a k r)).
    { simpl. split_and!; try done; lia. }
    destruct (tree_balance_avl _ Hpre) as (Havl & Hh).
    split; [exact Havl |]. cbn [theight tree_getBalance] in Hh |- *. lia.
Qed.

(** ** [eraseMin] and [erase] keep the tree balanced *)

Lemma tree_leaf_or_node t : t = Leaf ∨ t ≠ Leaf.
Proof. destruct t; [by left | by right]. Qed.

Lemma tree_eraseMin_unfold l a k r :
  l ≠ Leaf →
  tree_eraseMin (Node l a k r) = tree_balance (Node (tree_eraseMin l) a k r).
Proof. destruct l; [done | reflexivity]. Qed.

Lemma tree_eraseMin_avl t :
  avl t →
  avl (tree_eraseMin t)
  ∧ theight t - 1 ≤ theight (tree_eraseMin t) ≤ theight t.
Proof.
  induction t as [| l IHl a k r IHr]; [simpl; lia |].
  intros (Hl & Hr & Hd).
  destruct (tree_leaf_or_node l) as [-> | Hne].
  - simpl in *. pose proof (theight_nonneg r). split; [done | lia].
  - rewrite tree_eraseMin_unfold by done.
    destruct (IHl Hl) as (Hl' & Hhl').
    assert (Hpre : balance_pre (Node (tree_eraseMin l) a k r)).
    { cbn [balance_pre]. split_and!; try done; lia. }
    destruct (tree_balance_avl _ Hpre) as (Havl & Hh).
    split; [exact Havl |]. cbn [theight tree_getBalance] in Hh |- *. lia.
Qed.

Lemma tree_erase_avl key t :
  avl t →
  avl (tree_erase key t)
  ∧ theight t - 1 ≤ theight (tree_erase key t) ≤ theight t.
Proof.
  induction t as [| l IHl a k r IHr]; [simpl; lia |].
  intros (Hl & Hr & Hd). simpl tree_erase.
  destruct (isKeyEqual k key).
  - destruct r as [| rl ra rk rr].
    + rewrite tree_balance_id by done. pose proof (theight_nonneg l).
      simpl in *. split; [done | lia].
    + remember (Node rl ra rk rr) as r eqn:Er.
      destruct (tree_eraseMin_avl r Hr) as (Hr' & Hhr').
      assert (Hpre : balance_pre (Node l (tree_findMin rl ra rk).1
                                       (tree_findMin rl ra rk).2 (tree_eraseMin r))).
      { cbn [balance_pre]. split_and!; try done; lia. }
      destruct (tree_balance_avl _ Hpre) as (Havl & Hh).
      split; [exact Havl |]. cbn [theight tree_getBalance] in Hh |- *. lia.
  - destruct (less k key).
    + destruct (IHr Hr) as (Hr' & Hhr').
      assert (Hpre : balance_pre (Node l a k (tree_erase key r))).
      { cbn [balance_pre]. split_and!; try done; lia. }
      destruct (tree_balance_avl _ Hpre) as (Havl & Hh).
      split; [exact Havl |]. cbn [theight tree_getBalance] in Hh |- *. lia.
    + destruct (IHl Hl) as (Hl' & Hhl').
      assert (Hpre : balance_pre (Node (tree_erase key l) a k r)).
      { cbn [balance_pre]. split_and!; try done; lia. }
      destruct (tree_balance_avl _ Hpre) as (Havl & Hh).
      split; [exact Havl |]. cbn [theight tree_getBalance] in Hh |- *. lia.
Qed.

End Balanced.

Section Rotations.
Context {K : Type} `{Ordered K} `{Machine}.
Implicit Types (h : heap K) (t l r : tree (K:=K)) (a : loc) (p : ptr).

(** ** The rotations on the heap *)

Lemma rotateRight_spec h A va vk B ua uk C :
  let u := Node (Node A va vk B) ua uk C in
  node_at h ua uk (Node A va vk B) C → node_at h va vk A B →
  srep h A → srep h B → srep h C →
  NoDup (locs u) → tsize u < 2 ^ 64 →
  ∃ h', rotateRight (Some ua) h = Ok (Some va) h'
        ∧ rep h' None (tree_rotateRight u)
        ∧ same_outside (locs u) h h'.
Proof.
  intros u (nu & Hu & Hku & Hlu & Hru) (nv & Hv & Hkv & Hlv & Hrv)
    HA HB HC Hnd Hsz.
  subst u. simpl in Hnd, Hsz |- *.
  pose proof Hnd as Hnd'.
  apply NoDup_node in Hnd' as (Hndv & HndC & HuV & HuC & HVC).
  pose proof Hndv as Hndv'. simpl in Hndv'.
  apply NoDup_node in Hndv' as (HndA & HndB & HvA & HvB & HAB).
  assert (Hne : ua ≠ va).
  { intros ->. apply HuV. simpl. set_solver. }
  unfold rotateRight.
  rewrite (bind_eq _ _ _ _ _ (get_left_eq _ _ _ Hu)). rewrite Hlu. simpl root_of.
  rewrite (bind_eq _ _ _ _ _ (get_right_eq _ _ _ Hv)). rewrite Hrv.
  rewrite (bind_eq _ _ _ _ _ (set_left_eq _ _ _ _ Hu)).
  set (h1 := <[ua := _]> h).
  assert (Hv1 : h1 !! va = Some nv).
  { unfold h1. by rewrite lookup_insert_ne. }
  rewrite (bind_eq _ _ _ _ _ (set_right_eq _ _ _ _ Hv1)).
  set (h2 := <[va := _]> h1).
  assert (Hf2 : ∀ x, x ≠ ua → x ≠ va → h2 !! x = h !! x).
  { intros x Hxu Hxv. unfold h2, h1. by rewrite !lookup_insert_ne. }
  assert (Hd2 : dom h2 = dom h).
  { unfold h2, h1. rewrite !dom_insert_lookup_L; [done | by eexists |].
    rewrite lookup_insert_ne by done. by eexists. }
  assert (Hu2 : node_at h2 ua uk B C).
  { eexists. split; [| split_and!].
    - unfold h2, h1. rewrite lookup_insert_ne by done. apply lookup_insert_eq.
    - done.
    - done.
    - done. }
  assert (HB2 : srep h2 B).
  { apply srep_frame with h; [done |]. intros x Hx. apply Hf2.
    - intros ->. apply HuV. simpl. set_solver.
    - by intros ->. }
  assert (HC2 : srep h2 C).
  { apply srep_frame with h; [done |]. intros x Hx. apply Hf2.
    - by intros ->.
    - intros ->. apply (HVC va); [simpl; set_solver | done]. }
  assert (Hnd2 : NoDup (locs (Node B ua uk C))).
  { simpl. apply NoDup_node. split_and!; try done.
    - intros Hx. apply HuV. simpl. set_solver.
    - intros x Hx. apply HVC. simpl. set_solver. }
  pose proof (tsize_nonneg A). pose proof (tsize_nonneg B).
  pose proof (tsize_nonneg C).
  destruct (update_node h2 ua uk B C Hu2 HB2 HC2 Hnd2) as (h3 & Hrun3 & Hrep3 & Hd3 & Hf3);
    [simpl; lia |].
  rewrite (bind_eq _ _ _ _ _ Hrun3).
  assert (HvBC : va ∉ locs (Node B ua uk C)).
  { simpl. intros [Hx | [Hx | Hx]%elem_of_cons]%elem_of_app.
    - done.
    - done.
    - apply (HVC va); [simpl; set_solver | done]. }
  assert (Hv3 : node_at h3 va vk A (Node B ua uk C)).
  { eexists. split; [| split_and!].
    - rewrite Hf3 by done. unfold h2. apply lookup_insert_eq.
    - done.
    - done.
    - done. }
  assert (HA3 : srep h3 A).
  { apply srep_frame with h; [done |]. intros x Hx.
    rewrite Hf3.
    - apply Hf2; [intros -> | intros ->]; [| done].
      apply HuV. simpl. set_solver.
    - simpl. intros [Hx' | [-> | Hx']%elem_of_cons]%elem_of_app.
      + by apply (HAB x).
      + apply HuV. simpl. set_solver.
      + apply (HVC x); [simpl; set_solver | done]. }
  assert (Hnd3 : NoDup (locs (Node A va vk (Node B ua uk C)))).
  { simpl. rewrite <- app_assoc in Hnd. exact Hnd. }
  destruct (update_node h3 va vk A (Node B ua uk C) Hv3 HA3 (rep_srep _ _ _ Hrep3) Hnd3)
    as (h4 & Hrun4 & Hrep4 & Hd4 & Hf4); [simpl; lia |].
  rewrite (bind_eq _ _ _ _ _ Hrun4).
  exists h4. split; [reflexivity |]. split; [exact Hrep4 |].
  split; [congruence |].
  intros x Hx. rewrite Hf4, Hf3, Hf2; try done.
  - intros ->. apply Hx. set_solver.
  - intros ->. apply Hx. set_solver.
  - intros Hx'. apply Hx. simpl in Hx'. set_solver.
  - intros Hx'. apply Hx. simpl in Hx'. rewrite <- app_assoc. exact Hx'.
Qed.

Lemma rotateLeft_spec h A va vk B ua uk C :
  let v := Node A va vk (Node B ua uk C) in
  node_at h va vk A (Node B ua uk C) → node_at h ua uk B C →
  srep h A → srep h B → srep h C →
  NoDup (locs v) → tsize v < 2 ^ 64 →
  ∃ h', rotateLeft (Some va) h = Ok (Some ua) h'
        ∧ rep h' None (tree_rotateLeft v)
        ∧ same_outside (locs v) h h'.
Proof.
  intros v (nv & Hv & Hkv & Hlv & Hrv) (nu & Hu & Hku & Hlu & Hru)
    HA HB HC Hnd Hsz.
  subst v. simpl in Hnd, Hsz |- *.
  pose proof Hnd as Hnd'.
  apply NoDup_node in Hnd' as (HndA & Hndu & HvA & HvU & HAU).
  pose proof Hndu as Hndu'.
  apply NoDup_node in Hndu' as (HndB & HndC & HuB & HuC & HBC).
  assert (Hne : va ≠ ua).
  { intros ->. apply HvU. set_solver. }
  unfold rotateLeft.
  rewrite (bind_eq _ _ _ _ _ (get_right_eq _ _ _ Hv)). rewrite Hrv. simpl root_of.
  rewrite (bind_eq _ _ _ _ _ (get_left_eq _ _ _ Hu)). rewrite Hlu.
  rewrite (bind_eq _ _ _ _ _ (set_right_eq _ _ _ _ Hv)).
  set (h1 := <[va := _]> h).
  assert (Hu1 : h1 !! ua = Some nu).
  { unfold h1. by rewrite lookup_insert_ne. }
  rewrite (bind_eq _ _ _ _ _ (set_left_eq _ _ _ _ Hu1)).
  set (h2 := <[ua := _]> h1).
  assert (Hf2 : ∀ x, x ≠ ua → x ≠ va → h2 !! x = h !! x).
  { intros x Hxu Hxv. unfold h2, h1. by rewrite !lookup_insert_ne. }
  assert (Hd2 : dom h2 = dom h).
  { unfold h2, h1. rewrite !dom_insert_lookup_L; [done | by eexists |].
    rewrite lookup_insert_ne by done. by eexists. }
  assert (Hv2 : node_at h2 va vk A B).
  { eexists. split; [| split_and!].
    - unfold h2, h1. rewrite lookup_insert_ne by done. apply lookup_insert_eq.
    - done.
    - done.
    - done. }
  assert (HA2 : srep h2 A).
  { apply srep_frame with h; [done |]. intros x Hx. apply Hf2.
    - intros ->. apply (HAU ua); [done | set_solver].
    - by intros ->. }
  assert (HB2 : srep h2 B).
  { apply srep_frame with h; [done |]. intros x Hx. apply Hf2.
    - by intros ->.
    - intros ->. apply HvU. set_solver. }
  assert (Hnd2 : NoDup (locs (Node A va vk B))).
  { simpl. apply NoDup_node. split_and!; try done.
    - intros Hx. apply HvU. set_solver.
    - intros x Hx Hx'. apply (HAU x); [done | set_solver]. }
  pose proof (tsize_nonneg A). pose proof (tsize_nonneg B).
  pose proof (tsize_nonneg C).
  destruct (update_node h2 va vk A B Hv2 HA2 HB2 Hnd2) as (h3 & Hrun3 & Hrep3 & Hd3 & Hf3);
    [simpl; lia |].
  rewrite (bind_eq _ _ _ _ _ Hrun3).
  assert (HuAB : ua ∉ locs (Node A va vk B)).
  { simpl. intros [Hx | [Hx | Hx]%elem_of_cons]%elem_of_app.
    - apply (HAU ua); [done | set_solver].
    - done.
    - done. }
  assert (Hu3 : node_at h3 ua uk (Node A va vk B) C).
  { eexists. split; [| split_and!].
    - rewrite Hf3 by done. unfold h2. apply lookup_insert_eq.
    - done.
    - done.
    - done. }
  assert (HC3 : srep h3 C).
  { apply srep_frame with h; [done |]. intros x Hx.
    rewrite Hf3.
    - apply Hf2; [intros -> | intros ->]; [done |].
      apply HvU. set_solver.
    - simpl. intros [Hx' | [-> | Hx']%elem_of_cons]%elem_of_app.
      + apply (HAU x); [done | set_solver].
      + apply HvU. set_solver.
      + by apply (HBC x). }
  assert (Hnd3 : NoDup (locs (Node (Node A va vk B) ua uk C))).
  { simpl. rewrite <- app_assoc. exact Hnd. }
  destruct (update_node h3 ua uk (Node A va vk B) C Hu3 (rep_srep _ _ _ Hrep3) HC3 Hnd3)
    as (h4 & Hrun4 & Hrep4 & Hd4 & Hf4); [simpl; lia |].
  rewrite (bind_eq _ _ _ _ _ Hrun4).
  exists h4. split; [reflexivity |]. split; [exact Hrep4 |].
  split; [congruence |].
  intros x Hx. rewrite Hf4, Hf3, Hf2; try done.
  - intros ->. apply Hx. set_solver.
  - intros ->. apply Hx. set_solver.
  - intros Hx'. apply Hx. simpl in Hx'. set_solver.
  - intros Hx'. apply Hx. simpl in Hx'. rewrite <- app_assoc in Hx'. exact Hx'.
Qed.

Lemma rep_children h par l a k r :
  rep h par (Node l a k r) → node_at h a k l r ∧ srep h l ∧ srep h r.
Proof.
  intros Hrep. split; [by eapply rep_node_at |].
  destruct Hrep as (_ & Hl & Hr). split; by eexists.
Qed.

Lemma rotateRight_node h l a k r :
  l ≠ Leaf →
  node_at h a k l r → srep h l → srep h r →
  NoDup (locs (Node l a k r)) → tsize (Node l a k r) < 2 ^ 64 →
  ∃ h', rotateRight (Some a) h = Ok (root_of (tree_rotateRight (Node l a k r))) h'
        ∧ rep h' None (tree_rotateRight (Node l a k r))
        ∧ same_outside (locs (Node l a k r)) h h'.
Proof.
  intros Hne Ha [pl Hl] Hr Hnd Hsz.
  destruct l as [| A va vk B]; [done |].
  destruct (rep_children _ _ _ _ _ _ Hl) as (Hv & HA & HB).
  by apply rotateRight_spec.
Qed.

Lemma rotateLeft_node h l a k r :
  r ≠ Leaf →
  node_at h a k l r → srep h l → srep h r →
  NoDup (locs (Node l a k r)) → tsize (Node l a k r) < 2 ^ 64 →
  ∃ h', rotateLeft (Some a) h = Ok (root_of (tree_rotateLeft (Node l a k r))) h'
        ∧ rep h' None (tree_rotateLeft (Node l a k r))
        ∧ same_outside (locs (Node l a k r)) h h'.
Proof.
  intros Hne Ha Hl [pr Hr] Hnd Hsz.
  destruct r as [| B ua uk C]; [done |].
  destruct (rep_children _ _ _ _ _ _ Hr) as (Hu & HB & HC).
  by apply rotateLeft_spec.
Qed.

(** ** [getBalance] and [balance] on the heap *)

Lemma getBalance_rep h par l a k r :
  rep h par (Node l a k r) →
  tsize (Node l a k r) < 2 ^ 64 →
  - 2 ^ 31 ≤ theight r - theight l < 2 ^ 31 →
  getBalance (Some a) h = Ok (theight r - theight l) h.
Proof.
  intros Hrep Hsz Hd. pose proof (rep_lookup _ _ _ _ _ _ Hrep) as Ha.
  destruct Hrep as (_ & Hl & Hr). unfold getBalance.
  rewrite (bind_eq _ _ _ _ _ (get_right_eq _ _ _ Ha)). simpl nright.
  rewrite (bind_eq _ _ _ _ _ (height_rep _ _ _ Hr)).
  rewrite (bind_eq _ _ _ _ _ (get_left_eq _ _ _ Ha)). simpl nleft.
  rewrite (bind_eq _ _ _ _ _ (height_rep _ _ _ Hl)).
  unfold ret. by rewrite to_int_to_size_t.
Qed.

Lemma theight_pos_node t : 0 < theight t → t ≠ Leaf.
Proof. intros Hh ->. simpl in Hh. lia. Qed.

Lemma tsize_node_l l a k r : tsize l < tsize (Node l a k r).
Proof. simpl. pose proof (tsize_nonneg r). lia. Qed.

Lemma tsize_node_r l a k r : tsize r < tsize (Node l a k r).
Proof. simpl. pose proof (tsize_nonneg l). lia. Qed.

Lemma balance_spec h t :
  match t with
  | Leaf => True
  | Node l a k r => node_at h a k l r ∧ srep h l ∧ srep h r
  end →
  NoDup (locs t) → tsize t < 2 ^ 64 → balance_pre t →
  ∃ h', balance (root_of t) h = Ok (root_of (tree_balance t)) h'
        ∧ rep h' None (tree_balance t)
        ∧ same_outside (locs t) h h'.
Proof.
  destruct t as [| l a k r].
  { intros _ _ _ _. exists h. split_and!; [done | done | apply same_outside_refl]. }
  intros (Ha & Hl & Hr) Hnd Hsz (Havl & Havr & Hd).
  pose proof Hnd as Hnd'. simpl in Hnd'.
  apply NoDup_node in Hnd' as (Hndl & Hndr & Hal & Har & Hlr).
  destruct (update_node h a k l r Ha Hl Hr Hnd Hsz) as (h1 & Hrun1 & Hrep1 & Hso1).
  simpl root_of at 1. unfold balance.
  rewrite (bind_eq _ _ _ _ _ Hrun1).
  rewrite (bind_eq _ _ _ _ _ (getBalance_rep _ _ _ _ _ _ Hrep1 Hsz ltac:(lia))).
  unfold tree_balance, tree_getBalance.
  pose proof (theight_nonneg l) as Hhl. pose proof (theight_nonneg r) as Hhr.
  destruct (rep_children _ _ _ _ _ _ Hrep1) as (Ha1 & Hl1 & Hr1).
  destruct Ha1 as (n1 & Hn1 & Hk1 & Hnl1 & Hnr1).
  destruct (Z.eqb_spec (theight r - theight l) 2) as [H2 | H2].
  - (* right-heavy *)
    assert (Hrne : r ≠ Leaf) by (apply theight_pos_node; lia).
    rewrite (bind_eq _ _ _ _ _ (get_right_eq _ _ _ Hn1)). rewrite Hnr1.
    destruct r as [| rl ra rk rr]; [done |].
    destruct Hrep1 as (Ha1' & Hrepl1 & Hrepr1).
    destruct Havr as (Havrl & Havrr & Hdr).
    pose proof (tsize_node_r l a k (Node rl ra rk rr)) as Hszr.
    rewrite (bind_eq _ _ _ _ _ (getBalance_rep _ _ _ _ _ _ Hrepr1 ltac:(lia) ltac:(lia))).
    cbn [tree_getBalance].
    destruct (Z.ltb_spec (theight rr - theight rl) 0) as [Hneg | Hpos].
    + pose proof (theight_nonneg rr).
      assert (Hrlne : rl ≠ Leaf) by (apply theight_pos_node; lia).
      destruct (rep_children _ _ _ _ _ _ Hrepr1) as (Hra1 & Hrl1 & Hrr1).
      destruct (rotateRight_node h1 rl ra rk rr Hrlne Hra1 Hrl1 Hrr1 Hndr ltac:(lia))
        as (h2 & Hrun2 & Hrep2 & Hso2).
      assert (Hn2 : h2 !! a = Some n1).
      { destruct Hso2 as [_ Hf2]. by rewrite Hf2. }
      set (r' := tree_rotateRight (Node rl ra rk rr)) in *.
      pose proof (set_right_eq _ _ _ (root_of r') Hn2) as Hrun3.
      set (h3 := <[a := _]> h2) in Hrun3.
      assert (Hstep : (do tr' <- rotateRight (Some ra); set_right (Some a) tr') h1
                      = Ok tt h3).
      { by rewrite (bind_eq _ _ _ _ _ Hrun2). }
      rewrite (bind_eq _ _ _ _ _ Hstep).
      assert (Hlocs' : locs r' = locs (Node rl ra rk rr))
        by apply tree_rotateRight_locs.
      assert (Hso3 : same_outside (locs (Node l a k (Node rl ra rk rr))) h1 h3).
      { eapply same_outside_trans.
        - eapply same_outside_weaken; [exact Hso2 |]. intros x Hx. simpl. set_solver.
        - eapply same_outside_insert; [exact Hn2 |]. simpl. set_solver. }
      assert (Hr'ne : r' ≠ Leaf).
      { unfold r'. destruct rl; [done |]. done. }
      assert (Ha3 : node_at h3 a k l r').
      { eexists. split; [apply lookup_insert_eq |]. by split_and!. }
      assert (Hl3 : srep h3 l).
      { apply srep_frame with h1; [done |]. intros x Hx.
        unfold h3. rewrite lookup_insert_ne by (by intros ->).
        destruct Hso2 as [_ Hf2]. apply Hf2. by apply Hlr. }
      assert (Hr3 : srep h3 r').
      { apply srep_frame with h2; [by eexists |]. intros x Hx.
        unfold h3. apply lookup_insert_ne. intros ->.
        rewrite Hlocs' in Hx. done. }
      assert (Hnd3 : NoDup (locs (Node l a k r'))).
      { simpl. rewrite Hlocs'. exact Hnd. }
      assert (Hsz3 : tsize (Node l a k r') < 2 ^ 64).
      { rewrite !tsize_length in *. simpl. rewrite Hlocs'. exact Hsz. }
      destruct (rotateLeft_node h3 l a k r' Hr'ne Ha3 Hl3 Hr3 Hnd3 Hsz3)
        as (h4 & Hrun4 & Hrep4 & Hso4).
      exists h4. split; [exact Hrun4 |]. split; [exact Hrep4 |].
      eapply same_outside_trans; [exact Hso1 |].
      eapply same_outside_trans; [exact Hso3 |].
      eapply same_outside_weaken; [exact Hso4 |].
      intros x Hx. simpl in Hx |- *. by rewrite Hlocs' in Hx.
    + unfold ret at 1. cbn [bind].
      destruct (rotateLeft_node h1 l a k (Node rl ra rk rr) Hrne
                  ltac:(by eexists; split_and!) Hl1 Hr1 Hnd Hsz)
        as (h4 & Hrun4 & Hrep4 & Hso4).
      exists h4. split; [exact Hrun4 |]. split; [exact Hrep4 |].
      eapply same_outside_trans; [exact Hso1 | exact Hso4].
  - destruct (Z.eqb_spec (theight r - theight l) (-2)) as [Hm2 | Hm2].
    + (* left-heavy *)
      assert (Hlne : l ≠ Leaf) by (apply theight_pos_node; lia).
      rewrite (bind_eq _ _ _ _ _ (get_left_eq _ _ _ Hn1)). rewrite Hnl1.
      destruct l as [| ll la lk lr]; [done |].
      destruct Hrep1 as (Ha1' & Hrepl1 & Hrepr1).
      destruct Havl as (Havll & Havlr & Hdl).
      pose proof (tsize_node_l (Node ll la lk lr) a k r) as Hszl.
      rewrite (bind_eq _ _ _ _ _ (getBalance_rep _ _ _ _ _ _ Hrepl1 ltac:(lia) ltac:(lia))).
      cbn [tree_getBalance].
      destruct (Z.ltb_spec 0 (theight lr - theight ll)) as [Hpos | Hneg].
      * pose proof (theight_nonneg ll).
        assert (Hlrne : lr ≠ Leaf) by (apply theight_pos_node; lia).
        destruct (rep_children _ _ _ _ _ _ Hrepl1) as (Hla1 & Hll1 & Hlr1).
        destruct (rotateLeft_node h1 ll la lk lr Hlrne Hla1 Hll1 Hlr1 Hndl ltac:(lia))
          as (h2 & Hrun2 & Hrep2 & Hso2).
        assert (Hn2 : h2 !! a = Some n1).
        { destruct Hso2 as [_ Hf2]. by rewrite Hf2. }
        set (l' := tree_rotateLeft (Node ll la lk lr)) in *.
        pose proof (set_left_eq _ _ _ (root_of l') Hn2) as Hrun3.
        set (h3 := <[a := _]> h2) in Hrun3.
        assert (Hstep : (do tl' <- rotateLeft (Some la); set_left (Some a) tl') h1
                        = Ok tt h3).
        { by rewrite (bind_eq _ _ _ _ _ Hrun2). }
        rewrite (bind_eq _ _ _ _ _ Hstep).
        assert (Hlocs' : locs l' = locs (Node ll la lk lr))
          by apply tree_rotateLeft_locs.
        assert (Hso3 : same_outside (locs (Node (Node ll la lk lr) a k r)) h1 h3).
        { eapply same_outside_trans.
          - eapply same_outside_weaken; [exact Hso2 |]. intros x Hx. simpl. set_solver.
          - eapply same_outside_insert; [exact Hn2 |]. simpl. set_solver. }
        assert (Hl'ne : l' ≠ Leaf).
        { unfold l'. destruct lr; [done |]. done. }
        assert (Ha3 : node_at h3 a k l' r).
        { eexists. split; [apply lookup_insert_eq |]. by split_and!. }
        assert (Hr3 : srep h3 r).
        { apply srep_frame with h1; [done |]. intros x Hx.
          unfold h3. rewrite lookup_insert_ne by (by intros ->).
          destruct Hso2 as [_ Hf2]. apply Hf2. intros Hx'. by apply (Hlr x). }
        assert (Hl3 : srep h3 l').
        { apply srep_frame with h2; [by eexists |]. intros x Hx.
          unfold h3. apply lookup_insert_ne. intros ->.
          rewrite Hlocs' in Hx. done. }
        assert (Hnd3 : NoDup (locs (Node l' a k r))).
        { simpl. rewrite Hlocs'. exact Hnd. }
        assert (Hsz3 : tsize (Node l' a k r) < 2 ^ 64).
        { rewrite !tsize_length in *. simpl. rewrite Hlocs'. exact Hsz. }
        destruct (rotateRight_node h3 l' a k r Hl'ne Ha3 Hl3 Hr3 Hnd3 Hsz3)
          as (h4 & Hrun4 & Hrep4 & Hso4).
        exists h4. split; [exact Hrun4 |]. split; [exact Hrep4 |].
        eapply same_outside_trans; [exact Hso1 |].
        eapply same_outside_trans; [exact Hso3 |].
        eapply same_outside_weaken; [exact Hso4 |].
        intros x Hx. simpl in Hx |- *. by rewrite Hlocs' in Hx.
      * unfold ret at 1. cbn [bind].
        destruct (rotateRight_node h1 (Node ll la lk lr) a k r Hlne
                    ltac:(by eexists; split_and!) Hl1 Hr1 Hnd Hsz)
          as (h4 & Hrun4 & Hrep4 & Hso4).
        exists h4. split; [exact Hrun4 |]. split; [exact Hrep4 |].
        eapply same_outside_trans; [exact Hso1 | exact Hso4].
    + exists h1. split; [reflexivity |]. split; [exact Hrep1 | exact Hso1].
Qed.

End Rotations.

Section Elements.
Context {K : Type} `{Ordered K}.
Implicit Types (t l r : tree (K:=K)) (a : loc) (k key : K).

(** ** The elements of a tree in symmetric order *)

Lemma locs_elems t : locs t = (elems t).*1.
Proof.
  induction t as [| l IHl a k r IHr]; [reflexivity |].
  simpl. rewrite fmap_app. simpl. by rewrite IHl, IHr.
Qed.

Lemma keys_elems t : keys t = (elems t).*2.
Proof.
  induction t as [| l IHl a k r IHr]; [reflexivity |].
  simpl. rewrite fmap_app. simpl. by rewrite IHl, IHr.
Qed.

Lemma tree_rotateRight_elems t : elems (tree_rotateRight t) = elems t.
Proof.
  destruct t as [| [| A va vk B] ua uk C]; simpl; try reflexivity.
  by rewrite <- app_assoc.
Qed.

Lemma tree_rotateLeft_elems t : elems (tree_rotateLeft t) = elems t.
Proof.
  destruct t as [| A va vk [| B ua uk C]]; simpl; try reflexivity.
  by rewrite <- app_assoc.
Qed.

Lemma tree_balance_elems t : elems (tree_balance t) = elems t.
Proof.
  destruct t as [| l a k r]; [reflexivity |]. unfold tree_balance.
  repeat case_match; rewrite ?tree_rotateLeft_elems, ?tree_rotateRight_elems;
    simpl; rewrite ?tree_rotateLeft_elems, ?tree_rotateRight_elems; reflexivity.
Qed.

(** ** Search trees are the trees whose keys are sorted *)

Lemma bst_sorted t : bst t ↔ StronglySorted (λ x y : K, less x y = true) (keys t).
Proof.
  induction t as [| l IHl a k r IHr]; simpl.
  - split; [constructor | done].
  - rewrite StronglySorted_app, StronglySorted_cons, IHl, IHr.
    rewrite !Forall_forall. split.
    + intros (Hl & Hr & Hlk & Hkr). split_and!; try done.
      intros x y Hx [-> | Hy]%elem_of_cons; [by apply Hlk |].
      apply less_trans with k; [by apply Hlk | by apply Hkr].
    + intros (Hlr & Hl & Hkr & Hr). split_and!; try done.
      intros x Hx. apply Hlr; [done | by left].
Qed.

Lemma tree_balance_bst t : bst (tree_balance t) ↔ bst t.
Proof. by rewrite !bst_sorted, tree_balance_keys. Qed.

(** ** [find] on search trees *)

Lemma tree_find_elem key t a :
  tree_find key t = Some a →
  ∃ k, (a, k) ∈ elems t ∧ isKeyEqual k key = true.
Proof.
  induction t as [| l IHl b k r IHr]; simpl; [done |].
  destruct (isKeyEqual k key) eqn:He.
  - intros [= <-]. exists k. split; [set_solver | done].
  - destruct (less k key).
    + intros (k' & Hin & Hk')%IHr. exists k'. split; [set_solver | done].
    + intros (k' & Hin & Hk')%IHl. exists k'. split; [set_solver | done].
Qed.

Lemma tree_find_None key t :
  bst t →
  tree_find key t = None ↔ ∀ k, k ∈ keys t → isKeyEqual k key = false.
Proof.
  induction t as [| l IHl b k r IHr]; simpl.
  - intros _. split; [| done]. intros _ k Hk. by apply elem_of_nil in Hk.
  - intros (Hl & Hr & Hlk & Hkr).
    rewrite Forall_forall in Hlk, Hkr.
    destruct (isKeyEqual k key) eqn:He.
    + split; [done |]. intros Hall.
      rewrite Hall in He; [done | set_solver].
    + destruct (less k key) eqn:Hlt.
      * rewrite (IHr Hr). split.
        -- intros Hall x [Hx | [-> | Hx]%elem_of_cons]%elem_of_app; [| done | by apply Hall].
           apply isKeyEqual_false. left.
           apply less_trans with k; [by apply Hlk | done].
        -- intros Hall x Hx. apply Hall. set_solver.
      * assert (Hgt : less key k = true).
        { apply isKeyEqual_false in He as [He | He]; [congruence | done]. }
        rewrite (IHl Hl). split.
        -- intros Hall x [Hx | [-> | Hx]%elem_of_cons]%elem_of_app; [by apply Hall | done |].
           apply isKeyEqual_false. right.
           apply less_trans with k; [done | by apply Hkr].
        -- intros Hall x Hx. apply Hall. set_solver.
Qed.

(** ** The elements after [insert] *)

Lemma tree_insert_found new key t :
  avl t → tree_find key t ≠ None → tree_insert new key t = t.
Proof.
  induction t as [| l IHl a k r IHr]; simpl; [done |].
  intros (Hl & Hr & Hd) Hf.
  destruct (isKeyEqual k key); [reflexivity |].
  destruct (less k key).
  - rewrite IHr by done. apply tree_balance_id. exact (conj Hl (conj Hr Hd)).
  - rewrite IHl by done. apply tree_balance_id. exact (conj Hl (conj Hr Hd)).
Qed.

Lemma tree_insert_elems new key t :
  tree_find key t = None →
  ∃ es1 es2, elems t = es1 ++ es2
    ∧ elems (tree_insert new key t) = es1 ++ (new, key) :: es2
    ∧ (bst t → Forall (λ e, less e.2 key = true) es1
               ∧ Forall (λ e, less key e.2 = true) es2).
Proof.
  induction t as [| l IHl a k r IHr]; simpl.
  - intros _. exists [], []. by split_and!.
  - destruct (isKeyEqual k key) eqn:He; [done |].
    destruct (less k key) eqn:Hlt.
    + intros (es1 & es2 & Hel & Hel' & Hord)%IHr.
      exists (elems l ++ (a, k) :: es1), es2. split_and!.
      * rewrite Hel. by rewrite <- app_assoc.
      * rewrite tree_balance_elems. simpl. rewrite Hel'. by rewrite <- app_assoc.
      * intros (Hl & Hr & Hlk & Hkr). destruct (Hord Hr) as [Ho1 Ho2].
        split; [| done]. apply Forall_app. split; [| by constructor].
        rewrite keys_elems, Forall_fmap in Hlk.
        eapply Forall_impl; [exact Hlk |]. simpl. intros e Hek.
        by apply less_trans with k.
    + assert (Hgt : less key k = true).
      { apply isKeyEqual_false in He as [He | He]; [congruence | done]. }
      intros (es1 & es2 & Hel & Hel' & Hord)%IHl.
      exists es1, (es2 ++ (a, k) :: elems r). split_and!.
      * rewrite Hel. by rewrite <- app_assoc.
      * rewrite tree_balance_elems. simpl. rewrite Hel'. by rewrite <- app_assoc.
      * intros (Hl & Hr & Hlk & Hkr). destruct (Hord Hl) as [Ho1 Ho2].
        split; [done |]. apply Forall_app. split; [done |].
        constructor; [done |].
        rewrite keys_elems, Forall_fmap in Hkr.
        eapply Forall_impl; [exact Hkr |]. simpl. intros e Hek.
        by apply less_trans with k.
Qed.

Lemma tree_insert_elems_found new key t :
  tree_find key t ≠ None → elems (tree_insert new key t) = elems t.
Proof.
  induction t as [| l IHl a k r IHr]; simpl; [done |].
  destruct (isKeyEqual k key); [done |].
  destruct (less k key); intros Hf; rewrite tree_balance_elems; simpl.
  - by rewrite IHr.
  - by rewrite IHl.
Qed.

Lemma tree_insert_locs new key t :
  (∀ x, x ∈ locs (tree_insert new key t) → x = new ∨ x ∈ locs t)
  ∧ (NoDup (locs t) → new ∉ locs t → NoDup (locs (tree_insert new key t)))
  ∧ tsize t ≤ tsize (tree_insert new key t) ≤ tsize t + 1.
Proof.
  rewrite !tsize_length, !locs_elems.
  destruct (tree_find key t) as [a |] eqn:Hf.
  - rewrite tree_insert_elems_found by congruence.
    split_and!; [by right | done | lia | lia].
  - destruct (tree_insert_elems new key t Hf) as (es1 & es2 & -> & -> & _).
    rewrite !fmap_app, fmap_cons, !length_app. simpl.
    split_and!; [| | lia | lia].
    + intros x. rewrite !elem_of_app, elem_of_cons. tauto.
    + intros Hnd Hnew. apply NoDup_node.
      apply NoDup_app in Hnd as (Hnd1 & Hd & Hnd2).
      rewrite elem_of_app in Hnew. split_and!; try done; tauto.
Qed.

Lemma tree_insert_tsize new key t :
  tsize (tree_insert new key t)
  = tsize t + (if tree_find key t is None then 1 else 0).
Proof.
  rewrite !tsize_length, !locs_elems.
  destruct (tree_find key t) as [a |] eqn:Hf.
  - rewrite tree_insert_elems_found by congruence. lia.
  - destruct (tree_insert_elems new key t Hf) as (es1 & es2 & -> & -> & _).
    rewrite !length_fmap, !length_app. simpl. lia.
Qed.

(** ** The elements after [eraseMin] and [erase] *)

Lemma tree_eraseMin_elems l a k r :
  elems (Node l a k r)
  = tree_findMin l a k :: elems (tree_eraseMin (Node l a k r)).
Proof.
  revert a k r. induction l as [| ll IHll la lk lr IHlr]; intros a k r.
  - reflexivity.
  - rewrite tree_eraseMin_unfold by done. rewrite tree_balance_elems.
    change (elems (Node (Node ll la lk lr) a k r))
      with (elems (Node ll la lk lr) ++ (a, k) :: elems r).
    rewrite (IHll la lk lr). reflexivity.
Qed.

Lemma tree_eraseMin_locs t :
  (∀ x, x ∈ locs (tree_eraseMin t) → x ∈ locs t)
  ∧ (NoDup (locs t) → NoDup (locs (tree_eraseMin t)))
  ∧ tsize (tree_eraseMin t) ≤ tsize t.
Proof.
  destruct t as [| l a k r]; [by split_and! |].
  rewrite !tsize_length, !locs_elems, tree_eraseMin_elems.
  rewrite fmap_cons. split_and!.
  - intros x Hx. by right.
  - by intros [_ Hnd]%NoDup_cons.
  - simpl. lia.
Qed.

Lemma tree_erase_elems_absent key t :
  tree_find key t = None → elems (tree_erase key t) = elems t.
Proof.
  induction t as [| l IHl a k r IHr]; simpl; [done |].
  destruct (isKeyEqual k key); [done |].
  destruct (less k key); intros Hf; rewrite tree_balance_elems; simpl.
  - by rewrite IHr.
  - by rewrite IHl.
Qed.

Lemma tree_erase_elems key t a :
  tree_find key t = Some a →
  ∃ es1 k es2, elems t = es1 ++ (a, k) :: es2
    ∧ elems (tree_erase key t) = es1 ++ es2
    ∧ isKeyEqual k key = true.
Proof.
  induction t as [| l IHl b k r IHr]; simpl; [done |].
  destruct (isKeyEqual k key) eqn:He.
  - intros [= <-]. exists (elems l), k, (elems r). split_and!; try done.
    destruct r as [| rl ra rk rr].
    + rewrite tree_balance_elems. simpl. by rewrite app_nil_r.
    + rewrite tree_balance_elems. cbn [elems].
      rewrite <- surjective_pairing. by rewrite <- tree_eraseMin_elems.
  - destruct (less k key).
    + intros (es1 & k' & es2 & Hel & Hel' & Hk)%IHr.
      exists (elems l ++ (b, k) :: es1), k', es2. split_and!; try done.
      * rewrite Hel. by rewrite <- app_assoc.
      * rewrite tree_balance_elems. simpl. rewrite Hel'. by rewrite <- app_assoc.
    + intros (es1 & k' & es2 & Hel & Hel' & Hk)%IHl.
      exists es1, k', (es2 ++ (b, k) :: elems r). split_and!; try done.
      * rewrite Hel. by rewrite <- app_assoc.
      * rewrite tree_balance_elems. simpl. rewrite Hel'. by rewrite <- app_assoc.
Qed.

Lemma tree_erase_locs key t :
  (∀ x, x ∈ locs (tree_erase key t) → x ∈ locs t)
  ∧ (NoDup (locs t) → NoDup (locs (tree_erase key t)))
  ∧ tsize (tree_erase key t) ≤ tsize t.
Proof.
  rewrite !tsize_length, !locs_elems.
  destruct (tree_find key t) as [a |] eqn:Hf.
  - destruct (tree_erase_elems key t a Hf) as (es1 & k & es2 & -> & -> & _).
    rewrite !fmap_app, fmap_cons, !length_app. simpl. split_and!.
    + intros x. rewrite !elem_of_app, elem_of_cons. tauto.
    + intros (Hnd1 & Hnd2 & _ & _ & Hd)%NoDup_node.
      apply NoDup_app. split_and!; done.
    + lia.
  - rewrite tree_erase_elems_absent by done. by split_and!.
Qed.

End Elements.

Section Insert.
Context {K : Type} `{Ordered K} `{Machine}.
Implicit Types (h : heap K) (t l r : tree (K:=K)) (a : loc) (p : ptr).

(** ** [AVLInsert] on the heap *)

Lemma rep_locs_dom h par t x : rep h par t → x ∈ locs t → x ∈ dom h.
Proof. intros Hrep Hx. apply elem_of_dom. by eapply rep_dom. Qed.

Lemma fresh_not_in_tree h par t : rep h par t → fresh (dom h) ∉ locs t.
Proof.
  intros Hrep Hx. apply (is_fresh (dom h)). by eapply rep_locs_dom.
Qed.

Lemma new_node_eq h (n : TreeNode K) :
  (size h < max_nodes)%nat →
  new_node n h = Ok (Some (fresh (dom h))) (<[fresh (dom h) := n]> h).
Proof. intros Hsz. unfold new_node. by rewrite decide_True. Qed.

Lemma AVLInsert_spec key t :
  ∀ fuel h par0 parent,
    rep h par0 t → NoDup (locs t) → avl t →
    theight t < Z.of_nat fuel →
    tsize (tree_insert (fresh (dom h)) key t) < 2 ^ 64 →
    (tree_find key t = None → (size h < max_nodes)%nat) →
    ∃ h' par',
      AVLInsert fuel (root_of t) key parent h
      = Ok (root_of (tree_insert (fresh (dom h)) key t)) h'
      ∧ rep h' par' (tree_insert (fresh (dom h)) key t)
      ∧ (par0 = None → parent = None → par' = None)
      ∧ (∀ x, x ∉ locs t → x ≠ fresh (dom h) → h' !! x = h !! x)
      ∧ dom h' = (if tree_find key t is None
                  then {[fresh (dom h)]} ∪ dom h else dom h).
Proof.
  induction t as [| l IHl a k r IHr];
    intros fuel h par0 parent Hrep Hnd Havl Hfuel Hsz Hroom;
    (destruct fuel as [| fuel]; [pose proof (theight_nonneg l); simpl in Hfuel; lia |])
    || (destruct fuel as [| fuel]; [simpl in Hfuel; lia |]).
  - (* an absent subtree: the new leaf *)
    simpl. specialize (Hroom eq_refl).
    rewrite (bind_eq _ _ _ _ _ (new_node_eq _ _ Hroom)).
    set (new := fresh (dom h)).
    rewrite (bind_eq _ _ _ _ _ (get_key_eq _ _ _ (lookup_insert_eq _ _ _))).
    cbn [nkey]. rewrite isKeyEqual_refl.
    eexists _, parent. split_and!; try done.
    + apply lookup_insert_eq.
    + intros x _ Hx. by apply lookup_insert_ne.
    + apply dom_insert_L.
  - pose proof (rep_lookup _ _ _ _ _ _ Hrep) as Ha.
    pose proof Hnd as Hnd'. simpl in Hnd'.
    apply NoDup_node in Hnd' as (Hndl & Hndr & Hal & Har & Hlr).
    destruct Havl as (Havl & Havr & Hd).
    pose proof (fresh_not_in_tree _ _ _ Hrep) as Hnew.
    assert (Hanew : a ≠ fresh (dom h)).
    { intros Heq. apply Hnew. rewrite <- Heq. simpl. set_solver. }
    pose proof (tsize_nonneg l) as Hsl. pose proof (tsize_nonneg r) as Hsr.
    pose proof (theight_nonneg l) as Hhl. pose proof (theight_nonneg r) as Hhr.
    destruct Hrep as (_ & Hrepl & Hrepr).
    rewrite tree_insert_tsize in Hsz. cbn [tree_find] in Hsz.
    cbn [AVLInsert root_of]. unfold ret at 1. cbn [bind].
    rewrite (bind_eq _ _ _ _ _ (get_key_eq _ _ _ Ha)). cbn [nkey].
    cbn [tree_insert tree_find].
    destruct (isKeyEqual k key) eqn:He.
    { exists h, par0. split_and!; try done. }
    destruct (less k key) eqn:Hlt.
    + (* into the right subtree *)
      destruct (IHr fuel h (Some a) (Some a) Hrepr Hndr Havr) as
        (h1 & par1 & Hrun1 & Hrep1 & _ & Hf1 & Hd1);
        [simpl in Hfuel; lia
        | rewrite tree_insert_tsize; simpl in Hsz; lia
        | simpl in Hroom; by rewrite He, Hlt in Hroom |].
      set (new := fresh (dom h)) in *.
      set (r' := tree_insert new key r) in *.
      destruct (tree_insert_locs new key r) as (Hin' & Hnd' & Hsz').
      destruct (tree_insert_avl new key r Havr) as (Havr' & Hhr').
      fold r' in Hin', Hnd', Hsz', Havr', Hhr'.
      assert (Hnewr : new ∉ locs r).
      { intros Hx. apply Hnew. simpl. set_solver. }
      assert (Hnewl : new ∉ locs l).
      { intros Hx. apply Hnew. simpl. set_solver. }
      assert (Ha1 : h1 !! a = Some (mkTreeNode k (theight (Node l a k r))
                                     (tsize (Node l a k r)) (root_of l) (root_of r) par0)).
      { rewrite Hf1; done. }
      assert (Hstep : (do tr <- get_right (Some a);
                       do tr' <- AVLInsert fuel tr key (Some a);
                       set_right (Some a) tr') h
                      = Ok tt (<[a := mkTreeNode k (theight (Node l a k r))
                                     (tsize (Node l a k r)) (root_of l) (root_of r') par0]> h1)).
      { rewrite (bind_eq _ _ _ _ _ (get_right_eq _ _ _ Ha)). cbn [nright].
        rewrite (bind_eq _ _ _ _ _ Hrun1).
        by rewrite (set_right_eq _ _ _ _ Ha1). }
      rewrite (bind_eq _ _ _ _ _ Hstep). clear Hstep.
      set (h2 := <[a := _]> h1).
      assert (Har' : a ∉ locs r').
      { intros [-> | Hx]%Hin'; done. }
      assert (Hnode2 : node_at h2 a k l r').
      { eexists. split; [apply lookup_insert_eq |]. by split_and!. }
      assert (Hl2 : srep h2 l).
      { exists (Some a). apply rep_frame with h; [done |]. intros x Hx.
        unfold h2. rewrite lookup_insert_ne by (by intros ->).
        apply Hf1; [by apply Hlr | by intros ->]. }
      assert (Hr2 : srep h2 r').
      { exists par1. apply rep_frame with h1; [done |]. intros x Hx.
        unfold h2. apply lookup_insert_ne. by intros ->. }
      assert (Hnd2 : NoDup (locs (Node l a k r'))).
      { simpl. apply NoDup_node. split_and!; try done; [by apply Hnd' |].
        intros x Hx [-> | Hx']%Hin'; [done | by apply (Hlr x)]. }
      assert (Hsz2 : tsize (Node l a k r') < 2 ^ 64).
      { unfold r'. simpl in Hsz |- *. rewrite tree_insert_tsize. lia. }
      assert (Hpre2 : balance_pre (Node l a k r')).
      { cbn [balance_pre]. split_and!; try done; lia. }
      destruct (balance_spec h2 (Node l a k r') (conj Hnode2 (conj Hl2 Hr2))
                  Hnd2 Hsz2 Hpre2) as (h3 & Hrun3 & Hrep3 & Hd3 & Hf3).
      exists h3, None. split_and!; try done.
      * intros x Hx Hxnew. rewrite Hf3.
        -- unfold h2. rewrite lookup_insert_ne by (intros ->; apply Hx; simpl; set_solver).
           apply Hf1; [| done]. intros Hx'. apply Hx. simpl. set_solver.
        -- simpl. intros [Hx' | [-> | [-> | Hx']%Hin']%elem_of_cons]%elem_of_app;
             try done; apply Hx; simpl; set_solver.
      * rewrite Hd3. unfold h2. rewrite dom_insert_lookup_L by (by eexists).
        exact Hd1.
    + (* into the left subtree *)
      destruct (IHl fuel h (Some a) (Some a) Hrepl Hndl Havl) as
        (h1 & par1 & Hrun1 & Hrep1 & _ & Hf1 & Hd1);
        [simpl in Hfuel; lia
        | rewrite tree_insert_tsize; simpl in Hsz; lia
        | simpl in Hroom; by rewrite He, Hlt in Hroom |].
      set (new := fresh (dom h)) in *.
      set (l' := tree_insert new key l) in *.
      destruct (tree_insert_locs new key l) as (Hin' & Hnd' & Hsz').
      destruct (tree_insert_avl new key l Havl) as (Havl' & Hhl').
      fold l' in Hin', Hnd', Hsz', Havl', Hhl'.
      assert (Hnewr : new ∉ locs r).
      { intros Hx. apply Hnew. simpl. set_solver. }
      assert (Hnewl : new ∉ locs l).
      { intros Hx. apply Hnew. simpl. set_solver. }
      assert (Ha1 : h1 !! a = Some (mkTreeNode k (theight (Node l a k r))
                                     (tsize (Node l a k r)) (root_of l) (root_of r) par0)).
      { rewrite Hf1; done. }
      assert (Hstep : (do tl <- get_left (Some a);
                       do tl' <- AVLInsert fuel tl key (Some a);
                       set_left (Some a) tl') h
                      = Ok tt (<[a := mkTreeNode k (theight (Node l a k r))
                                     (tsize (Node l a k r)) (root_of l') (root_of r) par0]> h1)).
      { rewrite (bind_eq _ _ _ _ _ (get_left_eq _ _ _ Ha)). cbn [nleft].
        rewrite (bind_eq _ _ _ _ _ Hrun1).
        by rewrite (set_left_eq _ _ _ _ Ha1). }
      rewrite (bind_eq _ _ _ _ _ Hstep). clear Hstep.
      set (h2 := <[a := _]> h1).
      assert (Hal' : a ∉ locs l').
      { intros [-> | Hx]%Hin'; done. }
      assert (Hnode2 : node_at h2 a k l' r).
      { eexists. split; [apply lookup_insert_eq |]. by split_and!. }
      assert (Hr2 : srep h2 r).
      { exists (Some a). apply rep_frame with h; [done |]. intros x Hx.
        unfold h2. rewrite lookup_insert_ne by (by intros ->).
        apply Hf1; [intros Hx'; by apply (Hlr x) | by intros ->]. }
      assert (Hl2 : srep h2 l').
      { exists par1. apply rep_frame with h1; [done |]. intros x Hx.
        unfold h2. apply lookup_insert_ne. by intros ->. }
      assert (Hnd2 : NoDup (locs (Node l' a k r))).
      { simpl. apply NoDup_node. split_and!; try done; [by apply Hnd' |].
        intros x [-> | Hx']%Hin'; [done | by apply (Hlr x)]. }
      assert (Hsz2 : tsize (Node l' a k r) < 2 ^ 64).
      { unfold l'. simpl in Hsz |- *. rewrite tree_insert_tsize. lia. }
      assert (Hpre2 : balance_pre (Node l' a k r)).
      { cbn [balance_pre]. split_and!; try done; lia. }
      destruct (balance_spec h2 (Node l' a k r) (conj Hnode2 (conj Hl2 Hr2))
                  Hnd2 Hsz2 Hpre2) as (h3 & Hrun3 & Hrep3 & Hd3 & Hf3).
      exists h3, None. split_and!; try done.
      * intros x Hx Hxnew. rewrite Hf3.
        -- unfold h2. rewrite lookup_insert_ne by (intros ->; apply Hx; simpl; set_solver).
           apply Hf1; [| done]. intros Hx'. apply Hx. simpl. set_solver.
        -- simpl. intros [[-> | Hx']%Hin' | [-> | Hx']%elem_of_cons]%elem_of_app;
             try done; apply Hx; simpl; set_solver.
      * rewrite Hd3. unfold h2. rewrite dom_insert_lookup_L by (by eexists).
        exact Hd1.
Qed.

End Insert.

Section Erase.
Context {K : Type} `{Ordered K} `{Machine}.
Implicit Types (h : heap K) (t l r : tree (K:=K)) (a : loc) (p : ptr).

(** ** [findMin] and [findMax] on the heap *)

Lemma locs_nonempty t : t ≠ Leaf → locs t ≠ [].
Proof. destruct t as [| l a k r]; [done |]. intros _. simpl. by destruct (locs l). Qed.

Lemma head_app_nonempty {A} (l1 l2 : list A) : l1 ≠ [] → head (l1 ++ l2) = head l1.
Proof. by destruct l1. Qed.

Lemma findMin_rep t :
  ∀ fuel h par,
    rep h par t → theight t < Z.of_nat fuel →
    findMin fuel (root_of t) h = Ok (head (locs t)) h.
Proof.
  induction t as [| l IHl a k r IHr]; intros fuel h par Hrep Hfuel.
  - destruct fuel; [simpl in Hfuel; lia | reflexivity].
  - pose proof (theight_nonneg l). pose proof (theight_nonneg r).
    destruct fuel as [| fuel]; [simpl in Hfuel; lia |].
    pose proof (rep_lookup _ _ _ _ _ _ Hrep) as Ha.
    destruct Hrep as (_ & Hl & _).
    cbn [findMin root_of].
    rewrite (bind_eq _ _ _ _ _ (get_left_eq _ _ _ Ha)). cbn [nleft].
    destruct (tree_leaf_or_node l) as [-> | Hlne]; [reflexivity |].
    pose proof (IHl fuel h (Some a) Hl ltac:(simpl in Hfuel |- *; lia)) as IH.
    destruct (root_of l) as [la |] eqn:Hla; [| by destruct l].
    rewrite IH. cbn [locs]. by rewrite head_app_nonempty by (by apply locs_nonempty).
Qed.

Lemma tree_findMin_head l a k r :
  head (locs (Node l a k r)) = Some (tree_findMin l a k).1.
Proof. by rewrite locs_elems, tree_eraseMin_elems. Qed.

Lemma last_app_nonempty {A} (l1 l2 : list A) : l2 ≠ [] → last (l1 ++ l2) = last l2.
Proof.
  intros Hne. rewrite last_app.
  destruct (last l2) eqn:E; [done |]. by apply last_None in E.
Qed.

Lemma findMax_rep t :
  ∀ fuel h par,
    rep h par t → theight t < Z.of_nat fuel →
    findMax fuel (root_of t) h = Ok (last (locs t)) h.
Proof.
  induction t as [| l IHl a k r IHr]; intros fuel h par Hrep Hfuel.
  - destruct fuel; [simpl in Hfuel; lia | reflexivity].
  - pose proof (theight_nonneg l). pose proof (theight_nonneg r).
    destruct fuel as [| fuel]; [simpl in Hfuel; lia |].
    pose proof (rep_lookup _ _ _ _ _ _ Hrep) as Ha.
    destruct Hrep as (_ & _ & Hr).
    cbn [findMax root_of].
    rewrite (bind_eq _ _ _ _ _ (get_right_eq _ _ _ Ha)). cbn [nright].
    destruct (tree_leaf_or_node r) as [-> | Hrne].
    + cbn [root_of locs]. unfold ret. f_equal.
      by rewrite last_app_nonempty.
    + pose proof (IHr fuel h (Some a) Hr ltac:(simpl in Hfuel |- *; lia)) as IH.
      destruct (root_of r) as [ra |] eqn:Hra; [| by destruct r].
      rewrite IH. f_equal. cbn [locs]. rewrite last_app_nonempty by done.
      rewrite last_cons. destruct (last (locs r)) eqn:E; [done |].
      apply last_None in E. by apply locs_nonempty in Hrne.
Qed.

(** ** [eraseMin] on the heap *)

Lemma eraseMin_spec t :
  ∀ fuel h par,
    t ≠ Leaf → rep h par t → NoDup (locs t) → avl t →
    theight t < Z.of_nat fuel → tsize t < 2 ^ 64 →
    ∃ h' par',
      eraseMin fuel (root_of t) h = Ok (root_of (tree_eraseMin t)) h'
      ∧ rep h' par' (tree_eraseMin t)
      ∧ same_outside (locs (tree_eraseMin t)) h h'.
Proof.
  induction t as [| l IHl a k r IHr];
    intros fuel h par Hne Hrep Hnd Havl Hfuel Hsz; [done |].
  pose proof (theight_nonneg l) as Hhl. pose proof (theight_nonneg r) as Hhr.
  pose proof (tsize_nonneg l) as Hsl. pose proof (tsize_nonneg r) as Hsr.
  destruct fuel as [| fuel]; [simpl in Hfuel; lia |].
  pose proof (rep_lookup _ _ _ _ _ _ Hrep) as Ha.
  pose proof Hnd as Hnd'. simpl in Hnd'.
  apply NoDup_node in Hnd' as (Hndl & Hndr & Hal & Har & Hlr).
  destruct Havl as (Havl & Havr & Hd).
  destruct Hrep as (_ & Hrepl & Hrepr).
  cbn [eraseMin root_of].
  rewrite (bind_eq _ _ _ _ _ (get_left_eq _ _ _ Ha)). cbn [nleft].
  destruct (tree_leaf_or_node l) as [-> | Hlne].
  - cbn [root_of tree_eraseMin].
    exists h, (Some a). split_and!.
    + by rewrite (get_right_eq _ _ _ Ha).
    + done.
    + apply same_outside_refl.
  - rewrite tree_eraseMin_unfold by done.
    destruct (IHl fuel h (Some a) Hlne Hrepl Hndl Havl) as (h1 & par1 & Hrun1 & Hrep1 & Hd1 & Hf1);
      [simpl in Hfuel; lia | simpl in Hsz; lia |].
    set (l' := tree_eraseMin l) in *.
    destruct (tree_eraseMin_locs l) as (Hin' & Hnd' & Hsz').
    destruct (tree_eraseMin_avl l Havl) as (Havl' & Hhl').
    fold l' in Hin', Hnd', Hsz', Havl', Hhl'.
    assert (Hal' : a ∉ locs l') by (intros Hx%Hin'; done).
    assert (Ha1 : h1 !! a = Some (mkTreeNode k (theight (Node l a k r))
                                   (tsize (Node l a k r)) (root_of l) (root_of r) par)).
    { rewrite Hf1; done. }
    assert (Hstep : @eq (M (heap K) ptr)
                      match root_of l with
                      | Some _ =>
                          do tl' <- eraseMin fuel (root_of l);
                          do _ <- set_left (Some a) tl';
                          balance (Some a)
                      | None => get_right (Some a)
                      end
                      (do tl' <- eraseMin fuel (root_of l);
                       do _ <- set_left (Some a) tl';
                       balance (Some a))).
    { by destruct l. }
    rewrite Hstep. clear Hstep.
    rewrite (bind_eq _ _ _ _ _ Hrun1).
    rewrite (bind_eq _ _ _ _ _ (set_left_eq _ _ _ _ Ha1)).
    cbn [nkey nheight ncnt nright nparent].
    set (h2 := <[a := _]> h1).
    assert (Hnode2 : node_at h2 a k l' r).
    { eexists. split; [apply lookup_insert_eq |]. by split_and!. }
    assert (Hl2 : srep h2 l').
    { exists par1. apply rep_frame with h1; [done |]. intros x Hx.
      unfold h2. apply lookup_insert_ne. by intros ->. }
    assert (Hr2 : srep h2 r).
    { exists (Some a). apply rep_frame with h; [done |]. intros x Hx.
      unfold h2. rewrite lookup_insert_ne by (by intros ->).
      apply Hf1. intros Hx'%Hin'. by apply (Hlr x). }
    assert (Hnd2 : NoDup (locs (Node l' a k r))).
    { simpl. apply NoDup_node. split_and!; try done; [by apply Hnd' |].
      intros x Hx'%Hin'. by apply (Hlr x). }
    assert (Hsz2 : tsize (Node l' a k r) < 2 ^ 64).
    { simpl in Hsz |- *. lia. }
    assert (Hpre2 : balance_pre (Node l' a k r)).
    { cbn [balance_pre]. split_and!; try done; lia. }
    destruct (balance_spec h2 (Node l' a k r) (conj Hnode2 (conj Hl2 Hr2))
                Hnd2 Hsz2 Hpre2) as (h3 & Hrun3 & Hrep3 & Hso3).
    exists h3, None. split; [exact Hrun3 |]. split; [exact Hrep3 |].
    rewrite tree_balance_locs.
    eapply same_outside_trans; [| exact Hso3].
    eapply same_outside_trans.
    + eapply same_outside_weaken; [exact (conj Hd1 Hf1) |].
      intros x Hx. simpl. set_solver.
    + eapply same_outside_insert; [exact Ha1 |]. simpl. set_solver.
Qed.

(** ** [AVLErase] on the heap *)

Lemma delete_node_eq h a n :
  h !! a = Some n → delete_node (Some a) h = Ok tt (delete a h).
Proof. intros Hn. unfold delete_node. by rewrite Hn. Qed.

Lemma rep_elem h par t x kx :
  rep h par t → (x, kx) ∈ elems t → ∃ n, h !! x = Some n ∧ nkey n = kx.
Proof.
  revert par. induction t as [| l IHl a k r IHr]; intros par; simpl.
  - intros _ Hx. by apply elem_of_nil in Hx.
  - intros (Ha & Hl & Hr) [Hx | [Hx | Hx]%elem_of_cons]%elem_of_app.
    + by eapply IHl.
    + injection Hx as -> ->. by eexists.
    + by eapply IHr.
Qed.

Lemma AVLErase_spec key t :
  ∀ fuel h par0,
    rep h par0 t → NoDup (locs t) → avl t →
    theight t < Z.of_nat fuel → tsize t < 2 ^ 64 →
    ∃ h',
      AVLErase fuel (root_of t) key h = Ok (root_of (tree_erase key t)) h'
      ∧ rep h' None (tree_erase key t)
      ∧ (∀ x, x ∉ locs t → h' !! x = h !! x)
      ∧ dom h' = match tree_find key t with
                 | Some a => dom h ∖ {[a]}
                 | None => dom h
                 end.
Proof.
  induction t as [| l IHl a k r IHr];
    intros fuel h par0 Hrep Hnd Havl Hfuel Hsz.
  { destruct fuel; [simpl in Hfuel; lia |]. exists h. by split_and!. }
  pose proof (theight_nonneg l) as Hhl. pose proof (theight_nonneg r) as Hhr.
  pose proof (tsize_nonneg l) as Hsl. pose proof (tsize_nonneg r) as Hsr.
  destruct fuel as [| fuel]; [simpl in Hfuel; lia |].
  pose proof (rep_lookup _ _ _ _ _ _ Hrep) as Ha.
  pose proof Hnd as Hnd'. simpl in Hnd'.
  apply NoDup_node in Hnd' as (Hndl & Hndr & Hal & Har & Hlr).
  destruct Havl as (Havl & Havr & Hd).
  destruct Hrep as (_ & Hrepl & Hrepr).
  cbn [AVLErase root_of tree_erase tree_find].
  rewrite (bind_eq _ _ _ _ _ (get_key_eq _ _ _ Ha)). cbn [nkey].
  destruct (isKeyEqual k key) eqn:He.
  - (* the node to remove *)
    set (h1 := delete a h).
    assert (Hf1 : ∀ x, x ≠ a → h1 !! x = h !! x).
    { intros x Hx. by apply lookup_delete_ne. }
    assert (Hd1 : dom h1 = dom h ∖ {[a]}) by apply dom_delete_L.
    assert (Hrepl1 : rep h1 (Some a) l).
    { apply rep_frame with h; [done |]. intros x Hx. apply Hf1. by intros ->. }
    assert (Hrepr1 : rep h1 (Some a) r).
    { apply rep_frame with h; [done |]. intros x Hx. apply Hf1. by intros ->. }
    destruct r as [| rl ra rk rr].
    + assert (Hstep : (do l0 <- get_left (Some a);
                       do r0 <- get_right (Some a);
                       do _ <- delete_node (Some a);
                       match r0 with
                       | Some _ =>
                           do t0 <- findMin fuel r0;
                           do r' <- eraseMin fuel r0;
                           do _ <- set_right t0 r';
                           do _ <- set_left t0 l0;
                           ret t0
                       | None => ret l0
                       end) h = Ok (root_of l) h1).
      { rewrite (bind_eq _ _ _ _ _ (get_left_eq _ _ _ Ha)).
        rewrite (bind_eq _ _ _ _ _ (get_right_eq _ _ _ Ha)).
        rewrite (bind_eq _ _ _ _ _ (delete_node_eq _ _ _ Ha)). reflexivity. }
      rewrite (bind_eq _ _ _ _ _ Hstep). clear Hstep.
      destruct (balance_spec h1 l) as (h2 & Hrun2 & Hrep2 & Hd2 & Hf2).
      * destruct l; [done |]. by eapply rep_children.
      * done.
      * simpl in Hsz. lia.
      * by apply avl_balance_pre.
      * exists h2. split_and!; try done.
        -- intros x Hx. rewrite Hf2 by (intros Hx'; apply Hx; simpl; set_solver).
           apply Hf1. intros ->. apply Hx. simpl. set_solver.
        -- congruence.
    + remember (Node rl ra rk rr) as r eqn:Er.
      assert (Hrne : r ≠ Leaf) by (by subst r).
      pose proof (tree_eraseMin_elems rl ra rk rr) as Hel. rewrite <- Er in Hel.
      destruct (tree_findMin rl ra rk) as [m mk] eqn:Hm. cbn [fst snd].
      set (r' := tree_eraseMin r) in *.
      assert (Hlocs : locs r = m :: locs r').
      { by rewrite !locs_elems, Hel. }
      assert (Hmr' : m ∉ locs r').
      { rewrite Hlocs in Hndr. by apply NoDup_cons in Hndr as [? _]. }
      assert (Hndr' : NoDup (locs r')).
      { rewrite Hlocs in Hndr. by apply NoDup_cons in Hndr as [_ ?]. }
      assert (Hmr : m ∈ locs r) by (rewrite Hlocs; by left).
      assert (Hml : m ∉ locs l).
      { intros Hx. by apply (Hlr m). }
      assert (Hma : m ≠ a) by (by intros ->).
      destruct (rep_elem h (Some a) r m mk Hrepr) as (nm & Hnm & Hknm).
      { rewrite Hel. by left. }
      destruct (eraseMin_spec r fuel h1 (Some a) Hrne Hrepr1 Hndr Havr)
        as (h2 & par2 & Hrun2 & Hrep2 & Hd2 & Hf2);
        [simpl in Hfuel; lia | simpl in Hsz; lia |].
      fold r' in Hrun2, Hrep2, Hd2, Hf2.
      assert (Hnm2 : h2 !! m = Some nm).
      { rewrite Hf2 by done. by rewrite Hf1. }
      set (h3 := <[m := mkTreeNode (nkey nm) (nheight nm) (ncnt nm) (nleft nm)
                          (root_of r') (nparent nm)]> h2).
      set (h4 := <[m := mkTreeNode (nkey nm) (nheight nm) (ncnt nm) (root_of l)
                          (root_of r') (nparent nm)]> h3).
      assert (Hstep : (do l0 <- get_left (Some a);
                       do r0 <- get_right (Some a);
                       do _ <- delete_node (Some a);
                       match r0 with
                       | Some _ =>
                           do t0 <- findMin fuel r0;
                           do r' <- eraseMin fuel r0;
                           do _ <- set_right t0 r';
                           do _ <- set_left t0 l0;
                           ret t0
                       | None => ret l0
                       end) h = Ok (Some m) h4).
      { rewrite (bind_eq _ _ _ _ _ (get_left_eq _ _ _ Ha)).
        rewrite (bind_eq _ _ _ _ _ (get_right_eq _ _ _ Ha)).
        rewrite (bind_eq _ _ _ _ _ (delete_node_eq _ _ _ Ha)).
        cbn [nleft nright]. fold h1.
        pose proof (findMin_rep r fuel h1 (Some a) Hrepr1
                      ltac:(simpl in Hfuel; lia)) as Hmin.
        rewrite Hlocs in Hmin. cbn [head] in Hmin.
        rewrite Er in Hmin, Hrun2 |- *. cbn [root_of] in Hmin, Hrun2 |- *.
        rewrite (bind_eq _ _ _ _ _ Hmin).
        rewrite (bind_eq _ _ _ _ _ Hrun2).
        rewrite (bind_eq _ _ _ _ _ (set_right_eq _ _ _ _ Hnm2)). fold h3.
        assert (Hnm3 : h3 !! m = Some (mkTreeNode (nkey nm) (nheight nm) (ncnt nm)
                                         (nleft nm) (root_of r') (nparent nm)))
          by apply lookup_insert_eq.
        rewrite (bind_eq _ _ _ _ _ (set_left_eq _ _ _ _ Hnm3)).
        reflexivity. }
      rewrite (bind_eq _ _ _ _ _ Hstep). clear Hstep.
      destruct (tree_eraseMin_avl r Havr) as (Havr' & Hhr').
      destruct (tree_eraseMin_locs r) as (Hin' & _ & Hsz').
      fold r' in Havr', Hhr', Hin', Hsz'.
      assert (Hf4 : ∀ x, x ≠ m → h4 !! x = h2 !! x).
      { intros x Hx. unfold h4, h3. by rewrite !lookup_insert_ne. }
      assert (Hd4 : dom h4 = dom h2).
      { unfold h4, h3. rewrite !dom_insert_lookup_L; [done | by eexists |].
        rewrite lookup_insert_eq. by eexists. }
      assert (Hnode4 : node_at h4 m mk l r').
      { eexists. split; [apply lookup_insert_eq |]. by split_and!. }
      assert (Hl4 : srep h4 l).
      { exists (Some a). apply rep_frame with h1; [done |]. intros x Hx.
        rewrite Hf4 by (by intros ->). apply Hf2.
        intros Hx'%Hin'. by apply (Hlr x). }
      assert (Hr4 : srep h4 r').
      { exists par2. apply rep_frame with h2; [done |]. intros x Hx.
        apply Hf4. by intros ->. }
      assert (Hnd4 : NoDup (locs (Node l m mk r'))).
      { simpl. apply NoDup_node. split_and!; try done.
        intros x Hx Hx'%Hin'. by apply (Hlr x). }
      assert (Hsz4 : tsize (Node l m mk r') < 2 ^ 64).
      { simpl in Hsz |- *. lia. }
      assert (Hpre4 : balance_pre (Node l m mk r')).
      { cbn [balance_pre]. split_and!; try done; lia. }
      destruct (balance_spec h4 (Node l m mk r') (conj Hnode4 (conj Hl4 Hr4))
                  Hnd4 Hsz4 Hpre4) as (h5 & Hrun5 & Hrep5 & Hd5 & Hf5).
      exists h5. split_and!; try done.
      * intros x Hx. rewrite Hf5.
        -- rewrite Hf4 by (intros ->; apply Hx; simpl; set_solver).
           rewrite Hf2 by (intros Hx'%Hin'; apply Hx; simpl; set_solver).
           apply Hf1. intros ->. apply Hx. simpl. set_solver.
        -- simpl. intros [Hx' | [-> | Hx'%Hin']%elem_of_cons]%elem_of_app;
             apply Hx; simpl; set_solver.
      * congruence.
  - destruct (less k key) eqn:Hlt.
    + (* in the right subtree *)
      destruct (IHr fuel h (Some a) Hrepr Hndr Havr) as (h1 & Hrun1 & Hrep1 & Hf1 & Hd1);
        [simpl in Hfuel; lia | simpl in Hsz; lia |].
      set (r' := tree_erase key r) in *.
      destruct (tree_erase_locs key r) as (Hin' & Hnd' & Hsz').
      destruct (tree_erase_avl key r Havr) as (Havr' & Hhr').
      fold r' in Hin', Hnd', Hsz', Havr', Hhr'.
      assert (Ha1 : h1 !! a = Some (mkTreeNode k (theight (Node l a k r))
                                     (tsize (Node l a k r)) (root_of l) (root_of r) par0)).
      { rewrite Hf1; done. }
      assert (Hstep : (do tr <- get_right (Some a);
                       do tr' <- AVLErase fuel tr key;
                       do _ <- set_right (Some a) tr';
                       ret (Some a)) h
                      = Ok (Some a)
                          (<[a := mkTreeNode k (theight (Node l a k r))
                                  (tsize (Node l a k r)) (root_of l) (root_of r') par0]> h1)).
      { rewrite (bind_eq _ _ _ _ _ (get_right_eq _ _ _ Ha)). cbn [nright].
        rewrite (bind_eq _ _ _ _ _ Hrun1).
        by rewrite (bind_eq _ _ _ _ _ (set_right_eq _ _ _ _ Ha1)). }
      rewrite (bind_eq _ _ _ _ _ Hstep). clear Hstep.
      set (h2 := <[a := _]> h1).
      assert (Har' : a ∉ locs r') by (intros Hx%Hin'; done).
      assert (Hnode2 : node_at h2 a k l r').
      { eexists. split; [apply lookup_insert_eq |]. by split_and!. }
      assert (Hl2 : srep h2 l).
      { exists (Some a). apply rep_frame with h; [done |]. intros x Hx.
        unfold h2. rewrite lookup_insert_ne by (by intros ->).
        apply Hf1. by apply Hlr. }
      assert (Hr2 : srep h2 r').
      { exists None. apply rep_frame with h1; [done |]. intros x Hx.
        unfold h2. apply lookup_insert_ne. by intros ->. }
      assert (Hnd2 : NoDup (locs (Node l a k r'))).
      { simpl. apply NoDup_node. split_and!; try done; [by apply Hnd' |].
        intros x Hx Hx'%Hin'. by apply (Hlr x). }
      assert (Hsz2 : tsize (Node l a k r') < 2 ^ 64).
      { simpl in Hsz |- *. lia. }
      assert (Hpre2 : balance_pre (Node l a k r')).
      { cbn [balance_pre]. split_and!; try done; lia. }
      destruct (balance_spec h2 (Node l a k r') (conj Hnode2 (conj Hl2 Hr2))
                  Hnd2 Hsz2 Hpre2) as (h3 & Hrun3 & Hrep3 & Hd3 & Hf3).
      exists h3. split_and!; try done.
      * intros x Hx. rewrite Hf3.
        -- unfold h2. rewrite lookup_insert_ne by (intros ->; apply Hx; simpl; set_solver).
           apply Hf1. intros Hx'. apply Hx. simpl. set_solver.
        -- simpl. intros [Hx' | [-> | Hx'%Hin']%elem_of_cons]%elem_of_app;
             apply Hx; simpl; set_solver.
      * rewrite Hd3. unfold h2. rewrite dom_insert_lookup_L by (by eexists).
        exact Hd1.
    + (* in the left subtree *)
      destruct (IHl fuel h (Some a) Hrepl Hndl Havl) as (h1 & Hrun1 & Hrep1 & Hf1 & Hd1);
        [simpl in Hfuel; lia | simpl in Hsz; lia |].
      set (l' := tree_erase key l) in *.
      destruct (tree_erase_locs key l) as (Hin' & Hnd' & Hsz').
      destruct (tree_erase_avl key l Havl) as (Havl' & Hhl').
      fold l' in Hin', Hnd', Hsz', Havl', Hhl'.
      assert (Ha1 : h1 !! a = Some (mkTreeNode k (theight (Node l a k r))
                                     (tsize (Node l a k r)) (root_of l) (root_of r) par0)).
      { rewrite Hf1; done. }
      assert (Hstep : (do tl <- get_left (Some a);
                       do tl' <- AVLErase fuel tl key;
                       do _ <- set_left (Some a) tl';
                       ret (Some a)) h
                      = Ok (Some a)
                          (<[a := mkTreeNode k (theight (Node l a k r))
                                  (tsize (Node l a k r)) (root_of l') (root_of r) par0]> h1)).
      { rewrite (bind_eq _ _ _ _ _ (get_left_eq _ _ _ Ha)). cbn [nleft].
        rewrite (bind_eq _ _ _ _ _ Hrun1).
        by rewrite (bind_eq _ _ _ _ _ (set_left_eq _ _ _ _ Ha1)). }
      rewrite (bind_eq _ _ _ _ _ Hstep). clear Hstep.
      set (h2 := <[a := _]> h1).
      assert (Hal' : a ∉ locs l') by (intros Hx%Hin'; done).
      assert (Hnode2 : node_at h2 a k l' r).
      { eexists. split; [apply lookup_insert_eq |]. by split_and!. }
      assert (Hr2 : srep h2 r).
      { exists (Some a). apply rep_frame with h; [done |]. intros x Hx.
        unfold h2. rewrite lookup_insert_ne by (by intros ->).
        apply Hf1. intros Hx'. by apply (Hlr x). }
      assert (Hl2 : srep h2 l').
      { exists None. apply rep_frame with h1; [done |]. intros x Hx.
        unfold h2. apply lookup_insert_ne. by intros ->. }
      assert (Hnd2 : NoDup (locs (Node l' a k r))).
      { simpl. apply NoDup_node. split_and!; try done; [by apply Hnd' |].
        intros x Hx'%Hin'. by apply (Hlr x). }
      assert (Hsz2 : tsize (Node l' a k r) < 2 ^ 64).
      { simpl in Hsz |- *. lia. }
      assert (Hpre2 : balance_pre (Node l' a k r)).
      { cbn [balance_pre]. split_and!; try done; lia. }
      destruct (balance_spec h2 (Node l' a k r) (conj Hnode2 (conj Hl2 Hr2))
                  Hnd2 Hsz2 Hpre2) as (h3 & Hrun3 & Hrep3 & Hd3 & Hf3).
      exists h3. split_and!; try done.
      * intros x Hx. rewrite Hf3.
        -- unfold h2. rewrite lookup_insert_ne by (intros ->; apply Hx; simpl; set_solver).
           apply Hf1. intros Hx'. apply Hx. simpl. set_solver.
        -- simpl. intros [Hx'%Hin' | [-> | Hx']%elem_of_cons]%elem_of_app;
             apply Hx; simpl; set_solver.
      * rewrite Hd3. unfold h2. rewrite dom_insert_lookup_L by (by eexists).
        exact Hd1.
Qed.

End Erase.

Section Search.
Context {K : Type} `{Ordered K} `{Machine}.
Implicit Types (h : heap K) (t l r : tree (K:=K)) (a : loc) (p : ptr).

(** ** [AVLFind] and [AVLLowerBound] on the heap *)

Lemma AVLFind_rep key t :
  ∀ fuel h par,
    rep h par t → theight t < Z.of_nat fuel →
    AVLFind fuel (root_of t) key h = Ok (tree_find key t) h.
Proof.
  induction t as [| l IHl a k r IHr]; intros fuel h par Hrep Hfuel.
  - destruct fuel; [simpl in Hfuel; lia | reflexivity].
  - pose proof (theight_nonneg l). pose proof (theight_nonneg r).
    destruct fuel as [| fuel]; [simpl in Hfuel; lia |].
    pose proof (rep_lookup _ _ _ _ _ _ Hrep) as Ha.
    destruct Hrep as (_ & Hl & Hr).
    cbn [AVLFind root_of tree_find].
    rewrite (bind_eq _ _ _ _ _ (get_key_eq _ _ _ Ha)). cbn [nkey].
    destruct (isKeyEqual k key); [reflexivity |].
    destruct (less k key).
    + rewrite (bind_eq _ _ _ _ _ (get_right_eq _ _ _ Ha)). cbn [nright].
      apply (IHr fuel h (Some a) Hr). simpl in Hfuel. lia.
    + rewrite (bind_eq _ _ _ _ _ (get_left_eq _ _ _ Ha)). cbn [nleft].
      apply (IHl fuel h (Some a) Hl). simpl in Hfuel. lia.
Qed.

Lemma AVLLowerBound_rep key t :
  ∀ fuel h par,
    rep h par t → theight t < Z.of_nat fuel →
    AVLLowerBound fuel (root_of t) key h = Ok (tree_lowerBound key t) h.
Proof.
  induction t as [| l IHl a k r IHr]; intros fuel h par Hrep Hfuel.
  - destruct fuel; [simpl in Hfuel; lia | reflexivity].
  - pose proof (theight_nonneg l). pose proof (theight_nonneg r).
    destruct fuel as [| fuel]; [simpl in Hfuel; lia |].
    pose proof (rep_lookup _ _ _ _ _ _ Hrep) as Ha.
    destruct Hrep as (_ & Hl & Hr).
    cbn [AVLLowerBound root_of tree_lowerBound].
    rewrite (bind_eq _ _ _ _ _ (get_key_eq _ _ _ Ha)). cbn [nkey].
    destruct (isKeyEqual k key); [reflexivity |].
    destruct (less key k).
    + rewrite (bind_eq _ _ _ _ _ (get_left_eq _ _ _ Ha)). cbn [nleft].
      rewrite (bind_eq _ _ _ _ _ (IHl fuel h (Some a) Hl ltac:(simpl in Hfuel; lia))).
      by destruct (tree_lowerBound key l).
    + rewrite (bind_eq _ _ _ _ _ (get_right_eq _ _ _ Ha)). cbn [nright].
      apply (IHr fuel h (Some a) Hr). simpl in Hfuel. lia.
Qed.

(** ** What [lower_bound] finds in a search tree *)

Lemma tree_lowerBound_Some key t c :
  bst t → tree_lowerBound key t = Some c →
  ∃ kc, (c, kc) ∈ elems t ∧ less kc key = false
        ∧ ∀ k, k ∈ keys t → less k key = false → less k kc = false.
Proof.
  induction t as [| l IHl a k r IHr]; simpl; [done |].
  intros (Hl & Hr & Hlk & Hkr). rewrite Forall_forall in Hlk, Hkr.
  destruct (isKeyEqual k key) eqn:He.
  - intros [= <-]. exists k. apply isKeyEqual_spec in He as [Hkk Hkk'].
    split_and!; [set_solver | done |].
    intros x [Hx | [-> | Hx]%elem_of_cons]%elem_of_app Hge.
    + apply Hlk in Hx. rewrite (less_equiv_r k key x) in Hx; [congruence |].
      by apply isKeyEqual_spec.
    + apply less_irrefl.
    + apply less_asym. by apply Hkr.
  - destruct (less key k) eqn:Hlt.
    + destruct (tree_lowerBound key l) as [b |] eqn:Hlb.
      * intros [= <-]. destruct (IHl Hl eq_refl) as (kb & Hin & Hge & Hleast).
        exists kb. split_and!; [set_solver | done |].
        intros x [Hx | [-> | Hx]%elem_of_cons]%elem_of_app Hxge.
        -- by apply Hleast.
        -- apply less_asym. apply Hlk. rewrite keys_elems.
           by apply (list_elem_of_fmap_2 snd _ (b, kb)).
        -- apply less_asym. apply less_trans with k; [| by apply Hkr].
           apply Hlk. rewrite keys_elems.
           by apply (list_elem_of_fmap_2 snd _ (b, kb)).
      * intros [= <-]. exists k. split_and!; [set_solver | by apply less_asym |].
        intros x [Hx | [-> | Hx]%elem_of_cons]%elem_of_app Hxge.
        -- (* nothing in the left subtree is at or above the key *)
           exfalso. clear IHr. revert Hx Hxge Hlb Hl. clear.
           induction l as [| ll IHll la lk lr IHlr]; simpl.
           { intros Hx. by apply elem_of_nil in Hx. }
           intros Hx Hxge Hlb (Hll & Hlr & Hllk & Hlkr).
           rewrite Forall_forall in Hllk, Hlkr.
           destruct (isKeyEqual lk key) eqn:He; [done |].
           destruct (less key lk) eqn:Hlt; [by destruct (tree_lowerBound key ll) |].
           assert (Hlkk : less lk key = true).
           { apply isKeyEqual_false in He as [He | He]; [done | congruence]. }
           apply elem_of_app in Hx as [Hx | [-> | Hx]%elem_of_cons].
           ++ apply Hllk in Hx. by rewrite (less_trans _ _ _ Hx Hlkk) in Hxge.
           ++ congruence.
           ++ by apply IHlr.
        -- apply less_irrefl.
        -- apply less_asym. by apply Hkr.
    + assert (Hkk : less k key = true).
      { apply isKeyEqual_false in He as [He | He]; [done | congruence]. }
      intros Hlb. destruct (IHr Hr Hlb) as (kc & Hin & Hge & Hleast).
      exists kc. split_and!; [set_solver | done |].
      intros x [Hx | [-> | Hx]%elem_of_cons]%elem_of_app Hxge.
      * apply Hlk in Hx. by rewrite (less_trans _ _ _ Hx Hkk) in Hxge.
      * congruence.
      * by apply Hleast.
Qed.

Lemma tree_lowerBound_None key t :
  bst t →
  tree_lowerBound key t = None ↔ ∀ k, k ∈ keys t → less k key = true.
Proof.
  induction t as [| l IHl a k r IHr]; simpl.
  - intros _. split; [| done]. intros _ k Hk. by apply elem_of_nil in Hk.
  - intros (Hl & Hr & Hlk & Hkr). rewrite Forall_forall in Hlk, Hkr.
    destruct (isKeyEqual k key) eqn:He.
    + split; [done |]. intros Hall.
      apply isKeyEqual_spec in He as [He _].
      rewrite Hall in He; [done | set_solver].
    + destruct (less key k) eqn:Hlt.
      * split; [by destruct (tree_lowerBound key l) |]. intros Hall.
        pose proof (less_asym _ _ Hlt) as Hn. rewrite Hall in Hn; [done | set_solver].
      * assert (Hkk : less k key = true).
        { apply isKeyEqual_false in He as [He | He]; [done | congruence]. }
        rewrite (IHr Hr). split.
        -- intros Hall x [Hx | [-> | Hx]%elem_of_cons]%elem_of_app.
           ++ apply less_trans with k; [by apply Hlk | done].
           ++ done.
           ++ by apply Hall.
        -- intros Hall x Hx. apply Hall. set_solver.
Qed.

End Search.

Section Neighbours.
Implicit Types (ls : list loc) (x y : loc) (up down : ptr).

(** ** Successor and predecessor in a sequence *)

Lemma next_in_app_l ls1 ls2 x up :
  x ∈ ls1 →
  next_in (ls1 ++ ls2) x up = next_in ls1 x (from_option Some up (head ls2)).
Proof.
  induction ls1 as [| y ls1 IH]; [by intros ?%elem_of_nil |].
  intros Hx. simpl. destruct (decide (y = x)) as [-> | Hne].
  - destruct ls1; [reflexivity |]. reflexivity.
  - apply IH. by apply elem_of_cons in Hx as [-> | Hx].
Qed.

Lemma next_in_app_r ls1 ls2 x up :
  x ∉ ls1 → next_in (ls1 ++ ls2) x up = next_in ls2 x up.
Proof.
  induction ls1 as [| y ls1 IH]; [done |].
  intros Hx. simpl. rewrite decide_False by (intros ->; apply Hx; by left).
  apply IH. intros Hx'. apply Hx. by right.
Qed.

Lemma next_in_here ls x up :
  next_in (x :: ls) x up = from_option Some up (head ls).
Proof. simpl. by rewrite decide_True. Qed.

Lemma prev_in_app_l ls1 ls2 x down :
  x ∈ ls1 → prev_in (ls1 ++ ls2) x down = prev_in ls1 x down.
Proof.
  revert down. induction ls1 as [| y ls1 IH]; intros down; [by intros ?%elem_of_nil |].
  intros Hx. simpl. destruct (decide (y = x)) as [-> | Hne]; [reflexivity |].
  apply IH. by apply elem_of_cons in Hx as [-> | Hx].
Qed.

Lemma prev_in_app_r ls1 ls2 x down :
  x ∉ ls1 →
  prev_in (ls1 ++ ls2) x down = prev_in ls2 x (from_option Some down (last ls1)).
Proof.
  revert down. induction ls1 as [| y ls1 IH]; intros down; [done |].
  intros Hx. simpl. rewrite decide_False by (intros ->; apply Hx; by left).
  rewrite IH by (intros Hx'; apply Hx; by right).
  f_equal. rewrite last_cons. by destruct (last ls1).
Qed.

Lemma prev_in_here ls x down : prev_in (x :: ls) x down = down.
Proof. simpl. by rewrite decide_True. Qed.

End Neighbours.

Section Stepping.
Context {K : Type} `{Ordered K} `{Machine}.
Implicit Types (h : heap K) (t l r s : tree (K:=K)) (a x : loc) (p up down : ptr).

(** ** [nextNode] and [prevNode] on the heap *)

Lemma root_of_Some_locs t a : root_of t = Some a → a ∈ locs t.
Proof. destruct t; [done |]. intros [= ->]. simpl. set_solver. Qed.

Lemma root_of_None t : root_of t = None → t = Leaf.
Proof. by destruct t. Qed.

Lemma head_locs_Some t : t ≠ Leaf → is_Some (head (locs t)).
Proof. intros Hne. apply head_is_Some. by apply locs_nonempty. Qed.

Lemma last_locs_Some t : t ≠ Leaf → is_Some (last (locs t)).
Proof. intros Hne. apply last_is_Some. by apply locs_nonempty. Qed.

Lemma nextNode_rep s :
  ∀ h par up (n fuel : nat) x,
    rep h par s → NoDup (locs s) →
    (∀ a (f : nat), root_of s = Some a → (n ≤ f)%nat →
                    nextNode_climb f (Some a) h = Ok up h) →
    Z.of_nat n + theight s ≤ Z.of_nat fuel →
    x ∈ locs s →
    nextNode fuel (Some x) h = Ok (next_in (locs s) x up) h.
Proof.
  induction s as [| l IHl a k r IHr];
    intros h par up n fuel x Hrep Hnd Hclimb Hfuel Hx.
  { by apply elem_of_nil in Hx. }
  pose proof (theight_nonneg l) as Hhl. pose proof (theight_nonneg r) as Hhr.
  pose proof (rep_lookup _ _ _ _ _ _ Hrep) as Ha.
  pose proof Hnd as Hnd'. simpl in Hnd'.
  apply NoDup_node in Hnd' as (Hndl & Hndr & Hal & Har & Hlr).
  destruct Hrep as (_ & Hrepl & Hrepr).
  cbn [locs] in Hx |- *. cbn [theight] in Hfuel.
  apply elem_of_app in Hx as [Hx | [-> | Hx]%elem_of_cons].
  - (* in the left subtree: its last node is followed by [a] *)
    rewrite next_in_app_l by done. cbn [head from_option].
    apply (IHl h (Some a) (Some a) 1%nat fuel x Hrepl Hndl); [| lia | done].
    intros la f Hla Hf. destruct f as [| f]; [lia |].
    pose proof (root_of_Some_locs _ _ Hla) as Hlal.
    destruct l as [| ll la' lk lr]; [done |]. injection Hla as ->.
    pose proof (rep_lookup _ _ _ _ _ _ Hrepl) as Hnla.
    cbn [nextNode_climb].
    rewrite (bind_eq _ _ _ _ _ (get_parent_eq _ _ _ Hnla)). cbn [nparent].
    rewrite (bind_eq _ _ _ _ _ (get_right_eq _ _ _ Ha)). cbn [nright].
    rewrite decide_False; [reflexivity |].
    intros Heq. apply root_of_Some_locs in Heq. by apply (Hlr la).
  - (* the node itself *)
    rewrite next_in_app_r by done. rewrite next_in_here.
    unfold nextNode.
    rewrite (bind_eq _ _ _ _ _ (get_right_eq _ _ _ Ha)). cbn [nright].
    destruct (tree_leaf_or_node r) as [-> | Hrne].
    + cbn [root_of locs head from_option]. apply (Hclimb a); [done | lia].
    + pose proof (findMin_rep r fuel h (Some a) Hrepr ltac:(lia)) as Hmin.
      destruct (head_locs_Some r Hrne) as [m Hm]. rewrite Hm in Hmin |- *.
      destruct (root_of r) eqn:Hr; [exact Hmin |].
      by apply root_of_None in Hr.
  - (* in the right subtree: climbing from its root passes through [a] *)
    rewrite next_in_app_r by (intros Hx'; by apply (Hlr x)).
    cbn [next_in]. rewrite decide_False by (by intros ->).
    apply (IHr h (Some a) up (S n) fuel x Hrepr Hndr); [| lia | done].
    intros ra f Hra Hf. destruct f as [| f]; [lia |].
    destruct r as [| rl ra' rk rr]; [done |]. injection Hra as ->.
    pose proof (rep_lookup _ _ _ _ _ _ Hrepr) as Hnra.
    cbn [nextNode_climb].
    rewrite (bind_eq _ _ _ _ _ (get_parent_eq _ _ _ Hnra)). cbn [nparent].
    rewrite (bind_eq _ _ _ _ _ (get_right_eq _ _ _ Ha)). cbn [nright root_of].
    rewrite decide_True by done.
    apply (Hclimb a); [done | lia].
Qed.

Lemma prevNode_rep s :
  ∀ h par down (n fuel : nat) x,
    rep h par s → NoDup (locs s) →
    (∀ a (f : nat), root_of s = Some a → (n ≤ f)%nat →
                    prevNode_climb f (Some a) h = Ok down h) →
    Z.of_nat n + theight s ≤ Z.of_nat fuel →
    x ∈ locs s →
    prevNode fuel (Some x) h = Ok (prev_in (locs s) x down) h.
Proof.
  induction s as [| l IHl a k r IHr];
    intros h par down n fuel x Hrep Hnd Hclimb Hfuel Hx.
  { by apply elem_of_nil in Hx. }
  pose proof (theight_nonneg l) as Hhl. pose proof (theight_nonneg r) as Hhr.
  pose proof (rep_lookup _ _ _ _ _ _ Hrep) as Ha.
  pose proof Hnd as Hnd'. simpl in Hnd'.
  apply NoDup_node in Hnd' as (Hndl & Hndr & Hal & Har & Hlr).
  destruct Hrep as (_ & Hrepl & Hrepr).
  cbn [locs] in Hx |- *. cbn [theight] in Hfuel.
  apply elem_of_app in Hx as [Hx | [-> | Hx]%elem_of_cons].
  - (* in the left subtree: climbing from its root passes through [a] *)
    rewrite prev_in_app_l by done.
    apply (IHl h (Some a) down (S n) fuel x Hrepl Hndl); [| lia | done].
    intros la f Hla Hf. destruct f as [| f]; [lia |].
    destruct l as [| ll la' lk lr]; [done |]. injection Hla as ->.
    pose proof (rep_lookup _ _ _ _ _ _ Hrepl) as Hnla.
    cbn [prevNode_climb].
    rewrite (bind_eq _ _ _ _ _ (get_parent_eq _ _ _ Hnla)). cbn [nparent].
    rewrite (bind_eq _ _ _ _ _ (get_left_eq _ _ _ Ha)). cbn [nleft root_of].
    rewrite decide_True by done.
    apply (Hclimb a); [done | lia].
  - (* the node itself *)
    rewrite prev_in_app_r by done. rewrite prev_in_here.
    unfold prevNode.
    rewrite (bind_eq _ _ _ _ _ (get_left_eq _ _ _ Ha)). cbn [nleft].
    destruct (tree_leaf_or_node l) as [-> | Hlne].
    + cbn [root_of locs last from_option]. apply (Hclimb a); [done | lia].
    + pose proof (findMax_rep l fuel h (Some a) Hrepl ltac:(lia)) as Hmax.
      destruct (last_locs_Some l Hlne) as [m Hm]. rewrite Hm in Hmax |- *.
      destruct (root_of l) eqn:Hl; [exact Hmax |].
      by apply root_of_None in Hl.
  - (* in the right subtree: its first node is preceded by [a] *)
    rewrite prev_in_app_r by (intros Hx'; by apply (Hlr x)).
    cbn [prev_in]. rewrite decide_False by (by intros ->).
    apply (IHr h (Some a) (Some a) 1%nat fuel x Hrepr Hndr); [| lia | done].
    intros ra f Hra Hf. destruct f as [| f]; [lia |].
    pose proof (root_of_Some_locs _ _ Hra) as Hrar.
    destruct r as [| rl ra' rk rr]; [done |]. injection Hra as ->.
    pose proof (rep_lookup _ _ _ _ _ _ Hrepr) as Hnra.
    cbn [prevNode_climb].
    rewrite (bind_eq _ _ _ _ _ (get_parent_eq _ _ _ Hnra)). cbn [nparent].
    rewrite (bind_eq _ _ _ _ _ (get_left_eq _ _ _ Ha)). cbn [nleft].
    rewrite decide_False; [reflexivity |].
    intros Heq. apply root_of_Some_locs in Heq. by apply (Hlr ra).
Qed.

(** For a whole tree nothing lies above the root. *)
Lemma nextNode_root t h fuel x :
  rep h None t → NoDup (locs t) →
  1 + theight t ≤ Z.of_nat fuel → x ∈ locs t →
  nextNode fuel (Some x) h = Ok (next_in (locs t) x None) h.
Proof.
  intros Hrep Hnd Hfuel Hx.
  apply (nextNode_rep t h None None 1%nat fuel x Hrep Hnd); [| lia | done].
  intros a f Ha Hf. destruct f as [| f]; [lia |].
  destruct t as [| l a' k r]; [done |]. injection Ha as ->.
  pose proof (rep_lookup _ _ _ _ _ _ Hrep) as Hna.
  cbn [nextNode_climb].
  by rewrite (bind_eq _ _ _ _ _ (get_parent_eq _ _ _ Hna)).
Qed.

Lemma prevNode_root t h fuel x :
  rep h None t → NoDup (locs t) →
  1 + theight t ≤ Z.of_nat fuel → x ∈ locs t →
  prevNode fuel (Some x) h = Ok (prev_in (locs t) x None) h.
Proof.
  intros Hrep Hnd Hfuel Hx.
  apply (prevNode_rep t h None None 1%nat fuel x Hrep Hnd); [| lia | done].
  intros a f Ha Hf. destruct f as [| f]; [lia |].
  destruct t as [| l a' k r]; [done |]. injection Ha as ->.
  pose proof (rep_lookup _ _ _ _ _ _ Hrep) as Hna.
  cbn [prevNode_climb].
  by rewrite (bind_eq _ _ _ _ _ (get_parent_eq _ _ _ Hna)).
Qed.

End Stepping.

(** ** More fuel never changes a result *)

Lemma fuel_le_refl {S A} (o : outcome S A) : fuel_le o o.
Proof. by right. Qed.

Lemma fuel_le_out {S A} (o : outcome S A) : fuel_le OutOfFuel o.
Proof. by left. Qed.

Lemma fuel_le_bind {S A B} (m m' : M S A) (f f' : A → M S B) s :
  fuel_le (m s) (m' s) →
  (∀ v s1, fuel_le (f v s1) (f' v s1)) →
  fuel_le (bind m f s) (bind m' f' s).
Proof.
  intros [Hm | Hm] Hf; unfold bind.
  - rewrite Hm. by left.
  - rewrite Hm. destruct (m' s); try by right. apply Hf.
Qed.

Lemma fuel_le_Ok {S A} (o o' : outcome S A) v s :
  fuel_le o o' → o = Ok v s → o' = Ok v s.
Proof. intros [-> | ->]; [done | done]. Qed.

Section Fuel.
Context {K : Type} `{Ordered K} `{Machine}.
Implicit Types (h : heap K) (p : ptr).

Lemma findMin_mono fuel : ∀ fuel' p h,
  (fuel ≤ fuel')%nat → fuel_le (findMin fuel p h) (findMin fuel' p h).
Proof.
  induction fuel as [| fuel IH]; intros fuel' p h Hle; [apply fuel_le_out |].
  destruct fuel' as [| fuel']; [lia |]. cbn [findMin].
  destruct p; [| apply fuel_le_refl].
  apply fuel_le_bind; [apply fuel_le_refl |]. intros tl h1.
  destruct tl; [apply IH; lia | apply fuel_le_refl].
Qed.

Lemma findMax_mono fuel : ∀ fuel' p h,
  (fuel ≤ fuel')%nat → fuel_le (findMax fuel p h) (findMax fuel' p h).
Proof.
  induction fuel as [| fuel IH]; intros fuel' p h Hle; [apply fuel_le_out |].
  destruct fuel' as [| fuel']; [lia |]. cbn [findMax].
  destruct p; [| apply fuel_le_refl].
  apply fuel_le_bind; [apply fuel_le_refl |]. intros tl h1.
  destruct tl; [apply IH; lia | apply fuel_le_refl].
Qed.

Lemma eraseMin_mono fuel : ∀ fuel' p h,
  (fuel ≤ fuel')%nat → fuel_le (eraseMin fuel p h) (eraseMin fuel' p h).
Proof.
  induction fuel as [| fuel IH]; intros fuel' p h Hle; [apply fuel_le_out |].
  destruct fuel' as [| fuel']; [lia |]. cbn [eraseMin].
  apply fuel_le_bind; [apply fuel_le_refl |]. intros tl h1.
  destruct tl; [| apply fuel_le_refl].
  apply fuel_le_bind; [apply IH; lia |]. intros ? ?. apply fuel_le_refl.
Qed.

Lemma nextNode_climb_mono fuel : ∀ fuel' p h,
  (fuel ≤ fuel')%nat →
  fuel_le (nextNode_climb fuel p h) (nextNode_climb fuel' p h).
Proof.
  induction fuel as [| fuel IH]; intros fuel' p h Hle; [apply fuel_le_out |].
  destruct fuel' as [| fuel']; [lia |]. cbn [nextNode_climb].
  apply fuel_le_bind; [apply fuel_le_refl |]. intros q h1.
  destruct q; [| apply fuel_le_refl].
  apply fuel_le_bind; [apply fuel_le_refl |]. intros pr h2.
  destruct (decide (pr = p)); [apply IH; lia | apply fuel_le_refl].
Qed.

Lemma prevNode_climb_mono fuel : ∀ fuel' p h,
  (fuel ≤ fuel')%nat →
  fuel_le (prevNode_climb fuel p h) (prevNode_climb fuel' p h).
Proof.
  induction fuel as [| fuel IH]; intros fuel' p h Hle; [apply fuel_le_out |].
  destruct fuel' as [| fuel']; [lia |]. cbn [prevNode_climb].
  apply fuel_le_bind; [apply fuel_le_refl |]. intros q h1.
  destruct q; [| apply fuel_le_refl].
  apply fuel_le_bind; [apply fuel_le_refl |]. intros pr h2.
  destruct (decide (pr = p)); [apply IH; lia | apply fuel_le_refl].
Qed.

Lemma nextNode_mono fuel fuel' p h :
  (fuel ≤ fuel')%nat → fuel_le (nextNode fuel p h) (nextNode fuel' p h).
Proof.
  intros Hle. unfold nextNode.
  apply fuel_le_bind; [apply fuel_le_refl |]. intros tr h1.
  destruct tr; [by apply findMin_mono | by apply nextNode_climb_mono].
Qed.

Lemma prevNode_mono fuel fuel' p h :
  (fuel ≤ fuel')%nat → fuel_le (prevNode fuel p h) (prevNode fuel' p h).
Proof.
  intros Hle. unfold prevNode.
  apply fuel_le_bind; [apply fuel_le_refl |]. intros tr h1.
  destruct tr; [by apply findMax_mono | by apply prevNode_climb_mono].
Qed.

Lemma AVLInsert_mono key fuel : ∀ fuel' p parent h,
  (fuel ≤ fuel')%nat →
  fuel_le (AVLInsert fuel p key parent h) (AVLInsert fuel' p key parent h).
Proof.
  induction fuel as [| fuel IH]; intros fuel' p parent h Hle; [apply fuel_le_out |].
  destruct fuel' as [| fuel']; [lia |]. cbn [AVLInsert].
  apply fuel_le_bind; [apply fuel_le_refl |]. intros t h1.
  apply fuel_le_bind; [apply fuel_le_refl |]. intros k h2.
  destruct (isKeyEqual k key); [apply fuel_le_refl |].
  apply fuel_le_bind; [| intros ? ?; apply fuel_le_refl].
  destruct (less k key).
  - apply fuel_le_bind; [apply fuel_le_refl |]. intros tr h3.
    apply fuel_le_bind; [apply IH; lia |]. intros ? ?. apply fuel_le_refl.
  - apply fuel_le_bind; [apply fuel_le_refl |]. intros tr h3.
    apply fuel_le_bind; [apply IH; lia |]. intros ? ?. apply fuel_le_refl.
Qed.

Lemma AVLErase_mono key fuel : ∀ fuel' p h,
  (fuel ≤ fuel')%nat →
  fuel_le (AVLErase fuel p key h) (AVLErase fuel' p key h).
Proof.
  induction fuel as [| fuel IH]; intros fuel' p h Hle; [apply fuel_le_out |].
  destruct fuel' as [| fuel']; [lia |]. cbn [AVLErase].
  destruct p as [a |]; [| apply fuel_le_refl].
  apply fuel_le_bind; [apply fuel_le_refl |]. intros k h1.
  apply fuel_le_bind; [| intros ? ?; apply fuel_le_refl].
  destruct (isKeyEqual k key).
  - apply fuel_le_bind; [apply fuel_le_refl |]. intros l h2.
    apply fuel_le_bind; [apply fuel_le_refl |]. intros r h3.
    apply fuel_le_bind; [apply fuel_le_refl |]. intros ? h4.
    destruct r; [| apply fuel_le_refl].
    apply fuel_le_bind; [apply findMin_mono; lia |]. intros t0 h5.
    apply fuel_le_bind; [apply eraseMin_mono; lia |]. intros ? ?.
    apply fuel_le_refl.
  - destruct (less k key).
    + apply fuel_le_bind; [apply fuel_le_refl |]. intros tr h3.
      apply fuel_le_bind; [apply IH; lia |]. intros ? ?. apply fuel_le_refl.
    + apply fuel_le_bind; [apply fuel_le_refl |]. intros tr h3.
      apply fuel_le_bind; [apply IH; lia |]. intros ? ?. apply fuel_le_refl.
Qed.

Lemma AVLFind_mono key fuel : ∀ fuel' p h,
  (fuel ≤ fuel')%nat → fuel_le (AVLFind fuel p key h) (AVLFind fuel' p key h).
Proof.
  induction fuel as [| fuel IH]; intros fuel' p h Hle; [apply fuel_le_out |].
  destruct fuel' as [| fuel']; [lia |]. cbn [AVLFind].
  destruct p as [a |]; [| apply fuel_le_refl].
  apply fuel_le_bind; [apply fuel_le_refl |]. intros k h1.
  destruct (isKeyEqual k key); [apply fuel_le_refl |].
  destruct (less k key).
  - apply fuel_le_bind; [apply fuel_le_refl |]. intros tr h3. apply IH. lia.
  - apply fuel_le_bind; [apply fuel_le_refl |]. intros tr h3. apply IH. lia.
Qed.

Lemma AVLLowerBound_mono key fuel : ∀ fuel' p h,
  (fuel ≤ fuel')%nat →
  fuel_le (AVLLowerBound fuel p key h) (AVLLowerBound fuel' p key h).
Proof.
  induction fuel as [| fuel IH]; intros fuel' p h Hle; [apply fuel_le_out |].
  destruct fuel' as [| fuel']; [lia |]. cbn [AVLLowerBound].
  destruct p as [a |]; [| apply fuel_le_refl].
  apply fuel_le_bind; [apply fuel_le_refl |]. intros k h1.
  destruct (isKeyEqual k key); [apply fuel_le_refl |].
  destruct (less key k).
  - apply fuel_le_bind; [apply fuel_le_refl |]. intros tr h3.
    apply fuel_le_bind; [apply IH; lia |]. intros ? ?. apply fuel_le_refl.
  - apply fuel_le_bind; [apply fuel_le_refl |]. intros tr h3. apply IH. lia.
Qed.

Lemma copyTree_mono fuel : ∀ fuel' p h,
  (fuel ≤ fuel')%nat → fuel_le (copyTree fuel p h) (copyTree fuel' p h).
Proof.
  induction fuel as [| fuel IH]; intros fuel' p h Hle; [apply fuel_le_out |].
  destruct fuel' as [| fuel']; [lia |]. cbn [copyTree].
  destruct p as [a |]; [| apply fuel_le_refl].
  apply fuel_le_bind; [apply fuel_le_refl |]. intros n h1.
  apply fuel_le_bind; [apply fuel_le_refl |]. intros to h2.
  apply fuel_le_bind; [apply fuel_le_refl |]. intros fl h3.
  apply fuel_le_bind; [apply IH; lia |]. intros l' h4.
  apply fuel_le_bind; [apply fuel_le_refl |]. intros ? h5.
  apply fuel_le_bind; [apply fuel_le_refl |]. intros fr h6.
  apply fuel_le_bind; [apply IH; lia |]. intros r' h7.
  apply fuel_le_refl.
Qed.

Lemma deleteTree_mono fuel : ∀ fuel' p h,
  (fuel ≤ fuel')%nat → fuel_le (deleteTree fuel p h) (deleteTree fuel' p h).
Proof.
  induction fuel as [| fuel IH]; intros fuel' p h Hle; [apply fuel_le_out |].
  destruct fuel' as [| fuel']; [lia |]. cbn [deleteTree].
  destruct p as [a |]; [| apply fuel_le_refl].
  apply fuel_le_bind; [apply fuel_le_refl |]. intros tl h1.
  apply fuel_le_bind; [apply IH; lia |]. intros tl' h2.
  apply fuel_le_bind; [apply fuel_le_refl |]. intros ? h3.
  apply fuel_le_bind; [apply fuel_le_refl |]. intros tr h4.
  apply fuel_le_bind; [apply IH; lia |]. intros tr' h5.
  apply fuel_le_refl.
Qed.

End Fuel.

Section CopyDelete.
Context {K : Type} `{Ordered K} `{Machine}.
Implicit Types (h : heap K) (t l r : tree (K:=K)) (a x : loc) (p : ptr).

(** ** Trees of the same shape *)

Lemma same_shape_theight t t' : same_shape t t' → theight t' = theight t.
Proof.
  revert t'. induction t as [| l IHl a k r IHr]; intros [| l' a' k' r']; simpl; try done.
  intros (_ & Hl & Hr). by rewrite (IHl _ Hl), (IHr _ Hr).
Qed.

Lemma same_shape_tsize t t' : same_shape t t' → tsize t' = tsize t.
Proof.
  revert t'. induction t as [| l IHl a k r IHr]; intros [| l' a' k' r']; simpl; try done.
  intros (_ & Hl & Hr). by rewrite (IHl _ Hl), (IHr _ Hr).
Qed.

Lemma same_shape_keys t t' : same_shape t t' → keys t' = keys t.
Proof.
  revert t'. induction t as [| l IHl a k r IHr]; intros [| l' a' k' r']; simpl; try done.
  intros (-> & Hl & Hr). by rewrite (IHl _ Hl), (IHr _ Hr).
Qed.

Lemma same_shape_avl t t' : same_shape t t' → avl t → avl t'.
Proof.
  revert t'. induction t as [| l IHl a k r IHr]; intros [| l' a' k' r']; simpl; try done.
  intros (_ & Hl & Hr) (Hal & Har & Hd).
  rewrite (same_shape_theight _ _ Hl), (same_shape_theight _ _ Hr).
  split_and!; [by apply IHl | by apply IHr | lia | lia].
Qed.

Lemma same_shape_bst t t' : same_shape t t' → bst t → bst t'.
Proof. intros Hs. rewrite !bst_sorted. by rewrite (same_shape_keys _ _ Hs). Qed.

(** ** [AVLInsert] when the heap is full *)

Lemma new_node_full h (n : TreeNode K) :
  ¬ (size h < max_nodes)%nat → new_node n h = BadAlloc.
Proof. intros Hsz. unfold new_node. by rewrite decide_False. Qed.

Lemma AVLInsert_full key t :
  ∀ fuel h par parent,
    rep h par t → theight t < Z.of_nat fuel →
    tree_find key t = None → ¬ (size h < max_nodes)%nat →
    AVLInsert fuel (root_of t) key parent h = BadAlloc.
Proof.
  induction t as [| l IHl a k r IHr]; intros fuel h par parent Hrep Hfuel Hfind Hfull.
  - destruct fuel; [simpl in Hfuel; lia |]. cbn [AVLInsert root_of].
    unfold bind. by rewrite new_node_full.
  - pose proof (theight_nonneg l). pose proof (theight_nonneg r).
    destruct fuel as [| fuel]; [simpl in Hfuel; lia |].
    pose proof (rep_lookup _ _ _ _ _ _ Hrep) as Ha.
    destruct Hrep as (_ & Hl & Hr).
    cbn [AVLInsert root_of tree_find] in Hfind |- *.
    unfold ret at 1. cbn [bind].
    rewrite (bind_eq _ _ _ _ _ (get_key_eq _ _ _ Ha)). cbn [nkey].
    destruct (isKeyEqual k key); [done |].
    destruct (less k key).
    + unfold bind at 1.
      rewrite (bind_eq _ _ _ _ _ (get_right_eq _ _ _ Ha)). cbn [nright].
      unfold bind at 1.
      by rewrite (IHr fuel h (Some a) (Some a) Hr ltac:(simpl in Hfuel; lia)).
    + unfold bind at 1.
      rewrite (bind_eq _ _ _ _ _ (get_left_eq _ _ _ Ha)). cbn [nleft].
      unfold bind at 1.
      by rewrite (IHl fuel h (Some a) (Some a) Hl ltac:(simpl in Hfuel; lia)).
Qed.

(** ** [deleteTree] on the heap *)

Lemma deleteTree_spec t :
  ∀ fuel h par,
    rep h par t → NoDup (locs t) → theight t < Z.of_nat fuel →
    ∃ h', deleteTree fuel (root_of t) h = Ok None h'
          ∧ ∀ x, h' !! x = if decide (x ∈ locs t) then None else h !! x.
Proof.
  induction t as [| l IHl a k r IHr]; intros fuel h par Hrep Hnd Hfuel.
  { destruct fuel; [simpl in Hfuel; lia |]. exists h. split; [done |].
    intros x. rewrite decide_False; [done | by intros ?%elem_of_nil]. }
  pose proof (theight_nonneg l) as Hhl. pose proof (theight_nonneg r) as Hhr.
  destruct fuel as [| fuel]; [simpl in Hfuel; lia |].
  pose proof (rep_lookup _ _ _ _ _ _ Hrep) as Ha.
  pose proof Hnd as Hnd'. simpl in Hnd'.
  apply NoDup_node in Hnd' as (Hndl & Hndr & Hal & Har & Hlr).
  destruct Hrep as (_ & Hrepl & Hrepr).
  cbn [deleteTree root_of].
  rewrite (bind_eq _ _ _ _ _ (get_left_eq _ _ _ Ha)). cbn [nleft].
  destruct (IHl fuel h (Some a) Hrepl Hndl ltac:(simpl in Hfuel; lia))
    as (h1 & Hrun1 & Hf1).
  rewrite (bind_eq _ _ _ _ _ Hrun1).
  assert (Ha1 : h1 !! a = Some (mkTreeNode k (theight (Node l a k r))
                                 (tsize (Node l a k r)) (root_of l) (root_of r) par)).
  { rewrite Hf1. by rewrite decide_False. }
  rewrite (bind_eq _ _ _ _ _ (set_left_eq _ _ _ _ Ha1)).
  cbn [nkey nheight ncnt nright nparent].
  set (h2 := <[a := _]> h1).
  assert (Ha2 : h2 !! a = Some (mkTreeNode k (theight (Node l a k r))
                                 (tsize (Node l a k r)) None (root_of r) par))
    by apply lookup_insert_eq.
  rewrite (bind_eq _ _ _ _ _ (get_right_eq _ _ _ Ha2)). cbn [nright].
  assert (Hrepr2 : rep h2 (Some a) r).
  { apply rep_frame with h; [done |]. intros x Hx.
    unfold h2. rewrite lookup_insert_ne by (by intros ->).
    rewrite Hf1. rewrite decide_False; [done |]. intros Hx'. by apply (Hlr x). }
  destruct (IHr fuel h2 (Some a) Hrepr2 Hndr ltac:(simpl in Hfuel; lia))
    as (h3 & Hrun3 & Hf3).
  rewrite (bind_eq _ _ _ _ _ Hrun3).
  assert (Ha3 : h3 !! a = Some (mkTreeNode k (theight (Node l a k r))
                                 (tsize (Node l a k r)) None (root_of r) par)).
  { rewrite Hf3. by rewrite decide_False. }
  rewrite (bind_eq _ _ _ _ _ (set_right_eq _ _ _ _ Ha3)).
  cbn [nkey nheight ncnt nleft nparent].
  set (h4 := <[a := _]> h3).
  assert (Ha4 : h4 !! a = Some (mkTreeNode k (theight (Node l a k r))
                                 (tsize (Node l a k r)) None None par))
    by apply lookup_insert_eq.
  rewrite (bind_eq _ _ _ _ _ (delete_node_eq _ _ _ Ha4)).
  eexists. split; [reflexivity |].
  intros x. cbn [locs].
  destruct (decide (x = a)) as [-> | Hxa].
  { rewrite lookup_delete_eq. rewrite decide_True; [done | set_solver]. }
  rewrite lookup_delete_ne by done.
  unfold h4. rewrite lookup_insert_ne by done.
  rewrite Hf3. unfold h2.
  destruct (decide (x ∈ locs r)) as [Hxr | Hxr].
  { rewrite decide_True; [done | set_solver]. }
  rewrite lookup_insert_ne by done. rewrite Hf1.
  destruct (decide (x ∈ locs l)) as [Hxl | Hxl].
  { rewrite decide_True; [done | set_solver]. }
  rewrite decide_False; [done |].
  intros [Hx | [Hx | Hx]%elem_of_cons]%elem_of_app; done.
Qed.

(** ** [copyTree] on the heap *)

Lemma size_insert_fresh h a (n : TreeNode K) :
  h !! a = None → size (<[a := n]> h) = S (size h).
Proof. apply map_size_insert_None. Qed.

Lemma size_insert_present h a (n n' : TreeNode K) :
  h !! a = Some n → size (<[a := n']> h) = size h.
Proof. intros Hn. by apply map_size_insert_Some. Qed.

Lemma same_outside_size ls h h' : same_outside ls h h' → size h' = size h.
Proof. intros [Hd _]. by rewrite <- !size_dom, Hd. Qed.

Lemma copyTree_spec t :
  ∀ fuel h par,
    rep h par t → theight t < Z.of_nat fuel →
    (size h ≤ max_nodes)%nat →
    if decide (Z.of_nat (size h) + tsize t ≤ Z.of_nat max_nodes) then
      ∃ h' t',
        copyTree fuel (root_of t) h = Ok (root_of t') h'
        ∧ rep h' None t' ∧ NoDup (locs t') ∧ same_shape t t'
        ∧ (∀ x, x ∈ locs t' → h !! x = None)
        ∧ (∀ x, x ∉ locs t' → h' !! x = h !! x)
        ∧ Z.of_nat (size h') = Z.of_nat (size h) + tsize t
    else copyTree fuel (root_of t) h = BadAlloc.
Proof.
  induction t as [| l IHl a k r IHr]; intros fuel h par Hrep Hfuel Hcap.
  { destruct fuel; [simpl in Hfuel; lia |].
    rewrite decide_True by (simpl; lia).
    exists h, Leaf. split_and!; try done; [constructor | | simpl; lia].
    intros x Hx. by apply elem_of_nil in Hx. }
  pose proof (theight_nonneg l) as Hhl. pose proof (theight_nonneg r) as Hhr.
  pose proof (tsize_nonneg l) as Hsl. pose proof (tsize_nonneg r) as Hsr.
  destruct fuel as [| fuel]; [simpl in Hfuel; lia |].
  pose proof (rep_lookup _ _ _ _ _ _ Hrep) as Ha.
  destruct Hrep as (_ & Hrepl & Hrepr).
  set (n := mkTreeNode k (theight (Node l a k r)) (tsize (Node l a k r))
                       (root_of l) (root_of r) par) in *.
  cbn [copyTree root_of]. cbn [tsize].
  rewrite (bind_eq _ _ _ _ _ (load_eq _ _ _ Ha)).
  destruct (decide (size h < max_nodes)%nat) as [Hroom | Hfull]; cycle 1.
  { rewrite decide_False by lia. unfold bind. by rewrite new_node_full. }
  rewrite (bind_eq _ _ _ _ _ (new_node_eq _ _ Hroom)).
  set (b := fresh (dom h)).
  assert (Hb : h !! b = None).
  { apply not_elem_of_dom. apply is_fresh. }
  assert (Hab : a ≠ b) by (intros ->; congruence).
  set (h1 := <[b := n]> h).
  assert (Hsz1 : size h1 = S (size h)) by (by apply size_insert_fresh).
  assert (Hf1 : ∀ x, x ≠ b → h1 !! x = h !! x).
  { intros x Hx. unfold h1. by rewrite lookup_insert_ne. }
  assert (Ha1 : h1 !! a = Some n) by (by rewrite Hf1).
  rewrite (bind_eq _ _ _ _ _ (get_left_eq _ _ _ Ha1)). cbn [nleft n].
  assert (Hrepl1 : rep h1 (Some a) l).
  { apply rep_frame with h; [done |]. intros x Hx. apply Hf1.
    intros ->. destruct (rep_dom _ _ _ _ Hrepl Hx) as [? ?]. congruence. }
  pose proof (IHl fuel h1 (Some a) Hrepl1 ltac:(simpl in Hfuel; lia) ltac:(lia)) as IH1.
  destruct (decide (Z.of_nat (size h1) + tsize l ≤ Z.of_nat max_nodes)) as [Hfit1 | Hfit1];
    cycle 1.
  { rewrite decide_False by lia. unfold bind at 1. by rewrite IH1. }
  destruct IH1 as (h2 & l' & Hrun2 & Hrep2 & Hnd2 & Hsh2 & Hfr2 & Hf2 & Hsz2).
  rewrite (bind_eq _ _ _ _ _ Hrun2).
  assert (Hbl' : b ∉ locs l').
  { intros Hx. apply Hfr2 in Hx. unfold h1 in Hx. by rewrite lookup_insert_eq in Hx. }
  assert (Hal' : a ∉ locs l').
  { intros Hx. apply Hfr2 in Hx. congruence. }
  assert (Hb2 : h2 !! b = Some n).
  { rewrite Hf2 by done. apply lookup_insert_eq. }
  rewrite (bind_eq _ _ _ _ _ (set_left_eq _ _ _ _ Hb2)).
  cbn [nkey nheight ncnt nright nparent n].
  set (h3 := <[b := _]> h2).
  assert (Hsz3 : size h3 = size h2) by (by eapply size_insert_present).
  assert (Hf3 : ∀ x, x ≠ b → h3 !! x = h2 !! x).
  { intros x Hx. unfold h3. by rewrite lookup_insert_ne. }
  assert (Ha3 : h3 !! a = Some n).
  { rewrite Hf3 by done. by rewrite Hf2. }
  rewrite (bind_eq _ _ _ _ _ (get_right_eq _ _ _ Ha3)). cbn [nright n].
  assert (Hrepr3 : rep h3 (Some a) r).
  { apply rep_frame with h; [done |]. intros x Hx.
    destruct (rep_dom _ _ _ _ Hrepr Hx) as [nx Hnx].
    assert (x ≠ b) by (intros ->; congruence).
    rewrite Hf3 by done. rewrite Hf2; [by apply Hf1 |].
    intros Hx'%Hfr2. rewrite Hf1 in Hx' by done. congruence. }
  pose proof (IHr fuel h3 (Some a) Hrepr3 ltac:(simpl in Hfuel; lia) ltac:(lia)) as IH3.
  destruct (decide (Z.of_nat (size h3) + tsize r ≤ Z.of_nat max_nodes)) as [Hfit3 | Hfit3];
    cycle 1.
  { rewrite decide_False by lia. unfold bind at 1. by rewrite IH3. }
  rewrite decide_True by lia.
  destruct IH3 as (h4 & r' & Hrun4 & Hrep4 & Hnd4 & Hsh4 & Hfr4 & Hf4 & Hsz4).
  rewrite (bind_eq _ _ _ _ _ Hrun4).
  assert (Hbr' : b ∉ locs r').
  { intros Hx. apply Hfr4 in Hx. unfold h3 in Hx. by rewrite lookup_insert_eq in Hx. }
  assert (Hl'r' : ∀ x, x ∈ locs l' → x ∉ locs r').
  { intros x Hx Hx'. apply Hfr4 in Hx'.
    destruct (rep_dom _ _ _ _ Hrep2 Hx) as [nx Hnx].
    rewrite Hf3 in Hx' by (by intros ->). congruence. }
  assert (Hb4 : h4 !! b = Some (mkTreeNode k (theight (Node l a k r))
                                  (tsize (Node l a k r)) (root_of l') (root_of r) par)).
  { rewrite Hf4 by done. apply lookup_insert_eq. }
  rewrite (bind_eq _ _ _ _ _ (set_right_eq _ _ _ _ Hb4)).
  cbn [nkey nheight ncnt nleft nparent].
  set (h5 := <[b := _]> h4).
  assert (Hsz5 : size h5 = size h4) by (by eapply size_insert_present).
  assert (Hf5 : ∀ x, x ≠ b → h5 !! x = h4 !! x).
  { intros x Hx. unfold h5. by rewrite lookup_insert_ne. }
  assert (Hnode5 : node_at h5 b k l' r').
  { eexists. split; [apply lookup_insert_eq |]. by split_and!. }
  assert (Hl5 : srep h5 l').
  { exists None. apply rep_frame with h2; [done |]. intros x Hx.
    rewrite Hf5 by (by intros ->). rewrite Hf4 by (by apply Hl'r').
    apply Hf3. by intros ->. }
  assert (Hr5 : srep h5 r').
  { exists None. apply rep_frame with h4; [done |]. intros x Hx.
    apply Hf5. by intros ->. }
  assert (Hnd5 : NoDup (locs (Node l' b k r'))).
  { simpl. apply NoDup_node. by split_and!. }
  assert (Hsz5' : tsize (Node l' b k r') < 2 ^ 64).
  { simpl. rewrite (same_shape_tsize _ _ Hsh2), (same_shape_tsize _ _ Hsh4).
    pose proof max_nodes_fits. lia. }
  destruct (update_node h5 b k l' r' Hnode5 Hl5 Hr5 Hnd5 Hsz5')
    as (h6 & Hrun6 & Hrep6 & Hso6).
  rewrite (bind_eq _ _ _ _ _ Hrun6).
  exists h6, (Node l' b k r'). split_and!; try done.
  - intros x [Hx | [-> | Hx]%elem_of_cons]%elem_of_app.
    + pose proof (Hfr2 x Hx) as Hx1. rewrite Hf1 in Hx1; [done |]. by intros ->.
    + done.
    + pose proof (Hfr4 x Hx) as Hx3.
      assert (x ≠ b) by (by intros ->).
      rewrite Hf3 in Hx3 by done.
      destruct (decide (x ∈ locs l')) as [Hxl | Hxl]; [by apply Hl'r' in Hxl |].
      rewrite Hf2 in Hx3 by done. by rewrite Hf1 in Hx3.
  - intros x Hx. destruct Hso6 as [_ Hf6]. rewrite Hf6 by done.
    simpl in Hx.
    assert (x ≠ b) by (intros ->; apply Hx; set_solver).
    rewrite Hf5 by done.
    rewrite Hf4 by (intros Hx'; apply Hx; set_solver).
    rewrite Hf3 by done.
    rewrite Hf2 by (intros Hx'; apply Hx; set_solver).
    by apply Hf1.
  - rewrite (same_outside_size _ _ _ Hso6). lia.
Qed.

End CopyDelete.

Section SearchTrees.
Context {K : Type} `{Ordered K}.
Implicit Types (t l r : tree (K:=K)) (a : loc) (k key : K).

(** ** [insert] and [erase] keep the search-tree order *)

Lemma tree_insert_keys new key t :
  bst t → tree_find key t = None →
  ∃ ks1 ks2, keys t = ks1 ++ ks2
    ∧ keys (tree_insert new key t) = ks1 ++ key :: ks2
    ∧ Forall (λ x, less x key = true) ks1
    ∧ Forall (λ x, less key x = true) ks2.
Proof.
  intros Hbst Hf.
  destruct (tree_insert_elems new key t Hf) as (es1 & es2 & He & He' & Hord).
  destruct (Hord Hbst) as [Ho1 Ho2].
  exists es1.*2, es2.*2. rewrite !keys_elems, He, He'.
  rewrite !fmap_app, fmap_cons. split_and!; try done; by apply Forall_fmap.
Qed.

Lemma tree_insert_bst new key t : bst t → bst (tree_insert new key t).
Proof.
  intros Hbst. destruct (tree_find key t) as [a |] eqn:Hf.
  - rewrite bst_sorted, keys_elems, tree_insert_elems_found by congruence.
    rewrite <- keys_elems. by apply bst_sorted.
  - destruct (tree_insert_keys new key t Hbst Hf) as (ks1 & ks2 & Hk & Hk' & Ho1 & Ho2).
    apply bst_sorted in Hbst. rewrite Hk in Hbst.
    apply StronglySorted_app in Hbst as (Hcross & Hs1 & Hs2).
    apply bst_sorted. rewrite Hk'.
    apply StronglySorted_app. split_and!; [| done |].
    + intros x y Hx [-> | Hy]%elem_of_cons; [| by apply Hcross].
      rewrite Forall_forall in Ho1. by apply Ho1.
    + apply StronglySorted_cons. by split.
Qed.

Lemma tree_erase_keys key t a :
  tree_find key t = Some a →
  ∃ ks1 k ks2, keys t = ks1 ++ k :: ks2
    ∧ keys (tree_erase key t) = ks1 ++ ks2
    ∧ isKeyEqual k key = true.
Proof.
  intros Hf.
  destruct (tree_erase_elems key t a Hf) as (es1 & k & es2 & He & He' & Hk).
  exists es1.*2, k, es2.*2. rewrite !keys_elems, He, He'.
  by rewrite !fmap_app, fmap_cons.
Qed.

Lemma tree_erase_keys_absent key t :
  tree_find key t = None → keys (tree_erase key t) = keys t.
Proof. intros Hf. by rewrite !keys_elems, tree_erase_elems_absent. Qed.

Lemma tree_erase_bst key t : bst t → bst (tree_erase key t).
Proof.
  intros Hbst. destruct (tree_find key t) as [a |] eqn:Hf.
  - destruct (tree_erase_keys key t a Hf) as (ks1 & k & ks2 & Hk & Hk' & _).
    apply bst_sorted in Hbst. rewrite Hk in Hbst.
    apply StronglySorted_app in Hbst as (Hcross & Hs1 & Hs2).
    apply StronglySorted_cons in Hs2 as [_ Hs2].
    apply bst_sorted. rewrite Hk'.
    apply StronglySorted_app. split_and!; [| done | done].
    intros x y Hx Hy. apply Hcross; [done | by right].
  - apply bst_sorted. rewrite tree_erase_keys_absent by done. by apply bst_sorted.
Qed.

(** After [erase], no key equivalent to the erased one is left. *)
Lemma tree_erase_find key t :
  bst t → tree_find key (tree_erase key t) = None.
Proof.
  intros Hbst. pose proof (tree_erase_bst key t Hbst) as Hbst'.
  apply tree_find_None; [done |].
  destruct (tree_find key t) as [a |] eqn:Hf.
  - destruct (tree_erase_keys key t a Hf) as (ks1 & k & ks2 & Hk & Hk' & Heq).
    apply bst_sorted in Hbst. rewrite Hk in Hbst.
    apply StronglySorted_app in Hbst as (Hcross & Hs1 & Hs2).
    apply StronglySorted_cons in Hs2 as [Hk2 _]. rewrite Forall_forall in Hk2.
    rewrite Hk'. intros x [Hx | Hx]%elem_of_app.
    + apply isKeyEqual_false. left.
      rewrite <- (less_equiv_r k key x Heq). apply Hcross; [done | by left].
    + apply isKeyEqual_false. right.
      rewrite <- (less_equiv_l k key x Heq). by apply Hk2.
  - rewrite tree_erase_keys_absent by done. by apply tree_find_None.
Qed.

Lemma tree_find_has_key key t :
  bst t → tree_find key t ≠ None ↔ has_key key (keys t).
Proof.
  intros Hbst. split.
  - destruct (tree_find key t) as [a |] eqn:Hf; [| done]. intros _.
    destruct (tree_find_elem key t a Hf) as (k & Hin & Hk).
    exists k. split; [| done]. rewrite keys_elems.
    by apply (list_elem_of_fmap_2 snd _ (a, k)).
  - intros (k & Hin & Hk) Hf.
    rewrite (tree_find_None key t Hbst) in Hf. rewrite Hf in Hk; done.
Qed.

End SearchTrees.

Section Worlds.
Context {K : Type} `{Ordered K} `{Machine}.
Implicit Types (h : heap K) (t : tree (K:=K)) (a x : loc) (p : ptr)
  (w : world (K:=K)) (s : sid).

(** ** Stepping through the public interface *)

Lemma on_nodes_eq {A} (m : M (heap K) A) w (v : A) h' :
  m (nodes w) = Ok v h' → on_nodes m w = Ok v (mkWorld h' (sets w)).
Proof. intros Hm. unfold on_nodes. by rewrite Hm. Qed.

Lemma on_nodes_BadAlloc {A} (m : M (heap K) A) w :
  m (nodes w) = BadAlloc → on_nodes m w = BadAlloc.
Proof. intros Hm. unfold on_nodes. by rewrite Hm. Qed.

Lemma get_root_eq w s r : sets w !! s = Some r → get_root (Some s) w = Ok r w.
Proof. intros Hs. unfold get_root. by rewrite Hs. Qed.

Lemma set_root_eq w s r0 r :
  sets w !! s = Some r0 →
  set_root s r w = Ok tt (mkWorld (nodes w) (<[s := r]> (sets w))).
Proof. intros Hs. unfold set_root. by rewrite Hs. Qed.

Lemma fuel_le_on_nodes {A} (m m' : M (heap K) A) w :
  fuel_le (m (nodes w)) (m' (nodes w)) → fuel_le (on_nodes m w) (on_nodes m' w).
Proof. intros [Hm | Hm]; unfold on_nodes; rewrite Hm; [by left | by right]. Qed.

Lemma Set_insert_mono fuel fuel' s key w :
  (fuel ≤ fuel')%nat →
  fuel_le (Set_insert fuel s key w) (Set_insert fuel' s key w).
Proof.
  intros Hle. unfold Set_insert.
  apply fuel_le_bind; [apply fuel_le_refl |]. intros r w1.
  apply fuel_le_bind; [| intros ? ?; apply fuel_le_refl].
  apply fuel_le_on_nodes. by apply AVLInsert_mono.
Qed.

Lemma Set_erase_mono fuel fuel' s key w :
  (fuel ≤ fuel')%nat →
  fuel_le (Set_erase fuel s key w) (Set_erase fuel' s key w).
Proof.
  intros Hle. unfold Set_erase.
  apply fuel_le_bind; [apply fuel_le_refl |]. intros r w1.
  apply fuel_le_bind; [| intros ? ?; apply fuel_le_refl].
  apply fuel_le_on_nodes. by apply AVLErase_mono.
Qed.

(** A tree laid out in a heap has no more nodes than the heap. *)
Lemma tsize_le_size h par t :
  rep h par t → NoDup (locs t) → tsize t ≤ Z.of_nat (size h).
Proof.
  intros Hrep Hnd. rewrite tsize_length.
  rewrite <- (size_list_to_set (C:=gset loc) (locs t)) by done.
  rewrite <- size_dom. apply inj_le. apply subseteq_size.
  intros x Hx. apply elem_of_list_to_set in Hx. by eapply rep_locs_dom.
Qed.

Lemma tree_fits h par t :
  rep h par t → NoDup (locs t) → (size h ≤ max_nodes)%nat → tsize t < 2 ^ 64.
Proof.
  intros Hrep Hnd Hcap. pose proof (tsize_le_size _ _ _ Hrep Hnd).
  pose proof max_nodes_fits. lia.
Qed.

(** ** [insert] and [erase] on a [Set] object *)

Lemma Set_insert_spec w s t key fuel :
  holds w s t → avl t → (size (nodes w) ≤ max_nodes)%nat →
  theight t < Z.of_nat fuel →
  if decide (tree_find key t = None ∧ ¬ (size (nodes w) < max_nodes)%nat)
  then Set_insert fuel s key w = BadAlloc
  else ∃ h',
      Set_insert fuel s key w
      = Ok tt (mkWorld h' (<[s := root_of (tree_insert (fresh (dom (nodes w))) key t)]>
                             (sets w)))
      ∧ rep h' None (tree_insert (fresh (dom (nodes w))) key t)
      ∧ NoDup (locs (tree_insert (fresh (dom (nodes w))) key t))
      ∧ (∀ x, x ∉ locs t → x ≠ fresh (dom (nodes w)) → h' !! x = nodes w !! x)
      ∧ dom h' = (if tree_find key t is None
                  then {[fresh (dom (nodes w))]} ∪ dom (nodes w)
                  else dom (nodes w)).
Proof.
  intros (Hs & Hrep & Hnd) Havl Hcap Hfuel. unfold Set_insert.
  rewrite (bind_eq _ _ _ _ _ (get_root_eq _ _ _ Hs)).
  destruct (decide _) as [[Hf Hfull] | Hok].
  - unfold bind.
    by rewrite (on_nodes_BadAlloc _ _
                  (AVLInsert_full key t fuel _ None None Hrep Hfuel Hf Hfull)).
  - assert (Hroom : tree_find key t = None → (size (nodes w) < max_nodes)%nat).
    { intros Hf. destruct (decide (size (nodes w) < max_nodes)%nat); [done |].
      exfalso. by apply Hok. }
    assert (Hsz : tsize (tree_insert (fresh (dom (nodes w))) key t) < 2 ^ 64).
    { rewrite tree_insert_tsize. pose proof (tsize_le_size _ _ _ Hrep Hnd).
      pose proof max_nodes_fits.
      destruct (tree_find key t) eqn:Hf; [lia |]. specialize (Hroom eq_refl). lia. }
    destruct (AVLInsert_spec key t fuel (nodes w) None None Hrep Hnd Havl Hfuel Hsz Hroom)
      as (h' & par' & Hrun & Hrep' & Hpar & Hfr & Hdom).
    rewrite (Hpar eq_refl eq_refl) in Hrep'.
    rewrite (bind_eq _ _ _ _ _ (on_nodes_eq _ _ _ _ Hrun)).
    exists h'. split_and!; try done.
    + by rewrite (set_root_eq _ _ (root_of t)).
    + destruct (tree_insert_locs (fresh (dom (nodes w))) key t) as (_ & Hnd' & _).
      apply Hnd'; [done |]. by eapply fresh_not_in_tree.
Qed.

Lemma Set_erase_spec w s t key fuel :
  holds w s t → avl t → (size (nodes w) ≤ max_nodes)%nat →
  theight t < Z.of_nat fuel →
  ∃ h',
    Set_erase fuel s key w
    = Ok tt (mkWorld h' (<[s := root_of (tree_erase key t)]> (sets w)))
    ∧ rep h' None (tree_erase key t)
    ∧ NoDup (locs (tree_erase key t))
    ∧ (∀ x, x ∉ locs t → h' !! x = nodes w !! x)
    ∧ dom h' = match tree_find key t with
               | Some a => dom (nodes w) ∖ {[a]}
               | None => dom (nodes w)
               end.
Proof.
  intros (Hs & Hrep & Hnd) Havl Hcap Hfuel. unfold Set_erase.
  rewrite (bind_eq _ _ _ _ _ (get_root_eq _ _ _ Hs)).
  destruct (AVLErase_spec key t fuel (nodes w) None Hrep Hnd Havl Hfuel
              (tree_fits _ _ _ Hrep Hnd Hcap))
    as (h' & Hrun & Hrep' & Hfr & Hdom).
  rewrite (bind_eq _ _ _ _ _ (on_nodes_eq _ _ _ _ Hrun)).
  exists h'. split_and!; try done.
  - by rewrite (set_root_eq _ _ (root_of t)).
  - destruct (tree_erase_locs key t) as (_ & Hnd' & _). by apply Hnd'.
Qed.

End Worlds.

Section Invariant.
Context {K : Type} `{Ordered K} `{Machine}.
Implicit Types (h : heap K) (t : tree (K:=K)) (a x : loc) (p : ptr)
  (w : world (K:=K)) (s : sid).

(** ** The trees of a world *)

Lemma holds_unique w s t1 t2 : holds w s t1 → holds w s t2 → t1 = t2.
Proof.
  intros (Hs1 & Hrep1 & _) (Hs2 & Hrep2 & _).
  apply (rep_unique _ _ _ _ _ Hrep1 Hrep2). congruence.
Qed.

Lemma world_inv_holds w s r :
  world_inv w → sets w !! s = Some r →
  ∃ t, holds w s t ∧ root_of t = r ∧ bst t ∧ avl t.
Proof.
  intros (_ & T & Hsets & Htrees & _) Hs.
  rewrite Hsets in Hs. destruct (T !! s) as [t |] eqn:Ht; [| done].
  injection Hs as <-. destruct (Htrees s t Ht) as (Hrep & Hnd & Hbst & Havl).
  exists t. split; [| by split_and!].
  split; [by rewrite Hsets, Ht | by split].
Qed.

Lemma world_inv_disjoint w s1 s2 t1 t2 :
  world_inv w → s1 ≠ s2 → holds w s1 t1 → holds w s2 t2 →
  ∀ x, x ∈ locs t1 → x ∉ locs t2.
Proof.
  intros (_ & T & Hsets & Htrees & Hdisj) Hne H1 H2.
  assert (Hlook : ∀ s t, holds w s t → T !! s = Some t).
  { intros s t Hh. pose proof Hh as (Hs & _). rewrite Hsets in Hs.
    destruct (T !! s) as [t' |] eqn:Ht; [| done]. f_equal.
    apply (holds_unique w s); [| done].
    destruct (Htrees s t' Ht) as (Hrep & Hnd & _).
    split; [by rewrite Hsets, Ht | by split]. }
  apply (Hdisj s1 s2); auto.
Qed.

Lemma world_inv_capacity w : world_inv w → (size (nodes w) ≤ max_nodes)%nat.
Proof. by intros [? _]. Qed.

(** Replacing the tree of one [Set] object while the nodes of the others
    stay as they are. *)
Lemma world_inv_update w s t t' h' :
  world_inv w → holds w s t →
  rep h' None t' → NoDup (locs t') → bst t' → avl t' →
  (size h' ≤ max_nodes)%nat →
  (∀ x, x ∉ locs t → is_Some (nodes w !! x) → h' !! x = nodes w !! x) →
  (∀ x, x ∈ locs t' → x ∈ locs t ∨ nodes w !! x = None) →
  world_inv (mkWorld h' (<[s := root_of t']> (sets w))).
Proof.
  intros Hinv Hholds Hrep' Hnd' Hbst' Havl' Hcap' Hfr Hnew.
  destruct Hinv as (_ & T & Hsets & Htrees & Hdisj).
  assert (Hlook : T !! s = Some t).
  { pose proof Hholds as (Hs & _). rewrite Hsets in Hs.
    destruct (T !! s) as [t0 |] eqn:Ht; [| done]. f_equal.
    apply (holds_unique w s); [| done].
    destruct (Htrees s t0 Ht) as (Hrep & Hnd & _).
    split; [by rewrite Hsets, Ht | by split]. }
  split; [done |]. exists (<[s := t']> T). cbn [nodes sets]. split_and!.
  - intros s2. destruct (decide (s = s2)) as [<- | Hne].
    + by rewrite !lookup_insert_eq.
    + by rewrite !lookup_insert_ne.
  - intros s2 t2. destruct (decide (s = s2)) as [<- | Hne].
    + rewrite lookup_insert_eq. intros [= <-]. by split_and!.
    + rewrite lookup_insert_ne by done. intros Ht2.
      destruct (Htrees s2 t2 Ht2) as (Hrep2 & Hnd2 & Hbst2 & Havl2).
      split_and!; try done.
      apply rep_frame with (nodes w); [done |]. intros x Hx. apply Hfr.
      * intros Hx'. by apply (Hdisj s s2 t t2 Hne Hlook Ht2 x).
      * by eapply rep_dom.
  - intros s1 s2 t1 t2 Hne.
    destruct (decide (s = s1)) as [<- | Hne1];
      destruct (decide (s = s2)) as [<- | Hne2]; try done.
    + rewrite lookup_insert_eq, lookup_insert_ne by done. intros [= <-] Ht2 x Hx Hx2.
      destruct (Htrees s2 t2 Ht2) as (Hrep2 & _).
      destruct (Hnew x Hx) as [Hxt | Hxn].
      * by apply (Hdisj s s2 t t2 Hne Hlook Ht2 x).
      * destruct (rep_dom _ _ _ _ Hrep2 Hx2) as [? ?]. congruence.
    + rewrite lookup_insert_ne, lookup_insert_eq by done. intros Ht1 [= <-] x Hx Hx2.
      destruct (Htrees s1 t1 Ht1) as (Hrep1 & _).
      destruct (Hnew x Hx2) as [Hxt | Hxn].
      * by apply (Hdisj s1 s t1 t Hne Ht1 Hlook x).
      * destruct (rep_dom _ _ _ _ Hrep1 Hx) as [? ?]. congruence.
    + rewrite !lookup_insert_ne by done. by apply Hdisj.
Qed.

(** ** What a successful [insert] or [erase] has done *)

Lemma Set_insert_live fuel s key w w' :
  Set_insert fuel s key w = Ok tt w' → is_Some (sets w !! s).
Proof.
  unfold Set_insert, bind, get_root. destruct (sets w !! s); [by eexists | done].
Qed.

Lemma Set_erase_live fuel s key w w' :
  Set_erase fuel s key w = Ok tt w' → is_Some (sets w !! s).
Proof.
  unfold Set_erase, bind, get_root. destruct (sets w !! s); [by eexists | done].
Qed.

Lemma Set_insert_inv w s t key fuel w' :
  holds w s t → avl t → (size (nodes w) ≤ max_nodes)%nat →
  Set_insert fuel s key w = Ok tt w' →
  (tree_find key t = None → (size (nodes w) < max_nodes)%nat)
  ∧ ∃ h',
      w' = mkWorld h' (<[s := root_of (tree_insert (fresh (dom (nodes w))) key t)]>
                         (sets w))
      ∧ rep h' None (tree_insert (fresh (dom (nodes w))) key t)
      ∧ NoDup (locs (tree_insert (fresh (dom (nodes w))) key t))
      ∧ (∀ x, x ∉ locs t → x ≠ fresh (dom (nodes w)) → h' !! x = nodes w !! x)
      ∧ dom h' = (if tree_find key t is None
                  then {[fresh (dom (nodes w))]} ∪ dom (nodes w)
                  else dom (nodes w)).
Proof.
  intros Hholds Havl Hcap Hrun.
  set (fuel' := (fuel `max` S (Z.to_nat (theight t)))%nat).
  pose proof (fuel_le_Ok _ _ _ _ (Set_insert_mono fuel fuel' s key w ltac:(lia)) Hrun)
    as Hrun'.
  pose proof (theight_nonneg t).
  pose proof (Set_insert_spec w s t key fuel' Hholds Havl Hcap ltac:(lia)) as Hspec.
  destruct (decide _) as [[Hf Hfull] | Hok]; [congruence |].
  split.
  { intros Hf. destruct (decide (size (nodes w) < max_nodes)%nat); [done |].
    exfalso. by apply Hok. }
  destruct Hspec as (h' & Heq & Hrest). exists h'. split; [congruence | exact Hrest].
Qed.

Lemma Set_erase_inv w s t key fuel w' :
  holds w s t → avl t → (size (nodes w) ≤ max_nodes)%nat →
  Set_erase fuel s key w = Ok tt w' →
  ∃ h',
    w' = mkWorld h' (<[s := root_of (tree_erase key t)]> (sets w))
    ∧ rep h' None (tree_erase key t)
    ∧ NoDup (locs (tree_erase key t))
    ∧ (∀ x, x ∉ locs t → h' !! x = nodes w !! x)
    ∧ dom h' = match tree_find key t with
               | Some a => dom (nodes w) ∖ {[a]}
               | None => dom (nodes w)
               end.
Proof.
  intros Hholds Havl Hcap Hrun.
  set (fuel' := (fuel `max` S (Z.to_nat (theight t)))%nat).
  pose proof (fuel_le_Ok _ _ _ _ (Set_erase_mono fuel fuel' s key w ltac:(lia)) Hrun)
    as Hrun'.
  pose proof (theight_nonneg t).
  destruct (Set_erase_spec w s t key fuel' Hholds Havl Hcap ltac:(lia))
    as (h' & Heq & Hrest).
  exists h'. split; [congruence | exact Hrest].
Qed.

Lemma Set_insert_world_inv fuel s key w w' :
  world_inv w → Set_insert fuel s key w = Ok tt w' → world_inv w'.
Proof.
  intros Hinv Hrun.
  destruct (Set_insert_live _ _ _ _ _ Hrun) as [r Hr].
  destruct (world_inv_holds _ _ _ Hinv Hr) as (t & Hholds & _ & Hbst & Havl).
  pose proof (world_inv_capacity _ Hinv) as Hcap.
  destruct (Set_insert_inv _ _ _ _ _ _ Hholds Havl Hcap Hrun)
    as (Hroom & h' & -> & Hrep' & Hnd' & Hfr & Hdom).
  pose proof Hholds as (_ & Hrep & Hnd).
  pose proof (fresh_not_in_tree _ _ _ Hrep) as Hnew.
  apply (world_inv_update w s t); try done.
  - by apply tree_insert_bst.
  - by apply tree_insert_avl.
  - rewrite <- size_dom, Hdom. destruct (tree_find key t) eqn:Hf.
    + by rewrite size_dom.
    + specialize (Hroom eq_refl).
      rewrite size_union by (pose proof (is_fresh (dom (nodes w))); set_solver).
      rewrite size_singleton, size_dom. lia.
  - intros x Hx [n Hn]. apply Hfr; [done |]. intros ->.
    apply (is_fresh (dom (nodes w))). apply elem_of_dom. by eexists.
  - intros x Hx. destruct (tree_insert_locs (fresh (dom (nodes w))) key t) as (Hin & _).
    destruct (Hin x Hx) as [-> | Hxt]; [right | by left].
    apply not_elem_of_dom. apply is_fresh.
Qed.

Lemma Set_erase_world_inv fuel s key w w' :
  world_inv w → Set_erase fuel s key w = Ok tt w' → world_inv w'.
Proof.
  intros Hinv Hrun.
  destruct (Set_erase_live _ _ _ _ _ Hrun) as [r Hr].
  destruct (world_inv_holds _ _ _ Hinv Hr) as (t & Hholds & _ & Hbst & Havl).
  pose proof (world_inv_capacity _ Hinv) as Hcap.
  destruct (Set_erase_inv _ _ _ _ _ _ Hholds Havl Hcap Hrun)
    as (h' & -> & Hrep' & Hnd' & Hfr & Hdom).
  apply (world_inv_update w s t); try done.
  - by apply tree_erase_bst.
  - by apply tree_erase_avl.
  - rewrite <- size_dom, Hdom. destruct (tree_find key t) eqn:Hf.
    + assert (Hsub : (size (dom (nodes w) ∖ {[l]}) ≤ size (dom (nodes w)))%nat).
      { apply subseteq_size. set_solver. }
      rewrite size_dom in Hsub. lia.
    + by rewrite size_dom.
  - intros x Hx _. by apply Hfr.
  - intros x Hx. left. destruct (tree_erase_locs key t) as (Hin & _). by apply Hin.
Qed.

End Invariant.

(** ** Reading a successful run backwards *)

Lemma bind_Ok {S A B} (m : M S A) (f : A → M S B) s (v : B) s' :
  bind m f s = Ok v s' → ∃ v1 s1, m s = Ok v1 s1 ∧ f v1 s1 = Ok v s'.
Proof. unfold bind. destruct (m s) as [v1 s1 | | |]; [by eauto | done..]. Qed.

Section Lifetime.
Context {K : Type} `{Ordered K} `{Machine}.
Implicit Types (h : heap K) (t : tree (K:=K)) (a x : loc) (p : ptr)
  (w : world (K:=K)) (s : sid).

Lemma on_nodes_Ok {A} (m : M (heap K) A) w (v : A) w' :
  on_nodes m w = Ok v w' → ∃ h', m (nodes w) = Ok v h' ∧ w' = mkWorld h' (sets w).
Proof.
  unfold on_nodes. destruct (m (nodes w)) as [v1 h1 | | |]; [| done..].
  intros [= -> <-]. by eauto.
Qed.

Lemma get_root_Ok w o r w' :
  get_root o w = Ok r w' → ∃ s, o = Some s ∧ sets w !! s = Some r ∧ w' = w.
Proof.
  unfold get_root. destruct o as [s |]; [| done].
  destruct (sets w !! s) as [r0 |] eqn:Hs; [| done].
  intros [= -> <-]. by eauto.
Qed.

Lemma set_root_Ok w s r w' :
  set_root s r w = Ok tt w' →
  is_Some (sets w !! s) ∧ w' = mkWorld (nodes w) (<[s := r]> (sets w)).
Proof.
  unfold set_root. destruct (sets w !! s) as [r0 |] eqn:Hs; [| done].
  intros [= <-]. by eauto.
Qed.

Lemma free_set_Ok w s w' :
  free_set s w = Ok tt w' →
  is_Some (sets w !! s) ∧ w' = mkWorld (nodes w) (delete s (sets w)).
Proof.
  unfold free_set. destruct (sets w !! s) as [r0 |] eqn:Hs; [| done].
  intros [= <-]. by eauto.
Qed.

(** ** Constructors, destructor and assignment keep the invariant *)

Lemma world_inv_init : world_inv (mkWorld (∅ : heap K) ∅).
Proof.
  split; [cbn; rewrite map_size_empty; lia |].
  exists ∅. cbn. split_and!.
  - intros s. by rewrite !lookup_empty.
  - intros s t. by rewrite lookup_empty.
  - intros s1 s2 t1 t2 _. by rewrite lookup_empty.
Qed.

Lemma new_set_spec w :
  world_inv w →
  let s := fresh (dom (sets w)) in
  let w' := mkWorld (nodes w) (<[s := None]> (sets w)) in
  new_set w = Ok s w' ∧ sets w !! s = None ∧ world_inv w' ∧ holds w' s Leaf.
Proof.
  intros (Hcap & T & Hsets & Htrees & Hdisj). cbn zeta.
  set (s := fresh (dom (sets w))).
  assert (Hs : sets w !! s = None).
  { apply not_elem_of_dom. apply is_fresh. }
  assert (HTs : T !! s = None).
  { pose proof (Hsets s) as Hs'. rewrite Hs in Hs'. by destruct (T !! s). }
  split_and!; [done | done | |].
  - split; [done |]. exists (<[s := Leaf]> T). cbn. split_and!.
    + intros s2. destruct (decide (s = s2)) as [<- | Hne].
      * by rewrite !lookup_insert_eq.
      * by rewrite !lookup_insert_ne.
    + intros s2 t2. destruct (decide (s = s2)) as [<- | Hne].
      * rewrite lookup_insert_eq. intros [= <-]. split_and!; try done. constructor.
      * rewrite lookup_insert_ne by done. apply Htrees.
    + intros s1 s2 t1 t2 Hne.
      destruct (decide (s = s1)) as [<- | Hne1];
        destruct (decide (s = s2)) as [<- | Hne2]; try done.
      * rewrite lookup_insert_eq. intros [= <-] _ x Hx. by apply elem_of_nil in Hx.
      * rewrite lookup_insert_ne, lookup_insert_eq by done.
        intros _ [= <-] x _ Hx. by apply elem_of_nil in Hx.
      * rewrite !lookup_insert_ne by done. by apply Hdisj.
  - split_and!; [cbn; by rewrite lookup_insert_eq | done | constructor].
Qed.

Lemma world_inv_free_set w s :
  world_inv w → world_inv (mkWorld (nodes w) (delete s (sets w))).
Proof.
  intros (Hcap & T & Hsets & Htrees & Hdisj).
  split; [done |]. exists (delete s T). cbn. split_and!.
  - intros s2. destruct (decide (s = s2)) as [<- | Hne].
    + by rewrite !lookup_delete_eq.
    + by rewrite !lookup_delete_ne.
  - intros s2 t2. rewrite lookup_delete_Some. intros [_ Ht2]. by apply (Htrees s2).
  - intros s1 s2 t1 t2 Hne. rewrite !lookup_delete_Some.
    intros [_ Ht1] [_ Ht2]. by apply (Hdisj s1 s2).
Qed.

Lemma insert_all_world_inv fuel s init :
  ∀ w w', world_inv w → insert_all fuel s init w = Ok tt w' → world_inv w'.
Proof.
  induction init as [| value init IH]; intros w w' Hinv Hrun.
  - injection Hrun as <-. done.
  - cbn [insert_all] in Hrun.
    apply bind_Ok in Hrun as ([] & w1 & Hrun1 & Hrun2).
    apply (IH w1); [| done]. by eapply Set_insert_world_inv.
Qed.

(** Emptying a [Set] object, as the destructor and assignment do first. *)
Lemma clear_spec w s t fuel r' w' :
  world_inv w → holds w s t →
  on_nodes (deleteTree fuel (root_of t)) w = Ok r' w' →
  r' = None
  ∧ (∀ x, nodes w' !! x = if decide (x ∈ locs t) then None else nodes w !! x)
  ∧ sets w' = sets w
  ∧ world_inv (mkWorld (nodes w') (<[s := None]> (sets w)))
  ∧ holds (mkWorld (nodes w') (<[s := None]> (sets w))) s Leaf.
Proof.
  intros Hinv Hholds Hrun.
  apply on_nodes_Ok in Hrun as (h' & Hrun & ->). cbn [nodes sets].
  pose proof Hholds as (Hs & Hrep & Hnd).
  set (fuel' := (fuel `max` S (Z.to_nat (theight t)))%nat).
  pose proof (fuel_le_Ok _ _ _ _ (deleteTree_mono fuel fuel' _ _ ltac:(lia)) Hrun)
    as Hrun'.
  pose proof (theight_nonneg t).
  destruct (deleteTree_spec t fuel' (nodes w) None Hrep Hnd ltac:(lia))
    as (h1 & Hrun1 & Hf1).
  rewrite Hrun1 in Hrun'. injection Hrun' as <- <-.
  split_and!; [done | done | done | |].
  - apply (world_inv_update w s t Leaf h1 Hinv Hholds); try done.
    + constructor.
    + etrans; [| apply (world_inv_capacity _ Hinv)].
      rewrite <- !size_dom. apply subseteq_size.
      intros x [n Hn]%elem_of_dom. rewrite Hf1 in Hn.
      destruct (decide (x ∈ locs t)); [done |]. apply elem_of_dom. by eexists.
    + intros x Hx _. rewrite Hf1. by rewrite decide_False.
    + intros x Hx. by apply elem_of_nil in Hx.
  - split_and!; [cbn; by rewrite lookup_insert_eq | done | constructor].
Qed.

(** Copying the tree of [other] into an empty [Set] object. *)
Lemma copy_into_spec w this other t fuel r' w' :
  world_inv w → holds w this Leaf → holds w other t →
  on_nodes (copyTree fuel (root_of t)) w = Ok r' w' →
  ∃ t', r' = root_of t'
    ∧ sets w' = sets w
    ∧ rep (nodes w') None t' ∧ NoDup (locs t') ∧ same_shape t t'
    ∧ (∀ x, x ∈ locs t' → nodes w !! x = None)
    ∧ (∀ x, x ∉ locs t' → nodes w' !! x = nodes w !! x)
    ∧ world_inv (mkWorld (nodes w') (<[this := r']> (sets w))).
Proof.
  intros Hinv Hthis Hother Hrun.
  apply on_nodes_Ok in Hrun as (h' & Hrun & ->). cbn [nodes sets].
  pose proof Hother as (Hs & Hrep & Hnd).
  pose proof (world_inv_capacity _ Hinv) as Hcap.
  set (fuel' := (fuel `max` S (Z.to_nat (theight t)))%nat).
  pose proof (fuel_le_Ok _ _ _ _ (copyTree_mono fuel fuel' _ _ ltac:(lia)) Hrun)
    as Hrun'.
  pose proof (theight_nonneg t).
  pose proof (copyTree_spec t fuel' (nodes w) None Hrep ltac:(lia) Hcap) as Hspec.
  destruct (decide _) as [Hfit | Hfit]; [| congruence].
  destruct Hspec as (h1 & t' & Hrun1 & Hrep' & Hnd' & Hsh & Hfr & Hf & Hsz).
  rewrite Hrun1 in Hrun'. injection Hrun' as <- <-.
  exists t'. split_and!; try done.
  destruct (world_inv_holds _ _ _ Hinv Hs) as (t0 & Hholds0 & _ & Hbst & Havl).
  rewrite <- (holds_unique _ _ _ _ Hother Hholds0) in Hbst, Havl.
  apply (world_inv_update w this Leaf t' h1 Hinv Hthis); try done.
  - by eapply same_shape_bst.
  - by eapply same_shape_avl.
  - lia.
  - intros x _ [n Hn]. apply Hf. intros Hx%Hfr. congruence.
  - intros x Hx. right. by apply Hfr.
Qed.

End Lifetime.

Section Reachable.
Context {K : Type} `{Ordered K} `{Machine}.
Implicit Types (h : heap K) (t : tree (K:=K)) (a x : loc) (p : ptr)
  (w : world (K:=K)) (s : sid).

(** ** Copy construction, assignment and destruction *)

Lemma holds_frame w w' s t :
  holds w s t → sets w' !! s = sets w !! s →
  (∀ x, x ∈ locs t → nodes w' !! x = nodes w !! x) →
  holds w' s t.
Proof.
  intros (Hs & Hrep & Hnd) Hsets Hfr. split_and!; [congruence | | done].
  by apply rep_frame with (nodes w).
Qed.

Lemma Set_ctor_copy_inv w other t fuel s w' :
  world_inv w → holds w other t →
  Set_ctor_copy fuel other w = Ok s w' →
  s ≠ other ∧ sets w !! s = None ∧ world_inv w' ∧ holds w' other t
  ∧ (∀ s2, s2 ≠ s → sets w' !! s2 = sets w !! s2)
  ∧ ∃ t', holds w' s t' ∧ same_shape t t'
          ∧ (∀ x, x ∈ locs t' → nodes w !! x = None)
          ∧ (∀ x, x ∉ locs t' → nodes w' !! x = nodes w !! x).
Proof.
  intros Hinv Hother Hrun. unfold Set_ctor_copy in Hrun.
  destruct (new_set_spec w Hinv) as (Hnew & Hfresh & Hinv1 & Hthis1).
  set (this := fresh (dom (sets w))) in *.
  set (w1 := mkWorld (nodes w) (<[this := None]> (sets w))) in *.
  rewrite (bind_eq _ _ _ _ _ Hnew) in Hrun.
  pose proof Hother as (Hso & Hrepo & Hndo).
  assert (Hne : this ≠ other) by (intros Heq; rewrite Heq in Hfresh; congruence).
  assert (Hother1 : holds w1 other t).
  { apply (holds_frame w); [done | | done]. cbn. by rewrite lookup_insert_ne. }
  pose proof Hother1 as (Hso1 & _).
  rewrite (bind_eq _ _ _ _ _ (get_root_eq _ _ _ Hso1)) in Hrun.
  apply bind_Ok in Hrun as (r' & w2 & Hcopy & Hrun).
  apply bind_Ok in Hrun as ([] & w3 & Hset & Hrun).
  injection Hrun as <- <-.
  destruct (copy_into_spec w1 this other t fuel r' w2 Hinv1 Hthis1 Hother1 Hcopy)
    as (t' & -> & Hsets2 & Hrep' & Hnd' & Hsh & Hfr & Hf & Hinv3).
  apply set_root_Ok in Hset as [_ ->]. rewrite Hsets2.
  cbn [sets w1] in Hinv3 |- *. rewrite insert_insert_eq in Hinv3 |- *.
  split_and!; try done.
  - apply (holds_frame w); [done | cbn; by rewrite lookup_insert_ne |].
    cbn. intros x Hx. apply Hf. intros Hx'%Hfr. cbn in Hx'.
    destruct (rep_dom _ _ _ _ Hrepo Hx) as [? ?]. congruence.
  - intros s2 Hs2. cbn. by rewrite lookup_insert_ne.
  - exists t'. split_and!; try done.
    split_and!; [cbn; by rewrite lookup_insert_eq | done | done].
Qed.

Lemma Set_assign_inv w this other t fuel w' :
  world_inv w → holds w other t → this ≠ other →
  Set_assign fuel this other w = Ok tt w' →
  world_inv w' ∧ holds w' other t
  ∧ (∀ s2, s2 ≠ this → sets w' !! s2 = sets w !! s2)
  ∧ ∃ t0 t', holds w this t0 ∧ holds w' this t' ∧ same_shape t t'
      ∧ (∀ x, x ∈ locs t' → x ∉ locs t)
      ∧ (∀ x, x ∉ locs t' → x ∉ locs t0 → nodes w' !! x = nodes w !! x).
Proof.
  intros Hinv Hother Hne Hrun. unfold Set_assign in Hrun.
  rewrite decide_True in Hrun by done.
  apply bind_Ok in Hrun as (r & w0 & Hget & Hrun).
  apply get_root_Ok in Hget as (? & [= <-] & Hsthis & ->).
  destruct (world_inv_holds _ _ _ Hinv Hsthis) as (t0 & Hthis & <- & _ & _).
  apply bind_Ok in Hrun as (r' & w1 & Hdel & Hrun).
  destruct (clear_spec w this t0 fuel r' w1 Hinv Hthis Hdel)
    as (-> & Hf1 & Hsets1 & Hinv2 & Hthis2).
  apply bind_Ok in Hrun as ([] & w2 & Hset & Hrun).
  apply set_root_Ok in Hset as [_ ->]. rewrite Hsets1 in *.
  set (w2 := mkWorld (nodes w1) (<[this := None]> (sets w))) in *.
  pose proof Hother as (Hso & Hrepo & Hndo).
  assert (Hdisj : ∀ x, x ∈ locs t → x ∉ locs t0).
  { apply (world_inv_disjoint w other this); try done. }
  assert (Hother2 : holds w2 other t).
  { apply (holds_frame w); [done | cbn; by rewrite lookup_insert_ne |].
    cbn. intros x Hx. rewrite Hf1. rewrite decide_False; [done | by apply Hdisj]. }
  pose proof Hother2 as (Hso2 & Hrepo2 & _).
  rewrite (bind_eq _ _ _ _ _ (get_root_eq _ _ _ Hso2)) in Hrun.
  apply bind_Ok in Hrun as (c & w3 & Hcopy & Hset).
  destruct (copy_into_spec w2 this other t fuel c w3 Hinv2 Hthis2 Hother2 Hcopy)
    as (t' & -> & Hsets3 & Hrep' & Hnd' & Hsh & Hfr & Hf & Hinv3).
  apply set_root_Ok in Hset as [_ ->]. rewrite Hsets3.
  cbn [sets w2] in Hinv3 |- *. rewrite insert_insert_eq in Hinv3 |- *.
  split_and!; try done.
  - apply (holds_frame w2); [done | cbn; by rewrite !lookup_insert_ne |].
    cbn. intros x Hx. apply Hf. intros Hx'%Hfr.
    destruct (rep_dom _ _ _ _ Hrepo2 Hx) as [? ?]. congruence.
  - intros s2 Hs2. cbn. by rewrite lookup_insert_ne.
  - exists t0, t'. split_and!; try done.
    + split_and!; [cbn; by rewrite lookup_insert_eq | done | done].
    + intros x Hx Hx'. apply Hfr in Hx.
      destruct (rep_dom _ _ _ _ Hrepo2 Hx') as [? ?]. congruence.
    + intros x Hx Hx0. cbn. rewrite Hf by done. cbn. rewrite Hf1.
      by rewrite decide_False.
Qed.

Lemma Set_assign_self fuel this w : Set_assign fuel this this w = Ok tt w.
Proof. unfold Set_assign. by rewrite decide_False by (by intros ?). Qed.

Lemma Set_assign_live fuel this other w w' :
  this ≠ other → world_inv w →
  Set_assign fuel this other w = Ok tt w' → is_Some (sets w !! other).
Proof.
  intros Hne Hinv Hrun. unfold Set_assign in Hrun.
  rewrite decide_True in Hrun by done.
  apply bind_Ok in Hrun as (r & w0 & Hget & Hrun).
  apply get_root_Ok in Hget as (? & [= <-] & Hsthis & ->).
  destruct (world_inv_holds _ _ _ Hinv Hsthis) as (t0 & Hthis & <- & _ & _).
  apply bind_Ok in Hrun as (r' & w1 & Hdel & Hrun).
  destruct (clear_spec w this t0 fuel r' w1 Hinv Hthis Hdel)
    as (-> & Hf1 & Hsets1 & Hinv2 & Hthis2).
  apply bind_Ok in Hrun as ([] & w2 & Hset & Hrun).
  apply set_root_Ok in Hset as [_ ->].
  apply bind_Ok in Hrun as (o & w3 & Hget & _).
  apply get_root_Ok in Hget as (? & [= <-] & Hso & _).
  cbn in Hso. rewrite Hsets1 in Hso.
  rewrite lookup_insert_ne in Hso by done. by eexists.
Qed.

Lemma Set_ctor_copy_live fuel other w s w' :
  world_inv w → Set_ctor_copy fuel other w = Ok s w' →
  is_Some (sets w !! other) ∨ (other = fresh (dom (sets w)) ∧ world_inv w').
Proof.
  intros Hinv Hrun. unfold Set_ctor_copy in Hrun.
  destruct (new_set_spec w Hinv) as (Hnew & Hfresh & Hinv1 & Hthis1).
  set (this := fresh (dom (sets w))) in *.
  set (w1 := mkWorld (nodes w) (<[this := None]> (sets w))) in *.
  rewrite (bind_eq _ _ _ _ _ Hnew) in Hrun.
  apply bind_Ok in Hrun as (r & w0 & Hget & Hrun).
  apply get_root_Ok in Hget as (? & [= <-] & Hso & ->).
  destruct (decide (this = other)) as [<- | Hne].
  - right. split; [done |].
    apply bind_Ok in Hrun as (r' & w2 & Hcopy & Hrun).
    apply bind_Ok in Hrun as ([] & w3 & Hset & Hrun).
    injection Hrun as <- <-.
    cbn in Hso. rewrite lookup_insert_eq in Hso. injection Hso as <-.
    destruct (copy_into_spec w1 this this Leaf fuel r' w2 Hinv1 Hthis1 Hthis1 Hcopy)
      as (t' & -> & Hsets2 & _ & _ & _ & _ & _ & Hinv3).
    apply set_root_Ok in Hset as [_ ->]. by rewrite Hsets2.
  - left. cbn in Hso. rewrite lookup_insert_ne in Hso by done. by eexists.
Qed.

Lemma Set_dtor_world_inv fuel this w w' :
  world_inv w → Set_dtor fuel this w = Ok tt w' → world_inv w'.
Proof.
  intros Hinv Hrun. unfold Set_dtor in Hrun.
  apply bind_Ok in Hrun as (r & w0 & Hget & Hrun).
  apply get_root_Ok in Hget as (? & [= <-] & Hsthis & ->).
  destruct (world_inv_holds _ _ _ Hinv Hsthis) as (t0 & Hthis & <- & _ & _).
  apply bind_Ok in Hrun as (r' & w1 & Hdel & Hrun).
  destruct (clear_spec w this t0 fuel r' w1 Hinv Hthis Hdel)
    as (-> & Hf1 & Hsets1 & Hinv2 & Hthis2).
  apply bind_Ok in Hrun as ([] & w2 & Hset & Hrun).
  apply set_root_Ok in Hset as [_ ->]. rewrite Hsets1 in *.
  apply free_set_Ok in Hrun as [_ ->].
  by apply (world_inv_free_set _ this) in Hinv2.
Qed.

(** ** Every reachable world satisfies the invariant *)

Lemma reachable_world_inv w : reachable w → world_inv w.
Proof.
  induction 1 as [| w s w' _ IH Hrun | w fuel init s w' _ IH Hrun
                  | w fuel other s w' _ IH Hrun | w fuel this other w' _ IH Hrun
                  | w fuel this w' _ IH Hrun | w fuel this value w' _ IH Hrun
                  | w fuel this value w' _ IH Hrun].
  - apply world_inv_init.
  - destruct (new_set_spec w IH) as (Hnew & _ & Hinv & _).
    unfold Set_ctor in Hrun. rewrite Hnew in Hrun. by injection Hrun as <- <-.
  - destruct (new_set_spec w IH) as (Hnew & _ & Hinv & _).
    unfold Set_ctor_range in Hrun. rewrite (bind_eq _ _ _ _ _ Hnew) in Hrun.
    apply bind_Ok in Hrun as ([] & w1 & Hall & Hrun). injection Hrun as <- <-.
    by eapply insert_all_world_inv.
  - destruct (Set_ctor_copy_live _ _ _ _ _ IH Hrun) as [[r Hr] | [_ Hinv]]; [| done].
    destruct (world_inv_holds _ _ _ IH Hr) as (t & Hholds & _).
    by destruct (Set_ctor_copy_inv _ _ _ _ _ _ IH Hholds Hrun) as (_ & _ & Hinv & _).
  - destruct (decide (this = other)) as [<- | Hne].
    + rewrite Set_assign_self in Hrun. by injection Hrun as <-.
    + destruct (Set_assign_live _ _ _ _ _ Hne IH Hrun) as [r Hr].
      destruct (world_inv_holds _ _ _ IH Hr) as (t & Hholds & _).
      by destruct (Set_assign_inv _ _ _ _ _ _ IH Hholds Hne Hrun) as (Hinv & _).
  - by eapply Set_dtor_world_inv.
  - by eapply Set_insert_world_inv.
  - by eapply Set_erase_world_inv.
Qed.

End Reachable.

Section Traversal.
Context {K : Type} `{Ordered K} `{Machine}.
Implicit Types (h : heap K) (t : tree (K:=K)) (a x : loc) (p : ptr)
  (w : world (K:=K)) (s : sid).

(** ** Walking a [Set] with an iterator *)

Lemma Set_begin_spec w s t fuel :
  holds w s t → theight t < Z.of_nat fuel →
  Set_begin fuel s w = Ok (mkIterator (head (locs t)) (Some s)) w.
Proof.
  intros (Hs & Hrep & Hnd) Hfuel. unfold Set_begin.
  rewrite (bind_eq _ _ _ _ _ (get_root_eq _ _ _ Hs)).
  rewrite (bind_eq _ _ _ _ _
             (on_nodes_eq _ _ _ _ (findMin_rep t fuel _ None Hrep Hfuel))).
  by destruct w.
Qed.

Lemma iterator_deref_spec w s t x k o :
  holds w s t → (x, k) ∈ elems t →
  iterator_deref (mkIterator (Some x) o) w = Ok k w.
Proof.
  intros (Hs & Hrep & Hnd) Hin. unfold iterator_deref. cbn [it_node].
  destruct (rep_elem _ _ _ _ _ Hrep Hin) as (n & Hn & <-).
  rewrite (on_nodes_eq _ _ _ _ (get_key_eq _ _ _ Hn)). by destruct w.
Qed.

Lemma iterator_incr_spec w s t x o fuel :
  holds w s t → x ∈ locs t → 1 + theight t ≤ Z.of_nat fuel →
  iterator_incr fuel (mkIterator (Some x) o) w
  = Ok (mkIterator (next_in (locs t) x None) o) w.
Proof.
  intros (Hs & Hrep & Hnd) Hx Hfuel. unfold iterator_incr. cbn [it_node it_parent].
  rewrite (bind_eq _ _ _ _ _
             (on_nodes_eq _ _ _ _ (nextNode_root t _ fuel x Hrep Hnd Hfuel Hx))).
  by destruct w.
Qed.

Lemma iterator_decr_spec w s t x fuel :
  holds w s t → x ∈ locs t → 1 + theight t ≤ Z.of_nat fuel →
  iterator_decr fuel (mkIterator (Some x) (Some s)) w
  = Ok (mkIterator (prev_in (locs t) x None) (Some s)) w.
Proof.
  intros (Hs & Hrep & Hnd) Hx Hfuel. unfold iterator_decr. cbn [it_node it_parent].
  rewrite (bind_eq _ _ _ _ _
             (on_nodes_eq _ _ _ _ (prevNode_root t _ fuel x Hrep Hnd Hfuel Hx))).
  by destruct w.
Qed.

Lemma iterator_decr_end w s t fuel :
  holds w s t → theight t < Z.of_nat fuel →
  iterator_decr fuel (mkIterator None (Some s)) w
  = Ok (mkIterator (last (locs t)) (Some s)) w.
Proof.
  intros (Hs & Hrep & Hnd) Hfuel. unfold iterator_decr. cbn [it_node it_parent].
  assert (Hstep : (do r <- get_root (Some s); on_nodes (findMax fuel r)) w
                  = Ok (last (locs t)) w).
  { rewrite (bind_eq _ _ _ _ _ (get_root_eq _ _ _ Hs)).
    rewrite (on_nodes_eq _ _ _ _ (findMax_rep t fuel _ None Hrep Hfuel)).
    by destruct w. }
  by rewrite (bind_eq _ _ _ _ _ Hstep).
Qed.

Lemma forward_from_spec w s t :
  holds w s t →
  ∀ es2 es1 fuel,
    elems t = es1 ++ es2 →
    Z.of_nat (length es2) + theight t + 1 < Z.of_nat fuel →
    forward_from fuel s (mkIterator (head es2.*1) (Some s)) w = Ok es2.*2 w.
Proof.
  intros Hholds. pose proof Hholds as (Hs & Hrep & Hnd).
  pose proof (theight_nonneg t) as Hh.
  induction es2 as [| [x k] es2 IH]; intros es1 fuel Hel Hfuel.
  - destruct fuel as [| fuel]; [simpl in Hfuel; lia |].
    cbn [forward_from fmap list_fmap head]. unfold Set_end, ret at 1. cbn [bind].
    unfold iterator_ne. cbn [it_node it_parent].
    by rewrite !bool_decide_eq_true_2 by done.
  - destruct fuel as [| fuel]; [simpl in Hfuel; lia |].
    cbn [forward_from fmap list_fmap head]. unfold Set_end, ret at 1. cbn [bind].
    unfold iterator_ne. cbn [it_node it_parent].
    rewrite bool_decide_eq_false_2 by done. cbn [negb orb].
    assert (Hin : (x, k) ∈ elems t) by (rewrite Hel; set_solver).
    assert (Hx : x ∈ locs t).
    { rewrite locs_elems. by apply (list_elem_of_fmap_2 fst _ (x, k)). }
    rewrite (bind_eq _ _ _ _ _ (iterator_deref_spec _ _ _ _ _ _ Hholds Hin)).
    rewrite (bind_eq _ _ _ _ _
               (iterator_incr_spec _ _ _ _ _ (S fuel) Hholds Hx
                  ltac:(simpl in Hfuel; lia))).
    assert (Hnext : next_in (locs t) x None = head es2.*1).
    { rewrite locs_elems, Hel, fmap_app, fmap_cons. cbn [fst].
      rewrite locs_elems, Hel, fmap_app, fmap_cons in Hnd. cbn [fst] in Hnd.
      apply NoDup_node in Hnd as (_ & _ & Hx1 & _).
      rewrite next_in_app_r by done. rewrite next_in_here.
      by destruct (head es2.*1). }
    rewrite Hnext.
    rewrite (bind_eq _ _ _ _ _ (IH (es1 ++ [(x, k)]) fuel
                                  ltac:(by rewrite <- app_assoc)
                                  ltac:(simpl in Hfuel; lia))).
    reflexivity.
Qed.

Lemma traverse_forward_spec w s t fuel :
  holds w s t →
  tsize t + theight t + 1 < Z.of_nat fuel →
  traverse_forward fuel s w = Ok (keys t) w.
Proof.
  intros Hholds Hfuel. unfold traverse_forward.
  pose proof (tsize_nonneg t).
  rewrite (bind_eq _ _ _ _ _ (Set_begin_spec _ _ _ fuel Hholds ltac:(lia))).
  rewrite locs_elems, keys_elems.
  apply (forward_from_spec w s t Hholds (elems t) []); [done |].
  rewrite tsize_length, locs_elems, length_fmap in Hfuel. lia.
Qed.

Lemma backward_from_spec w s t :
  holds w s t →
  ∀ es1 es2 fuel,
    elems t = es1 ++ es2 →
    Z.of_nat (length es1) + theight t + 1 < Z.of_nat fuel →
    backward_from fuel s (mkIterator (head es2.*1) (Some s)) w
    = Ok (reverse es1.*2) w.
Proof.
  intros Hholds. pose proof Hholds as (Hs & Hrep & Hnd).
  pose proof (theight_nonneg t) as Hh.
  induction es1 as [| [x k] es1 IH] using rev_ind; intros es2 fuel Hel Hfuel.
  - destruct fuel as [| fuel]; [simpl in Hfuel; lia |].
    cbn [backward_from].
    rewrite (bind_eq _ _ _ _ _ (Set_begin_spec _ _ _ (S fuel) Hholds ltac:(lia))).
    rewrite locs_elems, Hel. cbn [app].
    unfold iterator_ne. cbn [it_node it_parent].
    by rewrite !bool_decide_eq_true_2 by done.
  - rewrite length_app in Hfuel. cbn [length] in Hfuel.
    destruct fuel as [| fuel]; [lia |].
    cbn [backward_from].
    rewrite (bind_eq _ _ _ _ _ (Set_begin_spec _ _ _ (S fuel) Hholds ltac:(lia))).
    assert (Hlocs : locs t = es1.*1 ++ x :: es2.*1).
    { rewrite locs_elems, Hel, <- app_assoc, fmap_app. reflexivity. }
    pose proof Hnd as Hnd'. rewrite Hlocs in Hnd'.
    apply NoDup_node in Hnd' as (Hnd1 & Hnd2 & Hx1 & Hx2 & H12).
    assert (Hin : (x, k) ∈ elems t) by (rewrite Hel; set_solver).
    assert (Hx : x ∈ locs t) by (rewrite Hlocs; set_solver).
    assert (Hne : head es2.*1 ≠ head (locs t)).
    { rewrite Hlocs. destruct es2 as [| [y ky] es2]; cbn.
      - by destruct (es1.*1).
      - destruct es1 as [| [z kz] es1]; cbn.
        + intros [= ->]. apply Hx2. cbn. set_solver.
        + intros [= ->]. apply (H12 z); cbn; set_solver. }
    unfold iterator_ne. cbn [it_node it_parent].
    rewrite (bool_decide_eq_false_2 _ Hne). cbn [negb orb].
    assert (Hdecr : iterator_decr (S fuel) (mkIterator (head es2.*1) (Some s)) w
                    = Ok (mkIterator (Some x) (Some s)) w).
    { destruct es2 as [| [y ky] es2]; cbn [fmap list_fmap head fst].
      - rewrite (iterator_decr_end _ _ _ (S fuel) Hholds ltac:(lia)).
        rewrite Hlocs. cbn. by rewrite last_snoc.
      - assert (Hy : y ∈ locs t) by (rewrite Hlocs; cbn; set_solver).
        rewrite (iterator_decr_spec _ _ _ _ (S fuel) Hholds Hy ltac:(lia)).
        rewrite Hlocs. cbn [fmap list_fmap fst].
        rewrite prev_in_app_r by (intros Hy1; apply (H12 y Hy1); cbn; set_solver).
        cbn [prev_in].
        rewrite decide_False by (intros ->; apply Hx2; cbn; set_solver).
        by rewrite decide_True by done. }
    rewrite (bind_eq _ _ _ _ _ Hdecr).
    rewrite (bind_eq _ _ _ _ _ (iterator_deref_spec _ _ _ _ _ _ Hholds Hin)).
    pose proof (IH ((x, k) :: es2) fuel ltac:(by rewrite Hel, <- app_assoc)
                  ltac:(lia)) as IH'.
    cbn [fmap list_fmap head fst] in IH'.
    rewrite (bind_eq _ _ _ _ _ IH').
    rewrite fmap_app, reverse_app. reflexivity.
Qed.

Lemma traverse_backward_spec w s t fuel :
  holds w s t →
  tsize t + theight t + 1 < Z.of_nat fuel →
  traverse_backward fuel s w = Ok (reverse (keys t)) w.
Proof.
  intros Hholds Hfuel. unfold traverse_backward, Set_end, ret at 1. cbn [bind].
  rewrite keys_elems.
  apply (backward_from_spec w s t Hholds (elems t) []); [by rewrite app_nil_r |].
  rewrite tsize_length, locs_elems, length_fmap in Hfuel. lia.
Qed.

End Traversal.

(** ** Computations that only read *)

Lemma read_only_ret {S A} (v : A) : read_only (ret (S:=S) v).
Proof. intros s v' s'. unfold ret. by intros [= _ <-]. Qed.

Lemma read_only_bind {S A B} (m : M S A) (f : A → M S B) :
  read_only m → (∀ v, read_only (f v)) → read_only (bind m f).
Proof.
  intros Hm Hf s v s' Hrun. apply bind_Ok in Hrun as (v1 & s1 & Hrun1 & Hrun2).
  apply Hm in Hrun1 as ->. by apply Hf in Hrun2.
Qed.

Section ReadOnly.
Context {K : Type} `{Ordered K} `{Machine}.
Implicit Types (h : heap K) (t : tree (K:=K)) (a x : loc) (p : ptr)
  (w : world (K:=K)) (s : sid).

Lemma read_only_load p : read_only (load (K:=K) p).
Proof.
  intros h v h'. unfold load. destruct p as [a |]; [| done].
  destruct (h !! a); [| done]. by intros [= _ <-].
Qed.

Lemma read_only_get_key p : read_only (get_key (K:=K) p).
Proof. apply read_only_bind; [apply read_only_load | intros; apply read_only_ret]. Qed.

Lemma read_only_get_left p : read_only (get_left (K:=K) p).
Proof. apply read_only_bind; [apply read_only_load | intros; apply read_only_ret]. Qed.

Lemma read_only_get_right p : read_only (get_right (K:=K) p).
Proof. apply read_only_bind; [apply read_only_load | intros; apply read_only_ret]. Qed.

Lemma read_only_get_parent p : read_only (get_parent (K:=K) p).
Proof. apply read_only_bind; [apply read_only_load | intros; apply read_only_ret]. Qed.

Lemma read_only_height p : read_only (height (K:=K) p).
Proof.
  destruct p; [| apply read_only_ret].
  apply read_only_bind; [apply read_only_load | intros; apply read_only_ret].
Qed.

Lemma read_only_cnt p : read_only (cnt (K:=K) p).
Proof.
  destruct p; [| apply read_only_ret].
  apply read_only_bind; [apply read_only_load | intros; apply read_only_ret].
Qed.

Lemma read_only_out_of_fuel {S A} : read_only (out_of_fuel (S:=S) (A:=A)).
Proof. by intros s v s'. Qed.

Lemma read_only_findMin fuel : ∀ p, read_only (findMin (K:=K) fuel p).
Proof.
  induction fuel as [| fuel IH]; intros p; [apply read_only_out_of_fuel |].
  cbn [findMin]. destruct p; [| apply read_only_ret].
  apply read_only_bind; [apply read_only_get_left |]. intros tl.
  destruct tl; [apply IH | apply read_only_ret].
Qed.

Lemma read_only_findMax fuel : ∀ p, read_only (findMax (K:=K) fuel p).
Proof.
  induction fuel as [| fuel IH]; intros p; [apply read_only_out_of_fuel |].
  cbn [findMax]. destruct p; [| apply read_only_ret].
  apply read_only_bind; [apply read_only_get_right |]. intros tl.
  destruct tl; [apply IH | apply read_only_ret].
Qed.

Lemma read_only_nextNode_climb fuel : ∀ p, read_only (nextNode_climb (K:=K) fuel p).
Proof.
  induction fuel as [| fuel IH]; intros p; [apply read_only_out_of_fuel |].
  cbn [nextNode_climb].
  apply read_only_bind; [apply read_only_get_parent |]. intros q.
  destruct q; [| apply read_only_ret].
  apply read_only_bind; [apply read_only_get_right |]. intros pr.
  destruct (decide (pr = p)); [apply IH | apply read_only_ret].
Qed.

Lemma read_only_prevNode_climb fuel : ∀ p, read_only (prevNode_climb (K:=K) fuel p).
Proof.
  induction fuel as [| fuel IH]; intros p; [apply read_only_out_of_fuel |].
  cbn [prevNode_climb].
  apply read_only_bind; [apply read_only_get_parent |]. intros q.
  destruct q; [| apply read_only_ret].
  apply read_only_bind; [apply read_only_get_left |]. intros pr.
  destruct (decide (pr = p)); [apply IH | apply read_only_ret].
Qed.

Lemma read_only_nextNode fuel p : read_only (nextNode (K:=K) fuel p).
Proof.
  apply read_only_bind; [apply read_only_get_right |]. intros tr.
  destruct tr; [apply read_only_findMin | apply read_only_nextNode_climb].
Qed.

Lemma read_only_prevNode fuel p : read_only (prevNode (K:=K) fuel p).
Proof.
  apply read_only_bind; [apply read_only_get_left |]. intros tr.
  destruct tr; [apply read_only_findMax | apply read_only_prevNode_climb].
Qed.

Lemma read_only_AVLFind key fuel : ∀ p, read_only (AVLFind fuel p key).
Proof.
  induction fuel as [| fuel IH]; intros p; [apply read_only_out_of_fuel |].
  cbn [AVLFind]. destruct p; [| apply read_only_ret].
  apply read_only_bind; [apply read_only_get_key |]. intros k.
  destruct (isKeyEqual k key); [apply read_only_ret |].
  destruct (less k key).
  - apply read_only_bind; [apply read_only_get_right | intros; apply IH].
  - apply read_only_bind; [apply read_only_get_left | intros; apply IH].
Qed.

Lemma read_only_AVLLowerBound key fuel : ∀ p, read_only (AVLLowerBound fuel p key).
Proof.
  induction fuel as [| fuel IH]; intros p; [apply read_only_out_of_fuel |].
  cbn [AVLLowerBound]. destruct p; [| apply read_only_ret].
  apply read_only_bind; [apply read_only_get_key |]. intros k.
  destruct (isKeyEqual k key); [apply read_only_ret |].
  destruct (less key k).
  - apply read_only_bind; [apply read_only_get_left |]. intros tl.
    apply read_only_bind; [apply IH | intros; apply read_only_ret].
  - apply read_only_bind; [apply read_only_get_right | intros; apply IH].
Qed.

Lemma read_only_getBalance p : read_only (getBalance (K:=K) p).
Proof.
  apply read_only_bind; [apply read_only_get_right |]. intros tr.
  apply read_only_bind; [apply read_only_height |]. intros hr.
  apply read_only_bind; [apply read_only_get_left |]. intros tl.
  apply read_only_bind; [apply read_only_height |]. intros hl.
  apply read_only_ret.
Qed.

Lemma read_only_on_nodes {A} (m : M (heap K) A) :
  read_only m → read_only (on_nodes m).
Proof.
  intros Hm w v w' Hrun. apply on_nodes_Ok in Hrun as (h' & Hrun & ->).
  apply Hm in Hrun as ->. by destruct w.
Qed.

Lemma read_only_get_root o : read_only (get_root (K:=K) o).
Proof. intros w r w' Hrun. by apply get_root_Ok in Hrun as (? & _ & _ & ->). Qed.

Lemma read_only_Set_size s : read_only (Set_size (K:=K) s).
Proof.
  apply read_only_bind; [apply read_only_get_root |]. intros r.
  apply read_only_on_nodes, read_only_cnt.
Qed.

Lemma read_only_Set_empty s : read_only (Set_empty (K:=K) s).
Proof.
  apply read_only_bind; [apply read_only_Set_size | intros; apply read_only_ret].
Qed.

Lemma read_only_Set_begin fuel s : read_only (Set_begin (K:=K) fuel s).
Proof.
  apply read_only_bind; [apply read_only_get_root |]. intros r.
  apply read_only_bind; [apply read_only_on_nodes, read_only_findMin |].
  intros; apply read_only_ret.
Qed.

Lemma read_only_Set_end s : read_only (Set_end (K:=K) s).
Proof. apply read_only_ret. Qed.

Lemma read_only_Set_find fuel s key : read_only (Set_find fuel s key).
Proof.
  apply read_only_bind; [apply read_only_get_root |]. intros r.
  apply read_only_bind; [apply read_only_on_nodes, read_only_AVLFind |].
  intros; apply read_only_ret.
Qed.

Lemma read_only_Set_lower_bound fuel s key : read_only (Set_lower_bound fuel s key).
Proof.
  apply read_only_bind; [apply read_only_get_root |]. intros r.
  apply read_only_bind; [apply read_only_on_nodes, read_only_AVLLowerBound |].
  intros; apply read_only_ret.
Qed.

Lemma read_only_iterator_incr fuel it : read_only (iterator_incr (K:=K) fuel it).
Proof.
  apply read_only_bind; [apply read_only_on_nodes, read_only_nextNode |].
  intros; apply read_only_ret.
Qed.

Lemma read_only_iterator_decr fuel it : read_only (iterator_decr (K:=K) fuel it).
Proof.
  apply read_only_bind; [| intros; apply read_only_ret].
  destruct (it_node it).
  - apply read_only_on_nodes, read_only_prevNode.
  - apply read_only_bind; [apply read_only_get_root |]. intros r.
    apply read_only_on_nodes, read_only_findMax.
Qed.

Lemma read_only_iterator_deref it : read_only (iterator_deref (K:=K) it).
Proof. apply read_only_on_nodes, read_only_get_key. Qed.

(** ** The nodes below the root *)

Lemma rep_subtree h par t l a k r :
  rep h par t → subtree (Node l a k r) t →
  ∃ par', rep h par' (Node l a k r).
Proof.
  intros Hrep Hsub. remember (Node l a k r) as u eqn:Hu.
  revert par Hrep. induction Hsub as [t | u l' a' k' r' _ IH | u l' a' k' r' _ IH];
    intros par Hrep.
  - by exists par.
  - destruct Hrep as (_ & Hl & _). by apply (IH Hu (Some a')).
  - destruct Hrep as (_ & _ & Hr). by apply (IH Hu (Some a')).
Qed.

Lemma subtree_tsize (u t : tree (K:=K)) : subtree u t → tsize u ≤ tsize t.
Proof.
  induction 1 as [t | u l a k r _ IH | u l a k r _ IH]; [lia | |]; simpl.
  - pose proof (tsize_nonneg r). lia.
  - pose proof (tsize_nonneg l). lia.
Qed.

Lemma subtree_avl (u t : tree (K:=K)) : subtree u t → avl t → avl u.
Proof.
  induction 1 as [t | u l a k r _ IH | u l a k r _ IH]; [done | |];
    intros (Hl & Hr & _); by apply IH.
Qed.

Lemma rep_structural_parents h t : rep h None t → structural_parents h t.
Proof.
  intros Hrep. split.
  - intros a Ha. destruct t as [| l a' k r]; [done |]. injection Ha as ->.
    eexists. split; [by eapply rep_lookup | done].
  - intros l a k r c Hsub Hc.
    destruct (rep_subtree _ _ _ _ _ _ _ Hrep Hsub) as (par' & _ & Hl & Hr).
    destruct Hc as [Hc | Hc].
    + destruct l as [| ll la lk lr]; [done |]. injection Hc as ->.
      eexists. split; [by eapply rep_lookup | done].
    + destruct r as [| rl ra rk rr]; [done |]. injection Hc as ->.
      eexists. split; [by eapply rep_lookup | done].
Qed.

Lemma rep_cached_fields_exact h par t : rep h par t → cached_fields_exact h t.
Proof.
  intros Hrep l a k r Hsub.
  destruct (rep_subtree _ _ _ _ _ _ _ Hrep Hsub) as (par' & Ha & _).
  eexists. by split_and!.
Qed.

Lemma rep_laid_out h par t : rep h par t → laid_out h t.
Proof.
  revert par. induction t as [| l IHl a k r IHr]; intros par; [done |].
  intros (Ha & Hl & Hr). split; [| split; [by eapply IHl | by eapply IHr]].
  eexists. by split_and!.
Qed.

(** The pointers draw one tree only. *)
Lemma laid_out_rep h par t t0 :
  laid_out h t → rep h par t0 → root_of t = root_of t0 → t = t0.
Proof.
  revert par t0. induction t as [| l IHl a k r IHr]; intros par t0 Hlaid Hrep Hroot.
  - by destruct t0.
  - destruct t0 as [| l0 a0 k0 r0]; [done |]. injection Hroot as <-.
    destruct Hlaid as ((n & Hn & Hk & Hnl & Hnr) & Hl & Hr).
    destruct Hrep as (Ha & Hl0 & Hr0). rewrite Hn in Ha. injection Ha as ->.
    cbn [nkey nleft nright] in Hk, Hnl, Hnr. subst k0.
    f_equal.
    + apply (IHl (Some a)); [done | done | congruence].
    + apply (IHr (Some a)); [done | done | congruence].
Qed.

(** ** Queries on a [Set] object *)

Lemma Set_size_spec w s t :
  holds w s t → Set_size s w = Ok (tsize t) w.
Proof.
  intros (Hs & Hrep & Hnd). unfold Set_size.
  rewrite (bind_eq _ _ _ _ _ (get_root_eq _ _ _ Hs)).
  rewrite (on_nodes_eq _ _ _ _ (cnt_rep _ _ _ Hrep)). by destruct w.
Qed.

Lemma Set_find_spec w s t key fuel :
  holds w s t → theight t < Z.of_nat fuel →
  Set_find fuel s key w = Ok (mkIterator (tree_find key t) (Some s)) w.
Proof.
  intros (Hs & Hrep & Hnd) Hfuel. unfold Set_find.
  rewrite (bind_eq _ _ _ _ _ (get_root_eq _ _ _ Hs)).
  rewrite (bind_eq _ _ _ _ _
             (on_nodes_eq _ _ _ _ (AVLFind_rep key t fuel _ None Hrep Hfuel))).
  by destruct w.
Qed.

Lemma Set_lower_bound_spec w s t key fuel :
  holds w s t → theight t < Z.of_nat fuel →
  Set_lower_bound fuel s key w
  = Ok (mkIterator (tree_lowerBound key t) (Some s)) w.
Proof.
  intros (Hs & Hrep & Hnd) Hfuel. unfold Set_lower_bound.
  rewrite (bind_eq _ _ _ _ _ (get_root_eq _ _ _ Hs)).
  rewrite (bind_eq _ _ _ _ _
             (on_nodes_eq _ _ _ _ (AVLLowerBound_rep key t fuel _ None Hrep Hfuel))).
  by destruct w.
Qed.

Lemma Set_find_mono fuel fuel' s key w :
  (fuel ≤ fuel')%nat → fuel_le (Set_find fuel s key w) (Set_find fuel' s key w).
Proof.
  intros Hle. unfold Set_find.
  apply fuel_le_bind; [apply fuel_le_refl |]. intros r w1.
  apply fuel_le_bind; [| intros ? ?; apply fuel_le_refl].
  apply fuel_le_on_nodes. by apply AVLFind_mono.
Qed.

Lemma Set_lower_bound_mono fuel fuel' s key w :
  (fuel ≤ fuel')%nat →
  fuel_le (Set_lower_bound fuel s key w) (Set_lower_bound fuel' s key w).
Proof.
  intros Hle. unfold Set_lower_bound.
  apply fuel_le_bind; [apply fuel_le_refl |]. intros r w1.
  apply fuel_le_bind; [| intros ? ?; apply fuel_le_refl].
  apply fuel_le_on_nodes. by apply AVLLowerBound_mono.
Qed.

Lemma Set_begin_mono fuel fuel' s w :
  (fuel ≤ fuel')%nat → fuel_le (Set_begin fuel s w) (Set_begin fuel' s w).
Proof.
  intros Hle. unfold Set_begin.
  apply fuel_le_bind; [apply fuel_le_refl |]. intros r w1.
  apply fuel_le_bind; [| intros ? ?; apply fuel_le_refl].
  apply fuel_le_on_nodes. by apply findMin_mono.
Qed.

Lemma fuel_le_not_Fault {S A} (o o' : outcome S A) :
  fuel_le o o' → o' ≠ Fault → o ≠ Fault.
Proof. intros [-> | ->]; done. Qed.

(** A heap is determined by the tree laid out in it and by the rest. *)
Lemma heap_eq_of_rep h h' t :
  rep h None t → rep h' None t → dom h' = dom h →
  (∀ x, x ∉ locs t → is_Some (h !! x) → h' !! x = h !! x) → h' = h.
Proof.
  intros Hrep Hrep' Hdom Hfr. apply map_eq. intros x.
  destruct (decide (x ∈ locs t)) as [Hx | Hx].
  - symmetry. by eapply rep_agree.
  - destruct (h !! x) as [n |] eqn:Hn.
    + rewrite Hfr; [done | done | by eexists].
    + apply not_elem_of_dom. rewrite Hdom. by apply not_elem_of_dom.
Qed.

End ReadOnly.

Section Effects.
Context {K : Type} `{Ordered K} `{Machine}.
Implicit Types (h : heap K) (t : tree (K:=K)) (a x : loc) (p : ptr)
  (w : world (K:=K)) (s : sid).

(** ** What [insert] and [erase] leave alone *)

Lemma tree_erase_absent key t :
  avl t → tree_find key t = None → tree_erase key t = t.
Proof.
  induction t as [| l IHl a k r IHr]; simpl; [done |].
  intros (Hl & Hr & Hd) Hf.
  destruct (isKeyEqual k key); [done |].
  destruct (less k key).
  - rewrite IHr by done. apply tree_balance_id. exact (conj Hl (conj Hr Hd)).
  - rewrite IHl by done. apply tree_balance_id. exact (conj Hl (conj Hr Hd)).
Qed.

Lemma keys_tsize t : Z.of_nat (length (keys t)) = tsize t.
Proof. by rewrite keys_length, tsize_length. Qed.

(** Inserting a key that is there changes nothing at all. *)
Lemma Set_insert_present w s t key fuel :
  holds w s t → bst t → avl t → (size (nodes w) ≤ max_nodes)%nat →
  theight t < Z.of_nat fuel →
  has_key key (keys t) →
  Set_insert fuel s key w = Ok tt w.
Proof.
  intros Hholds Hbst Havl Hcap Hfuel Hkey.
  apply tree_find_has_key in Hkey; [| done].
  pose proof (Set_insert_spec w s t key fuel Hholds Havl Hcap Hfuel) as Hspec.
  destruct (decide _) as [[Hf _] | _]; [done |].
  destruct Hspec as (h' & Hrun & Hrep' & _ & Hfr & Hdom).
  rewrite tree_insert_found in Hrun, Hrep' by done.
  destruct (tree_find key t) eqn:Hf; [| done].
  pose proof Hholds as (Hs & Hrep & Hnd).
  assert (Hh : h' = nodes w).
  { apply (heap_eq_of_rep _ _ t); try done.
    intros x Hx [n Hn]. apply Hfr; [done |]. intros ->.
    apply (is_fresh (dom (nodes w))). apply elem_of_dom. by eexists. }
  rewrite Hrun, Hh, insert_id by done. by destruct w.
Qed.

(** Erasing a key that is not there changes nothing at all. *)
Lemma Set_erase_absent w s t key fuel :
  holds w s t → bst t → avl t → (size (nodes w) ≤ max_nodes)%nat →
  theight t < Z.of_nat fuel →
  ¬ has_key key (keys t) →
  Set_erase fuel s key w = Ok tt w.
Proof.
  intros Hholds Hbst Havl Hcap Hfuel Hkey.
  assert (Hf : tree_find key t = None).
  { destruct (tree_find key t) eqn:Hf; [| done]. exfalso. apply Hkey.
    apply tree_find_has_key; [done | congruence]. }
  destruct (Set_erase_spec w s t key fuel Hholds Havl Hcap Hfuel)
    as (h' & Hrun & Hrep' & _ & Hfr & Hdom).
  rewrite tree_erase_absent in Hrun, Hrep' by done. rewrite Hf in Hdom.
  pose proof Hholds as (Hs & Hrep & Hnd).
  assert (Hh : h' = nodes w).
  { apply (heap_eq_of_rep _ _ t); try done. intros x Hx _. by apply Hfr. }
  rewrite Hrun, Hh, insert_id by done. by destruct w.
Qed.

(** A change to one [Set] object leaves every other one as it was. *)
Lemma mutation_frame w s1 s2 t1 fuel key w' :
  world_inv w → s1 ≠ s2 → holds w s1 t1 →
  Set_insert fuel s2 key w = Ok tt w' ∨ Set_erase fuel s2 key w = Ok tt w' →
  holds w' s1 t1.
Proof.
  intros Hinv Hne Hholds1 Hrun.
  pose proof (world_inv_capacity _ Hinv) as Hcap.
  pose proof Hholds1 as (Hs1 & Hrep1 & Hnd1).
  destruct Hrun as [Hrun | Hrun].
  - destruct (Set_insert_live _ _ _ _ _ Hrun) as [r Hr].
    destruct (world_inv_holds _ _ _ Hinv Hr) as (t2 & Hholds2 & _ & Hbst & Havl).
    destruct (Set_insert_inv _ _ _ _ _ _ Hholds2 Havl Hcap Hrun)
      as (_ & h' & -> & _ & _ & Hfr & _).
    apply (holds_frame w); [done | cbn; by rewrite lookup_insert_ne |].
    cbn. intros x Hx. apply Hfr.
    + by apply (world_inv_disjoint w s1 s2 t1 t2).
    + intros ->. by apply (fresh_not_in_tree _ _ _ Hrep1).
  - destruct (Set_erase_live _ _ _ _ _ Hrun) as [r Hr].
    destruct (world_inv_holds _ _ _ Hinv Hr) as (t2 & Hholds2 & _ & Hbst & Havl).
    destruct (Set_erase_inv _ _ _ _ _ _ Hholds2 Havl Hcap Hrun)
      as (h' & -> & _ & _ & Hfr & _).
    apply (holds_frame w); [done | cbn; by rewrite lookup_insert_ne |].
    cbn. intros x Hx. apply Hfr.
    by apply (world_inv_disjoint w s1 s2 t1 t2).
Qed.

(** ** Copying succeeds when the nodes fit *)

Lemma Set_ctor_copy_ok w other t fuel :
  world_inv w → holds w other t →
  Z.of_nat (size (nodes w)) + tsize t ≤ Z.of_nat max_nodes →
  theight t < Z.of_nat fuel →
  ∃ s w', Set_ctor_copy fuel other w = Ok s w'.
Proof.
  intros Hinv Hother Hfit Hfuel. unfold Set_ctor_copy.
  destruct (new_set_spec w Hinv) as (Hnew & Hfresh & Hinv1 & Hthis1).
  set (this := fresh (dom (sets w))) in *.
  set (w1 := mkWorld (nodes w) (<[this := None]> (sets w))) in *.
  rewrite (bind_eq _ _ _ _ _ Hnew).
  pose proof Hother as (Hso & Hrepo & Hndo).
  assert (Hne : this ≠ other) by (intros Heq; rewrite Heq in Hfresh; congruence).
  assert (Hso1 : sets w1 !! other = Some (root_of t)).
  { cbn. by rewrite lookup_insert_ne. }
  rewrite (bind_eq _ _ _ _ _ (get_root_eq _ _ _ Hso1)).
  pose proof (copyTree_spec t fuel (nodes w) None Hrepo Hfuel
                (world_inv_capacity _ Hinv)) as Hspec.
  rewrite decide_True in Hspec by done.
  destruct Hspec as (h' & t' & Hrun & _).
  rewrite (bind_eq _ _ _ _ _ (on_nodes_eq _ w1 _ _ Hrun)).
  assert (Hset : is_Some (sets (mkWorld h' (sets w1)) !! this)).
  { cbn. rewrite lookup_insert_eq. by eexists. }
  destruct Hset as [r0 Hr0].
  rewrite (bind_eq _ _ _ _ _ (set_root_eq _ _ _ _ Hr0)).
  by eexists _, _.
Qed.

Lemma Set_assign_ok w this other t0 t fuel :
  world_inv w → holds w this t0 → holds w other t → this ≠ other →
  Z.of_nat (size (nodes w)) + tsize t ≤ Z.of_nat max_nodes →
  theight t0 < Z.of_nat fuel → theight t < Z.of_nat fuel →
  ∃ w', Set_assign fuel this other w = Ok tt w'.
Proof.
  intros Hinv Hthis Hother Hne Hfit Hfuel0 Hfuel. unfold Set_assign.
  rewrite decide_True by done.
  pose proof Hthis as (Hst & Hrept & Hndt).
  pose proof Hother as (Hso & Hrepo & Hndo).
  rewrite (bind_eq _ _ _ _ _ (get_root_eq _ _ _ Hst)).
  destruct (deleteTree_spec t0 fuel (nodes w) None Hrept Hndt Hfuel0)
    as (h1 & Hrun1 & Hf1).
  pose proof (on_nodes_eq _ w _ _ Hrun1) as Hrun1'.
  rewrite (bind_eq _ _ _ _ _ Hrun1').
  destruct (clear_spec w this t0 fuel None _ Hinv Hthis Hrun1')
    as (_ & _ & _ & Hinv2 & Hthis2).
  cbn [nodes sets] in Hinv2, Hthis2.
  rewrite (bind_eq _ _ _ _ _ (set_root_eq (mkWorld h1 (sets w)) _ _ _ Hst)).
  cbn [nodes sets].
  set (w2 := mkWorld h1 (<[this := None]> (sets w))) in *.
  assert (Hdisj : ∀ x, x ∈ locs t → x ∉ locs t0).
  { apply (world_inv_disjoint w other this); try done. }
  assert (Hother2 : holds w2 other t).
  { apply (holds_frame w); [done | cbn; by rewrite lookup_insert_ne |].
    cbn. intros x Hx. rewrite Hf1. rewrite decide_False; [done | by apply Hdisj]. }
  pose proof Hother2 as (Hso2 & Hrepo2 & _).
  rewrite (bind_eq _ _ _ _ _ (get_root_eq _ _ _ Hso2)).
  assert (Hsz1 : (size h1 ≤ size (nodes w))%nat).
  { rewrite <- !size_dom. apply subseteq_size.
    intros x [n Hn]%elem_of_dom. rewrite Hf1 in Hn.
    destruct (decide (x ∈ locs t0)); [done |]. apply elem_of_dom. by eexists. }
  pose proof (copyTree_spec t fuel h1 None Hrepo2 Hfuel
                (world_inv_capacity _ Hinv2)) as Hspec.
  rewrite decide_True in Hspec by lia.
  destruct Hspec as (h' & t' & Hrun & _).
  rewrite (bind_eq _ _ _ _ _ (on_nodes_eq _ w2 _ _ Hrun)).
  assert (Hset : is_Some (sets (mkWorld h' (sets w2)) !! this)).
  { cbn. rewrite lookup_insert_eq. by eexists. }
  destruct Hset as [r0 Hr0].
  rewrite (set_root_eq _ _ _ _ Hr0). by eexists.
Qed.

End Effects.

(** * The properties of the specification *)

Section SetProperties.
Context {K : Type} `{Ordered K} `{Machine}.
Implicit Types (h : heap K) (t : tree (K:=K)) (a x : loc) (p : ptr)
  (w : world (K:=K)) (s : sid).

Lemma reachable_holds w s t :
  reachable w → holds w s t → world_inv w ∧ bst t ∧ avl t.
Proof.
  intros Hreach Hholds. pose proof (reachable_world_inv _ Hreach) as Hinv.
  pose proof Hholds as (Hs & _).
  destruct (world_inv_holds _ _ _ Hinv Hs) as (t' & Hholds' & _ & Hbst & Havl).
  by rewrite (holds_unique _ _ _ _ Hholds Hholds').
Qed.

(** C1: in every world reached by the public operations (so after each
    [insert] and [erase] of any sequence applied to a set that started
    empty), the pointer structure of every [Set] object lays out a tree
    that is a binary search tree (left keys below, right keys above, at
    every node), that is AVL-balanced (heights of the two subtrees differ
    by at most one at every node), and in which every child points back at
    its structural parent while the root's parent pointer is null.  It is
    the only tree that the [left] and [right] pointers draw from the
    root. *)
Theorem C1_invariants_after_every_operation w s r :
  reachable w → sets w !! s = Some r →
  ∃ t, holds w s t ∧ root_of t = r ∧ bst t ∧ avl t
       ∧ structural_parents (nodes w) t
       ∧ ∀ t', root_of t' = r → laid_out (nodes w) t' → t' = t.
Proof.
  intros Hreach Hs. pose proof (reachable_world_inv _ Hreach) as Hinv.
  destruct (world_inv_holds _ _ _ Hinv Hs) as (t & Hholds & Hroot & Hbst & Havl).
  exists t. destruct Hholds as (Hs' & Hrep & Hnd).
  split; [exact (conj Hs' (conj Hrep Hnd)) |].
  split; [done |]. split; [done |]. split; [done |].
  split; [by apply rep_structural_parents |].
  intros t' Hroot' Hlaid. apply (laid_out_rep _ None _ _ Hlaid Hrep). congruence.
Qed.

(** C8: at every node of a reachable tree, [getBalance], computed on the
    unsigned cached heights and converted to [int], returns the signed
    difference height(right) - height(left) of the true subtree heights. *)
Theorem C8_getBalance_is_signed_difference w s r :
  reachable w → sets w !! s = Some r →
  ∃ t, holds w s t
       ∧ ∀ tl a k tr, subtree (Node tl a k tr) t →
           getBalance (Some a) (nodes w) = Ok (theight tr - theight tl) (nodes w).
Proof.
  intros Hreach Hs. pose proof (reachable_world_inv _ Hreach) as Hinv.
  destruct (world_inv_holds _ _ _ Hinv Hs) as (t & Hholds & _ & _ & Havl).
  exists t. split; [done |]. intros tl a k tr Hsub.
  pose proof Hholds as (_ & Hrep & Hnd).
  destruct (rep_subtree _ _ _ _ _ _ _ Hrep Hsub) as (par' & Hrep').
  pose proof (subtree_avl _ _ Hsub Havl) as (_ & _ & Hd).
  pose proof (subtree_tsize _ _ Hsub) as Hle.
  pose proof (tree_fits _ _ _ Hrep Hnd (world_inv_capacity _ Hinv)) as Hfit.
  apply (getBalance_rep _ par' tl a k tr); [done | lia | lia].
Qed.

(** C10: [find], [lower_bound], [size], [empty], [begin], [end], stepping
    an iterator either way and dereferencing it return the world they were
    given: no node is added, removed or changed in any field, in any world
    whatever.  On a reachable set each of them does return, the steps and
    the dereference from every position of the set. *)
Theorem C10_queries_leave_the_world_unchanged w s r key :
  reachable w → sets w !! s = Some r →
  (∀ (fuel : nat) (it : iterator),
     read_only (Set_find fuel s key)
     ∧ read_only (Set_lower_bound fuel s key)
     ∧ read_only (Set_size (K:=K) s)
     ∧ read_only (Set_empty (K:=K) s)
     ∧ read_only (Set_begin (K:=K) fuel s)
     ∧ read_only (Set_end (K:=K) s)
     ∧ read_only (iterator_incr (K:=K) fuel it)
     ∧ read_only (iterator_post_incr (K:=K) fuel it)
     ∧ read_only (iterator_decr (K:=K) fuel it)
     ∧ read_only (iterator_post_decr (K:=K) fuel it)
     ∧ read_only (iterator_deref (K:=K) it))
  ∧ ∃ t (n0 : nat), holds w s t ∧ ∀ fuel : nat, (n0 ≤ fuel)%nat →
      (∃ it, Set_find fuel s key w = Ok it w)
      ∧ (∃ it, Set_lower_bound fuel s key w = Ok it w)
      ∧ (∃ n, Set_size s w = Ok n w)
      ∧ (∃ b, Set_empty s w = Ok b w)
      ∧ (∃ it, Set_begin fuel s w = Ok it w)
      ∧ (∃ it, Set_end s w = Ok it w)
      ∧ (∃ it, iterator_decr fuel (mkIterator None (Some s)) w = Ok it w)
      ∧ (∃ its, iterator_post_decr fuel (mkIterator None (Some s)) w = Ok its w)
      ∧ ∀ x, x ∈ locs t →
          (∃ it, iterator_incr fuel (mkIterator (Some x) (Some s)) w = Ok it w)
          ∧ (∃ its, iterator_post_incr fuel (mkIterator (Some x) (Some s)) w = Ok its w)
          ∧ (∃ it, iterator_decr fuel (mkIterator (Some x) (Some s)) w = Ok it w)
          ∧ (∃ its, iterator_post_decr fuel (mkIterator (Some x) (Some s)) w = Ok its w)
          ∧ (∃ k, iterator_deref (mkIterator (Some x) (Some s)) w = Ok k w).
Proof.
  intros Hreach Hs. split.
  { intros fuel it. split_and!.
    - apply read_only_Set_find.
    - apply read_only_Set_lower_bound.
    - apply read_only_Set_size.
    - apply read_only_Set_empty.
    - apply read_only_Set_begin.
    - apply read_only_Set_end.
    - apply read_only_iterator_incr.
    - apply read_only_bind; [apply read_only_iterator_incr |].
      intros; apply read_only_ret.
    - apply read_only_iterator_decr.
    - apply read_only_bind; [apply read_only_iterator_decr |].
      intros; apply read_only_ret.
    - apply read_only_iterator_deref. }
  pose proof (reachable_world_inv _ Hreach) as Hinv.
  destruct (world_inv_holds _ _ _ Hinv Hs) as (t & Hholds & _).
  pose proof (theight_nonneg t) as Hh.
  exists t, (Z.to_nat (theight t + 1)). split; [done |]. intros fuel Hfuel.
  split; [eexists; apply (Set_find_spec w s t); [done | lia] |].
  split; [eexists; apply (Set_lower_bound_spec w s t); [done | lia] |].
  split; [eexists; by apply (Set_size_spec w s t) |].
  split.
  { eexists. unfold Set_empty.
    by rewrite (bind_eq _ _ _ _ _ (Set_size_spec w s t Hholds)). }
  split; [eexists; apply (Set_begin_spec w s t); [done | lia] |].
  split; [by eexists |].
  assert (Hend : iterator_decr fuel (mkIterator None (Some s)) w
                 = Ok (mkIterator (last (locs t)) (Some s)) w).
  { apply (iterator_decr_end w s t); [done | lia]. }
  split; [by eexists |].
  split.
  { eexists. unfold iterator_post_decr. by rewrite (bind_eq _ _ _ _ _ Hend). }
  intros x Hx.
  assert (Hincr : iterator_incr fuel (mkIterator (Some x) (Some s)) w
                  = Ok (mkIterator (next_in (locs t) x None) (Some s)) w).
  { apply (iterator_incr_spec w s t); [done | done | lia]. }
  assert (Hdecr : iterator_decr fuel (mkIterator (Some x) (Some s)) w
                  = Ok (mkIterator (prev_in (locs t) x None) (Some s)) w).
  { apply (iterator_decr_spec w s t); [done | done | lia]. }
  split; [by eexists |].
  split.
  { eexists. unfold iterator_post_incr. by rewrite (bind_eq _ _ _ _ _ Hincr). }
  split; [by eexists |].
  split.
  { eexists. unfold iterator_post_decr. by rewrite (bind_eq _ _ _ _ _ Hdecr). }
  rewrite locs_elems in Hx. apply list_elem_of_fmap in Hx as ([x' k] & -> & Hin).
  exists k. by apply (iterator_deref_spec w s t).
Qed.

(** C5: walking a reachable set forward from [begin()] to [end()] visits
    its keys in strictly increasing order, and walking it backward from
    [end()] visits the same keys in the reverse order. *)
Theorem C5_traversal_is_sorted_and_reversible w s t :
  reachable w → holds w s t →
  ∃ n0 : nat, ∀ fuel : nat, (n0 ≤ fuel)%nat →
    traverse_forward fuel s w = Ok (keys t) w
    ∧ StronglySorted (λ x y : K, less x y = true) (keys t)
    ∧ traverse_backward fuel s w = Ok (reverse (keys t)) w.
Proof.
  intros Hreach Hholds.
  destruct (reachable_holds _ _ _ Hreach Hholds) as (_ & Hbst & _).
  exists (Z.to_nat (tsize t + theight t + 2)). intros fuel Hfuel.
  pose proof (tsize_nonneg t). pose proof (theight_nonneg t).
  split_and!.
  - apply traverse_forward_spec; [done | lia].
  - by apply bst_sorted.
  - apply traverse_backward_spec; [done | lia].
Qed.

(** C6: in a reachable world [size()] is the number of positions a full
    forward walk visits, [empty()] tells whether there is none, and at every
    node of the tree that the pointers draw the cached [height] and [cnt]
    are the height and the size of the subtree below it. *)
Theorem C6_size_and_cached_fields w s r :
  reachable w → sets w !! s = Some r →
  (∀ t, root_of t = r → laid_out (nodes w) t → cached_fields_exact (nodes w) t)
  ∧ ∃ t (n0 : nat),
      holds w s t
      ∧ cached_fields_exact (nodes w) t
      ∧ Set_size s w = Ok (Z.of_nat (length (keys t))) w
      ∧ Set_empty s w = Ok (bool_decide (keys t = [])) w
      ∧ ∀ fuel : nat, (n0 ≤ fuel)%nat →
          traverse_forward fuel s w = Ok (keys t) w.
Proof.
  intros Hreach Hs. pose proof (reachable_world_inv _ Hreach) as Hinv.
  destruct (world_inv_holds _ _ _ Hinv Hs) as (t & Hholds & Hroot & _).
  pose proof Hholds as (_ & Hrep & _).
  split.
  { intros t' Hroot' Hlaid.
    rewrite (laid_out_rep _ None t' t Hlaid Hrep) by congruence.
    by eapply rep_cached_fields_exact. }
  exists t, (Z.to_nat (tsize t + theight t + 2)).
  pose proof (tsize_nonneg t). pose proof (theight_nonneg t).
  pose proof (Set_size_spec _ _ _ Hholds) as Hsize.
  rewrite <- keys_tsize in Hsize.
  split; [done |]. split; [by eapply rep_cached_fields_exact |].
  split; [done |]. split.
  - unfold Set_empty. rewrite (bind_eq _ _ _ _ _ Hsize). unfold ret. f_equal.
    destruct (keys t); [done |]. cbn [length].
    rewrite bool_decide_eq_false_2 by done. apply Z.eqb_neq. lia.
  - intros fuel Hfuel. apply traverse_forward_spec; [done | lia].
Qed.

(** C4: on a reachable set, [lower_bound(x)] returns [end()] exactly when
    every stored key is below [x]; otherwise it returns a cursor at a stored
    key that is not below [x] and that no stored key not below [x] is
    below. *)
Theorem C4_lower_bound w s t key :
  reachable w → holds w s t →
  ∃ n0 : nat, ∀ fuel : nat, (n0 ≤ fuel)%nat →
    ∃ c : ptr,
      Set_lower_bound fuel s key w = Ok (mkIterator c (Some s)) w
      ∧ Set_end s w = Ok (mkIterator None (Some s)) w
      ∧ (c = None ↔ ∀ k, k ∈ keys t → less k key = true)
      ∧ ∀ b, c = Some b →
          ∃ kc, iterator_deref (mkIterator c (Some s)) w = Ok kc w
                ∧ kc ∈ keys t
                ∧ less kc key = false
                ∧ ∀ k, k ∈ keys t → less k key = false → less k kc = false.
Proof.
  intros Hreach Hholds.
  destruct (reachable_holds _ _ _ Hreach Hholds) as (_ & Hbst & _).
  exists (Z.to_nat (theight t + 1)). intros fuel Hfuel.
  pose proof (theight_nonneg t).
  exists (tree_lowerBound key t). split_and!.
  - apply Set_lower_bound_spec; [done | lia].
  - done.
  - by apply tree_lowerBound_None.
  - intros b Hb. rewrite Hb.
    destruct (tree_lowerBound_Some key t b Hbst Hb) as (kc & Hin & Hge & Hleast).
    exists kc. split_and!; try done.
    + by eapply iterator_deref_spec.
    + rewrite keys_elems. by apply (list_elem_of_fmap_2 snd _ (b, kc)).
Qed.

(** C2: on a reachable set, [insert(key)] of a key equivalent (neither below
    the other) to a stored one leaves the whole world as it was, size
    included; [insert(key)] of any other key, when [new] succeeds, makes
    [key] one more stored key between the keys that were there, which stay
    in place, and [size()] grows by exactly one; a second [insert(key)]
    right after then changes nothing.  When [new] fails the call ends in
    [std::bad_alloc]. *)
Theorem C2_insert w s t key :
  reachable w → holds w s t →
  ∃ n0 : nat, ∀ fuel : nat, (n0 ≤ fuel)%nat →
    Set_size s w = Ok (Z.of_nat (length (keys t))) w
    ∧ (has_key key (keys t) → Set_insert fuel s key w = Ok tt w)
    ∧ (¬ has_key key (keys t) → ¬ (size (nodes w) < max_nodes)%nat →
         Set_insert fuel s key w = BadAlloc)
    ∧ (¬ has_key key (keys t) → (size (nodes w) < max_nodes)%nat →
         ∃ w' t' ks1 ks2,
           Set_insert fuel s key w = Ok tt w'
           ∧ holds w' s t'
           ∧ keys t = ks1 ++ ks2 ∧ keys t' = ks1 ++ key :: ks2
           ∧ Set_size s w' = Ok (Z.of_nat (length (keys t)) + 1) w'
           ∧ Set_insert fuel s key w' = Ok tt w').
Proof.
  intros Hreach Hholds.
  destruct (reachable_holds _ _ _ Hreach Hholds) as (Hinv & Hbst & Havl).
  pose proof (world_inv_capacity _ Hinv) as Hcap.
  pose proof (theight_nonneg t) as Hh.
  exists (Z.to_nat (theight t + 2)). intros fuel Hfuel.
  split_and!.
  - rewrite keys_tsize. by apply Set_size_spec.
  - intros Hkey. apply (Set_insert_present w s t); try done. lia.
  - intros Hkey Hfull.
    pose proof (Set_insert_spec w s t key fuel Hholds Havl Hcap ltac:(lia)) as Hspec.
    rewrite decide_True in Hspec; [done |]. split; [| done].
    destruct (tree_find key t) eqn:Hf; [| done]. exfalso. apply Hkey.
    apply tree_find_has_key; [done | congruence].
  - intros Hkey Hroom.
    assert (Hf : tree_find key t = None).
    { destruct (tree_find key t) eqn:Hf; [| done]. exfalso. apply Hkey.
      apply tree_find_has_key; [done | congruence]. }
    pose proof (Set_insert_spec w s t key fuel Hholds Havl Hcap ltac:(lia)) as Hspec.
    rewrite decide_False in Hspec by tauto.
    destruct Hspec as (h' & Hrun & Hrep' & Hnd' & Hfr & Hdom).
    set (t' := tree_insert (fresh (dom (nodes w))) key t) in *.
    set (w' := mkWorld h' (<[s := root_of t']> (sets w))) in *.
    destruct (tree_insert_keys (fresh (dom (nodes w))) key t Hbst Hf)
      as (ks1 & ks2 & Hk & Hk' & _).
    assert (Hholds' : holds w' s t').
    { split_and!; [cbn; by rewrite lookup_insert_eq | done | done]. }
    exists w', t', ks1, ks2. split_and!; try done.
    + pose proof (Set_size_spec _ _ _ Hholds') as Hsize.
      unfold t' in Hsize at 1. rewrite tree_insert_tsize, Hf in Hsize.
      by rewrite keys_tsize.
    + pose proof (Set_insert_world_inv _ _ _ _ _ Hinv Hrun) as Hinv'.
      destruct (tree_insert_avl (fresh (dom (nodes w))) key t Havl) as (Havl' & Hh').
      apply (Set_insert_present w' s t'); try done.
      * by apply tree_insert_bst.
      * by apply world_inv_capacity.
      * fold t' in Hh'. lia.
      * exists key. split; [| apply isKeyEqual_refl].
        fold t' in Hk'. rewrite Hk'. set_solver.
Qed.

(** C3: on a reachable set, [erase(x)] of a key with no stored equivalent
    leaves the whole world as it was; otherwise it removes exactly the
    stored key equivalent to [x], the others staying in place, and [size()]
    drops by exactly one.  Either way [find(x)] then returns [end()]. *)
Theorem C3_erase w s t key :
  reachable w → holds w s t →
  ∃ n0 : nat, ∀ fuel : nat, (n0 ≤ fuel)%nat →
    ∃ w' t',
      Set_erase fuel s key w = Ok tt w' ∧ holds w' s t'
      ∧ Set_find fuel s key w' = Ok (mkIterator None (Some s)) w'
      ∧ Set_end s w' = Ok (mkIterator None (Some s)) w'
      ∧ (¬ has_key key (keys t) → w' = w)
      ∧ (has_key key (keys t) →
           ∃ ks1 k ks2,
             keys t = ks1 ++ k :: ks2 ∧ isKeyEqual k key = true
             ∧ keys t' = ks1 ++ ks2
             ∧ Set_size s w = Ok (Z.of_nat (length (keys t))) w
             ∧ Set_size s w' = Ok (Z.of_nat (length (keys t)) - 1) w').
Proof.
  intros Hreach Hholds.
  destruct (reachable_holds _ _ _ Hreach Hholds) as (Hinv & Hbst & Havl).
  pose proof (world_inv_capacity _ Hinv) as Hcap.
  pose proof (theight_nonneg t) as Hh.
  exists (Z.to_nat (theight t + 1)). intros fuel Hfuel.
  destruct (Set_erase_spec w s t key fuel Hholds Havl Hcap ltac:(lia))
    as (h' & Hrun & Hrep' & Hnd' & Hfr & Hdom).
  set (t' := tree_erase key t) in *.
  set (w' := mkWorld h' (<[s := root_of t']> (sets w))) in *.
  assert (Hholds' : holds w' s t').
  { split_and!; [cbn; by rewrite lookup_insert_eq | done | done]. }
  destruct (tree_erase_avl key t Havl) as (Havl' & Hh'). fold t' in Havl', Hh'.
  exists w', t'. split_and!; try done.
  - rewrite (Set_find_spec w' s t' key fuel Hholds') by lia.
    unfold t'. by rewrite tree_erase_find.
  - intros Hkey.
    pose proof (Set_erase_absent w s t key fuel Hholds Hbst Havl Hcap
                  ltac:(lia) Hkey) as Hsame.
    rewrite Hrun in Hsame. by injection Hsame.
  - intros Hkey. apply tree_find_has_key in Hkey; [| done].
    destruct (tree_find key t) as [b |] eqn:Hf; [| done].
    destruct (tree_erase_keys key t b Hf) as (ks1 & k & ks2 & Hk & Hk' & Heq).
    exists ks1, k, ks2. split_and!; try done.
    + rewrite keys_tsize. by apply Set_size_spec.
    + pose proof (Set_size_spec _ _ _ Hholds') as Hsize.
      rewrite <- keys_tsize in Hsize. fold t' in Hk'. rewrite Hk' in Hsize.
      rewrite Hk. rewrite Hsize. f_equal.
      rewrite !length_app. cbn [length]. lia.
Qed.

(** C9: on a reachable set and for any key, [insert], [erase], [find],
    [lower_bound], [size], [empty], [begin] and [end] never dereference an
    absent node, whatever the recursion budget; with budget enough each
    returns normally, [insert] apart when [new] fails. *)
Theorem C9_no_absent_node_is_dereferenced w s r key :
  reachable w → sets w !! s = Some r →
  (∀ fuel : nat,
     Set_insert fuel s key w ≠ Fault
     ∧ Set_erase fuel s key w ≠ Fault
     ∧ Set_find fuel s key w ≠ Fault
     ∧ Set_lower_bound fuel s key w ≠ Fault
     ∧ Set_begin fuel s w ≠ Fault
     ∧ Set_size s w ≠ Fault
     ∧ Set_empty s w ≠ Fault
     ∧ Set_end s w ≠ Fault)
  ∧ ∃ n0 : nat, ∀ fuel : nat, (n0 ≤ fuel)%nat →
      ((∃ w', Set_insert fuel s key w = Ok tt w')
       ∨ Set_insert fuel s key w = BadAlloc)
      ∧ (∃ w', Set_erase fuel s key w = Ok tt w')
      ∧ (∃ it, Set_find fuel s key w = Ok it w)
      ∧ (∃ it, Set_lower_bound fuel s key w = Ok it w)
      ∧ (∃ it, Set_begin fuel s w = Ok it w)
      ∧ (∃ n, Set_size s w = Ok n w)
      ∧ (∃ b, Set_empty s w = Ok b w)
      ∧ (∃ it, Set_end s w = Ok it w).
Proof.
  intros Hreach Hs. pose proof (reachable_world_inv _ Hreach) as Hinv.
  destruct (world_inv_holds _ _ _ Hinv Hs) as (t & Hholds & _ & Hbst & Havl).
  pose proof (world_inv_capacity _ Hinv) as Hcap.
  pose proof (theight_nonneg t) as Hh.
  assert (Hterm : ∀ fuel : nat, (Z.to_nat (theight t + 1) ≤ fuel)%nat →
      ((∃ w', Set_insert fuel s key w = Ok tt w')
       ∨ Set_insert fuel s key w = BadAlloc)
      ∧ (∃ w', Set_erase fuel s key w = Ok tt w')
      ∧ (∃ it, Set_find fuel s key w = Ok it w)
      ∧ (∃ it, Set_lower_bound fuel s key w = Ok it w)
      ∧ (∃ it, Set_begin fuel s w = Ok it w)
      ∧ (∃ n, Set_size s w = Ok n w)
      ∧ (∃ b, Set_empty s w = Ok b w)
      ∧ (∃ it, Set_end s w = Ok it w)).
  { intros fuel Hfuel. split_and!.
    - pose proof (Set_insert_spec w s t key fuel Hholds Havl Hcap ltac:(lia)) as Hspec.
      destruct (decide _); [by right |]. left.
      destruct Hspec as (h' & Hrun & _). by eexists.
    - destruct (Set_erase_spec w s t key fuel Hholds Havl Hcap ltac:(lia))
        as (h' & Hrun & _). by eexists.
    - eexists. apply (Set_find_spec w s t); [done | lia].
    - eexists. apply (Set_lower_bound_spec w s t); [done | lia].
    - eexists. apply (Set_begin_spec w s t); [done | lia].
    - eexists. by apply (Set_size_spec w s t).
    - eexists. unfold Set_empty.
      by rewrite (bind_eq _ _ _ _ _ (Set_size_spec w s t Hholds)).
    - by eexists. }
  split; [| by exists (Z.to_nat (theight t + 1))].
  intros fuel.
  set (fuel' := (fuel `max` Z.to_nat (theight t + 1))%nat).
  destruct (Hterm fuel' ltac:(lia))
    as (Hins & (? & Hers) & (? & Hfnd) & (? & Hlb) & (? & Hbeg) & (? & Hsz)
        & (? & Hemp) & _).
  split_and!.
  - apply (fuel_le_not_Fault _ _ (Set_insert_mono fuel fuel' s key w ltac:(lia))).
    destruct Hins as [[? ->] | ->]; done.
  - apply (fuel_le_not_Fault _ _ (Set_erase_mono fuel fuel' s key w ltac:(lia))).
    by rewrite Hers.
  - apply (fuel_le_not_Fault _ _ (Set_find_mono fuel fuel' s key w ltac:(lia))).
    by rewrite Hfnd.
  - apply (fuel_le_not_Fault _ _ (Set_lower_bound_mono fuel fuel' s key w ltac:(lia))).
    by rewrite Hlb.
  - apply (fuel_le_not_Fault _ _ (Set_begin_mono fuel fuel' s w ltac:(lia))).
    by rewrite Hbeg.
  - by rewrite Hsz.
  - by rewrite Hemp.
  - done.
Qed.

(** C7: the copy constructor and copy assignment give the new [Set] object
    a tree of the same shape and keys built from nodes none of which
    belongs to the source, which itself stays as it was; whatever [insert]
    or [erase] then does to either object, the other still holds the tree
    it held, so [find] on it answers as before.  Both succeed when the
    nodes of the copy fit in the heap. *)
Theorem C7_copies_are_independent w a ta :
  reachable w → holds w a ta →
  let independent (w' : world) (b : sid) : Prop :=
    b ≠ a ∧ holds w' a ta
    ∧ ∃ tb, holds w' b tb ∧ same_shape ta tb ∧ keys tb = keys ta
        ∧ (∀ x, x ∈ locs tb → x ∉ locs ta)
        ∧ ∀ (fuel : nat) key w'',
            (Set_insert fuel b key w' = Ok tt w''
             ∨ Set_erase fuel b key w' = Ok tt w'' →
             holds w'' a ta
             ∧ ∀ (fuel' : nat) k, theight ta < Z.of_nat fuel' →
                 Set_find fuel' a k w' = Ok (mkIterator (tree_find k ta) (Some a)) w'
                 ∧ Set_find fuel' a k w''
                   = Ok (mkIterator (tree_find k ta) (Some a)) w'')
            ∧ (Set_insert fuel a key w' = Ok tt w''
               ∨ Set_erase fuel a key w' = Ok tt w'' →
               holds w'' b tb) in
  (∀ (fuel : nat) b w', Set_ctor_copy fuel a w = Ok b w' → independent w' b)
  ∧ (∀ (fuel : nat) b w',
       b ≠ a → Set_assign fuel b a w = Ok tt w' → independent w' b)
  ∧ (Z.of_nat (size (nodes w)) + tsize ta ≤ Z.of_nat max_nodes →
     ∃ n0 : nat, ∀ fuel : nat, (n0 ≤ fuel)%nat →
       (∃ b w', Set_ctor_copy fuel a w = Ok b w')
       ∧ ∀ b tb, holds w b tb → b ≠ a → theight tb < Z.of_nat fuel →
           ∃ w', Set_assign fuel b a w = Ok tt w').
Proof.
  intros Hreach Hholds independent.
  destruct (reachable_holds _ _ _ Hreach Hholds) as (Hinv & Hbst & Havl).
  assert (Hind : ∀ w' b tb,
             world_inv w' → b ≠ a → holds w' a ta → holds w' b tb →
             same_shape ta tb → (∀ x, x ∈ locs tb → x ∉ locs ta) →
             independent w' b).
  { intros w' b tb Hinv' Hne Ha' Hb' Hsh Hdisj. split_and!; try done.
    exists tb. split_and!; try done; [by apply same_shape_keys |].
    intros fuel key w''. split.
    - intros Hmut.
      pose proof (mutation_frame w' a b ta fuel key w'' Hinv' ltac:(done) Ha' Hmut)
        as Ha''.
      split; [done |]. intros fuel' k Hfuel'.
      split; by apply Set_find_spec.
    - intros Hmut. by apply (mutation_frame w' b a tb fuel key w'' Hinv'). }
  split_and!.
  - intros fuel b w' Hrun.
    destruct (Set_ctor_copy_inv _ _ _ _ _ _ Hinv Hholds Hrun)
      as (Hne & _ & Hinv' & Ha' & _ & tb & Hb' & Hsh & Hfr & _).
    apply (Hind w' b tb); try done.
    intros x Hx Hx'. apply Hfr in Hx.
    destruct Hholds as (_ & Hrep & _).
    destruct (rep_dom _ _ _ _ Hrep Hx') as [? ?]. congruence.
  - intros fuel b w' Hne Hrun.
    destruct (Set_assign_inv _ _ _ _ _ _ Hinv Hholds Hne Hrun)
      as (Hinv' & Ha' & _ & t0 & tb & _ & Hb' & Hsh & Hdisj & _).
    by apply (Hind w' b tb).
  - intros Hfit. exists (Z.to_nat (theight ta + 1)). intros fuel Hfuel.
    pose proof (theight_nonneg ta). split.
    + apply (Set_ctor_copy_ok w a ta); try done. lia.
    + intros b tb Hb Hne Hfuelb.
      apply (Set_assign_ok w b a tb ta); try done. lia.
Qed.

End SetProperties.

(** * Further properties of [set.h]

    ** [eraseMax], the mirror image of [eraseMin] *)

Section EraseMax.
Context {K : Type} `{Ordered K} `{Machine}.
Implicit Types (h : heap K) (t l r : tree (K:=K)) (a x : loc) (p : ptr).

Lemma tree_eraseMax_unfold l a k r :
  r ≠ Leaf →
  tree_eraseMax (Node l a k r) = tree_balance (Node l a k (tree_eraseMax r)).
Proof. destruct r; [done | reflexivity]. Qed.

Lemma tree_eraseMax_avl t :
  avl t →
  avl (tree_eraseMax t)
  ∧ theight t - 1 ≤ theight (tree_eraseMax t) ≤ theight t.
Proof.
  induction t as [| l IHl a k r IHr]; [simpl; lia |].
  intros (Hl & Hr & Hd).
  destruct (tree_leaf_or_node r) as [-> | Hne].
  - simpl in *. pose proof (theight_nonneg l). split; [done | lia].
  - rewrite tree_eraseMax_unfold by done.
    destruct (IHr Hr) as (Hr' & Hhr').
    assert (Hpre : balance_pre (Node l a k (tree_eraseMax r))).
    { cbn [balance_pre]. split; [done |]. split; [done | lia]. }
    destruct (tree_balance_avl _ Hpre) as (Havl & Hh).
    split; [exact Havl |]. cbn [theight tree_getBalance] in Hh |- *. lia.
Qed.

Lemma tree_eraseMax_elems l a k r :
  elems (Node l a k r)
  = elems (tree_eraseMax (Node l a k r)) ++ [tree_findMax a k r].
Proof.
  revert l a k. induction r as [| rl IHrl ra rk rr IHrr]; intros l a k.
  - reflexivity.
  - rewrite tree_eraseMax_unfold by done. rewrite tree_balance_elems.
    change (elems (Node l a k (Node rl ra rk rr)))
      with (elems l ++ (a, k) :: elems (Node rl ra rk rr)).
    rewrite (IHrr rl ra rk).
    change (elems (Node l a k (tree_eraseMax (Node rl ra rk rr))))
      with (elems l ++ (a, k) :: elems (tree_eraseMax (Node rl ra rk rr))).
    cbn [tree_findMax]. by rewrite <- app_assoc.
Qed.

Lemma tree_eraseMax_locs t :
  (∀ x, x ∈ locs (tree_eraseMax t) → x ∈ locs t)
  ∧ (NoDup (locs t) → NoDup (locs (tree_eraseMax t)))
  ∧ tsize (tree_eraseMax t) ≤ tsize t.
Proof.
  destruct t as [| l a k r]; [by split_and! |].
  rewrite !tsize_length, !locs_elems, (tree_eraseMax_elems l a k r).
  rewrite fmap_app. split_and!.
  - intros x Hx. apply elem_of_app. by left.
  - by intros [Hnd _]%NoDup_app.
  - rewrite length_app. lia.
Qed.

Lemma eraseMax_spec t :
  ∀ fuel h par,
    t ≠ Leaf → rep h par t → NoDup (locs t) → avl t →
    theight t < Z.of_nat fuel → tsize t < 2 ^ 64 →
    ∃ h' par',
      eraseMax fuel (root_of t) h = Ok (root_of (tree_eraseMax t)) h'
      ∧ rep h' par' (tree_eraseMax t)
      ∧ same_outside (locs (tree_eraseMax t)) h h'.
Proof.
  induction t as [| l IHl a k r IHr];
    intros fuel h par Hne Hrep Hnd Havl Hfuel Hsz; [done |].
  pose proof (theight_nonneg l) as Hhl. pose proof (theight_nonneg r) as Hhr.
  pose proof (tsize_nonneg l) as Hsl. pose proof (tsize_nonneg r) as Hsr.
  destruct fuel as [| fuel]; [simpl in Hfuel; lia |].
  pose proof (rep_lookup _ _ _ _ _ _ Hrep) as Ha.
  pose proof Hnd as Hnd'. simpl in Hnd'.
  apply NoDup_node in Hnd' as (Hndl & Hndr & Hal & Har & Hlr).
  destruct Havl as (Havl & Havr & Hd).
  destruct Hrep as (_ & Hrepl & Hrepr).
  cbn [eraseMax root_of].
  rewrite (bind_eq _ _ _ _ _ (get_right_eq _ _ _ Ha)). cbn [nright].
  destruct (tree_leaf_or_node r) as [-> | Hrne].
  - cbn [root_of tree_eraseMax].
    exists h, (Some a). split; [by rewrite (get_left_eq _ _ _ Ha) |].
    split; [done | apply same_outside_refl].
  - rewrite tree_eraseMax_unfold by done.
    destruct (IHr fuel h (Some a) Hrne Hrepr Hndr Havr)
      as (h1 & par1 & Hrun1 & Hrep1 & Hd1 & Hf1);
      [simpl in Hfuel; lia | simpl in Hsz; lia |].
    set (r' := tree_eraseMax r) in *.
    destruct (tree_eraseMax_locs r) as (Hin' & Hnd' & Hsz').
    destruct (tree_eraseMax_avl r Havr) as (Havr' & Hhr').
    fold r' in Hin', Hnd', Hsz', Havr', Hhr'.
    assert (Har' : a ∉ locs r') by (intros Hx%Hin'; done).
    assert (Ha1 : h1 !! a = Some (mkTreeNode k (theight (Node l a k r))
                                   (tsize (Node l a k r)) (root_of l) (root_of r) par)).
    { rewrite Hf1; done. }
    assert (Hstep : @eq (M (heap K) ptr)
                      match root_of r with
                      | Some _ =>
                          do tr' <- eraseMax fuel (root_of r);
                          do _ <- set_right (Some a) tr';
                          balance (Some a)
                      | None => get_left (Some a)
                      end
                      (do tr' <- eraseMax fuel (root_of r);
                       do _ <- set_right (Some a) tr';
                       balance (Some a))).
    { by destruct r. }
    rewrite Hstep. clear Hstep.
    rewrite (bind_eq _ _ _ _ _ Hrun1).
    rewrite (bind_eq _ _ _ _ _ (set_right_eq _ _ _ _ Ha1)).
    cbn [nkey nheight ncnt nleft nparent].
    set (h2 := <[a := _]> h1).
    assert (Hnode2 : node_at h2 a k l r').
    { eexists. split; [apply lookup_insert_eq |]. by split_and!. }
    assert (Hr2 : srep h2 r').
    { exists par1. apply rep_frame with h1; [done |]. intros x Hx.
      unfold h2. apply lookup_insert_ne. by intros ->. }
    assert (Hl2 : srep h2 l).
    { exists (Some a). apply rep_frame with h; [done |]. intros x Hx.
      unfold h2. rewrite lookup_insert_ne by (by intros ->).
      apply Hf1. intros Hx'%Hin'. by apply (Hlr x). }
    assert (Hnd2 : NoDup (locs (Node l a k r'))).
    { simpl. apply NoDup_node. split; [done |]. split; [by apply Hnd' |].
      split; [done |]. split; [done |].
      intros x Hx Hx'%Hin'. by apply (Hlr x). }
    assert (Hsz2 : tsize (Node l a k r') < 2 ^ 64).
    { simpl in Hsz |- *. lia. }
    assert (Hpre2 : balance_pre (Node l a k r')).
    { cbn [balance_pre]. split; [done |]. split; [done | lia]. }
    destruct (balance_spec h2 (Node l a k r') (conj Hnode2 (conj Hl2 Hr2))
                Hnd2 Hsz2 Hpre2) as (h3 & Hrun3 & Hrep3 & Hso3).
    exists h3, None. split; [exact Hrun3 |]. split; [exact Hrep3 |].
    rewrite tree_balance_locs.
    eapply same_outside_trans; [| exact Hso3].
    eapply same_outside_trans.
    + eapply same_outside_weaken; [exact (conj Hd1 Hf1) |].
      intros x Hx. simpl. set_solver.
    + eapply same_outside_insert; [exact Ha1 |]. simpl. set_solver.
Qed.

End EraseMax.

(** ** Pure facts about balanced search trees and sequences *)

Section Pure.
Context {K : Type} `{Ordered K} `{Machine}.
Implicit Types (h : heap K) (t l r : tree (K:=K)) (a x : loc) (p : ptr).

(** A balanced tree of height [h] has at least [2^(h/2) - 1] nodes. *)
Lemma avl_size_lower_bound t : avl t → 2 ^ (theight t / 2) ≤ tsize t + 1.
Proof.
  induction t as [| l IHl a k r IHr]; [intros _; by vm_compute |].
  intros (Hl & Hr & Hd). specialize (IHl Hl). specialize (IHr Hr).
  pose proof (theight_nonneg l) as Hhl. pose proof (theight_nonneg r) as Hhr.
  cbn [theight tsize].
  remember (Z.max (theight l) (theight r)) as m eqn:Hmdef.
  assert (Hm : 0 ≤ m) by lia.
  destruct (decide (m = 0)) as [Hm0 | Hm0].
  - rewrite Hm0. change ((0 + 1) / 2) with 0. pose proof (tsize_nonneg l).
    pose proof (tsize_nonneg r). change (2 ^ 0) with 1. lia.
  - assert (Hdiv : (m + 1) / 2 = (m - 1) / 2 + 1).
    { replace (m + 1) with (m - 1 + 1 * 2) by lia.
      by rewrite Z.div_add. }
    rewrite Hdiv, Z.pow_add_r by (try apply Z.div_pos; lia).
    change (2 ^ 1) with 2.
    assert (Hl' : 2 ^ ((m - 1) / 2) ≤ 2 ^ (theight l / 2)).
    { apply Z.pow_le_mono_r; [lia |]. apply Z.div_le_mono; lia. }
    assert (Hr' : 2 ^ ((m - 1) / 2) ≤ 2 ^ (theight r / 2)).
    { apply Z.pow_le_mono_r; [lia |]. apply Z.div_le_mono; lia. }
    lia.
Qed.

Lemma avl_height_log t : avl t → theight t ≤ 2 * Z.log2 (tsize t + 1) + 1.
Proof.
  intros Havl. pose proof (avl_size_lower_bound t Havl) as Hpow.
  pose proof (theight_nonneg t) as Hh. pose proof (tsize_nonneg t) as Hs.
  assert (Hq : 0 ≤ theight t / 2) by (apply Z.div_pos; lia).
  assert (Hlog : theight t / 2 ≤ Z.log2 (tsize t + 1)).
  { rewrite <- (Z.log2_pow2 (theight t / 2)) by done.
    by apply Z.log2_le_mono. }
  pose proof (Z.div_mod (theight t) 2 ltac:(lia)) as Hdm.
  pose proof (Z.mod_pos_bound (theight t) 2 ltac:(lia)). lia.
Qed.

(** On a stored key [lower_bound] and [find] stop at the same node. *)
Lemma tree_lowerBound_find key t a :
  tree_find key t = Some a → tree_lowerBound key t = Some a.
Proof.
  induction t as [| l IHl b k r IHr]; [done |]. cbn [tree_find tree_lowerBound].
  destruct (isKeyEqual k key) eqn:Heq; [done |].
  destruct (less k key) eqn:Hlt.
  - rewrite (less_asym _ _ Hlt). exact IHr.
  - apply isKeyEqual_false in Heq as [Hlt' | Hgt]; [congruence |].
    rewrite Hgt. intros Hf. by rewrite (IHl Hf).
Qed.

(** Where [x] sits in a sequence without repetition decides its neighbours. *)
Lemma next_in_split (l1 l2 : list loc) x up :
  x ∉ l1 → next_in (l1 ++ x :: l2) x up = from_option Some up (head l2).
Proof. intros Hx. by rewrite next_in_app_r, next_in_here. Qed.

Lemma prev_in_split (l1 l2 : list loc) x down :
  x ∉ l1 → prev_in (l1 ++ x :: l2) x down = from_option Some down (last l1).
Proof. intros Hx. by rewrite prev_in_app_r, prev_in_here. Qed.

Lemma prev_next_in (ls : list loc) x :
  NoDup ls → x ∈ ls →
  match next_in ls x None with
  | Some y => y ∈ ls ∧ prev_in ls y None = Some x
  | None => last ls = Some x
  end.
Proof.
  intros Hnd Hx. apply list_elem_of_split in Hx as (l1 & l2 & ->).
  apply NoDup_app in Hnd as (Hnd1 & Hdisj & Hnd2).
  apply NoDup_cons in Hnd2 as (Hx2 & Hnd2).
  assert (Hx1 : x ∉ l1) by (intros Hx1; apply (Hdisj x Hx1); by left).
  rewrite next_in_split by done.
  destruct l2 as [| y l2]; cbn [head from_option].
  - by rewrite last_snoc.
  - split; [set_solver |].
    replace (l1 ++ x :: y :: l2) with ((l1 ++ [x]) ++ y :: l2)
      by (by rewrite <- app_assoc).
    rewrite prev_in_split; [by rewrite last_snoc |].
    intros [Hy | Hy]%elem_of_app.
    + apply (Hdisj y Hy). set_solver.
    + apply list_elem_of_singleton in Hy as ->. apply Hx2. by left.
Qed.

Lemma next_prev_in (ls : list loc) x :
  NoDup ls → x ∈ ls → head ls ≠ Some x →
  ∃ y, prev_in ls x None = Some y ∧ y ∈ ls ∧ next_in ls y None = Some x.
Proof.
  intros Hnd Hx Hhead. apply list_elem_of_split in Hx as (l1 & l2 & ->).
  apply NoDup_app in Hnd as (Hnd1 & Hdisj & Hnd2).
  assert (Hx1 : x ∉ l1) by (intros Hx1; apply (Hdisj x Hx1); by left).
  rewrite prev_in_split by done.
  destruct (decide (l1 = [])) as [-> | Hne]; [done |].
  destruct (exists_last Hne) as (l1' & y & ->).
  rewrite last_snoc. cbn [from_option]. exists y. split; [done |].
  split; [set_solver |].
  rewrite <- app_assoc. cbn [app].
  rewrite next_in_split; [done |].
  intros Hy. apply NoDup_app in Hnd1 as (_ & Hd1 & _).
  apply (Hd1 y Hy). by left.
Qed.

Lemma next_in_last (ls : list loc) y :
  NoDup ls → last ls = Some y → next_in ls y None = None.
Proof.
  intros Hnd Hlast.
  destruct (decide (ls = [])) as [-> | Hne]; [done |].
  destruct (exists_last Hne) as (l' & z & ->).
  rewrite last_snoc in Hlast. injection Hlast as ->.
  apply NoDup_app in Hnd as (_ & Hdisj & _).
  rewrite next_in_split; [done |].
  intros Hy. apply (Hdisj y Hy). by left.
Qed.

Lemma prev_in_head (ls : list loc) x :
  head ls = Some x → prev_in ls x None = None.
Proof.
  destruct ls as [| y ls]; [done |]. intros [= ->]. apply prev_in_here.
Qed.

(** A sequence of nodes splits around a given address in one way only. *)
Lemma elems_split_unique (es1 es2 es1' es2' : list (loc * K)) a k k' :
  NoDup (es1 ++ (a, k) :: es2).*1 →
  es1 ++ (a, k) :: es2 = es1' ++ (a, k') :: es2' →
  es1' = es1 ∧ k' = k ∧ es2' = es2.
Proof.
  revert es1'. induction es1 as [| e es1 IH]; intros es1' Hnd Heq.
  - destruct es1' as [| e' es1']; cbn in Heq.
    + by injection Heq as -> ->.
    + injection Heq as <- ->. exfalso.
      cbn in Hnd. apply NoDup_cons in Hnd as (Hnot & _). apply Hnot.
      rewrite fmap_app. cbn. set_solver.
  - destruct es1' as [| e' es1']; cbn in Heq.
    + injection Heq as -> <-. exfalso.
      cbn in Hnd. apply NoDup_cons in Hnd as (Hnot & _). apply Hnot.
      rewrite fmap_app. cbn. set_solver.
    + injection Heq as <- Heq. cbn in Hnd. apply NoDup_cons in Hnd as (_ & Hnd).
      destruct (IH es1' Hnd Heq) as (-> & -> & ->). done.
Qed.

(** In a search tree [find] stops at the one node whose key is equivalent
    to the key looked for. *)
Lemma tree_find_unique key t a k :
  bst t → (a, k) ∈ elems t → isKeyEqual k key = true →
  tree_find key t = Some a.
Proof.
  induction t as [| l IHl b kb r IHr]; [by intros _ ?%elem_of_nil |].
  intros (Hbl & Hbr & Hlow & Hhigh) Hin Heq. cbn [tree_find].
  cbn [elems] in Hin. apply elem_of_app in Hin as [Hin | Hin].
  - assert (Hlt : less k kb = true).
    { rewrite Forall_forall in Hlow. apply Hlow. rewrite keys_elems.
      by apply (list_elem_of_fmap_2 snd _ (a, k)). }
    rewrite (less_equiv_l _ _ kb Heq) in Hlt.
    assert (Hne : isKeyEqual kb key = false).
    { apply isKeyEqual_false. by right. }
    rewrite Hne, (less_asym _ _ Hlt). by apply IHl.
  - apply elem_of_cons in Hin as [[= -> ->] | Hin]; [by rewrite Heq |].
    assert (Hlt : less kb k = true).
    { rewrite Forall_forall in Hhigh. apply Hhigh. rewrite keys_elems.
      by apply (list_elem_of_fmap_2 snd _ (a, k)). }
    rewrite (less_equiv_r _ _ kb Heq) in Hlt.
    assert (Hne : isKeyEqual kb key = false).
    { apply isKeyEqual_false. by left. }
    rewrite Hne, Hlt. by apply IHr.
Qed.

End Pure.

(** ** Allocation: no node outlives its set *)

Section Allocation.
Context {K : Type} `{Ordered K} `{Machine}.
Implicit Types (h : heap K) (t : tree (K:=K)) (a x : loc) (p : ptr)
  (w : world (K:=K)) (s : sid).










Lemma Set_assign_nodes w this other t fuel w' :
  world_inv w → holds w other t → this ≠ other →
  Set_assign fuel this other w = Ok tt w' →
  ∃ t0 t', holds w this t0 ∧ holds w' this t'
    ∧ (∀ x, x ∈ locs t' → x ∈ locs t0 ∨ nodes w !! x = None)
    ∧ ∀ x, x ∉ locs t' →
        nodes w' !! x = if decide (x ∈ locs t0) then None else nodes w !! x.
Proof.
  intros Hinv Hother Hne Hrun. unfold Set_assign in Hrun.
  rewrite decide_True in Hrun by done.
  apply bind_Ok in Hrun as (r & w0 & Hget & Hrun).
  apply get_root_Ok in Hget as (? & [= <-] & Hsthis & ->).
  destruct (world_inv_holds _ _ _ Hinv Hsthis) as (t0 & Hthis & <- & _ & _).
  apply bind_Ok in Hrun as (r' & w1 & Hdel & Hrun).
  destruct (clear_spec w this t0 fuel r' w1 Hinv Hthis Hdel)
    as (-> & Hf1 & Hsets1 & Hinv2 & Hthis2).
  apply bind_Ok in Hrun as ([] & w2 & Hset & Hrun).
  apply set_root_Ok in Hset as [_ ->]. rewrite Hsets1 in *.
  set (w2 := mkWorld (nodes w1) (<[this := None]> (sets w))) in *.
  assert (Hdisj : ∀ x, x ∈ locs t → x ∉ locs t0).
  { apply (world_inv_disjoint w other this); try done. }
  assert (Hother2 : holds w2 other t).
  { apply (holds_frame w); [done | cbn; by rewrite lookup_insert_ne |].
    cbn. intros x Hx. rewrite Hf1. rewrite decide_False; [done | by apply Hdisj]. }
  pose proof Hother2 as (Hso2 & Hrepo2 & _).
  rewrite (bind_eq _ _ _ _ _ (get_root_eq _ _ _ Hso2)) in Hrun.
  apply bind_Ok in Hrun as (c & w3 & Hcopy & Hset).
  destruct (copy_into_spec w2 this other t fuel c w3 Hinv2 Hthis2 Hother2 Hcopy)
    as (t'' & -> & Hsets3 & Hrep' & Hnd' & Hsh & Hfr & Hf & Hinv3).
  apply set_root_Ok in Hset as [_ ->].
  assert (Hthis'' : holds (mkWorld (nodes w3) (<[this := root_of t'']> (sets w3)))
                          this t'').
  { split; [cbn; by rewrite lookup_insert_eq |]. by split. }
  exists t0, t''. split; [done |]. split; [done |]. split.
  - intros x Hx. apply Hfr in Hx. cbn in Hx. rewrite Hf1 in Hx.
    destruct (decide (x ∈ locs t0)); [by left | by right].
  - intros x Hx. cbn. rewrite Hf by done. cbn. by rewrite Hf1.
Qed.


End Allocation.

(** ** Destruction *)

Section Destruction.
Context {K : Type} `{Ordered K} `{Machine}.
Implicit Types (h : heap K) (t : tree (K:=K)) (a x : loc) (p : ptr)
  (w : world (K:=K)) (s : sid).

Lemma Set_dtor_inv fuel this w w' :
  world_inv w → Set_dtor fuel this w = Ok tt w' →
  ∃ t0, holds w this t0
    ∧ sets w' = delete this (sets w)
    ∧ ∀ x, nodes w' !! x = if decide (x ∈ locs t0) then None else nodes w !! x.
Proof.
  intros Hinv Hrun. unfold Set_dtor in Hrun.
  apply bind_Ok in Hrun as (r & w0 & Hget & Hrun).
  apply get_root_Ok in Hget as (? & [= <-] & Hsthis & ->).
  destruct (world_inv_holds _ _ _ Hinv Hsthis) as (t0 & Hthis & <- & _ & _).
  apply bind_Ok in Hrun as (r' & w1 & Hdel & Hrun).
  destruct (clear_spec w this t0 fuel r' w1 Hinv Hthis Hdel)
    as (-> & Hf1 & Hsets1 & _ & _).
  apply bind_Ok in Hrun as ([] & w2 & Hset & Hrun).
  apply set_root_Ok in Hset as [_ ->]. rewrite Hsets1 in *.
  apply free_set_Ok in Hrun as [_ ->]. cbn.
  exists t0. split; [done |]. split; [by rewrite delete_insert_eq | done].
Qed.

Lemma Set_dtor_ok w this t0 (fuel : nat) :
  holds w this t0 → theight t0 < Z.of_nat fuel →
  ∃ w', Set_dtor fuel this w = Ok tt w'.
Proof.
  intros (Hs & Hrep & Hnd) Hfuel. unfold Set_dtor.
  rewrite (bind_eq _ _ _ _ _ (get_root_eq _ _ _ Hs)).
  destruct (deleteTree_spec t0 fuel (nodes w) None Hrep Hnd Hfuel)
    as (h' & Hdel & _).
  rewrite (bind_eq _ _ _ _ _ (on_nodes_eq _ _ _ _ Hdel)).
  assert (Hs' : sets (mkWorld h' (sets w)) !! this = Some (root_of t0)) by done.
  rewrite (bind_eq _ _ _ _ _ (set_root_eq _ _ _ None Hs')).
  unfold free_set. cbn. rewrite lookup_insert_eq. by eexists.
Qed.

Lemma Set_dtor_frame fuel this w w' s2 t2 :
  world_inv w → Set_dtor fuel this w = Ok tt w' →
  s2 ≠ this → holds w s2 t2 → holds w' s2 t2.
Proof.
  intros Hinv Hrun Hne Hholds2.
  destruct (Set_dtor_inv _ _ _ _ Hinv Hrun) as (t0 & Hthis & Hsets & Hnodes).
  apply (holds_frame w); [done | rewrite Hsets; by apply lookup_delete_ne |].
  intros x Hx. rewrite Hnodes. rewrite decide_False; [done |].
  by apply (world_inv_disjoint w s2 this t2 t0).
Qed.



End Destruction.

(** ** Construction from a sequence *)

Section Range.
Context {K : Type} `{Ordered K} `{Machine}.
Implicit Types (h : heap K) (t : tree (K:=K)) (a x : loc) (p : ptr)
  (w : world (K:=K)) (s : sid).

Lemma Set_insert_keys w s t key (fuel : nat) w' :
  world_inv w → holds w s t → bst t → avl t →
  Set_insert fuel s key w = Ok tt w' →
  ∃ t', holds w' s t'
    ∧ (∀ k, k ∈ keys t' → k ∈ keys t ∨ k = key)
    ∧ (∀ k, k ∈ keys t → k ∈ keys t')
    ∧ has_key key (keys t')
    ∧ tsize t' ≤ tsize t + 1
    ∧ (size (nodes w') ≤ S (size (nodes w)))%nat.
Proof.
  intros Hinv Hholds Hbst Havl Hrun.
  destruct (Set_insert_inv w s t key fuel w' Hholds Havl
              (world_inv_capacity _ Hinv) Hrun)
    as (_ & h' & Hw' & Hrep' & Hnd' & _ & Hdom).
  set (new := fresh (dom (nodes w))) in *.
  exists (tree_insert new key t).
  split; [rewrite Hw'; split; [cbn; by rewrite lookup_insert_eq | by split] |].
  pose proof (tree_find_has_key key t Hbst) as Hiff.
  assert (Hsize : (size (nodes w') ≤ S (size (nodes w)))%nat).
  { rewrite Hw'. cbn. rewrite <- !size_dom, Hdom.
    destruct (tree_find key t); [lia |].
    rewrite size_union_alt, size_singleton.
    pose proof (subseteq_size (dom (nodes w) ∖ {[new]}) (dom (nodes w))
                  ltac:(set_solver)). lia. }
  destruct (tree_find key t) as [b |] eqn:Hf.
  - rewrite tree_insert_found by (done || congruence).
    split; [by left |]. split; [done |].
    split; [by apply Hiff |]. split; [lia | done].
  - destruct (tree_insert_keys new key t Hbst Hf) as (ks1 & ks2 & Hk & Hk' & _).
    rewrite Hk', Hk. split; [set_solver |]. split; [set_solver |].
    split; [exists key; split; [set_solver | apply isKeyEqual_refl] |].
    split; [| done]. rewrite tree_insert_tsize, Hf. lia.
Qed.

Lemma insert_all_spec (fuel : nat) s init :
  ∀ w w' t,
    world_inv w → holds w s t →
    insert_all fuel s init w = Ok tt w' →
    ∃ t', holds w' s t'
      ∧ (∀ k, k ∈ keys t' → k ∈ keys t ∨ k ∈ init)
      ∧ (∀ k, k ∈ keys t → k ∈ keys t')
      ∧ (∀ v, v ∈ init → has_key v (keys t'))
      ∧ tsize t' ≤ tsize t + Z.of_nat (length init)
      ∧ ∀ s2 t2, s2 ≠ s → holds w s2 t2 → holds w' s2 t2.
Proof.
  induction init as [| value init IH]; intros w w' t Hinv Hholds Hrun.
  - injection Hrun as <-. exists t. split; [done |]. split; [by left |].
    split; [done |]. split; [by intros v ?%elem_of_nil |].
    split; [cbn; lia | done].
  - cbn [insert_all] in Hrun.
    apply bind_Ok in Hrun as ([] & w1 & Hins & Hrun).
    pose proof Hholds as (Hs & _).
    destruct (world_inv_holds _ _ _ Hinv Hs) as (t0 & Hholds0 & _ & Hbst & Havl).
    rewrite <- (holds_unique _ _ _ _ Hholds Hholds0) in Hbst, Havl. clear t0 Hholds0.
    destruct (Set_insert_keys w s t value fuel w1 Hinv Hholds Hbst Havl Hins)
      as (t1 & Hholds1 & Hsub1 & Hkeep1 & Hhas1 & Hsz1 & _).
    pose proof (Set_insert_world_inv _ _ _ _ _ Hinv Hins) as Hinv1.
    destruct (IH w1 w' t1 Hinv1 Hholds1 Hrun)
      as (t' & Hholds' & Hsub & Hkeep & Hhas & Hsz & Hframe).
    exists t'. split; [done |]. split.
    { intros k [Hk | Hk]%Hsub; [| right; by right].
      apply Hsub1 in Hk as [Hk | ->]; [by left | right; by left]. }
    split; [intros k Hk; by apply Hkeep, Hkeep1 |]. split.
    { intros v [-> | Hv]%elem_of_cons; [| by apply Hhas].
      destruct Hhas1 as (k & Hk & Heq). exists k. split; [by apply Hkeep | done]. }
    split; [cbn [length]; lia |].
    intros s2 t2 Hne Hholds2. apply Hframe; [done |].
    apply (mutation_frame w s2 s t2 fuel value w1); try done. by left.
Qed.

Lemma insert_all_ok (fuel : nat) s init :
  ∀ w t,
    world_inv w → holds w s t →
    tsize t + Z.of_nat (length init) < Z.of_nat fuel →
    (size (nodes w) + length init ≤ max_nodes)%nat →
    ∃ w', insert_all fuel s init w = Ok tt w'.
Proof.
  induction init as [| value init IH]; intros w t Hinv Hholds Hfuel Hroom.
  - by eexists.
  - cbn [insert_all length] in *.
    pose proof Hholds as (Hs & _).
    destruct (world_inv_holds _ _ _ Hinv Hs) as (t0 & Hholds0 & _ & Hbst & Havl).
    rewrite <- (holds_unique _ _ _ _ Hholds Hholds0) in Hbst, Havl. clear t0 Hholds0.
    pose proof (theight_le_tsize t) as Hht.
    pose proof (Set_insert_spec w s t value fuel Hholds Havl
                  (world_inv_capacity _ Hinv) ltac:(lia)) as Hspec.
    rewrite decide_False in Hspec by (intros [_ Hfull]; lia).
    destruct Hspec as (h' & Hins & _).
    rewrite (bind_eq _ _ _ _ _ Hins).
    destruct (Set_insert_keys w s t value fuel _ Hinv Hholds Hbst Havl Hins)
      as (t1 & Hholds1 & _ & _ & _ & Hsz1 & Hsize1).
    pose proof (Set_insert_world_inv _ _ _ _ _ Hinv Hins) as Hinv1.
    apply (IH _ t1 Hinv1 Hholds1); lia.
Qed.

Lemma Set_ctor_range_spec w (init : list K) (fuel : nat) :
  world_inv w →
  (size (nodes w) + length init ≤ max_nodes)%nat →
  (length init < fuel)%nat →
  ∃ s w' t,
    Set_ctor_range fuel init w = Ok s w'
    ∧ sets w !! s = None
    ∧ holds w' s t
    ∧ bst t
    ∧ (∀ k, k ∈ keys t → k ∈ init)
    ∧ (∀ v, v ∈ init → has_key v (keys t))
    ∧ tsize t ≤ Z.of_nat (length init)
    ∧ ∀ s2 t2, holds w s2 t2 → holds w' s2 t2.
Proof.
  intros Hinv Hroom Hfuel.
  destruct (new_set_spec w Hinv) as (Hnew & Hfresh & Hinv1 & Hholds1).
  set (s := fresh (dom (sets w))) in *.
  set (w1 := mkWorld (nodes w) (<[s := None]> (sets w))) in *.
  destruct (insert_all_ok fuel s init w1 Leaf Hinv1 Hholds1) as (w' & Hall);
    [cbn; lia | done |].
  destruct (insert_all_spec fuel s init w1 w' Leaf Hinv1 Hholds1 Hall)
    as (t & Hholds & Hsub & _ & Hhas & Hsz & Hframe).
  exists s, w', t. split.
  { unfold Set_ctor_range. rewrite (bind_eq _ _ _ _ _ Hnew).
    by rewrite (bind_eq _ _ _ _ _ Hall). }
  split; [done |]. split; [done |].
  pose proof (insert_all_world_inv fuel s init w1 w' Hinv1 Hall) as Hinv'.
  pose proof Hholds as (Hs & _).
  destruct (world_inv_holds _ _ _ Hinv' Hs) as (t0 & Hholds0 & _ & Hbst & _).
  rewrite <- (holds_unique _ _ _ _ Hholds Hholds0) in Hbst.
  split; [done |]. split.
  { intros k [Hk | Hk]%Hsub; [by apply elem_of_nil in Hk | done]. }
  split; [done |]. split; [cbn in Hsz; lia |].
  intros s2 t2 Hholds2.
  assert (Hne : s2 ≠ s).
  { intros ->. destruct Hholds2 as (Hs2 & _). congruence. }
  apply Hframe; [done |].
  apply (holds_frame w); [done | cbn; by rewrite lookup_insert_ne | done].
Qed.

(** Strictly increasing sequences with the same members are equal. *)
Lemma sorted_NoDup (ks : list K) :
  StronglySorted (λ x y : K, less x y = true) ks → NoDup ks.
Proof.
  induction 1 as [| k ks _ IH Hall]; [constructor |].
  constructor; [| done]. intros Hk. rewrite Forall_forall in Hall.
  specialize (Hall k Hk). by rewrite less_irrefl in Hall.
Qed.

Lemma sorted_same_members (ks1 ks2 : list K) :
  StronglySorted (λ x y : K, less x y = true) ks1 →
  StronglySorted (λ x y : K, less x y = true) ks2 →
  (∀ k, k ∈ ks1 ↔ k ∈ ks2) → ks1 = ks2.
Proof.
  intros Hs1 Hs2 Hmem.
  apply (StronglySorted_unique_strong (λ x y : K, less x y = true)); try done.
  - intros x1 x2 _ _ H12 H21. by rewrite (less_asym _ _ H12) in H21.
  - apply NoDup_Permutation; [by apply sorted_NoDup | by apply sorted_NoDup | done].
Qed.

End Range.

(** ** Counting nodes, and scanning from a lower bound *)

Section Counting.
Context {K : Type} `{Ordered K} `{Machine}.
Implicit Types (h : heap K) (t : tree (K:=K)) (a x : loc) (p : ptr)
  (w : world (K:=K)) (s : sid).

Lemma size_replace_tree h h' (ls0 ls' : list loc) :
  NoDup ls0 → NoDup ls' →
  (∀ x, x ∈ ls0 → is_Some (h !! x)) →
  (∀ x, x ∈ ls' → is_Some (h' !! x)) →
  (∀ x, x ∈ ls' → x ∈ ls0 ∨ h !! x = None) →
  (∀ x, x ∉ ls' → h' !! x = if decide (x ∈ ls0) then None else h !! x) →
  Z.of_nat (size h')
  = Z.of_nat (size h) - Z.of_nat (length ls0) + Z.of_nat (length ls').
Proof.
  intros Hnd0 Hnd' Hin0 Hin' Hnew Hold.
  set (L0 := list_to_set ls0 : gset loc). set (L' := list_to_set ls' : gset loc).
  assert (Hdom : dom h' = (dom h ∖ L0) ∪ L').
  { apply set_eq. intros x.
    rewrite elem_of_union, elem_of_difference, !elem_of_dom.
    unfold L0, L'. rewrite !elem_of_list_to_set.
    destruct (decide (x ∈ ls')) as [Hx | Hx].
    - split; [by right | intros _; by apply Hin'].
    - rewrite (Hold x Hx). destruct (decide (x ∈ ls0)) as [Hx0 | Hx0].
      + split; [by intros [? ?] | by intros [[_ ?] | ?]].
      + split; [by left | by intros [[? _] | ?]]. }
  assert (Hdisj : (dom h ∖ L0) ## L').
  { intros x [Hx Hx0]%elem_of_difference Hx'.
    unfold L0, L' in *. rewrite elem_of_list_to_set in Hx0, Hx'.
    apply elem_of_dom in Hx as [n Hn].
    destruct (Hnew x Hx') as [? | ?]; [done | congruence]. }
  assert (Hsub : L0 ⊆ dom h).
  { intros x Hx. unfold L0 in Hx. rewrite elem_of_list_to_set in Hx.
    by apply elem_of_dom, Hin0. }
  rewrite <- !size_dom, Hdom, (size_union _ _ Hdisj), (size_difference _ _ Hsub).
  unfold L0, L'. rewrite !size_list_to_set by done.
  pose proof (subseteq_size _ _ Hsub) as Hle.
  unfold L0 in Hle. rewrite size_list_to_set in Hle by done. lia.
Qed.

(** The cursor [lower_bound] returns splits the keys in symmetric order
    into those below [key] and those not below it. *)
Lemma tree_lowerBound_split key t :
  bst t →
  ∃ es1 es2, elems t = es1 ++ es2
    ∧ tree_lowerBound key t = head es2.*1
    ∧ Forall (λ e, less e.2 key = true) es1
    ∧ Forall (λ e, less e.2 key = false) es2.
Proof.
  intros Hbst. destruct (tree_lowerBound key t) as [c |] eqn:Hlb.
  - destruct (tree_lowerBound_Some key t c Hbst Hlb) as (kc & Hin & Hge & Hleast).
    apply list_elem_of_split in Hin as (es1 & es2 & Hel).
    exists es1, ((c, kc) :: es2). split; [done |]. split; [done |].
    apply bst_sorted in Hbst.
    rewrite keys_elems, Hel, fmap_app, fmap_cons in Hbst. cbn [snd] in Hbst.
    apply StronglySorted_app in Hbst as (Hcross & _ & Hright).
    apply StronglySorted_cons in Hright as (Hright & _).
    split.
    + apply Forall_forall. intros [x k] Hx. cbn [snd].
      assert (Hlt : less k kc = true).
      { apply Hcross; [by apply (list_elem_of_fmap_2 snd _ (x, k)) | by left]. }
      destruct (less k key) eqn:Hk; [done |]. exfalso.
      rewrite Hleast in Hlt; [done | | done].
      rewrite keys_elems, Hel, fmap_app. apply elem_of_app. left.
      by apply (list_elem_of_fmap_2 snd _ (x, k)).
    + apply Forall_cons. split; [done |].
      apply Forall_forall. intros [x k] Hx. cbn [snd].
      rewrite Forall_forall in Hright.
      assert (Hlt : less kc k = true).
      { apply Hright. by apply (list_elem_of_fmap_2 snd _ (x, k)). }
      destruct (less k key) eqn:Hk; [| done].
      by rewrite (less_trans _ _ _ Hlt Hk) in Hge.
  - exists (elems t), []. split; [by rewrite app_nil_r |]. split; [done |].
    split; [| constructor].
    apply Forall_forall. intros [x k] Hx. cbn [snd].
    apply (tree_lowerBound_None key t Hbst); [done |].
    rewrite keys_elems. by apply (list_elem_of_fmap_2 snd _ (x, k)).
Qed.

End Counting.

(** ** The properties *)

Section Further.
Context {K : Type} `{Ordered K} `{Machine}.
Implicit Types (h : heap K) (t : tree (K:=K)) (a x : loc) (p : ptr)
  (w : world (K:=K)) (s : sid).


(** X2: [rotateRight] at a node with a left child keeps the symmetric order
    of the nodes, leaves the cached fields exact and touches nothing outside
    the rotated subtree; [rotateLeft] at the new root then restores the tree,
    and the very heap when the old root had no parent.  At a node without a
    left child [rotateRight] dereferences a null pointer, as [rotateLeft]
    does at a node without a right child. *)
Theorem X2_rotateLeft_undoes_rotateRight h par A va vk B ua uk C :
  rep h par (Node (Node A va vk B) ua uk C) →
  NoDup (locs (Node (Node A va vk B) ua uk C)) →
  tsize (Node (Node A va vk B) ua uk C) < 2 ^ 64 →
  (∃ h1 h2,
     rotateRight (Some ua) h = Ok (Some va) h1
     ∧ rep h1 None (Node A va vk (Node B ua uk C))
     ∧ rotateLeft (Some va) h1 = Ok (Some ua) h2
     ∧ rep h2 None (Node (Node A va vk B) ua uk C)
     ∧ (∀ x, x ∉ locs (Node (Node A va vk B) ua uk C) →
             h1 !! x = h !! x ∧ h2 !! x = h !! x)
     ∧ (par = None → h2 = h))
  ∧ (∀ h0 par0 a k r, rep h0 par0 (Node Leaf a k r) →
                      rotateRight (Some a) h0 = Fault)
  ∧ (∀ h0 par0 l a k, rep h0 par0 (Node l a k Leaf) →
                      rotateLeft (Some a) h0 = Fault).
Proof.
  intros Hrep Hnd Hsz. split; [| split].
  - set (u := Node (Node A va vk B) ua uk C) in *.
    set (v := Node A va vk (Node B ua uk C)).
    destruct (rep_children _ _ _ _ _ _ Hrep) as (Hu & Hl & HC).
    destruct Hl as (parl & Hl).
    destruct (rep_children _ _ _ _ _ _ Hl) as (Hv & HA & HB).
    destruct (rotateRight_spec h A va vk B ua uk C Hu Hv HA HB HC Hnd Hsz)
      as (h1 & Hrun1 & Hrep1 & Hdom1 & Hfr1).
    change (tree_rotateRight (Node (Node A va vk B) ua uk C)) with v in Hrep1.
    destruct (rep_children _ _ _ _ _ _ Hrep1) as (Hv1 & HA1 & Hr1).
    destruct Hr1 as (parr & Hr1).
    destruct (rep_children _ _ _ _ _ _ Hr1) as (Hu1 & HB1 & HC1).
    assert (Hlocs : ∀ x, x ∈ locs v ↔ x ∈ locs u).
    { intros x. unfold u, v. cbn [locs]. set_solver. }
    assert (Hnd1 : NoDup (locs v)).
    { replace (locs v) with (locs u); [done |].
      unfold u, v. cbn [locs]. by rewrite <- app_assoc. }
    assert (Hsz1 : tsize v < 2 ^ 64).
    { unfold u, v in *. cbn [tsize] in Hsz |- *. lia. }
    destruct (rotateLeft_spec h1 A va vk B ua uk C Hv1 Hu1 HA1 HB1 HC1 Hnd1 Hsz1)
      as (h2 & Hrun2 & Hrep2 & Hdom2 & Hfr2).
    change (tree_rotateLeft (Node A va vk (Node B ua uk C))) with u in Hrep2.
    exists h1, h2. split; [done |]. split; [done |]. split; [done |].
    split; [done |]. split.
    + intros x Hx. split; [by apply Hfr1 |].
      rewrite Hfr2; [by apply Hfr1 |]. intros Hx'. by apply Hx, Hlocs.
    + intros ->. apply (heap_eq_of_rep h h2 u); [done | done | congruence |].
      intros x Hx _. rewrite Hfr2; [by apply Hfr1 |].
      intros Hx'. by apply Hx, Hlocs.
  - intros h0 par0 a k r Hrep0. unfold rotateRight.
    rewrite (bind_eq _ _ _ _ _ (get_left_eq _ _ _ (rep_lookup _ _ _ _ _ _ Hrep0))).
    reflexivity.
  - intros h0 par0 l a k Hrep0. unfold rotateLeft.
    rewrite (bind_eq _ _ _ _ _ (get_right_eq _ _ _ (rep_lookup _ _ _ _ _ _ Hrep0))).
    reflexivity.
Qed.

(** X3: on a non-empty balanced subtree [eraseMax] returns a balanced tree
    made of the same nodes in the same order but the last; that node is
    unlinked, not freed, and left as it was, and nothing outside the subtree
    changes.  On a null pointer [eraseMax] dereferences it. *)
Theorem X3_eraseMax_unlinks_the_last_node h par t (fuel : nat) :
  t ≠ Leaf → rep h par t → NoDup (locs t) → avl t →
  theight t < Z.of_nat fuel → tsize t < 2 ^ 64 →
  (∃ h' par' t' m,
     eraseMax fuel (root_of t) h = Ok (root_of t') h'
     ∧ rep h' par' t'
     ∧ avl t'
     ∧ elems t = elems t' ++ [m]
     ∧ (bst t → bst t')
     ∧ dom h' = dom h
     ∧ (∀ x, x ∉ locs t' → h' !! x = h !! x))
  ∧ eraseMax fuel None h = Fault.
Proof.
  intros Hne Hrep Hnd Havl Hfuel Hsz. split.
  - destruct (eraseMax_spec t fuel h par Hne Hrep Hnd Havl Hfuel Hsz)
      as (h' & par' & Hrun & Hrep' & Hdom & Hfr).
    destruct t as [| l a k r]; [done |].
    exists h', par', (tree_eraseMax (Node l a k r)), (tree_findMax a k r).
    split; [done |]. split; [done |].
    split; [by apply tree_eraseMax_avl |].
    split; [apply tree_eraseMax_elems |]. split; [| by split].
    rewrite !bst_sorted, !keys_elems, (tree_eraseMax_elems l a k r), fmap_app.
    apply StronglySorted_app_1_l.
  - destruct fuel as [| fuel]; [pose proof (theight_nonneg t); simpl in Hfuel; lia |].
    reflexivity.
Qed.

(** X4: [find(key)] returns [end()] exactly when no stored key is equivalent
    to [key]; otherwise it returns a cursor that dereferences to the stored
    key equivalent to [key]. *)
Theorem X4_find_decides_membership w s t key (fuel : nat) :
  reachable w → holds w s t → theight t < Z.of_nat fuel →
  ∃ c : ptr,
    Set_find fuel s key w = Ok (mkIterator c (Some s)) w
    ∧ (c = None ↔ ¬ has_key key (keys t))
    ∧ ∀ b, c = Some b →
        ∃ k, iterator_deref (mkIterator c (Some s)) w = Ok k w
             ∧ k ∈ keys t ∧ isKeyEqual k key = true.
Proof.
  intros Hreach Hholds Hfuel.
  destruct (reachable_holds _ _ _ Hreach Hholds) as (_ & Hbst & _).
  exists (tree_find key t). split; [by apply Set_find_spec |]. split.
  - pose proof (tree_find_has_key key t Hbst) as Hiff.
    destruct (tree_find key t); split; try done.
    + intros Hno. exfalso. apply Hno, Hiff. done.
    + intros _ Hhas. by apply Hiff in Hhas.
  - intros b Hb. rewrite Hb.
    destruct (tree_find_elem key t b Hb) as (k & Hin & Heq).
    exists k. split; [by eapply iterator_deref_spec |]. split; [| done].
    rewrite keys_elems. by apply (list_elem_of_fmap_2 snd _ (b, k)).
Qed.

(** X5: after [insert(key)] returns, [find(key)] is a cursor at a stored key
    equivalent to [key]: [key] itself when no equivalent key was stored, and
    otherwise the key that was stored before, which [insert] does not
    replace. *)
Theorem X5_find_after_insert w s t key (fuel : nat) w' :
  reachable w → holds w s t → Set_insert fuel s key w = Ok tt w' →
  ∃ t' b k,
    holds w' s t'
    ∧ (∀ fuel' : nat, theight t' < Z.of_nat fuel' →
         Set_find fuel' s key w' = Ok (mkIterator (Some b) (Some s)) w')
    ∧ iterator_deref (mkIterator (Some b) (Some s)) w' = Ok k w'
    ∧ isKeyEqual k key = true
    ∧ (has_key key (keys t) → k ∈ keys t)
    ∧ (¬ has_key key (keys t) → k = key).
Proof.
  intros Hreach Hholds Hrun.
  destruct (reachable_holds _ _ _ Hreach Hholds) as (Hinv & Hbst & Havl).
  destruct (Set_insert_inv w s t key fuel w' Hholds Havl
              (world_inv_capacity _ Hinv) Hrun)
    as (_ & h' & Hw' & Hrep' & Hnd' & _).
  set (new := fresh (dom (nodes w))) in *.
  set (t' := tree_insert new key t) in *.
  assert (Hholds' : holds w' s t').
  { rewrite Hw'. split; [cbn; by rewrite lookup_insert_eq |]. by split. }
  pose proof (tree_find_has_key key t Hbst) as Hiff.
  destruct (tree_find key t) as [b |] eqn:Hf.
  - assert (Ht' : t' = t) by (apply tree_insert_found; [done | congruence]).
    rewrite Ht' in *.
    destruct (tree_find_elem key t b Hf) as (k & Hin & Heq).
    exists t, b, k. split; [done |]. split.
    { intros fuel' Hfuel'. rewrite <- Hf. by apply Set_find_spec. }
    split; [by eapply iterator_deref_spec |]. split; [done |]. split.
    + intros _. rewrite keys_elems. by apply (list_elem_of_fmap_2 snd _ (b, k)).
    + intros Hno. exfalso. by apply Hno, Hiff.
  - destruct (tree_insert_elems new key t Hf) as (es1 & es2 & _ & Hel & _).
    fold t' in Hel.
    assert (Hin : (new, key) ∈ elems t') by (rewrite Hel; set_solver).
    assert (Hf' : tree_find key t' = Some new).
    { apply (tree_find_unique key t' new key); [| done | apply isKeyEqual_refl].
      by apply tree_insert_bst. }
    exists t', new, key. split; [done |]. split.
    { intros fuel' Hfuel'. rewrite <- Hf'. by apply Set_find_spec. }
    split; [by eapply iterator_deref_spec |].
    split; [apply isKeyEqual_refl |]. split; [| done].
    intros Hhas. apply Hiff in Hhas. done.
Qed.

(** X6: for a key with a stored equivalent, [lower_bound] and [find] return
    the same cursor. *)
Theorem X6_lower_bound_agrees_with_find w s t key (fuel : nat) :
  reachable w → holds w s t → has_key key (keys t) →
  theight t < Z.of_nat fuel →
  ∃ b, Set_find fuel s key w = Ok (mkIterator (Some b) (Some s)) w
       ∧ Set_lower_bound fuel s key w = Ok (mkIterator (Some b) (Some s)) w.
Proof.
  intros Hreach Hholds Hhas Hfuel.
  destruct (reachable_holds _ _ _ Hreach Hholds) as (_ & Hbst & _).
  apply (tree_find_has_key key t Hbst) in Hhas.
  destruct (tree_find key t) as [b |] eqn:Hf; [| done].
  exists b. split.
  - rewrite <- Hf. by apply Set_find_spec.
  - rewrite <- (tree_lowerBound_find key t b Hf). by apply Set_lower_bound_spec.
Qed.

(** X7: [begin()] is [end()] exactly when the set is empty; otherwise it is
    a cursor at the least stored key. *)
Theorem X7_begin_is_the_least w s t (fuel : nat) :
  reachable w → holds w s t → theight t < Z.of_nat fuel →
  ∃ c : ptr,
    Set_begin fuel s w = Ok (mkIterator c (Some s)) w
    ∧ (c = None ↔ keys t = [])
    ∧ ∀ b, c = Some b →
        ∃ k, iterator_deref (mkIterator c (Some s)) w = Ok k w
             ∧ k ∈ keys t
             ∧ ∀ k', k' ∈ keys t → less k' k = false.
Proof.
  intros Hreach Hholds Hfuel.
  destruct (reachable_holds _ _ _ Hreach Hholds) as (_ & Hbst & _).
  exists (head (locs t)). split; [by apply Set_begin_spec |].
  apply bst_sorted in Hbst.
  pose proof (iterator_deref_spec w s t) as Hderef.
  specialize (Hderef) with (1 := Hholds).
  rewrite locs_elems. rewrite keys_elems in *.
  destruct (elems t) as [| [b k] es]; [done |]. cbn [fmap list_fmap head].
  split; [done |]. intros ? [= <-].
  exists k. split; [apply Hderef; by left |]. split; [by left |].
  cbn in Hbst. apply StronglySorted_cons in Hbst as (Hall & _).
  intros k' [-> | Hk']%elem_of_cons; [apply less_irrefl |].
  rewrite Forall_forall in Hall. apply less_asym. by apply Hall.
Qed.

(** X8: [--] applied to [end()] stays at [end()] on an empty set, and
    otherwise gives a cursor at the greatest stored key. *)
Theorem X8_decrementing_end_gives_the_greatest w s t (fuel : nat) :
  reachable w → holds w s t → theight t < Z.of_nat fuel →
  ∃ c : ptr,
    iterator_decr fuel (mkIterator None (Some s)) w
    = Ok (mkIterator c (Some s)) w
    ∧ (c = None ↔ keys t = [])
    ∧ ∀ b, c = Some b →
        ∃ k, iterator_deref (mkIterator c (Some s)) w = Ok k w
             ∧ k ∈ keys t
             ∧ ∀ k', k' ∈ keys t → less k k' = false.
Proof.
  intros Hreach Hholds Hfuel.
  destruct (reachable_holds _ _ _ Hreach Hholds) as (_ & Hbst & _).
  exists (last (locs t)). split; [by apply iterator_decr_end |].
  apply bst_sorted in Hbst.
  pose proof (iterator_deref_spec w s t) as Hderef.
  specialize (Hderef) with (1 := Hholds).
  rewrite locs_elems. rewrite keys_elems in *.
  destruct (decide (elems t = [])) as [-> | Hne]; [done |].
  destruct (exists_last Hne) as (es & [b k] & Hel). rewrite Hel in *.
  rewrite !fmap_app. cbn [fmap list_fmap]. rewrite last_snoc.
  split.
  { split; [done |]. intros Hnil. by apply app_eq_nil in Hnil as [_ ?]. }
  intros ? [= <-].
  exists k. split; [apply Hderef, elem_of_app; right; by left |].
  split; [apply elem_of_app; right; by left |].
  rewrite fmap_app in Hbst. cbn [fmap list_fmap] in Hbst.
  apply StronglySorted_app in Hbst as (Hall & _ & _).
  intros k' [Hk' | Hk']%elem_of_app.
  - apply less_asym. apply (Hall k' k); [done | by left].
  - apply list_elem_of_singleton in Hk' as ->. apply less_irrefl.
Qed.

(** X9: on a cursor at an element, [++] followed by [--] comes back to the
    element, also from the last one, where [++] gives [end()]; [--] followed
    by [++] comes back from every cursor but [begin()], [end()] included. *)
Theorem X9_increment_and_decrement_are_inverse w s t x (fuel : nat) :
  reachable w → holds w s t → x ∈ locs t → theight t < Z.of_nat fuel →
  (∃ it', iterator_incr fuel (mkIterator (Some x) (Some s)) w = Ok it' w
          ∧ iterator_decr fuel it' w = Ok (mkIterator (Some x) (Some s)) w)
  ∧ (Set_begin fuel s w ≠ Ok (mkIterator (Some x) (Some s)) w →
     ∃ it', iterator_decr fuel (mkIterator (Some x) (Some s)) w = Ok it' w
            ∧ iterator_incr fuel it' w = Ok (mkIterator (Some x) (Some s)) w)
  ∧ (∃ it', iterator_decr fuel (mkIterator None (Some s)) w = Ok it' w
            ∧ iterator_incr fuel it' w = Ok (mkIterator None (Some s)) w).
Proof.
  intros Hreach Hholds Hx Hfuel. pose proof Hholds as (_ & _ & Hnd).
  assert (Hfuel' : 1 + theight t ≤ Z.of_nat fuel) by lia.
  split; [| split].
  - rewrite (iterator_incr_spec w s t x (Some s) fuel Hholds Hx Hfuel').
    eexists. split; [done |].
    pose proof (prev_next_in (locs t) x Hnd Hx) as Hback.
    destruct (next_in (locs t) x None) as [y |].
    + destruct Hback as (Hy & Hprev).
      rewrite (iterator_decr_spec w s t y fuel Hholds Hy Hfuel'). by rewrite Hprev.
    + rewrite (iterator_decr_end w s t fuel Hholds Hfuel). by rewrite Hback.
  - intros Hbegin. rewrite (Set_begin_spec w s t fuel Hholds Hfuel) in Hbegin.
    assert (Hhead : head (locs t) ≠ Some x) by congruence.
    destruct (next_prev_in (locs t) x Hnd Hx Hhead) as (y & Hprev & Hy & Hnext).
    rewrite (iterator_decr_spec w s t x fuel Hholds Hx Hfuel'), Hprev.
    eexists. split; [done |].
    rewrite (iterator_incr_spec w s t y (Some s) fuel Hholds Hy Hfuel').
    by rewrite Hnext.
  - rewrite (iterator_decr_end w s t fuel Hholds Hfuel).
    eexists. split; [done |].
    destruct (last (locs t)) as [z |] eqn:Hlast.
    + assert (Hz : z ∈ locs t) by (by apply last_Some_elem_of).
      rewrite (iterator_incr_spec w s t z (Some s) fuel Hholds Hz Hfuel').
      by rewrite (next_in_last (locs t) z Hnd Hlast).
    + apply last_None in Hlast. rewrite Hlast in Hx. by apply elem_of_nil in Hx.
Qed.

(** X10: [++] and [*] applied to [end()], and [--] applied to an iterator
    that belongs to no set, dereference a null pointer; [--] applied to
    [begin()] does not: it returns [end()]. *)
Theorem X10_stepping_off_the_ends w s t (fuel : nat) (o : option sid) :
  reachable w → holds w s t → theight t < Z.of_nat fuel →
  iterator_incr fuel (mkIterator None o) w = Fault
  ∧ iterator_post_incr fuel (mkIterator None o) w = Fault
  ∧ iterator_deref (mkIterator None o) w = Fault
  ∧ iterator_decr fuel (mkIterator None None) w = Fault
  ∧ ∃ b, Set_begin fuel s w = Ok b w
         ∧ iterator_decr fuel b w = Ok (mkIterator None (Some s)) w.
Proof.
  intros Hreach Hholds Hfuel. pose proof Hholds as (_ & _ & Hnd).
  split; [done |]. split; [done |]. split; [done |]. split; [done |].
  rewrite (Set_begin_spec w s t fuel Hholds Hfuel). eexists. split; [done |].
  destruct (head (locs t)) as [x |] eqn:Hhead.
  - assert (Hx : x ∈ locs t) by (by apply head_Some_elem_of).
    rewrite (iterator_decr_spec w s t x fuel Hholds Hx ltac:(lia)).
    by rewrite (prev_in_head (locs t) x Hhead).
  - rewrite (iterator_decr_end w s t fuel Hholds Hfuel).
    apply head_None in Hhead. by rewrite Hhead.
Qed.

(** X11: [==] on iterators holds exactly when both the node and the owning
    set coincide, [!=] is its negation, and so the [end()] of two sets are
    equal only if the sets are the same object. *)
Theorem X11_iterator_equality (i j : iterator) s1 s2 w :
  (iterator_eq i j = true ↔ i = j)
  ∧ iterator_ne i j = negb (iterator_eq i j)
  ∧ ∀ e1 e2, Set_end s1 w = Ok e1 w → Set_end s2 w = Ok e2 w →
             (iterator_eq e1 e2 = true ↔ s1 = s2).
Proof.
  split; [| split].
  - unfold iterator_eq. rewrite andb_true_iff, !bool_decide_eq_true.
    destruct i, j; cbn. split; [by intros [-> ->] | by intros [= -> ->]].
  - unfold iterator_ne, iterator_eq. by rewrite negb_andb.
  - intros e1 e2 [= <-] [= <-]. unfold iterator_eq. cbn.
    rewrite andb_true_iff, !bool_decide_eq_true.
    split; [by intros [_ [= ->]] | by intros ->].
Qed.

(** X12: the default constructor allocates no node and gives an empty set:
    [size()] is 0, [empty()] holds, [begin()], [find] and [lower_bound] are
    [end()], a traversal visits nothing and [erase] changes nothing. *)
Theorem X12_a_new_set_is_empty w s w' key (fuel : nat) :
  reachable w → Set_ctor w = Ok s w' →
  sets w !! s = None
  ∧ nodes w' = nodes w
  ∧ (∀ s2, s2 ≠ s → sets w' !! s2 = sets w !! s2)
  ∧ Set_size s w' = Ok 0 w'
  ∧ Set_empty s w' = Ok true w'
  ∧ Set_begin (S fuel) s w' = Ok (mkIterator None (Some s)) w'
  ∧ Set_find (S fuel) s key w' = Ok (mkIterator None (Some s)) w'
  ∧ Set_lower_bound (S fuel) s key w' = Ok (mkIterator None (Some s)) w'
  ∧ traverse_forward (S (S fuel)) s w' = Ok [] w'
  ∧ Set_erase (S fuel) s key w' = Ok tt w'.
Proof.
  intros Hreach Hrun. pose proof (reachable_world_inv _ Hreach) as Hinv.
  destruct (new_set_spec w Hinv) as (Hnew & Hfresh & Hinv' & Hholds).
  unfold Set_ctor in Hrun. rewrite Hnew in Hrun. injection Hrun as <- <-.
  set (s := fresh (dom (sets w))) in *.
  set (w' := mkWorld (nodes w) (<[s := None]> (sets w))) in *.
  assert (Hfuel : theight (K:=K) Leaf < Z.of_nat (S fuel)) by (cbn; lia).
  split; [done |]. split; [done |].
  split; [intros s2 Hs2; cbn; by rewrite lookup_insert_ne |].
  split; [exact (Set_size_spec w' s Leaf Hholds) |].
  split.
  { unfold Set_empty. by rewrite (bind_eq _ _ _ _ _ (Set_size_spec w' s Leaf Hholds)). }
  split; [exact (Set_begin_spec w' s Leaf (S fuel) Hholds Hfuel) |].
  split; [exact (Set_find_spec w' s Leaf key (S fuel) Hholds Hfuel) |].
  split; [exact (Set_lower_bound_spec w' s Leaf key (S fuel) Hholds Hfuel) |].
  split.
  { apply (traverse_forward_spec w' s Leaf); [done |]. cbn. lia. }
  apply (Set_erase_absent w' s Leaf); try done.
  - by apply world_inv_capacity.
  - intros (k & Hk & _). by apply elem_of_nil in Hk.
Qed.

(** X13: the constructors from a range and from an initializer list, given
    room for one node per element, return a set that holds, in increasing
    order, keys taken from the sequence, with an equivalent for every
    element of the sequence and no more keys than it has elements; the sets
    that existed stay as they were. *)
Theorem X13_construction_from_a_sequence w (init : list K) (fuel : nat) :
  reachable w →
  (size (nodes w) + length init ≤ max_nodes)%nat →
  (length init < fuel)%nat →
  ∃ s w' t,
    Set_ctor_range fuel init w = Ok s w'
    ∧ sets w !! s = None
    ∧ holds w' s t
    ∧ StronglySorted (λ x y : K, less x y = true) (keys t)
    ∧ (∀ k, k ∈ keys t → k ∈ init)
    ∧ (∀ v, v ∈ init → has_key v (keys t))
    ∧ (length (keys t) ≤ length init)%nat
    ∧ ∀ s2 t2, holds w s2 t2 → holds w' s2 t2.
Proof.
  intros Hreach Hroom Hfuel. pose proof (reachable_world_inv _ Hreach) as Hinv.
  destruct (Set_ctor_range_spec w init fuel Hinv Hroom Hfuel)
    as (s & w' & t & Hrun & Hfresh & Hholds & Hbst & Hsub & Hhas & Hsz & Hframe).
  exists s, w', t. split; [done |]. split; [done |]. split; [done |].
  split; [by apply bst_sorted |]. split; [done |]. split; [done |].
  split; [| done]. pose proof (keys_tsize t). lia.
Qed.

(** X14: the destructor of a live set returns, frees exactly the nodes of
    that set, and leaves every other set, a copy of it for one, holding the
    tree it held. *)
Theorem X14_destructor_frees_its_own_nodes w s t (fuel : nat) :
  reachable w → holds w s t → theight t < Z.of_nat fuel →
  ∃ w', Set_dtor fuel s w = Ok tt w'
        ∧ sets w' !! s = None
        ∧ (∀ x, nodes w' !! x
                = if decide (x ∈ locs t) then None else nodes w !! x)
        ∧ ∀ s2 t2, s2 ≠ s → holds w s2 t2 → holds w' s2 t2.
Proof.
  intros Hreach Hholds Hfuel. pose proof (reachable_world_inv _ Hreach) as Hinv.
  destruct (Set_dtor_ok w s t fuel Hholds Hfuel) as (w' & Hrun).
  exists w'. split; [done |].
  destruct (Set_dtor_inv _ _ _ _ Hinv Hrun) as (t0 & Hholds0 & Hsets & Hnodes).
  rewrite <- (holds_unique _ _ _ _ Hholds Hholds0) in Hnodes.
  split; [rewrite Hsets; apply lookup_delete_eq |]. split; [done |].
  intros s2 t2 Hne Hholds2. by apply (Set_dtor_frame fuel s w).
Qed.

(** X15: copying a set and destroying the copy gives back the very world
    there was before: same nodes at the same addresses with the same
    fields, same sets. *)
Theorem X15_destroying_a_copy_restores_the_world w a ta (fuel fuel' : nat) b w1 :
  reachable w → holds w a ta →
  Set_ctor_copy fuel a w = Ok b w1 → theight ta < Z.of_nat fuel' →
  Set_dtor fuel' b w1 = Ok tt w.
Proof.
  intros Hreach Hholds Hcopy Hfuel. pose proof (reachable_world_inv _ Hreach) as Hinv.
  destruct (Set_ctor_copy_inv _ _ _ _ _ _ Hinv Hholds Hcopy)
    as (Hne & Hfresh & Hinv1 & _ & Hsets1 & t' & Hholds' & Hsh & Hnew & Hfr).
  rewrite <- (same_shape_theight _ _ Hsh) in Hfuel.
  destruct (Set_dtor_ok w1 b t' fuel' Hholds' Hfuel) as (w2 & Hrun).
  rewrite Hrun. f_equal.
  destruct (Set_dtor_inv _ _ _ _ Hinv1 Hrun) as (t0 & Hholds0 & Hsets & Hnodes).
  rewrite <- (holds_unique _ _ _ _ Hholds' Hholds0) in Hnodes.
  destruct w2 as [h2 S2], w as [h0 S0]. cbn in *. f_equal.
  - apply map_eq. intros x. rewrite Hnodes.
    destruct (decide (x ∈ locs t')) as [Hx | Hx]; [by rewrite Hnew | by apply Hfr].
  - rewrite Hsets. apply map_eq. intros i.
    destruct (decide (i = b)) as [-> | Hi].
    + by rewrite lookup_delete_eq.
    + rewrite lookup_delete_ne by done. by apply Hsets1.
Qed.


(** X17: [erase(key)] right after an [insert(key)] that added [key] gives
    back the elements there were, each at the node it had, and frees the
    node [insert] allocated; other sets stay as they were. *)
Theorem X17_erase_undoes_insert w s t key (fuel fuel' : nat) w1 :
  reachable w → holds w s t → ¬ has_key key (keys t) →
  Set_insert fuel s key w = Ok tt w1 →
  theight t + 1 < Z.of_nat fuel' →
  ∃ w2 t2,
    Set_erase fuel' s key w1 = Ok tt w2
    ∧ holds w2 s t2
    ∧ elems t2 = elems t
    ∧ dom (nodes w2) = dom (nodes w)
    ∧ ∀ s2 u, s2 ≠ s → holds w s2 u → holds w2 s2 u.
Proof.
  intros Hreach Hholds Hno Hins Hfuel.
  destruct (reachable_holds _ _ _ Hreach Hholds) as (Hinv & Hbst & Havl).
  destruct (Set_insert_inv w s t key fuel w1 Hholds Havl
              (world_inv_capacity _ Hinv) Hins)
    as (_ & h1 & Hw1 & Hrep1 & Hnd1 & _ & Hdom1).
  set (new := fresh (dom (nodes w))) in *.
  set (t1 := tree_insert new key t) in *.
  assert (Hholds1 : holds w1 s t1).
  { rewrite Hw1. split; [cbn; by rewrite lookup_insert_eq |]. by split. }
  pose proof (reach_insert _ _ _ _ _ Hreach Hins) as Hreach1.
  destruct (reachable_holds _ _ _ Hreach1 Hholds1) as (Hinv1 & Hbst1 & Havl1).
  assert (Hf : tree_find key t = None).
  { destruct (tree_find key t) eqn:Hf; [| done]. exfalso. apply Hno.
    apply tree_find_has_key; [done | congruence]. }
  rewrite Hf in Hdom1.
  destruct (tree_insert_elems new key t Hf) as (es1 & es2 & Hel & Hel1 & _).
  fold t1 in Hel1.
  assert (Hf1 : tree_find key t1 = Some new).
  { apply (tree_find_unique key t1 new key); [done | | apply isKeyEqual_refl].
    rewrite Hel1. set_solver. }
  destruct (tree_insert_avl new key t Havl) as (_ & Hh1). fold t1 in Hh1.
  destruct (Set_erase_spec w1 s t1 key fuel' Hholds1 Havl1
              (world_inv_capacity _ Hinv1) ltac:(lia))
    as (h2 & Hers & Hrep2 & Hnd2 & _ & Hdom2).
  rewrite Hf1 in Hdom2.
  set (t2 := tree_erase key t1) in *.
  set (w2 := mkWorld h2 (<[s := root_of t2]> (sets w1))) in *.
  exists w2, t2. split; [done |]. split.
  { split; [cbn; by rewrite lookup_insert_eq |]. by split. }
  split.
  { destruct (tree_erase_elems key t1 new Hf1) as (es1' & k & es2' & Hsplit & Hel2 & _).
    fold t2 in Hel2. rewrite Hel2, Hel.
    rewrite Hel1 in Hsplit.
    assert (Hnd : NoDup (es1 ++ (new, key) :: es2).*1).
    { rewrite <- Hel1, <- locs_elems. done. }
    by destruct (elems_split_unique es1 es2 es1' es2' new key k Hnd Hsplit)
      as (-> & _ & ->). }
  split.
  { cbn. rewrite Hdom2. rewrite Hw1. cbn. rewrite Hdom1.
    pose proof (is_fresh (dom (nodes w))) as Hfresh. fold new in Hfresh.
    set_solver. }
  intros s2 u Hne Hu.
  apply (mutation_frame w1 s2 s u fuel' key w2); [done | done | | by right].
  apply (mutation_frame w s2 s u fuel key w1); [done | done | done | by left].
Qed.

(** X18: [insert] and [erase] never move an element to another node: a
    cursor at an element still dereferences to the same key afterwards,
    unless [erase] removed that very element, in which case the cursor
    points at freed memory. *)
Theorem X18_cursors_survive_mutation w s t x k key (fuel : nat) w' :
  reachable w → holds w s t → (x, k) ∈ elems t →
  (Set_insert fuel s key w = Ok tt w' →
   iterator_deref (mkIterator (Some x) (Some s)) w' = Ok k w')
  ∧ (Set_erase fuel s key w = Ok tt w' →
     iterator_deref (mkIterator (Some x) (Some s)) w'
     = if isKeyEqual k key then Fault else Ok k w').
Proof.
  intros Hreach Hholds Hin.
  destruct (reachable_holds _ _ _ Hreach Hholds) as (Hinv & Hbst & Havl).
  split; intros Hrun.
  - destruct (Set_insert_inv w s t key fuel w' Hholds Havl
                (world_inv_capacity _ Hinv) Hrun)
      as (_ & h' & Hw' & Hrep' & Hnd' & _).
    set (t' := tree_insert (fresh (dom (nodes w))) key t) in *.
    assert (Hholds' : holds w' s t').
    { rewrite Hw'. split; [cbn; by rewrite lookup_insert_eq |]. by split. }
    apply (iterator_deref_spec w' s t'); [done |].
    destruct (tree_find key t) as [b |] eqn:Hf.
    + unfold t'. by rewrite tree_insert_elems_found by congruence.
    + destruct (tree_insert_elems (fresh (dom (nodes w))) key t Hf)
        as (es1 & es2 & Hel & Hel' & _).
      fold t' in Hel'. rewrite Hel', elem_of_app, elem_of_cons.
      rewrite Hel in Hin. apply elem_of_app in Hin as [? | ?]; auto.
  - destruct (Set_erase_inv w s t key fuel w' Hholds Havl
                (world_inv_capacity _ Hinv) Hrun)
      as (h' & Hw' & Hrep' & Hnd' & _ & Hdom).
    set (t' := tree_erase key t) in *.
    assert (Hholds' : holds w' s t').
    { rewrite Hw'. split; [cbn; by rewrite lookup_insert_eq |]. by split. }
    destruct (isKeyEqual k key) eqn:Heq.
    + rewrite (tree_find_unique key t x k Hbst Hin Heq) in Hdom.
      assert (Hgone : h' !! x = None).
      { apply not_elem_of_dom. rewrite Hdom. set_solver. }
      rewrite Hw'. unfold iterator_deref, on_nodes, get_key, bind, load. cbn.
      by rewrite Hgone.
    + apply (iterator_deref_spec w' s t'); [done |].
      destruct (tree_find key t) as [b |] eqn:Hf.
      * destruct (tree_erase_elems key t b Hf) as (es1 & k0 & es2 & Hel & Hel' & Heq0).
        fold t' in Hel'. rewrite Hel', elem_of_app.
        rewrite Hel in Hin. apply elem_of_app in Hin as [? | Hin]; [by left |].
        apply elem_of_cons in Hin as [[= -> ->] | ?]; [congruence | by right].
      * unfold t'. by rewrite tree_erase_elems_absent.
Qed.

(** X19: the height of a reachable tree is logarithmic in [size()]: at
    most [2 * log2 (size + 1) + 1]; a recursion budget above that bound is
    enough for [find], [lower_bound], [erase] and [insert] to return. *)
Theorem X19_height_is_logarithmic w s t :
  reachable w → holds w s t →
  Set_size s w = Ok (tsize t) w
  ∧ theight t ≤ 2 * Z.log2 (tsize t + 1) + 1
  ∧ ∀ (fuel : nat) key,
      2 * Z.log2 (tsize t + 1) + 1 < Z.of_nat fuel →
      (∃ it, Set_find fuel s key w = Ok it w)
      ∧ (∃ it, Set_lower_bound fuel s key w = Ok it w)
      ∧ (∃ w', Set_erase fuel s key w = Ok tt w')
      ∧ ((∃ w', Set_insert fuel s key w = Ok tt w')
         ∨ Set_insert fuel s key w = BadAlloc).
Proof.
  intros Hreach Hholds.
  destruct (reachable_holds _ _ _ Hreach Hholds) as (Hinv & Hbst & Havl).
  pose proof (avl_height_log t Havl) as Hlog.
  pose proof (world_inv_capacity _ Hinv) as Hcap.
  split; [by apply Set_size_spec |]. split; [done |].
  intros fuel key Hfuel.
  split; [eexists; apply (Set_find_spec w s t); [done | lia] |].
  split; [eexists; apply (Set_lower_bound_spec w s t); [done | lia] |].
  split.
  { destruct (Set_erase_spec w s t key fuel Hholds Havl Hcap ltac:(lia))
      as (h' & Hrun & _). by eexists. }
  pose proof (Set_insert_spec w s t key fuel Hholds Havl Hcap ltac:(lia)) as Hspec.
  destruct (decide _); [by right |]. left.
  destruct Hspec as (h' & Hrun & _). by eexists.
Qed.

(** X20: [balance] applied to the root of a tree that is balanced already
    returns the same root and leaves the heap as it was; applied to a null
    pointer it returns null. *)
Theorem X20_balance_leaves_a_balanced_tree_alone h t :
  rep h None t → NoDup (locs t) → avl t → tsize t < 2 ^ 64 →
  balance (root_of t) h = Ok (root_of t) h
  ∧ balance None h = Ok None h.
Proof.
  intros Hrep Hnd Havl Hsz. split; [| done].
  assert (Hpre : match t with
                 | Leaf => True
                 | Node l a k r => node_at h a k l r ∧ srep h l ∧ srep h r
                 end).
  { destruct t as [| l a k r]; [done |]. by eapply rep_children. }
  destruct (balance_spec h t Hpre Hnd Hsz (avl_balance_pre _ Havl))
    as (h' & Hrun & Hrep' & Hdom & Hfr).
  rewrite (tree_balance_id t Havl) in Hrun, Hrep'. rewrite Hrun. f_equal.
  apply (heap_eq_of_rep h h' t); [done | done | done |].
  intros x Hx _. by apply Hfr.
Qed.

(** X21: the set built from a sequence does not depend on the order or the
    repetitions of the sequence: two sequences with the same members, no two
    of which are equivalent without being equal, give sets holding the same
    keys in the same order, namely the members of the sequence. *)
Theorem X21_construction_ignores_order w (init init' : list K) (fuel : nat) :
  reachable w →
  (∀ k, k ∈ init ↔ k ∈ init') →
  (∀ k1 k2, k1 ∈ init → k2 ∈ init → isKeyEqual k1 k2 = true → k1 = k2) →
  (size (nodes w) + length init ≤ max_nodes)%nat →
  (size (nodes w) + length init' ≤ max_nodes)%nat →
  (length init < fuel)%nat → (length init' < fuel)%nat →
  ∃ s w1 t1 s' w2 t2,
    Set_ctor_range fuel init w = Ok s w1 ∧ holds w1 s t1
    ∧ Set_ctor_range fuel init' w = Ok s' w2 ∧ holds w2 s' t2
    ∧ keys t1 = keys t2
    ∧ ∀ k, k ∈ keys t1 ↔ k ∈ init.
Proof.
  intros Hreach Hsame Hdistinct Hroom Hroom' Hfuel Hfuel'.
  pose proof (reachable_world_inv _ Hreach) as Hinv.
  destruct (Set_ctor_range_spec w init fuel Hinv Hroom Hfuel)
    as (s & w1 & t1 & Hrun1 & _ & Hholds1 & Hbst1 & Hsub1 & Hhas1 & _).
  destruct (Set_ctor_range_spec w init' fuel Hinv Hroom' Hfuel')
    as (s' & w2 & t2 & Hrun2 & _ & Hholds2 & Hbst2 & Hsub2 & Hhas2 & _).
  assert (Hmem1 : ∀ k, k ∈ keys t1 ↔ k ∈ init).
  { intros k. split; [apply Hsub1 |]. intros Hk.
    destruct (Hhas1 k Hk) as (k0 & Hk0 & Heq).
    by rewrite <- (Hdistinct k0 k (Hsub1 k0 Hk0) Hk Heq). }
  assert (Hmem2 : ∀ k, k ∈ keys t2 ↔ k ∈ init').
  { intros k. split; [apply Hsub2 |]. intros Hk.
    destruct (Hhas2 k Hk) as (k0 & Hk0 & Heq).
    assert (Hk0' : k0 ∈ init) by (by apply Hsame, Hsub2).
    assert (Hk' : k ∈ init) by (by apply Hsame).
    by rewrite <- (Hdistinct k0 k Hk0' Hk' Heq). }
  exists s, w1, t1, s', w2, t2.
  split; [done |]. split; [done |]. split; [done |]. split; [done |].
  split; [| done].
  apply sorted_same_members; [by apply bst_sorted | by apply bst_sorted |].
  intros k. by rewrite Hmem1, Hmem2.
Qed.

(** X22: assigning a set to itself changes nothing; assigning another set
    frees the nodes the target held (unless the copy takes their addresses
    again), leaves the target with the keys of the source, and changes the
    number of allocated nodes by the difference of the two sizes. *)
Theorem X22_assignment_replaces_the_contents w this other t0 t (fuel : nat) w' :
  reachable w → holds w this t0 → holds w other t → this ≠ other →
  Set_assign fuel this other w = Ok tt w' →
  Set_assign fuel this this w = Ok tt w
  ∧ ∃ t', holds w' this t'
      ∧ keys t' = keys t
      ∧ (∀ x, x ∈ locs t0 → x ∉ locs t' → nodes w' !! x = None)
      ∧ Z.of_nat (size (nodes w'))
        = Z.of_nat (size (nodes w)) - tsize t0 + tsize t.
Proof.
  intros Hreach Hthis Hother Hne Hrun.
  pose proof (reachable_world_inv _ Hreach) as Hinv.
  split; [apply Set_assign_self |].
  destruct (Set_assign_inv _ _ _ _ _ _ Hinv Hother Hne Hrun)
    as (_ & _ & _ & t0' & t' & Hthis0 & Hthis' & Hsh & _).
  destruct (Set_assign_nodes _ _ _ _ _ _ Hinv Hother Hne Hrun)
    as (t0'' & t'' & Hthis0' & Hthis'' & Hnew & Hold).
  rewrite <- (holds_unique _ _ _ _ Hthis Hthis0') in *.
  rewrite <- (holds_unique _ _ _ _ Hthis' Hthis'') in *.
  clear t0' t0'' t'' Hthis0 Hthis0' Hthis''.
  exists t'. split; [done |]. split; [by apply same_shape_keys |]. split.
  { intros x Hx0 Hx'. rewrite Hold by done. by rewrite decide_True. }
  pose proof Hthis as (_ & Hrep0 & Hnd0). pose proof Hthis' as (_ & Hrep' & Hnd').
  rewrite (size_replace_tree (nodes w) (nodes w') (locs t0) (locs t')); try done.
  - rewrite <- !tsize_length. by rewrite (same_shape_tsize _ _ Hsh).
  - intros x Hx. by eapply rep_dom.
  - intros x Hx. by eapply rep_dom.
Qed.

(** X23: [insert] of a key with no stored equivalent allocates exactly one
    node, at an address that was free, and [erase] of a key with a stored
    equivalent frees exactly one node, the one that held it; all other
    nodes stay allocated. *)
Theorem X23_one_node_per_element w s t key (fuel : nat) w' :
  reachable w → holds w s t →
  (Set_insert fuel s key w = Ok tt w' → ¬ has_key key (keys t) →
   ∃ new, nodes w !! new = None
          ∧ dom (nodes w') = {[new]} ∪ dom (nodes w)
          ∧ size (nodes w') = S (size (nodes w))
          ∧ iterator_deref (mkIterator (Some new) (Some s)) w' = Ok key w')
  ∧ (Set_erase fuel s key w = Ok tt w' → has_key key (keys t) →
     ∃ a k, (a, k) ∈ elems t ∧ isKeyEqual k key = true
            ∧ nodes w' !! a = None
            ∧ dom (nodes w') = dom (nodes w) ∖ {[a]}
            ∧ S (size (nodes w')) = size (nodes w)).
Proof.
  intros Hreach Hholds.
  destruct (reachable_holds _ _ _ Hreach Hholds) as (Hinv & Hbst & Havl).
  pose proof (tree_find_has_key key t Hbst) as Hiff.
  split; intros Hrun Hkey.
  - destruct (Set_insert_inv w s t key fuel w' Hholds Havl
                (world_inv_capacity _ Hinv) Hrun)
      as (_ & h' & Hw' & Hrep' & Hnd' & _ & Hdom).
    set (new := fresh (dom (nodes w))) in *.
    assert (Hf : tree_find key t = None).
    { destruct (tree_find key t) eqn:Hf; [| done]. exfalso. apply Hkey, Hiff.
      congruence. }
    rewrite Hf in Hdom.
    pose proof (is_fresh (dom (nodes w))) as Hfresh. fold new in Hfresh.
    exists new. split; [by apply not_elem_of_dom |].
    rewrite Hw'. cbn [nodes]. split; [done |]. split.
    { rewrite <- !size_dom, Hdom, size_union, size_singleton by set_solver. lia. }
    rewrite <- Hw'.
    apply (iterator_deref_spec w' s (tree_insert new key t)).
    + rewrite Hw'. split; [cbn; by rewrite lookup_insert_eq |]. by split.
    + destruct (tree_insert_elems new key t Hf) as (es1 & es2 & _ & -> & _).
      apply elem_of_app. right. by left.
  - destruct (Set_erase_inv w s t key fuel w' Hholds Havl
                (world_inv_capacity _ Hinv) Hrun)
      as (h' & Hw' & Hrep' & Hnd' & _ & Hdom).
    apply Hiff in Hkey.
    destruct (tree_find key t) as [a |] eqn:Hf; [| done].
    destruct (tree_find_elem key t a Hf) as (k & Hin & Heq).
    exists a, k. split; [done |]. split; [done |].
    rewrite Hw'. cbn [nodes].
    split; [apply not_elem_of_dom; rewrite Hdom; set_solver |].
    split; [done |].
    assert (Ha : a ∈ dom (nodes w)).
    { destruct Hholds as (_ & Hrep & _). apply elem_of_dom.
      apply (rep_dom _ _ _ _ Hrep). rewrite locs_elems.
      by apply (list_elem_of_fmap_2 fst _ (a, k)). }
    rewrite <- !size_dom, Hdom.
    rewrite size_difference by set_solver. rewrite size_singleton.
    assert (Hpos : (size (dom (nodes w)) ≠ 0)%nat).
    { intros Hz. apply size_empty_inv in Hz. set_solver. }
    lia.
Qed.

(** X24: a scan that starts at [lower_bound(key)] and steps with [++] up to
    [end()] visits exactly the stored keys not below [key], in increasing
    order: the keys below [key] are the ones before the cursor. *)
Theorem X24_scan_from_lower_bound w s t key (fuel : nat) :
  reachable w → holds w s t →
  tsize t + theight t + 1 < Z.of_nat fuel →
  ∃ it ks1 ks2,
    Set_lower_bound fuel s key w = Ok it w
    ∧ forward_from fuel s it w = Ok ks2 w
    ∧ keys t = ks1 ++ ks2
    ∧ Forall (λ k, less k key = true) ks1
    ∧ Forall (λ k, less k key = false) ks2.
Proof.
  intros Hreach Hholds Hfuel.
  destruct (reachable_holds _ _ _ Hreach Hholds) as (_ & Hbst & _).
  pose proof (tsize_nonneg t) as Hsz. pose proof (theight_nonneg t) as Hh.
  destruct (tree_lowerBound_split key t Hbst)
    as (es1 & es2 & Hel & Hlb & Hlow & Hhigh).
  exists (mkIterator (tree_lowerBound key t) (Some s)), es1.*2, es2.*2.
  split; [apply Set_lower_bound_spec; [done | lia] |]. split.
  { rewrite Hlb. apply (forward_from_spec w s t Hholds es2 es1); [done |].
    assert (Hlen : Z.of_nat (length es2) ≤ tsize t).
    { rewrite <- keys_tsize, keys_elems, Hel, length_fmap, length_app. lia. }
    lia. }
  split; [by rewrite keys_elems, Hel, fmap_app |].
  split; by apply Forall_fmap.
Qed.

End Further.

(** * The worked example

    The properties above, applied to the set holding 1 to 7. *)

#[local] Existing Instance small_machine.

Lemma example_reachable : reachable example_world.
Proof.
  apply (reach_ctor_range (mkWorld ∅ ∅) 8 [1; 2; 3; 4; 5; 6; 7] example_set).
  - apply reach_init.
  - vm_compute. reflexivity.
Qed.

Lemma example_holds : holds example_world example_set example_tree.
Proof.
  split; [vm_compute; reflexivity |]. split.
  - cbn [rep example_tree]. repeat split; vm_compute; reflexivity.
  - apply NoDup_ListNoDup. vm_compute. repeat constructor; cbn; lia.
Qed.

Lemma example_laid_out : laid_out (nodes example_world) example_tree.
Proof.
  destruct example_holds as (_ & Hrep & _). exact (rep_laid_out _ _ _ Hrep).
Qed.

Lemma example_has_key_4 : has_key 4 (keys example_tree).
Proof.
  exists 4. split; [| reflexivity]. apply list_elem_of_In. cbn. tauto.
Qed.

Lemma example_has_key_3 : has_key 3 (keys example_tree).
Proof.
  exists 3. split; [| reflexivity]. apply list_elem_of_In. cbn. tauto.
Qed.

Lemma example_no_key_9 : ¬ has_key 9 (keys example_tree).
Proof.
  intros (k & Hin & Heq). apply list_elem_of_In in Hin. cbn in Hin.
  repeat (destruct Hin as [<- | Hin]; [vm_compute in Heq; discriminate |]).
  exact Hin.
Qed.

Lemma example_room : (size (nodes example_world) < max_nodes)%nat.
Proof. vm_compute. lia. Qed.

Lemma C1_witness :
  reachable example_world
  ∧ sets example_world !! example_set = Some (Some 4%positive)
  ∧ ∃ t, holds example_world example_set t ∧ root_of t = Some 4%positive
         ∧ bst t ∧ avl t ∧ structural_parents (nodes example_world) t
         ∧ ∀ t', root_of t' = Some 4%positive →
                 laid_out (nodes example_world) t' → t' = t.
Proof.
  split; [exact example_reachable |]. split; [vm_compute; reflexivity |].
  apply (C1_invariants_after_every_operation example_world example_set).
  - exact example_reachable.
  - vm_compute. reflexivity.
Defined.

Lemma C2_witness :
  reachable example_world
  ∧ holds example_world example_set example_tree
  ∧ ∃ n0 : nat, ∀ fuel : nat, (n0 ≤ fuel)%nat →
      Set_size example_set example_world = Ok 7 example_world
      ∧ Set_insert fuel example_set 4 example_world = Ok tt example_world
      ∧ ∃ w' t' ks1 ks2,
          Set_insert fuel example_set 9 example_world = Ok tt w'
          ∧ holds w' example_set t'
          ∧ [1; 2; 3; 4; 5; 6; 7] = ks1 ++ ks2 ∧ keys t' = ks1 ++ 9 :: ks2
          ∧ Set_size example_set w' = Ok 8 w'
          ∧ Set_insert fuel example_set 9 w' = Ok tt w'.
Proof.
  split; [exact example_reachable |]. split; [exact example_holds |].
  destruct (C2_insert example_world example_set example_tree 4
              example_reachable example_holds) as [n4 H4].
  destruct (C2_insert example_world example_set example_tree 9
              example_reachable example_holds) as [n9 H9].
  exists (n4 `max` n9)%nat. intros fuel Hfuel.
  destruct (H4 fuel ltac:(lia)) as (Hsize & Hpresent & _).
  destruct (H9 fuel ltac:(lia)) as (_ & _ & _ & Habsent).
  split; [exact Hsize |]. split; [exact (Hpresent example_has_key_4) |].
  exact (Habsent example_no_key_9 example_room).
Defined.

Lemma C3_witness :
  reachable example_world
  ∧ holds example_world example_set example_tree
  ∧ ∃ n0 : nat, ∀ fuel : nat, (n0 ≤ fuel)%nat →
      Set_erase fuel example_set 9 example_world = Ok tt example_world
      ∧ ∃ w' t',
          Set_erase fuel example_set 3 example_world = Ok tt w'
          ∧ holds w' example_set t'
          ∧ Set_find fuel example_set 3 w'
            = Ok (mkIterator None (Some example_set)) w'
          ∧ ∃ ks1 k ks2,
              [1; 2; 3; 4; 5; 6; 7] = ks1 ++ k :: ks2
              ∧ isKeyEqual k 3 = true
              ∧ keys t' = ks1 ++ ks2
              ∧ Set_size example_set w' = Ok 6 w'.
Proof.
  split; [exact example_reachable |]. split; [exact example_holds |].
  destruct (C3_erase example_world example_set example_tree 9
              example_reachable example_holds) as [n9 H9].
  destruct (C3_erase example_world example_set example_tree 3
              example_reachable example_holds) as [n3 H3].
  exists (n9 `max` n3)%nat. intros fuel Hfuel.
  destruct (H9 fuel ltac:(lia)) as (w9 & t9 & Hrun9 & _ & _ & _ & Hsame & _).
  destruct (H3 fuel ltac:(lia)) as (w' & t' & Hrun & Hholds & Hfind & _ & _ & Hgone).
  split.
  - rewrite Hrun9. f_equal. exact (Hsame example_no_key_9).
  - exists w', t'. split; [exact Hrun |]. split; [exact Hholds |].
    split; [exact Hfind |].
    destruct (Hgone example_has_key_3) as (ks1 & k & ks2 & Hk & Heq & Hk' & _ & Hsize).
    exists ks1, k, ks2. split; [exact Hk |]. split; [exact Heq |].
    split; [exact Hk' | exact Hsize].
Defined.

Lemma C4_witness :
  reachable example_world
  ∧ holds example_world example_set example_tree
  ∧ ∃ n0 : nat, ∀ fuel : nat, (n0 ≤ fuel)%nat →
      ∃ c : ptr,
        Set_lower_bound fuel example_set 8 example_world
        = Ok (mkIterator c (Some example_set)) example_world
        ∧ Set_end example_set example_world
          = Ok (mkIterator None (Some example_set)) example_world
        ∧ (c = None ↔ ∀ k, k ∈ keys example_tree → less k 8 = true)
        ∧ ∀ b, c = Some b →
            ∃ kc, iterator_deref (mkIterator c (Some example_set)) example_world
                  = Ok kc example_world
                  ∧ kc ∈ keys example_tree
                  ∧ less kc 8 = false
                  ∧ ∀ k, k ∈ keys example_tree → less k 8 = false →
                         less k kc = false.
Proof.
  split; [exact example_reachable |]. split; [exact example_holds |].
  exact (C4_lower_bound example_world example_set example_tree 8
           example_reachable example_holds).
Defined.

Lemma C5_witness :
  reachable example_world
  ∧ holds example_world example_set example_tree
  ∧ ∃ n0 : nat, ∀ fuel : nat, (n0 ≤ fuel)%nat →
      traverse_forward fuel example_set example_world
      = Ok [1; 2; 3; 4; 5; 6; 7] example_world
      ∧ StronglySorted (λ x y : Z, less x y = true) [1; 2; 3; 4; 5; 6; 7]
      ∧ traverse_backward fuel example_set example_world
        = Ok [7; 6; 5; 4; 3; 2; 1] example_world.
Proof.
  split; [exact example_reachable |]. split; [exact example_holds |].
  exact (C5_traversal_is_sorted_and_reversible example_world example_set
           example_tree example_reachable example_holds).
Defined.

Lemma C6_witness :
  reachable example_world
  ∧ sets example_world !! example_set = Some (Some 4%positive)
  ∧ cached_fields_exact (nodes example_world) example_tree
  ∧ Set_size example_set example_world = Ok 7 example_world
  ∧ Set_empty example_set example_world = Ok false example_world
  ∧ ∃ n0 : nat, ∀ fuel : nat, (n0 ≤ fuel)%nat →
      traverse_forward fuel example_set example_world
      = Ok [1; 2; 3; 4; 5; 6; 7] example_world.
Proof.
  split; [exact example_reachable |]. split; [vm_compute; reflexivity |].
  destruct (C6_size_and_cached_fields example_world example_set
              (Some 4%positive) example_reachable ltac:(vm_compute; reflexivity))
    as (Hcached & t & n0 & Hholds & _ & Hsize & Hempty & Hwalk).
  rewrite (holds_unique _ _ _ _ Hholds example_holds) in Hsize, Hempty, Hwalk.
  split; [exact (Hcached example_tree eq_refl example_laid_out) |].
  split; [exact Hsize |]. split; [exact Hempty |].
  exists n0. exact Hwalk.
Defined.

Lemma C7_witness :
  reachable example_world
  ∧ holds example_world example_set example_tree
  ∧ ∃ n0 : nat, ∀ fuel : nat, (n0 ≤ fuel)%nat →
      ∃ b w' tb,
        Set_ctor_copy fuel example_set example_world = Ok b w'
        ∧ b ≠ example_set
        ∧ holds w' example_set example_tree
        ∧ holds w' b tb
        ∧ keys tb = [1; 2; 3; 4; 5; 6; 7]
        ∧ ∀ w'', Set_erase fuel b 3 w' = Ok tt w'' →
            holds w'' example_set example_tree.
Proof.
  split; [exact example_reachable |]. split; [exact example_holds |].
  destruct (C7_copies_are_independent example_world example_set example_tree
              example_reachable example_holds) as (Hcopy & _ & Hexists).
  destruct (Hexists ltac:(vm_compute; discriminate)) as [n0 Hn0].
  exists n0. intros fuel Hfuel.
  destruct (Hn0 fuel Hfuel) as ((b & w' & Hrun) & _).
  destruct (Hcopy fuel b w' Hrun) as (Hne & Ha & tb & Hb & _ & Hkeys & _ & Hmut).
  exists b, w', tb. split; [exact Hrun |]. split; [exact Hne |].
  split; [exact Ha |]. split; [exact Hb |]. split; [exact Hkeys |].
  intros w'' Herase.
  destruct (Hmut fuel 3 w'') as (Hfrom_b & _).
  exact (proj1 (Hfrom_b (or_intror Herase))).
Defined.

Lemma C8_witness :
  reachable example_world
  ∧ sets example_world !! example_set = Some (Some 4%positive)
  ∧ getBalance (Some 4%positive) (nodes example_world)
    = Ok 0 (nodes example_world)
  ∧ getBalance (Some 7%positive) (nodes example_world)
    = Ok 0 (nodes example_world).
Proof.
  split; [exact example_reachable |]. split; [vm_compute; reflexivity |].
  destruct (C8_getBalance_is_signed_difference example_world example_set
              (Some 4%positive) example_reachable ltac:(vm_compute; reflexivity))
    as (t & Hholds & Hbalance).
  rewrite (holds_unique _ _ _ _ Hholds example_holds) in Hbalance.
  split.
  - exact (Hbalance _ 4%positive 4 _ (subtree_refl example_tree)).
  - apply (Hbalance Leaf 7%positive 7 Leaf).
    do 2 apply subtree_right. apply subtree_refl.
Defined.

Lemma C9_witness :
  reachable example_world
  ∧ sets example_world !! example_set = Some (Some 4%positive)
  ∧ ∀ fuel : nat,
      Set_insert fuel example_set 9 example_world ≠ Fault
      ∧ Set_erase fuel example_set 9 example_world ≠ Fault
      ∧ Set_find fuel example_set 9 example_world ≠ Fault
      ∧ Set_lower_bound fuel example_set 9 example_world ≠ Fault
      ∧ Set_begin fuel example_set example_world ≠ Fault
      ∧ Set_size example_set example_world ≠ Fault
      ∧ Set_empty example_set example_world ≠ Fault
      ∧ Set_end example_set example_world ≠ Fault.
Proof.
  split; [exact example_reachable |]. split; [vm_compute; reflexivity |].
  apply (C9_no_absent_node_is_dereferenced example_world example_set
           (Some 4%positive) 9).
  - exact example_reachable.
  - vm_compute. reflexivity.
Defined.

Lemma C10_witness :
  reachable example_world
  ∧ sets example_world !! example_set = Some (Some 4%positive)
  ∧ read_only (Set_find 8 example_set 5)
  ∧ read_only (iterator_incr (K:=Z) 8 (mkIterator (Some 3%positive) (Some example_set)))
  ∧ ∃ n0 : nat, ∀ fuel : nat, (n0 ≤ fuel)%nat →
      (∃ it, Set_find fuel example_set 5 example_world = Ok it example_world)
      ∧ (∃ it, iterator_incr fuel (mkIterator (Some 3%positive) (Some example_set))
                 example_world = Ok it example_world)
      ∧ (∃ k, iterator_deref (mkIterator (Some 3%positive) (Some example_set))
                example_world = Ok k example_world).
Proof.
  split; [exact example_reachable |]. split; [vm_compute; reflexivity |].
  destruct (C10_queries_leave_the_world_unchanged example_world example_set
              (Some 4%positive) 5 example_reachable
              ltac:(vm_compute; reflexivity))
    as (Hframe & t & n0 & Hholds & Hreturn).
  destruct (Hframe 8%nat (mkIterator (Some 3%positive) (Some example_set)))
    as (Hfind & _ & _ & _ & _ & _ & Hincr & _).
  split; [exact Hfind |]. split; [exact Hincr |].
  exists n0. intros fuel Hfuel.
  destruct (Hreturn fuel Hfuel) as (Hfind' & _ & _ & _ & _ & _ & _ & _ & Hat).
  rewrite (holds_unique _ _ _ _ Hholds example_holds) in Hat.
  destruct (Hat 3%positive ltac:(apply list_elem_of_In; cbn; tauto))
    as (Hincr' & _ & _ & _ & Hderef).
  split; [exact Hfind' |]. split; [exact Hincr' | exact Hderef].
Defined.

(** ** The further properties on the worked example *)

Lemma example_rep : rep (nodes example_world) None example_tree.
Proof. by destruct example_holds as (_ & Hrep & _). Qed.

Lemma example_NoDup : NoDup (locs example_tree).
Proof. by destruct example_holds as (_ & _ & Hnd). Qed.

Lemma example_avl : avl example_tree.
Proof. cbn. lia. Qed.

Lemma example_height : theight example_tree < Z.of_nat 4.
Proof. by vm_compute. Qed.

Lemma example_fits : tsize example_tree < 2 ^ 64.
Proof. by vm_compute. Qed.

Lemma example_insert_9_run :
  Set_insert 8 example_set 9 example_world = Ok tt example_insert_9.
Proof. vm_compute. reflexivity. Qed.

Lemma example_erase_3_run :
  Set_erase 8 example_set 3 example_world = Ok tt example_erase_3.
Proof. vm_compute. reflexivity. Qed.

Lemma example_copy_run :
  Set_ctor_copy 8 example_set example_world
  = Ok example_copy_set example_copy_world.
Proof. vm_compute. reflexivity. Qed.

Lemma example_elem_3 : (3%positive, 3) ∈ elems example_tree.
Proof. apply list_elem_of_In. cbn. tauto. Qed.

Lemma example_loc_3 : 3%positive ∈ locs example_tree.
Proof. apply list_elem_of_In. cbn. tauto. Qed.


Lemma X2_witness :
  rep (nodes example_world) None example_tree
  ∧ NoDup (locs example_tree)
  ∧ tsize example_tree < 2 ^ 64
  ∧ ∃ h1, rotateRight (Some 4%positive) (nodes example_world)
          = Ok (Some 2%positive) h1
          ∧ rotateLeft (Some 2%positive) h1
            = Ok (Some 4%positive) (nodes example_world).
Proof.
  split; [exact example_rep |]. split; [exact example_NoDup |].
  split; [exact example_fits |].
  destruct (X2_rotateLeft_undoes_rotateRight (nodes example_world) None
              _ 2%positive 2 _ 4%positive 4 _
              example_rep example_NoDup example_fits)
    as ((h1 & h2 & Hright & _ & Hleft & _ & _ & Hsame) & _).
  exists h1. split; [exact Hright |]. rewrite <- (Hsame eq_refl). exact Hleft.
Defined.

Lemma X3_witness :
  example_tree ≠ Leaf
  ∧ rep (nodes example_world) None example_tree
  ∧ NoDup (locs example_tree) ∧ avl example_tree
  ∧ theight example_tree < Z.of_nat 4 ∧ tsize example_tree < 2 ^ 64
  ∧ (∃ h' t' m,
       eraseMax 4 (Some 4%positive) (nodes example_world) = Ok (root_of t') h'
       ∧ elems example_tree = elems t' ++ [m]
       ∧ dom h' = dom (nodes example_world))
  ∧ eraseMax 4 None (nodes example_world) = Fault.
Proof.
  split; [done |]. split; [exact example_rep |]. split; [exact example_NoDup |].
  split; [exact example_avl |]. split; [exact example_height |].
  split; [exact example_fits |].
  destruct (X3_eraseMax_unlinks_the_last_node (nodes example_world) None
              example_tree 4 ltac:(done) example_rep example_NoDup example_avl
              example_height example_fits)
    as ((h' & par' & t' & m & Hrun & _ & _ & Hel & _ & Hdom & _) & Hnull).
  split; [| exact Hnull]. exists h', t', m.
  exact (conj Hrun (conj Hel Hdom)).
Defined.

Lemma X4_witness :
  reachable example_world
  ∧ holds example_world example_set example_tree
  ∧ theight example_tree < Z.of_nat 4
  ∧ ∃ c : ptr,
      Set_find 4 example_set 5 example_world
      = Ok (mkIterator c (Some example_set)) example_world
      ∧ (c = None ↔ ¬ has_key 5 (keys example_tree)).
Proof.
  split; [exact example_reachable |]. split; [exact example_holds |].
  split; [exact example_height |].
  destruct (X4_find_decides_membership example_world example_set example_tree
              5 4 example_reachable example_holds example_height)
    as (c & Hfind & Hend & _).
  exists c. exact (conj Hfind Hend).
Defined.

Lemma X5_witness :
  reachable example_world
  ∧ holds example_world example_set example_tree
  ∧ Set_insert 8 example_set 9 example_world = Ok tt example_insert_9
  ∧ ∃ b, iterator_deref (mkIterator (Some b) (Some example_set)) example_insert_9
         = Ok 9 example_insert_9.
Proof.
  split; [exact example_reachable |]. split; [exact example_holds |].
  split; [exact example_insert_9_run |].
  destruct (X5_find_after_insert example_world example_set example_tree 9 8
              example_insert_9 example_reachable example_holds
              example_insert_9_run)
    as (t' & b & k & _ & _ & Hderef & _ & _ & Hnew).
  exists b. rewrite <- (Hnew example_no_key_9). exact Hderef.
Defined.

Lemma X6_witness :
  reachable example_world
  ∧ holds example_world example_set example_tree
  ∧ has_key 4 (keys example_tree)
  ∧ theight example_tree < Z.of_nat 4
  ∧ Set_lower_bound 4 example_set 4 example_world
    = Set_find 4 example_set 4 example_world.
Proof.
  split; [exact example_reachable |]. split; [exact example_holds |].
  split; [exact example_has_key_4 |]. split; [exact example_height |].
  destruct (X6_lower_bound_agrees_with_find example_world example_set
              example_tree 4 4 example_reachable example_holds
              example_has_key_4 example_height)
    as (b & Hfind & Hlower).
  rewrite Hfind, Hlower. reflexivity.
Defined.

Lemma X7_witness :
  reachable example_world
  ∧ holds example_world example_set example_tree
  ∧ theight example_tree < Z.of_nat 4
  ∧ ∃ c : ptr,
      Set_begin 4 example_set example_world
      = Ok (mkIterator c (Some example_set)) example_world
      ∧ (c = None ↔ keys example_tree = []).
Proof.
  split; [exact example_reachable |]. split; [exact example_holds |].
  split; [exact example_height |].
  destruct (X7_begin_is_the_least example_world example_set example_tree 4
              example_reachable example_holds example_height)
    as (c & Hbegin & Hend & _).
  exists c. exact (conj Hbegin Hend).
Defined.

Lemma X8_witness :
  reachable example_world
  ∧ holds example_world example_set example_tree
  ∧ theight example_tree < Z.of_nat 4
  ∧ ∃ c : ptr,
      iterator_decr 4 (mkIterator None (Some example_set)) example_world
      = Ok (mkIterator c (Some example_set)) example_world
      ∧ (c = None ↔ keys example_tree = []).
Proof.
  split; [exact example_reachable |]. split; [exact example_holds |].
  split; [exact example_height |].
  destruct (X8_decrementing_end_gives_the_greatest example_world example_set
              example_tree 4 example_reachable example_holds example_height)
    as (c & Hdecr & Hend & _).
  exists c. exact (conj Hdecr Hend).
Defined.

Lemma X9_witness :
  reachable example_world
  ∧ holds example_world example_set example_tree
  ∧ 3%positive ∈ locs example_tree
  ∧ theight example_tree < Z.of_nat 4
  ∧ Set_begin 4 example_set example_world
    ≠ Ok (mkIterator (Some 3%positive) (Some example_set)) example_world
  ∧ (∃ it', iterator_incr 4 (mkIterator (Some 3%positive) (Some example_set))
              example_world = Ok it' example_world
            ∧ iterator_decr 4 it' example_world
              = Ok (mkIterator (Some 3%positive) (Some example_set)) example_world)
  ∧ (∃ it', iterator_decr 4 (mkIterator (Some 3%positive) (Some example_set))
              example_world = Ok it' example_world
            ∧ iterator_incr 4 it' example_world
              = Ok (mkIterator (Some 3%positive) (Some example_set)) example_world).
Proof.
  assert (Hbegin : Set_begin 4 example_set example_world
                   ≠ Ok (mkIterator (Some 3%positive) (Some example_set))
                        example_world).
  { vm_compute. discriminate. }
  split; [exact example_reachable |]. split; [exact example_holds |].
  split; [exact example_loc_3 |]. split; [exact example_height |].
  split; [exact Hbegin |].
  destruct (X9_increment_and_decrement_are_inverse example_world example_set
              example_tree 3%positive 4 example_reachable example_holds
              example_loc_3 example_height)
    as (Hforth & Hback & _).
  split; [exact Hforth | exact (Hback Hbegin)].
Defined.

Lemma X10_witness :
  reachable example_world
  ∧ holds example_world example_set example_tree
  ∧ theight example_tree < Z.of_nat 4
  ∧ iterator_incr 4 (mkIterator None (Some example_set)) example_world = Fault
  ∧ ∃ b, Set_begin 4 example_set example_world = Ok b example_world
         ∧ iterator_decr 4 b example_world
           = Ok (mkIterator None (Some example_set)) example_world.
Proof.
  split; [exact example_reachable |]. split; [exact example_holds |].
  split; [exact example_height |].
  destruct (X10_stepping_off_the_ends example_world example_set example_tree 4
              (Some example_set) example_reachable example_holds example_height)
    as (Hincr & _ & _ & _ & Hbegin).
  exact (conj Hincr Hbegin).
Defined.

Lemma X11_witness :
  Set_end 1%positive example_world
  = Ok (mkIterator None (Some 1%positive)) example_world
  ∧ Set_end 2%positive example_world
    = Ok (mkIterator None (Some 2%positive)) example_world
  ∧ iterator_eq (mkIterator None (Some 1%positive))
                (mkIterator None (Some 2%positive)) ≠ true.
Proof.
  split; [reflexivity |]. split; [reflexivity |].
  destruct (X11_iterator_equality (mkIterator None None) (mkIterator None None)
              1%positive 2%positive example_world)
    as (_ & _ & Hends).
  intros Heq. apply (Hends _ _ eq_refl eq_refl) in Heq. discriminate Heq.
Defined.

Lemma X12_witness :
  reachable example_world
  ∧ Set_ctor example_world
    = Ok 2%positive (mkWorld (nodes example_world)
                             (<[2%positive := None]> (sets example_world)))
  ∧ Set_size 2%positive
      (mkWorld (nodes example_world) (<[2%positive := None]> (sets example_world)))
    = Ok 0 (mkWorld (nodes example_world)
                    (<[2%positive := None]> (sets example_world))).
Proof.
  assert (Hrun : Set_ctor example_world
                 = Ok 2%positive
                      (mkWorld (nodes example_world)
                               (<[2%positive := None]> (sets example_world)))).
  { vm_compute. reflexivity. }
  split; [exact example_reachable |]. split; [exact Hrun |].
  destruct (X12_a_new_set_is_empty example_world 2%positive _ 0 0
              example_reachable Hrun)
    as (_ & _ & _ & Hsize & _).
  exact Hsize.
Defined.

Lemma X13_witness :
  reachable example_world
  ∧ (size (nodes example_world) + length [3; 1; 2; 3] ≤ max_nodes)%nat
  ∧ (length [3; 1; 2; 3] < 5)%nat
  ∧ ∃ s w' t,
      Set_ctor_range 5 [3; 1; 2; 3] example_world = Ok s w'
      ∧ holds w' s t
      ∧ (length (keys t) ≤ 4)%nat
      ∧ holds w' example_set example_tree.
Proof.
  assert (Hroom : (size (nodes example_world) + length [3; 1; 2; 3]
                   ≤ max_nodes)%nat).
  { vm_compute. lia. }
  assert (Hfuel : (length [3; 1; 2; 3] < 5)%nat) by (cbn; lia).
  split; [exact example_reachable |]. split; [exact Hroom |].
  split; [exact Hfuel |].
  destruct (X13_construction_from_a_sequence example_world [3; 1; 2; 3] 5
              example_reachable Hroom Hfuel)
    as (s & w' & t & Hrun & _ & Hholds & _ & _ & _ & Hlen & Hframe).
  exists s, w', t. split; [exact Hrun |]. split; [exact Hholds |].
  split; [exact Hlen |]. exact (Hframe _ _ example_holds).
Defined.

Lemma X14_witness :
  reachable example_world
  ∧ holds example_world example_set example_tree
  ∧ theight example_tree < Z.of_nat 4
  ∧ ∃ w', Set_dtor 4 example_set example_world = Ok tt w'
          ∧ nodes w' !! 4%positive = None.
Proof.
  split; [exact example_reachable |]. split; [exact example_holds |].
  split; [exact example_height |].
  destruct (X14_destructor_frees_its_own_nodes example_world example_set
              example_tree 4 example_reachable example_holds example_height)
    as (w' & Hrun & _ & Hnodes & _).
  exists w'. split; [exact Hrun |]. rewrite Hnodes. reflexivity.
Defined.

Lemma X15_witness :
  reachable example_world
  ∧ holds example_world example_set example_tree
  ∧ Set_ctor_copy 8 example_set example_world
    = Ok example_copy_set example_copy_world
  ∧ theight example_tree < Z.of_nat 4
  ∧ Set_dtor 4 example_copy_set example_copy_world = Ok tt example_world.
Proof.
  split; [exact example_reachable |]. split; [exact example_holds |].
  split; [exact example_copy_run |]. split; [exact example_height |].
  exact (X15_destroying_a_copy_restores_the_world example_world example_set
           example_tree 8 4 example_copy_set example_copy_world
           example_reachable example_holds example_copy_run example_height).
Defined.


Lemma X17_witness :
  reachable example_world
  ∧ holds example_world example_set example_tree
  ∧ ¬ has_key 9 (keys example_tree)
  ∧ Set_insert 8 example_set 9 example_world = Ok tt example_insert_9
  ∧ theight example_tree + 1 < Z.of_nat 8
  ∧ ∃ w2 t2,
      Set_erase 8 example_set 9 example_insert_9 = Ok tt w2
      ∧ holds w2 example_set t2
      ∧ elems t2 = elems example_tree.
Proof.
  assert (Hfuel : theight example_tree + 1 < Z.of_nat 8) by (by vm_compute).
  split; [exact example_reachable |]. split; [exact example_holds |].
  split; [exact example_no_key_9 |]. split; [exact example_insert_9_run |].
  split; [exact Hfuel |].
  destruct (X17_erase_undoes_insert example_world example_set example_tree 9
              8 8 example_insert_9 example_reachable example_holds
              example_no_key_9 example_insert_9_run Hfuel)
    as (w2 & t2 & Hrun & Hholds & Hel & _).
  exists w2, t2. exact (conj Hrun (conj Hholds Hel)).
Defined.

Lemma X18_witness :
  reachable example_world
  ∧ holds example_world example_set example_tree
  ∧ (3%positive, 3) ∈ elems example_tree
  ∧ Set_insert 8 example_set 9 example_world = Ok tt example_insert_9
  ∧ Set_erase 8 example_set 3 example_world = Ok tt example_erase_3
  ∧ iterator_deref (mkIterator (Some 3%positive) (Some example_set))
      example_insert_9 = Ok 3 example_insert_9
  ∧ iterator_deref (mkIterator (Some 3%positive) (Some example_set))
      example_erase_3 = Fault.
Proof.
  split; [exact example_reachable |]. split; [exact example_holds |].
  split; [exact example_elem_3 |]. split; [exact example_insert_9_run |].
  split; [exact example_erase_3_run |].
  split.
  - exact (proj1 (X18_cursors_survive_mutation example_world example_set
                    example_tree 3%positive 3 9 8 example_insert_9
                    example_reachable example_holds example_elem_3)
             example_insert_9_run).
  - exact (proj2 (X18_cursors_survive_mutation example_world example_set
                    example_tree 3%positive 3 3 8 example_erase_3
                    example_reachable example_holds example_elem_3)
             example_erase_3_run).
Defined.

Lemma X19_witness :
  reachable example_world
  ∧ holds example_world example_set example_tree
  ∧ theight example_tree ≤ 7
  ∧ ∃ it, Set_find 8 example_set 5 example_world = Ok it example_world.
Proof.
  split; [exact example_reachable |]. split; [exact example_holds |].
  destruct (X19_height_is_logarithmic example_world example_set example_tree
              example_reachable example_holds)
    as (_ & Hheight & Hreturns).
  split; [exact Hheight |].
  exact (proj1 (Hreturns 8%nat 5 ltac:(by vm_compute))).
Defined.

Lemma X20_witness :
  rep (nodes example_world) None example_tree
  ∧ NoDup (locs example_tree) ∧ avl example_tree
  ∧ tsize example_tree < 2 ^ 64
  ∧ balance (Some 4%positive) (nodes example_world)
    = Ok (Some 4%positive) (nodes example_world).
Proof.
  split; [exact example_rep |]. split; [exact example_NoDup |].
  split; [exact example_avl |]. split; [exact example_fits |].
  exact (proj1 (X20_balance_leaves_a_balanced_tree_alone (nodes example_world)
                  example_tree example_rep example_NoDup example_avl
                  example_fits)).
Defined.

Lemma X21_witness :
  reachable example_world
  ∧ (∀ k : Z, k ∈ [1; 2; 3] ↔ k ∈ [3; 2; 1; 2])
  ∧ (size (nodes example_world) + length [1; 2; 3] ≤ max_nodes)%nat
  ∧ (size (nodes example_world) + length [3; 2; 1; 2] ≤ max_nodes)%nat
  ∧ ∃ s w1 t1 s' w2 t2,
      Set_ctor_range 5 [1; 2; 3] example_world = Ok s w1 ∧ holds w1 s t1
      ∧ Set_ctor_range 5 [3; 2; 1; 2] example_world = Ok s' w2 ∧ holds w2 s' t2
      ∧ keys t1 = keys t2.
Proof.
  assert (Hsame : ∀ k : Z, k ∈ [1; 2; 3] ↔ k ∈ [3; 2; 1; 2]).
  { intros k. rewrite !list_elem_of_In. cbn. tauto. }
  assert (Hdistinct : ∀ k1 k2 : Z, k1 ∈ [1; 2; 3] → k2 ∈ [1; 2; 3] →
                                   isKeyEqual k1 k2 = true → k1 = k2).
  { intros k1 k2 _ _ Heq. apply isKeyEqual_spec in Heq as [H1 H2].
    apply Z.ltb_ge in H1, H2. lia. }
  assert (Hroom : (size (nodes example_world) + length [1; 2; 3]
                   ≤ max_nodes)%nat) by (vm_compute; lia).
  assert (Hroom' : (size (nodes example_world) + length [3; 2; 1; 2]
                    ≤ max_nodes)%nat) by (vm_compute; lia).
  split; [exact example_reachable |]. split; [exact Hsame |].
  split; [exact Hroom |]. split; [exact Hroom' |].
  destruct (X21_construction_ignores_order example_world [1; 2; 3] [3; 2; 1; 2]
              5 example_reachable Hsame Hdistinct Hroom Hroom'
              ltac:(cbn; lia) ltac:(cbn; lia))
    as (s & w1 & t1 & s' & w2 & t2 & Hrun1 & Hholds1 & Hrun2 & Hholds2 & Hkeys & _).
  exists s, w1, t1, s', w2, t2.
  exact (conj Hrun1 (conj Hholds1 (conj Hrun2 (conj Hholds2 Hkeys)))).
Defined.

Lemma example_copy_reachable : reachable example_copy_world.
Proof.
  exact (reach_ctor_copy _ _ _ _ _ example_reachable example_copy_run).
Qed.

Lemma example_copy_holds :
  holds example_copy_world example_copy_set example_copy_tree.
Proof.
  split; [vm_compute; reflexivity |]. split.
  - cbn [rep example_copy_tree]. repeat split; vm_compute; reflexivity.
  - apply NoDup_ListNoDup. vm_compute. repeat constructor; cbn; lia.
Qed.

Lemma example_source_holds : holds example_copy_world example_set example_tree.
Proof.
  split; [vm_compute; reflexivity |]. split.
  - cbn [rep example_tree]. repeat split; vm_compute; reflexivity.
  - exact example_NoDup.
Qed.

Lemma example_assign_run :
  Set_assign 8 example_copy_set example_set example_copy_world
  = Ok tt example_assign_world.
Proof. vm_compute. reflexivity. Qed.

Lemma X22_witness :
  reachable example_copy_world
  ∧ holds example_copy_world example_copy_set example_copy_tree
  ∧ holds example_copy_world example_set example_tree
  ∧ example_copy_set ≠ example_set
  ∧ Set_assign 8 example_copy_set example_set example_copy_world
    = Ok tt example_assign_world
  ∧ ∃ t', holds example_assign_world example_copy_set t'
          ∧ keys t' = keys example_tree
          ∧ Z.of_nat (size (nodes example_assign_world))
            = Z.of_nat (size (nodes example_copy_world))
              - tsize example_copy_tree + tsize example_tree.
Proof.
  split; [exact example_copy_reachable |]. split; [exact example_copy_holds |].
  split; [exact example_source_holds |]. split; [discriminate |].
  split; [exact example_assign_run |].
  destruct (X22_assignment_replaces_the_contents example_copy_world
              example_copy_set example_set example_copy_tree example_tree 8
              example_assign_world example_copy_reachable example_copy_holds
              example_source_holds ltac:(discriminate) example_assign_run)
    as (_ & t' & Hholds & Hkeys & _ & Hsize).
  exists t'. exact (conj Hholds (conj Hkeys Hsize)).
Defined.

Lemma X23_witness :
  reachable example_world
  ∧ holds example_world example_set example_tree
  ∧ Set_insert 8 example_set 9 example_world = Ok tt example_insert_9
  ∧ ¬ has_key 9 (keys example_tree)
  ∧ Set_erase 8 example_set 3 example_world = Ok tt example_erase_3
  ∧ has_key 3 (keys example_tree)
  ∧ size (nodes example_insert_9) = S (size (nodes example_world))
  ∧ S (size (nodes example_erase_3)) = size (nodes example_world).
Proof.
  split; [exact example_reachable |]. split; [exact example_holds |].
  split; [exact example_insert_9_run |]. split; [exact example_no_key_9 |].
  split; [exact example_erase_3_run |]. split; [exact example_has_key_3 |].
  destruct (X23_one_node_per_element example_world example_set example_tree 9
              8 example_insert_9 example_reachable example_holds)
    as (Hinsert & _).
  destruct (X23_one_node_per_element example_world example_set example_tree 3
              8 example_erase_3 example_reachable example_holds)
    as (_ & Herase).
  destruct (Hinsert example_insert_9_run example_no_key_9)
    as (new & _ & _ & Hgrow & _).
  destruct (Herase example_erase_3_run example_has_key_3)
    as (a & k & _ & _ & _ & _ & Hshrink).
  exact (conj Hgrow Hshrink).
Defined.

Lemma X24_witness :
  reachable example_world
  ∧ holds example_world example_set example_tree
  ∧ tsize example_tree + theight example_tree + 1 < Z.of_nat 12
  ∧ ∃ it ks1 ks2,
      Set_lower_bound 12 example_set 4 example_world = Ok it example_world
      ∧ forward_from 12 example_set it example_world = Ok ks2 example_world
      ∧ keys example_tree = ks1 ++ ks2.
Proof.
  assert (Hfuel : tsize example_tree + theight example_tree + 1 < Z.of_nat 12).
  { vm_compute. reflexivity. }
  split; [exact example_reachable |]. split; [exact example_holds |].
  split; [exact Hfuel |].
  destruct (X24_scan_from_lower_bound example_world example_set example_tree 4
              12 example_reachable example_holds Hfuel)
    as (it & ks1 & ks2 & Hlb & Hscan & Hkeys & _).
  exists it, ks1, ks2. exact (conj Hlb (conj Hscan Hkeys)).
Defined.

